(** * The retrieval core of notionSchedule: [src/lib/rag.ts]

    A shallow embedding of the [RAGSystem] class: chunking, embedding
    bookkeeping, cosine similarity, the date-aware search, result formatting
    and the snapshot save/load, followed by the properties proved about them.

    Conventions of the embedding.
    - A JavaScript string is the list of its UTF-16 code units ([jsstring]);
      [length] and [substring] therefore count code units, as the source does.
    - A JavaScript [number] holding a score or a vector component is a
      binary64 value: Rocq's primitive [float], whose operations are the
      IEEE 754 ones.  Indices, lengths and counters are integers.
    - A [Date] is its time value, the number of milliseconds since the epoch.
    - What the class gets from its environment (the time zone, the clock, the
      embedding service, the file in the temporary directory) is passed in
      explicitly or collected in the [Host] class. *)

From Stdlib Require Import String.
From Stdlib Require Import ZArith List Lia Bool Floats Reals Lra Psatz Sorted.
From stdpp Require Import gmap list.
Import ListNotations.
Set Warnings "-inexact-float".
Local Open Scope Z_scope.

(* ================================================================= *)
(** ** Strings *)

Definition jsstring := list Z.

(** Literals are written as ordinary string literals (UTF-8 in this file) and
    decoded to UTF-16 code units. *)
Fixpoint utf16 (bs : list Z) : jsstring :=
  match bs with
  | [] => []
  | b0 :: r0 =>
    if b0 <? 128 then b0 :: utf16 r0
    else match r0 with
    | [] => [b0]
    | b1 :: r1 =>
      if b0 <? 224 then ((b0 - 192) * 64 + (b1 - 128)) :: utf16 r1
      else match r1 with
      | [] => [b0]
      | b2 :: r2 =>
        if b0 <? 240
        then ((b0 - 224) * 4096 + (b1 - 128) * 64 + (b2 - 128)) :: utf16 r2
        else match r2 with
        | [] => [b0]
        | b3 :: r3 =>
          let cp := (b0 - 240) * 262144 + (b1 - 128) * 4096
                    + (b2 - 128) * 64 + (b3 - 128) - 65536 in
          (55296 + cp / 1024) :: (56320 + cp mod 1024) :: utf16 r3
        end
      end
    end
  end.

Definition js (s : String.string) : jsstring :=
  utf16 (map (fun b => Z.of_N (Byte.to_N b)) (String.list_byte_of_string s)).
Arguments js _%_string.

(** [s.substring(i, j)] for [0 <= i <= j]. *)
Definition substring (s : jsstring) (i j : nat) : jsstring :=
  firstn (j - i) (skipn i s).

Fixpoint startsWith (p s : jsstring) : bool :=
  match p, s with
  | [], _ => true
  | c :: p', d :: s' => (c =? d) && startsWith p' s'
  | _ :: _, [] => false
  end.

(** [s.includes(p)]; also the meaning of [/p/.test(s)] for a literal [p]. *)
Fixpoint includes (s p : jsstring) : bool :=
  startsWith p s ||
  match s with
  | [] => false
  | _ :: s' => includes s' p
  end.

(** [toLowerCase] restricted to the ASCII letters.  It is only used in front
    of [includes('date')], and no character outside ASCII lowers to one of the
    letters d, a, t, e. *)
Definition toLowerCase (s : jsstring) : jsstring :=
  map (fun c => if (65 <=? c) && (c <=? 90) then c + 32 else c) s.

Definition isDigit (c : Z) : bool := (48 <=? c) && (c <=? 57).

(** The class [\s] of a JavaScript regular expression. *)
Definition isWhiteSpace (c : Z) : bool :=
  ((9 <=? c) && (c <=? 13)) || (c =? 32) || (c =? 160) || (c =? 5760)
  || ((8192 <=? c) && (c <=? 8202)) || (c =? 8232) || (c =? 8233)
  || (c =? 8239) || (c =? 8287) || (c =? 12288) || (c =? 65279).

(** Decimal rendering of a non-negative integer, as [`${n}`] gives it. *)
Fixpoint decimalAux (fuel : nat) (n : Z) (acc : jsstring) : jsstring :=
  match fuel with
  | O => acc
  | S fuel' =>
    let acc' := (48 + n mod 10) :: acc in
    if n <? 10 then acc' else decimalAux fuel' (n / 10) acc'
  end.

Definition decimal (n : Z) : jsstring :=
  decimalAux (S (Z.to_nat (Z.log2 n))) n [].

(** [parseInt] of a string of decimal digits. *)
Definition parseInt (ds : jsstring) : Z :=
  fold_left (fun acc c => 10 * acc + (c - 48)) ds 0.

(** Truthiness of an optional string: [undefined] and [''] are falsy. *)
Definition truthy (o : option jsstring) : bool :=
  match o with
  | Some (_ :: _) => true
  | _ => false
  end.

(** [o || d] for an optional string. *)
Definition orElse (o : option jsstring) (d : jsstring) : jsstring :=
  match o with
  | Some (c :: s) => c :: s
  | _ => d
  end.

(* ================================================================= *)
(** ** Numbers *)

(** The arithmetic [cosineSimilarity] uses.  The code runs at [float]; the
    instance at [R] reads the same text in exact arithmetic. *)
Class Arith (T : Type) := {
  n_zero : T;
  n_add : T -> T -> T;
  n_mul : T -> T -> T;
  n_div : T -> T -> T;
  n_sqrt : T -> T
}.

#[export] Instance float_Arith : Arith float := {|
  n_zero := 0%float;
  n_add := PrimFloat.add;
  n_mul := PrimFloat.mul;
  n_div := PrimFloat.div;
  n_sqrt := PrimFloat.sqrt
|}.

#[export] Instance R_Arith : Arith R := {|
  n_zero := 0%R;
  n_add := Rplus;
  n_mul := Rmult;
  n_div := Rdiv;
  n_sqrt := R_sqrt.sqrt
|}.

Definition isNaN (x : float) : bool := PrimFloat.is_nan x.


(** A specification-level value that is finite or infinite with sign [s]. *)
Definition hasSign (s : bool) (x : spec_float) : Prop :=
  match x with
  | S754_finite s' _ _ | S754_infinity s' => s' = s
  | _ => False
  end.

(** The signed mantissa of a finite number at the exponent [ez]. *)
Definition aligned (s : bool) (m : positive) (e ez : Z) : Z :=
  cond_Zopp s (Zpos (fst (shl_align m e ez))).

(** The place of a number in the order of binary64 values, as an integer:
    a finite number counted in units of the smallest positive number, the
    infinities beyond every finite number. *)
Definition ordZ (x : spec_float) : Z :=
  match x with
  | S754_zero _ => 0
  | S754_finite s m e => cond_Zopp s (Zpos m * 2 ^ (e - SpecFloat.emin prec emax))
  | S754_infinity s => cond_Zopp s (2 ^ (emax - SpecFloat.emin prec emax))
  | S754_nan => 0
  end.

(** [x >= y] on numbers (false as soon as one side is NaN). *)
Definition geb (x y : float) : bool := (y <=? x)%float.

(** What [JSON.parse(JSON.stringify(x))] makes of a number inside an array:
    a finite value is read back unchanged, except that [-0] is written as
    [0]; NaN and the infinities are written as [null], which every
    arithmetic use in this class reads as [+0]. *)
Definition jsonNumber (x : float) : float :=
  if PrimFloat.is_finite x
  then (if PrimFloat.is_zero x then 0%float else x)
  else 0%float.

(** The exact value of a finite number times [10^f], rounded to the nearest
    integer, ties going up: the [n] of [Number.prototype.toFixed]. *)
Definition scaledRound (m : positive) (e : Z) (f : nat) : Z :=
  let v := Zpos m * 10 ^ Z.of_nat f in
  if 0 <=? e then v * 2 ^ e
  else (2 * v + 2 ^ (- e)) / 2 ^ (- e + 1).

(** Whether [m * 2^e >= 10^21]. *)
Definition atLeast1e21 (m : positive) (e : Z) : bool :=
  if 0 <=? e then 10 ^ 21 <=? Zpos m * 2 ^ e
  else 10 ^ 21 * 2 ^ (- e) <=? Zpos m.

(** The digits of [n] with the decimal point before the last [f] of them,
    padded with zeros on the left up to [f + 1] digits. *)
Definition fixedDigits (n : Z) (f : nat) : jsstring :=
  let m := decimal n in
  let m := repeat 48 (S f - length m) ++ m in
  let k := length m in
  match f with
  | O => m
  | _ => firstn (k - f) m ++ js "." ++ skipn (k - f) m
  end.

(* ================================================================= *)
(** ** Dates *)

(** A [Date] object is represented by its time value in milliseconds.  The
    calendar functions follow the ECMAScript definitions of [MakeDay],
    [YearFromTime] and local time, for a fixed time zone offset. *)
Definition Date := Z.

Definition msPerDay : Z := 86400000.

Definition DayFromYear (y : Z) : Z :=
  365 * (y - 1970) + (y - 1969) / 4 - (y - 1901) / 100 + (y - 1601) / 400.

Definition isLeapYear (y : Z) : bool :=
  ((y mod 4 =? 0) && negb (y mod 100 =? 0)) || (y mod 400 =? 0).

(** Days of the year before month [m] (0-based). *)
Definition daysBeforeMonth (leap : bool) (m : Z) : Z :=
  nth (Z.to_nat m) [0; 31; 59; 90; 120; 151; 181; 212; 243; 273; 304; 334] 0
  + (if leap && (2 <=? m) then 1 else 0).

Definition MakeDay (year month date : Z) : Z :=
  let ym := year + month / 12 in
  let mn := month mod 12 in
  DayFromYear ym + daysBeforeMonth (isLeapYear ym) mn + date - 1.

(** The year of a day number (days since the epoch, proleptic Gregorian). *)
Definition YearFromDay (day : Z) : Z :=
  let z := day + 719468 in
  let era := z / 146097 in
  let doe := z - era * 146097 in
  let yoe := (doe - doe / 1460 + doe / 36524 - doe / 146096) / 365 in
  let doy := doe - (365 * yoe + yoe / 4 - yoe / 100) in
  let mp := (5 * doy + 2) / 153 in
  if mp <? 10 then yoe + era * 400 else yoe + era * 400 + 1.

(* ================================================================= *)
(** ** The data model *)

(** A value of a [Record<string, any>]. *)
Inductive JSValue :=
| VString (s : jsstring)
| VNumber (x : float)
| VBoolean (b : bool)
| VNull.

(** An object used as a string-keyed map, in the order [Object.entries]
    lists it. *)
Definition Properties := list (jsstring * JSValue).

(** [obj[k] = v]: an existing key keeps its place. *)
Fixpoint setProperty (k : jsstring) (v : JSValue) (obj : Properties) : Properties :=
  match obj with
  | [] => [(k, v)]
  | (k', v') :: obj' =>
    if decide (k = k') then (k, v) :: obj' else (k', v') :: setProperty k v obj'
  end.

Record ChunkMetadata := {
  title : jsstring;
  pageId : jsstring;
  lastModified : jsstring;
  url : option jsstring;
  properties : option Properties;
  chunkIndex : option Z;
  totalChunks : option Z
}.

Record DocumentChunk := {
  id : jsstring;
  content : jsstring;
  metadata : ChunkMetadata;
  embedding : option (list float)
}.

Record SearchResult := {
  chunk : DocumentChunk;
  score : float
}.

(** The fields of a [RAGSystem] instance; [openai] records whether the client
    has been initialised. *)
Record RAGSystem := {
  chunks : list DocumentChunk;
  embeddings : gmap jsstring (list float);
  openai : bool
}.

Definition newRAGSystem : RAGSystem :=
  {| chunks := []; embeddings := ∅; openai := false |}.

(** The part of a page object that the class reads. *)
Record NotionDate := {
  start : option jsstring;
  end_ : option jsstring
}.

Record NotionProperty := {
  type : jsstring;
  date : option NotionDate
}.

Record NotionPage := {
  page_id : option jsstring;
  page_url : option jsstring;
  last_edited_time : option jsstring;
  page_content : option jsstring;
  metadata_properties : option Properties;
  page_properties : option (list (jsstring * NotionProperty))
}.

(** What the class takes from its environment. *)
Class Host := {
  (** offset of local time from UTC, in milliseconds *)
  LocalTZA : Z;
  (** [new Date(s).getTime()], [None] for an invalid date *)
  DateParse : jsstring -> option Date;
  (** [Number::toString], used by [toFixed] from 1e21 on *)
  NumberToString : float -> jsstring;
  (** the text composed from the typed properties and time stamps of a page
      that carries no [content] *)
  composeText : NotionPage -> jsstring;
  (** [page.properties?.title?.title?.[0]?.plain_text] *)
  titleText : NotionPage -> option jsstring
}.

(** [new Date(year, month, day)], a local midnight. *)
Definition newDate `{Host} (year month day : Z) : Date :=
  let yr := if (0 <=? year) && (year <=? 99) then 1900 + year else year in
  MakeDay yr month day * msPerDay - LocalTZA.

Definition getFullYear `{Host} (d : Date) : Z :=
  YearFromDay ((d + LocalTZA) / msPerDay).

(* ================================================================= *)
(** ** Chunking *)

Definition chunkSize : nat := 1000.
Definition overlap : nat := 200.

(** [Math.ceil(a / b)] for a length [a] and a positive [b]; the quotient of
    two such integers is far from the point where binary64 division could
    round it onto an integer. *)
Definition ceilDiv (a b : nat) : Z := (Z.of_nat a + Z.of_nat b - 1) / Z.of_nat b.

(** Number of windows of the chunking loop that start inside a text of [r]
    remaining characters. *)
Definition windowCount (r : nat) : nat := ((r + 799) / 800)%nat.

(** The date-typed properties of a page, copied into the metadata. *)
Fixpoint dateProperties (ps : list (jsstring * NotionProperty)) (acc : Properties)
  : Properties :=
  match ps with
  | [] => acc
  | (key, prop) :: ps' =>
    let acc' :=
      match date prop with
      | Some d =>
        if bool_decide (type prop = js "date") && truthy (start d) then
          let acc1 := setProperty key (VString (orElse (start d) [])) acc in
          if truthy (end_ d)
          then setProperty (key ++ js "_end") (VString (orElse (end_ d) [])) acc1
          else acc1
        else acc
      | None => acc
      end in
    dateProperties ps' acc'
  end.

Definition chunkProperties (page : NotionPage) : Properties :=
  match metadata_properties page with
  | Some props => props
  | None =>
    match page_properties page with
    | Some ps => dateProperties ps []
    | None => []
    end
  end.

Definition mkChunk (title_ : jsstring) (page : NotionPage) (nowISO : jsstring)
    (index : nat) (total : Z) (text : jsstring) : DocumentChunk :=
  {| id := orElse (page_id page) (js "chunk") ++ js "-" ++ decimal (Z.of_nat index);
     content := text;
     metadata := {|
       title := title_;
       pageId := orElse (page_id page) (js "unknown");
       lastModified := orElse (last_edited_time page) nowISO;
       url := page_url page;
       properties := Some (chunkProperties page);
       chunkIndex := Some (Z.of_nat index);
       totalChunks := Some total |};
     embedding := None |}.

(** The [while (startIndex < content.length)] loop.  Each turn advances
    [startIndex] by 800, so [length text] turns are never used up. *)
Fixpoint chunkLoop (fuel : nat) (text : jsstring)
    (mk : nat -> jsstring -> DocumentChunk) (startIndex index : nat)
  : list DocumentChunk :=
  match fuel with
  | O => []
  | S fuel' =>
    if (startIndex <? length text)%nat then
      let endIndex := Nat.min (startIndex + chunkSize) (length text) in
      mk index (substring text startIndex endIndex)
      :: chunkLoop fuel' text mk (startIndex + (chunkSize - overlap))%nat (S index)
    else []
  end.

(** [nowISO] is [new Date().toISOString()] at the time of the call. *)
Definition splitIntoChunks (nowISO : jsstring) (text title_ : jsstring)
    (page : NotionPage) : list DocumentChunk :=
  if (length text <=? chunkSize)%nat then
    [mkChunk title_ page nowISO 0 1 text]
  else
    chunkLoop (length text) text
      (fun index part =>
         mkChunk title_ page nowISO index
           (ceilDiv (length text) (chunkSize - overlap)) part)
      0%nat 0%nat.

Definition extractTextContent `{Host} (page : NotionPage) : jsstring :=
  if truthy (page_content page) then orElse (page_content page) []
  else composeText page.

Definition processNotionData `{Host} (nowISO : jsstring)
    (notionData : list NotionPage) (st : RAGSystem) : RAGSystem :=
  {| chunks :=
       flat_map (fun page =>
                   splitIntoChunks nowISO (extractTextContent page)
                     (orElse (titleText page) (js "Untitled")) page)
                notionData;
     embeddings := embeddings st;
     openai := openai st |}.

Definition initializeOpenAI (st : RAGSystem) : RAGSystem :=
  {| chunks := chunks st; embeddings := embeddings st; openai := true |}.

(* ================================================================= *)
(** ** Embedding generation *)

Inductive Outcome := Returned | Threw.

Definition batchSize : nat := 100.

(** [l.slice(i, j)] for [0 <= i <= j]. *)
Definition slice {A} (l : list A) (i j : nat) : list A :=
  firstn (j - i) (skipn i l).

Definition withEmbedding (e : list float) (c : DocumentChunk) : DocumentChunk :=
  {| id := id c; content := content c; metadata := metadata c;
     embedding := Some e |}.

(** The [response.data.forEach] of one batch starting at chunk [i].  An entry
    beyond the batch makes [batch[index].id] throw. *)
Fixpoint storeBatch (batch : list DocumentChunk) (i index : nat)
    (data : list (list float)) (st : RAGSystem) : RAGSystem * Outcome :=
  match data with
  | [] => (st, Returned)
  | e :: data' =>
    match batch !! index with
    | None => (st, Threw)
    | Some b =>
      let chunkId := id b in
      storeBatch batch i (S index) data'
        {| chunks := alter (withEmbedding e) (i + index)%nat (chunks st);
           embeddings := <[chunkId := e]> (embeddings st);
           openai := openai st |}
    end
  end.

(** The [for (let i = 0; i < this.chunks.length; i += batchSize)] loop.
    [api i texts] is the answer of the embedding service to the call made for
    the batch starting at [i]: [None] when the call fails, otherwise the
    vectors of [response.data] in order. *)
Fixpoint embedLoop (fuel : nat)
    (api : nat -> list jsstring -> option (list (list float)))
    (i : nat) (st : RAGSystem) : RAGSystem * Outcome :=
  match fuel with
  | O => (st, Returned)
  | S fuel' =>
    if (i <? length (chunks st))%nat then
      let batch := slice (chunks st) i (i + batchSize) in
      let texts := map content batch in
      if negb (openai st) then (st, Threw)
      else match api i texts with
           | None => (st, Threw)
           | Some data =>
             match storeBatch batch i 0 data st with
             | (st', Returned) => embedLoop fuel' api (i + batchSize)%nat st'
             | (st', Threw) => (st', Threw)
             end
           end
    else (st, Returned)
  end.

Definition generateEmbeddings
    (api : nat -> list jsstring -> option (list (list float)))
    (st : RAGSystem) : RAGSystem * Outcome :=
  embedLoop (length (chunks st)) api 0 st.

(* ================================================================= *)
(** ** Cosine similarity *)

Section Cosine.
Context {T : Type} `{Arith T}.

(** The accumulation loop; it is entered with two arrays of one length. *)
Fixpoint cosineLoop (a b : list T) (dotProduct normA normB : T) : T * T * T :=
  match a, b with
  | x :: a', y :: b' =>
    cosineLoop a' b' (n_add dotProduct (n_mul x y))
      (n_add normA (n_mul x x)) (n_add normB (n_mul y y))
  | _, _ => (dotProduct, normA, normB)
  end.

Definition cosineSimilarity (a b : list T) : T :=
  if negb (length a =? length b)%nat then n_zero
  else
    let '(dotProduct, normA, normB) := cosineLoop a b n_zero n_zero n_zero in
    n_div dotProduct (n_mul (n_sqrt normA) (n_sqrt normB)).
End Cosine.

(** Exact sums, for the reading of [cosineSimilarity] over [R]. *)
Fixpoint sumSquares (v : list R) : R :=
  match v with
  | [] => 0%R
  | x :: v' => (x * x + sumSquares v')%R
  end.

Fixpoint dotR (a b : list R) : R :=
  match a, b with
  | x :: a', y :: b' => (x * y + dotR a' b')%R
  | _, _ => 0%R
  end.

(** A vector with at least one component different from zero. *)
Definition nonZero (v : list R) : Prop := exists x, In x v /\ x <> 0%R.

(* ================================================================= *)
(** ** Dates found in a chunk *)

(** [\d{n}]: exactly [n] digits, and the rest of the input. *)
Fixpoint digitsExact (n : nat) (s : jsstring) : option (jsstring * jsstring) :=
  match n with
  | O => Some ([], s)
  | S n' =>
    match s with
    | c :: s' =>
      if isDigit c then
        match digitsExact n' s' with
        | Some (ds, rest) => Some (c :: ds, rest)
        | None => None
        end
      else None
    | [] => None
    end
  end.

(** A greedy [[...]*]. *)
Fixpoint dropWhile (p : Z -> bool) (s : jsstring) : jsstring :=
  match s with
  | c :: s' => if p c then dropWhile p s' else s
  | [] => []
  end.

Definition isYearSep (c : Z) : bool :=
  bool_decide ([c] = js "년") || (c =? 46) || isWhiteSpace c.
Definition isMonthSep (c : Z) : bool :=
  bool_decide ([c] = js "월") || (c =? 46) || isWhiteSpace c.
Definition isDaySep (c : Z) : bool :=
  bool_decide ([c] = js "일") || (c =? 46) || isWhiteSpace c.

(** The alternatives of a bounded repetition, tried in order. *)
Definition orTry {A} (x y : option A) : option A :=
  match x with
  | Some _ => x
  | None => y
  end.

(** One match of
    [/(\d{4})[년\.\s]*(\d{1,2})[월\.\s]*(\d{1,2})[일\.\s]*/]
    at the head of [s]: the three numbers and the input left after the match.
    A [\d{1,2}] takes two digits first and falls back to one; a separator run
    is taken whole, since what follows it must start with a digit and a
    shorter run would leave a separator there. *)
Definition matchKoreanDate (s : jsstring) : option (Z * Z * Z * jsstring) :=
  match digitsExact 4 s with
  | None => None
  | Some (ys, s1) =>
    let s2 := dropWhile isYearSep s1 in
    let month (k : nat) :=
      match digitsExact k s2 with
      | None => None
      | Some (ms, s3) =>
        let s4 := dropWhile isMonthSep s3 in
        let day (j : nat) :=
          match digitsExact j s4 with
          | None => None
          | Some (ds, s5) =>
            Some (parseInt ys, parseInt ms, parseInt ds, dropWhile isDaySep s5)
          end in
        orTry (day 2%nat) (day 1%nat)
      end in
    orTry (month 2%nat) (month 1%nat)
  end.

(** One match of [/(\d{4})-(\d{2})-(\d{2})/] at the head of [s]. *)
Definition matchIsoDate (s : jsstring) : option (Z * Z * Z * jsstring) :=
  match digitsExact 4 s with
  | Some (ys, 45 :: s1) =>
    match digitsExact 2 s1 with
    | Some (ms, 45 :: s2) =>
      match digitsExact 2 s2 with
      | Some (ds, s3) => Some (parseInt ys, parseInt ms, parseInt ds, s3)
      | None => None
      end
    | _ => None
    end
  | _ => None
  end.

(** [while ((match = re.exec(s)) !== null)] for a global expression: the
    matches from left to right, each search resuming where the previous match
    ended.  [skip] counts the characters still covered by the last match. *)
Fixpoint execAll {A} (re : jsstring -> option (A * jsstring)) (s : jsstring)
    (skip : nat) : list A :=
  match s with
  | [] => []
  | _ :: s' =>
    match skip with
    | S k => execAll re s' k
    | O =>
      match re s with
      | Some (v, rest) => v :: execAll re s' (length s' - length rest)
      | None => execAll re s' 0
      end
    end
  end.

Section Search.
Context `{Host}.

(** The range test of both loops and the [Date] it pushes. *)
Definition acceptDate (ymd : Z * Z * Z) : option Date :=
  let '(year, m, day) := ymd in
  let month := m - 1 in
  if (2020 <=? year) && (year <=? 2030) && (0 <=? month) && (month <=? 11)
     && (1 <=? day) && (day <=? 31)
  then Some (newDate year month day)
  else None.

Definition isDateKey (key : jsstring) : bool :=
  includes (toLowerCase key) (js "date") || includes key (js "날짜")
  || includes key (js "일정").

Definition propertyDate (entry : jsstring * JSValue) : option Date :=
  let '(key, value) := entry in
  if isDateKey key then
    match value with
    | VString s =>
      match DateParse s with
      | Some d =>
        if (2020 <=? getFullYear d) && (getFullYear d <=? 2030)
        then Some d else None
      | None => None
      end
    | _ => None
    end
  else None.

(** The two [while] loops over the text. *)
Definition textDates (text : jsstring) : list Date :=
  omap acceptDate (execAll matchKoreanDate text 0)
  ++ omap acceptDate (execAll matchIsoDate text 0).

(** The loop over [Object.entries(chunk.metadata.properties)]. *)
Definition propertyDates (props : option Properties) : list Date :=
  match props with
  | Some entries => omap propertyDate entries
  | None => []
  end.

Definition extractDatesFromChunk (c : DocumentChunk) : list Date :=
  textDates (content c) ++ propertyDates (properties (metadata c)).

(** The three keyword tests.  The [i] flag changes nothing: no character
    folds to a Hangul syllable other than itself. *)
Definition isRecentQuery (query : jsstring) : bool :=
  existsb (includes query)
    [js "최근"; js "요즘"; js "지금"; js "오늘"; js "이번"; js "근래"].
Definition isUpcomingQuery (query : jsstring) : bool :=
  existsb (includes query)
    [js "다가오는"; js "앞으로"; js "미래"; js "예정"; js "곧"].
Definition isPastQuery (query : jsstring) : bool :=
  existsb (includes query) [js "지난"; js "과거"; js "전에"; js "이전"].

Definition sevenDays : Z := 7 * 24 * 60 * 60 * 1000.

(** The inner [for (const chunkDate of chunkDates)] with its [break]. *)
Definition dateMatches (query : jsstring) (now : Date) (chunkDates : list Date)
  : bool :=
  existsb
    (fun chunkDate =>
       if isRecentQuery query then
         (now - sevenDays <=? chunkDate) && (chunkDate <=? now + sevenDays)
       else if isUpcomingQuery query then now <? chunkDate
       else if isPastQuery query then chunkDate <? now
       else false)
    chunkDates.

(** One turn of [for (const chunk of this.chunks)]: the result it pushes,
    or [None] when it takes a [continue] without pushing. *)
Definition scoreChunk (now : Date) (query : jsstring)
    (queryEmbedding : list float) (c : DocumentChunk) : option SearchResult :=
  match embedding c with
  | None => None
  | Some e =>
    let similarity := cosineSimilarity queryEmbedding e in
    if isRecentQuery query || isUpcomingQuery query || isPastQuery query then
      let chunkDates := extractDatesFromChunk c in
      if (0 <? length chunkDates)%nat then
        if negb (dateMatches query now chunkDates) then
          if isRecentQuery query
             && existsb (fun d => getFullYear d <? 2024) chunkDates
          then None
          else Some {| chunk := c; score := (similarity * 0.3)%float |}
        else Some {| chunk := c; score := (similarity * 1.2)%float |}
      else Some {| chunk := c; score := (similarity * 0.5)%float |}
    else Some {| chunk := c; score := similarity |}
  end.

Definition compareFn (a b : SearchResult) : float := (score b - score a)%float.

(** [Array.prototype.sort] is stable; with a consistent comparator any stable
    sort returns the same array, here an insertion sort.  [x] stood before
    every element of [l] and moves behind those the comparator puts first
    (a NaN from the comparator counts as [+0]). *)
Fixpoint insertSorted (x : SearchResult) (l : list SearchResult)
  : list SearchResult :=
  match l with
  | [] => [x]
  | y :: l' =>
    if (0 <? compareFn x y)%float then y :: insertSorted x l' else x :: l
  end.

Definition sortResults (l : list SearchResult) : list SearchResult :=
  foldr insertSorted [] l.

(** [l.slice(0, k)] for an integer [k]; a negative [k] counts from the end. *)
Definition sliceTo {A} (l : list A) (k : Z) : list A :=
  if k <? 0 then firstn (Z.to_nat (Z.of_nat (length l) + k)) l
  else firstn (Z.to_nat k) l.

(** [api query] is the service's answer to the query call: [None] when it
    fails, otherwise the vectors of [response.data]. *)
Definition getQueryEmbedding (api : jsstring -> option (list (list float)))
    (query : jsstring) (st : RAGSystem) : option (list float) :=
  if negb (openai st) then None
  else match api query with
       | Some (e :: _) => Some e
       | _ => None
       end.

Definition scoreGe (r1 r2 : SearchResult) : Prop :=
  geb (score r1) (score r2) = true.

(** Scores in descending order: every result is at least each later one. *)
Definition descending (l : list SearchResult) : Prop :=
  StronglySorted scoreGe l.

(** The list before sorting and truncation. *)
Definition similarities (now : Date) (query : jsstring)
    (queryEmbedding : list float) (st : RAGSystem) : list SearchResult :=
  omap (scoreChunk now query queryEmbedding) (chunks st).

(** [None] stands for a rejected promise; [now] is [new Date()]. *)
Definition searchSimilarChunks (api : jsstring -> option (list (list float)))
    (now : Date) (query : jsstring) (topK : Z) (st : RAGSystem)
  : option (list SearchResult) :=
  match getQueryEmbedding api query st with
  | None => None
  | Some queryEmbedding =>
    Some (sliceTo (sortResults (similarities now query queryEmbedding st)) topK)
  end.

(* =============================================================== *)
(** ** Formatting *)

(** [x.toFixed(f)]. *)
Definition toFixed (x : float) (f : nat) : jsstring :=
  match Prim2SF x with
  | S754_nan => js "NaN"
  | S754_infinity false => js "Infinity"
  | S754_infinity true => js "-Infinity"
  | S754_zero _ => fixedDigits 0 f
  | S754_finite s m e =>
    (if s then js "-" else [])
    ++ (if atLeast1e21 m e then NumberToString (PrimFloat.abs x)
        else fixedDigits (scaledRound m e f) f)
  end.

Definition nl : jsstring := [10].

(** What one turn of [results.forEach] appends to [context]. *)
Definition formatEntry (index : nat) (result : SearchResult) : jsstring :=
  (js "[" ++ decimal (Z.of_nat index + 1) ++ js "] "
     ++ title (metadata (chunk result)) ++ nl)
  ++ (content (chunk result) ++ nl)
  ++ (js "(유사도: " ++ toFixed (score result * 100)%float 1 ++ js "%)" ++ nl ++ nl).

Definition formatSearchResults (results : list SearchResult) : jsstring :=
  if (length results =? 0)%nat then js "관련된 정보를 찾을 수 없습니다."
  else
    snd (fold_left
           (fun '(index, context) result =>
              (S index, context ++ formatEntry index result))
           results
           (0%nat, js "다음은 관련된 정보들입니다:" ++ nl ++ nl)).
End Search.

(* ================================================================= *)
(** ** The snapshot *)

Record Snapshot := {
  snap_chunks : list DocumentChunk;
  snap_embeddings : list (jsstring * list float);
  lastUpdated : jsstring
}.

(** The file [rag-data.json] of the temporary directory. *)
Inductive File :=
| NoFile
| Unreadable
| Stored (data : Snapshot).

(** How [fs.writeFileSync] ended. *)
Inductive WriteResult := Written | NotWritten | Truncated.

Definition jsonValue (v : JSValue) : JSValue :=
  match v with
  | VNumber x => if PrimFloat.is_finite x then VNumber (jsonNumber x) else VNull
  | _ => v
  end.

(** A chunk after [JSON.stringify] and [JSON.parse]: absent fields stay
    absent, strings are unchanged, numbers go through [jsonNumber]. *)
Definition jsonChunk (c : DocumentChunk) : DocumentChunk :=
  {| id := id c;
     content := content c;
     metadata := {|
       title := title (metadata c);
       pageId := pageId (metadata c);
       lastModified := lastModified (metadata c);
       url := url (metadata c);
       properties :=
         option_map (map (fun kv => (fst kv, jsonValue (snd kv))))
                    (properties (metadata c));
       chunkIndex := chunkIndex (metadata c);
       totalChunks := totalChunks (metadata c) |};
     embedding := option_map (map jsonNumber) (embedding c) |}.

(** The record [saveToLocalStorage] serialises, as it is read back.  The
    pairs of [this.embeddings.entries()] are listed in the order of
    [map_to_list]; nothing below depends on that order. *)
Definition toSnapshot (nowISO : jsstring) (st : RAGSystem) : Snapshot :=
  {| snap_chunks := map jsonChunk (chunks st);
     snap_embeddings :=
       map (fun kv => (fst kv, map jsonNumber (snd kv)))
           (map_to_list (embeddings st));
     lastUpdated := nowISO |}.

(** [serverSide] is [typeof window === 'undefined'].  A failed write is caught
    and leaves the instance as it is. *)
Definition saveToLocalStorage (serverSide : bool) (w : WriteResult)
    (nowISO : jsstring) (st : RAGSystem) (file : File) : File :=
  if serverSide then
    match w with
    | Written => Stored (toSnapshot nowISO st)
    | NotWritten => file
    | Truncated => Unreadable
    end
  else file.

(** [new Map(pairs)]: later pairs overwrite earlier ones. *)
Definition mapOfEntries (pairs : list (jsstring * list float))
  : gmap jsstring (list float) :=
  fold_left (fun m kv => <[fst kv := snd kv]> m) pairs ∅.

Definition loadFromLocalStorage (serverSide : bool) (file : File)
    (st : RAGSystem) : RAGSystem * bool :=
  if serverSide then
    match file with
    | NoFile => (st, false)
    | Unreadable => (st, false)
    | Stored data =>
      ({| chunks := snap_chunks data;
          embeddings := mapOfEntries (snap_embeddings data);
          openai := openai st |}, true)
    end
  else (st, false).

Record Status := {
  chunksCount : nat;
  embeddingsCount : nat;
  isReady : bool
}.

Definition getStatus (st : RAGSystem) : Status :=
  {| chunksCount := length (chunks st);
     embeddingsCount := size (embeddings st);
     isReady := (0 <? length (chunks st))%nat && (0 <? size (embeddings st))%nat |}.

(* ================================================================= *)
(** ** The instance over time *)

(** The two views of the embeddings agree: a chunk that carries a vector is
    mapped to that vector under its id. *)
Definition inSync (st : RAGSystem) : Prop :=
  forall c e,
    In c (chunks st) -> embedding c = Some e -> embeddings st !! id c = Some e.

Definition distinctIds (st : RAGSystem) : Prop := NoDup (map id (chunks st)).

(** The state a successful load of [file] installs agrees with itself. *)
Definition fileInSync (file : File) : Prop :=
  match file with
  | Stored data =>
    inSync {| chunks := snap_chunks data;
              embeddings := mapOfEntries (snap_embeddings data);
              openai := false |}
  | _ => True
  end.

(** The calls that can be made on an instance, with what the environment
    answers to each.  Searching, formatting and [getStatus] only read. *)
Inductive Operation :=
| OpInitializeOpenAI
| OpProcessNotionData (nowISO : jsstring) (notionData : list NotionPage)
| OpGenerateEmbeddings (api : nat -> list jsstring -> option (list (list float)))
| OpSearchSimilarChunks (api : jsstring -> option (list (list float)))
    (now : Date) (query : jsstring) (topK : Z)
| OpGetStatus
| OpSaveToLocalStorage (serverSide : bool) (w : WriteResult) (nowISO : jsstring)
| OpLoadFromLocalStorage (serverSide : bool).

(** The instance and the snapshot file after an operation. *)
Definition perform `{Host} (op : Operation) (world : RAGSystem * File)
  : RAGSystem * File :=
  let '(st, file) := world in
  match op with
  | OpInitializeOpenAI => (initializeOpenAI st, file)
  | OpProcessNotionData nowISO notionData =>
    (processNotionData nowISO notionData st, file)
  | OpGenerateEmbeddings api => (fst (generateEmbeddings api st), file)
  | OpSearchSimilarChunks _ _ _ _ => (st, file)
  | OpGetStatus => (st, file)
  | OpSaveToLocalStorage serverSide w nowISO =>
    (st, saveToLocalStorage serverSide w nowISO st file)
  | OpLoadFromLocalStorage serverSide =>
    (fst (loadFromLocalStorage serverSide file st), file)
  end.

(** A sequence of operations, performed from left to right. *)
Definition performAll `{Host} (ops : list Operation) (world : RAGSystem * File)
  : RAGSystem * File :=
  fold_left (fun w op => perform op w) ops world.

(** Along a sequence of operations, [generateEmbeddings] only runs on
    instances whose chunk ids are pairwise distinct. *)
Fixpoint distinctIdsAlong `{Host} (ops : list Operation)
    (world : RAGSystem * File) : Prop :=
  match ops with
  | [] => True
  | op :: ops' =>
    match op with
    | OpGenerateEmbeddings _ => distinctIds (fst world)
    | _ => True
    end
    /\ distinctIdsAlong ops' (perform op world)
  end.

(* ================================================================= *)
(** ** Notions used in the statements about chunking *)

(** The prefix of the ids of a page's chunks: [page.id || 'chunk']. *)
Definition idPrefix (page : NotionPage) : jsstring :=
  orElse (page_id page) (js "chunk").

(** The number of chunks made of a text. *)
Definition chunkCount (text : jsstring) : nat :=
  if (length text <=? chunkSize)%nat then 1%nat else windowCount (length text).

(* ================================================================= *)
(** ** Notions used in the statements about embedding generation *)

(** The start of the batch that chunk [j] belongs to. *)
Definition batchStart (j : nat) : nat := (j / batchSize * batchSize)%nat.

(** The texts sent for the batch that starts at [b]. *)
Definition batchTexts (cs : list DocumentChunk) (b : nat) : list jsstring :=
  map content (slice cs b (b + batchSize)).

(** Chunk [c], the chunk at index [j], after the answer for the batch that
    starts at [b]: with the vector at its place in the answer, or unchanged
    when the answer is shorter. *)
Definition vectorFor (api : nat -> list jsstring -> option (list (list float)))
    (cs : list DocumentChunk) (b j : nat) (c : DocumentChunk) : DocumentChunk :=
  match api b (batchTexts cs b) with
  | Some data =>
    match data !! (j - b)%nat with
    | Some e => withEmbedding e c
    | None => c
    end
  | None => c
  end.

(** The chunks as a run of [generateEmbeddings] that is answered for every
    batch leaves them. *)
Definition embedded (api : nat -> list jsstring -> option (list (list float)))
    (cs : list DocumentChunk) : list DocumentChunk :=
  imap (fun j c => vectorFor api cs (batchStart j) j c) cs.

(** The service answers every call with one vector for each text. *)
Definition answersAll (api : nat -> list jsstring -> option (list (list float)))
  : Prop :=
  forall i texts, exists data, api i texts = Some data /\ length data = length texts.

(** What a run of [generateEmbeddings] may change: vectors are added, to the
    chunks and to the map, and nothing else moves. *)
Definition extends (st st' : RAGSystem) : Prop :=
  map id (chunks st') = map id (chunks st)
  /\ map content (chunks st') = map content (chunks st)
  /\ map metadata (chunks st') = map metadata (chunks st)
  /\ openai st' = openai st
  /\ (forall k, is_Some (embeddings st !! k) -> is_Some (embeddings st' !! k))
  /\ (forall j c c', chunks st !! j = Some c -> chunks st' !! j = Some c' ->
                     is_Some (embedding c) -> is_Some (embedding c'))
  /\ (forall k, is_Some (embeddings st' !! k) ->
                is_Some (embeddings st !! k) \/ In k (map id (chunks st))).


(* ================================================================= *)
(** ** Notions used in the statements about the snapshot *)

(** An instance that [JSON.stringify] and [JSON.parse] give back as it is. *)
Definition jsonExact (st : RAGSystem) : Prop :=
  (forall c, In c (chunks st) -> jsonChunk c = c)
  /\ (forall k e, embeddings st !! k = Some e -> map jsonNumber e = e).

(** An instance whose vectors hold only finite numbers.  [JSON.stringify]
    writes a NaN or an infinity inside an array as [null]; a vector read back
    with such an entry is no list of numbers, so the statements about the
    vectors that a load installs are made for these instances. *)
Definition finiteVectors (st : RAGSystem) : Prop :=
  (forall c e, In c (chunks st) -> embedding c = Some e ->
               Forall (fun x => is_finite x = true) e)
  /\ (forall k e, embeddings st !! k = Some e ->
                  Forall (fun x => is_finite x = true) e).

(** The instance after a save that wrote the file and a load on the server
    by an instance [st']. *)
Definition reloaded (nowISO : jsstring) (st : RAGSystem) (file : File)
    (st' : RAGSystem) : RAGSystem * bool :=
  loadFromLocalStorage true (saveToLocalStorage true Written nowISO st file) st'.

(* ================================================================= *)
(** ** Notions used in the statements about dates in a text *)

(** A string of decimal digits. *)
Definition digits (s : jsstring) : Prop := Forall (fun c => isDigit c = true) s.

(** A string without a decimal digit. *)
Definition digitFree (s : jsstring) : Prop := Forall (fun c => isDigit c = false) s.

(** A string that does not start with a decimal digit. *)
Definition startsOffDigit (s : jsstring) : Prop :=
  match s with
  | [] => True
  | c :: _ => isDigit c = false
  end.

(* ================================================================= *)
(** * The route handlers

    The three API routes that feed and use the retrieval core:
    [api/update-notion-data], [api/initialize-rag] and [api/chat].  What a
    handler gets from outside (the answers of the Notion API, of the
    embedding service, the clock, the snapshot file) is passed in. *)

(* ================================================================= *)
(** ** JavaScript values shared by the handlers *)

(** [l.join(sep)] for an array of strings. *)
Fixpoint join (sep : jsstring) (l : list jsstring) : jsstring :=
  match l with
  | [] => []
  | [x] => x
  | x :: l' => x ++ sep ++ join sep l'
  end.

(** [s.trim()]: white space and line terminators go from both ends. *)
Definition trim (s : jsstring) : jsstring :=
  rev (dropWhile isWhiteSpace (rev (dropWhile isWhiteSpace s))).

(** Truthiness of a string: only the empty string is falsy. *)
Definition nonEmpty (s : jsstring) : bool := negb (length s =? 0)%nat.

(** [o ? o : undefined] for an optional string: the empty string counts as
    absent. *)
Definition present (o : option jsstring) : option jsstring :=
  if truthy o then o else None.


(** A key that is an array index: the canonical decimal form of an integer
    from 0 to [2^32 - 2]. *)
Definition arrayIndex (k : jsstring) : option Z :=
  match k with
  | [] => None
  | c :: r =>
    if forallb isDigit k && (negb (c =? 48) || (length r =? 0)%nat)
       && (parseInt k <? 4294967295)
    then Some (parseInt k)
    else None
  end.

Section PlainObject.
Context {V : Type}.

(** An ordinary object created by a literal, holding primitive values: its
    own enumerable properties in the order [Object.keys], [Object.entries]
    and [JSON.stringify] list them, array indices first in ascending order,
    then the other keys in the order of their creation. *)
Definition PlainObject := list (jsstring * V).

Fixpoint hasOwn (k : jsstring) (obj : PlainObject) : bool :=
  match obj with
  | [] => false
  | (k', _) :: obj' => bool_decide (k = k') || hasOwn k obj'
  end.

Fixpoint replaceOwn (k : jsstring) (v : V) (obj : PlainObject) : PlainObject :=
  match obj with
  | [] => []
  | (k', v') :: obj' =>
    if bool_decide (k = k') then (k, v) :: obj' else (k', v') :: replaceOwn k v obj'
  end.

(** A new array index goes before the first key that is a greater index or
    no index. *)
Fixpoint insertIndex (n : Z) (k : jsstring) (v : V) (obj : PlainObject)
  : PlainObject :=
  match obj with
  | [] => [(k, v)]
  | (k', v') :: obj' =>
    match arrayIndex k' with
    | Some n' =>
      if n' <? n then (k', v') :: insertIndex n k v obj' else (k, v) :: obj
    | None => (k, v) :: obj
    end
  end.

(** [obj[k] = v] for a primitive [v].  The key [__proto__] reaches the setter
    of [Object.prototype], which ignores a value that is no object. *)
Definition assign (obj : PlainObject) (k : jsstring) (v : V) : PlainObject :=
  if bool_decide (k = js "__proto__") then obj
  else if hasOwn k obj then replaceOwn k v obj
  else match arrayIndex k with
       | Some n => insertIndex n k v obj
       | None => obj ++ [(k, v)]
       end.

Fixpoint getOwn (k : jsstring) (obj : PlainObject) : option V :=
  match obj with
  | [] => None
  | (k', v) :: obj' => if bool_decide (k = k') then Some v else getOwn k obj'
  end.
End PlainObject.
Arguments PlainObject : clear implicits.

(** What a rejected call or a [throw] carries: whether the value is an
    [Error], and its [message] (for another value, [String] of it). *)
Record Thrown := {
  isError : bool;
  text : jsstring
}.

(** The outcome of an awaited call. *)
Inductive Awaited (A : Type) :=
| Resolved (a : A)
| Rejected (e : Thrown).
Arguments Resolved {A} a.
Arguments Rejected {A} e.

(** [new Error(message)]. *)
Definition newError (message : jsstring) : Thrown :=
  {| isError := true; text := message |}.

(** The two renderings of a time stamp that the handlers use:
    [new Date(s).toLocaleString('ko-KR')] and
    [new Date(s).toLocaleDateString('ko-KR')]. *)
Class Locale := {
  toLocaleString : jsstring -> jsstring;
  toLocaleDateString : jsstring -> jsstring
}.

(* ================================================================= *)
(** ** Objects of the Notion API *)

Module Notion.

Record RichText := { plain_text : jsstring }.

Record SelectOption := { name : jsstring }.

Record DateRange := {
  start : jsstring;
  end_ : option jsstring
}.

(** A property value of a page. *)
Record Property := {
  type : jsstring;
  title : option (list RichText);
  rich_text : option (list RichText);
  number : option float;
  select : option SelectOption;
  multi_select : option (list SelectOption);
  date : option DateRange;
  checkbox : option bool;
  url : option jsstring;
  email : option jsstring;
  phone_number : option jsstring
}.

(** A page of a database, as [databases.query] returns it; [properties] in
    the order of [Object.entries]. *)
Record Page := {
  id : jsstring;
  properties : list (jsstring * Property);
  page_url : jsstring;
  created_time : jsstring;
  last_edited_time : jsstring
}.

(** The part of a block that holds its text. *)
Record BlockBody := {
  body_rich_text : option (list RichText);
  checked : option bool
}.

Record Block := {
  block_type : jsstring;
  paragraph : option BlockBody;
  heading_1 : option BlockBody;
  heading_2 : option BlockBody;
  heading_3 : option BlockBody;
  bulleted_list_item : option BlockBody;
  numbered_list_item : option BlockBody;
  to_do : option BlockBody;
  code : option BlockBody;
  quote : option BlockBody
}.

(** One answer of [databases.query]. *)
Record QueryResponse := {
  results : list Page;
  has_more : bool;
  next_cursor : option jsstring
}.

(** [texts.map((t) => t.plain_text).join('')]. *)
Definition plainText (texts : list RichText) : jsstring :=
  join [] (map plain_text texts).

(** The loop
    [while (hasMore) { response = await notion.databases.query(...); ... }]
    that all three handlers use.  [query cursor] is the answer to the call
    made with [start_cursor: cursor]; [None] stands for a loop that has not
    ended after [fuel] calls. *)
Fixpoint queryAll (fuel : nat)
    (query : option jsstring -> Awaited QueryResponse)
    (nextCursor : option jsstring) (allResults : list Page)
  : option (Awaited (list Page)) :=
  match fuel with
  | O => None
  | S fuel' =>
    match query nextCursor with
    | Rejected e => Some (Rejected e)
    | Resolved response =>
      let allResults := allResults ++ results response in
      if has_more response
      then queryAll fuel' query (present (next_cursor response)) allResults
      else Some (Resolved allResults)
    end
  end.

(** The answers that the query loop meets when it starts at [cursor]: each
    answer but the last says [has_more] and leads to the next by its
    [next_cursor], the last says that nothing is left. *)
Fixpoint chained (query : option jsstring -> Awaited QueryResponse)
    (cursor : option jsstring) (responses : list QueryResponse) : Prop :=
  match responses with
  | [] => False
  | response :: rest =>
    query cursor = Resolved response
    /\ match rest with
       | [] => has_more response = false
       | _ :: _ =>
         has_more response = true
         /\ chained query (present (next_cursor response)) rest
       end
  end.

End Notion.

(* ================================================================= *)
(** ** [api/update-notion-data] *)

Module UpdateNotionData.

(** [extractTitle]: the text of the first property of type [title] that has
    a [title] array. *)
Fixpoint extractTitle (properties : list (jsstring * Notion.Property)) : jsstring :=
  match properties with
  | [] => js "Untitled"
  | (_, prop) :: rest =>
    match Notion.title prop with
    | Some texts =>
      if bool_decide (Notion.type prop = js "title") then Notion.plainText texts
      else extractTitle rest
    | None => extractTitle rest
    end
  end.

Section Handler.
Context `{Host} `{Locale}.

(** The [switch (prop.type)] of [extractProperties]: the string it assigns
    to [extracted[key]], if it assigns one. *)
Definition propertyValue (prop : Notion.Property) : option jsstring :=
  if bool_decide (Notion.type prop = js "rich_text") then
    match Notion.rich_text prop with
    | Some (t :: ts) => Some (Notion.plainText (t :: ts))
    | _ => None
    end
  else if bool_decide (Notion.type prop = js "number") then
    match Notion.number prop with
    | Some x => Some (NumberToString x)
    | None => None
    end
  else if bool_decide (Notion.type prop = js "select") then
    match Notion.select prop with
    | Some option =>
      if nonEmpty (Notion.name option) then Some (Notion.name option) else None
    | None => None
    end
  else if bool_decide (Notion.type prop = js "multi_select") then
    match Notion.multi_select prop with
    | Some (o :: os) => Some (join (js ", ") (map Notion.name (o :: os)))
    | _ => None
    end
  else if bool_decide (Notion.type prop = js "date") then
    match Notion.date prop with
    | Some d => if nonEmpty (Notion.start d) then Some (Notion.start d) else None
    | None => None
    end
  else if bool_decide (Notion.type prop = js "checkbox") then
    Some (match Notion.checkbox prop with
          | Some true => js "예"
          | _ => js "아니오"
          end)
  else if bool_decide (Notion.type prop = js "url") then present (Notion.url prop)
  else if bool_decide (Notion.type prop = js "email") then present (Notion.email prop)
  else if bool_decide (Notion.type prop = js "phone_number")
       then present (Notion.phone_number prop)
  else None.

Definition extractProperties (properties : list (jsstring * Notion.Property))
  : PlainObject jsstring :=
  fold_left
    (fun extracted '(key, prop) =>
       match propertyValue prop with
       | Some value => assign extracted key value
       | None => extracted
       end)
    properties [].

(** [block.x?.rich_text?.map((text) => text.plain_text).join('') || '']. *)
Definition bodyText (body : option Notion.BlockBody) : jsstring :=
  match body with
  | Some b =>
    match Notion.body_rich_text b with
    | Some texts => Notion.plainText texts
    | None => []
    end
  | None => []
  end.

(** The callback of [blocks.map] in [extractContentFromBlocks]; the result
    then goes through [.filter(Boolean)] and [.join('\n')]. *)
Definition blockText (block : Notion.Block) : jsstring :=
  let t := Notion.block_type block in
  if bool_decide (t = js "paragraph") then bodyText (Notion.paragraph block)
  else if bool_decide (t = js "heading_1")
       then js "# " ++ bodyText (Notion.heading_1 block)
  else if bool_decide (t = js "heading_2")
       then js "## " ++ bodyText (Notion.heading_2 block)
  else if bool_decide (t = js "heading_3")
       then js "### " ++ bodyText (Notion.heading_3 block)
  else if bool_decide (t = js "bulleted_list_item")
       then js "• " ++ bodyText (Notion.bulleted_list_item block)
  else if bool_decide (t = js "numbered_list_item")
       then js "1. " ++ bodyText (Notion.numbered_list_item block)
  else if bool_decide (t = js "to_do") then
    let mark :=
      match Notion.to_do block with
      | Some {| Notion.checked := Some true |} => js "[x]"
      | _ => js "[ ]"
      end in
    mark ++ js " " ++ bodyText (Notion.to_do block)
  else if bool_decide (t = js "quote")
       then js "> " ++ bodyText (Notion.quote block)
  else if bool_decide (t = js "code")
       then js "```" ++ nl ++ bodyText (Notion.code block) ++ nl ++ js "```"
  else [].

Definition extractContentFromBlocks (blocks : list Notion.Block) : jsstring :=
  join nl (filter (fun s => nonEmpty s) (map blockText blocks)).

(** What the handler keeps of a page. *)
Record Item := {
  item_id : jsstring;
  item_title : jsstring;
  item_content : jsstring;
  item_properties : PlainObject jsstring;
  item_url : jsstring;
  createdTime : jsstring;
  lastEditedTime : jsstring
}.

(** The callback of [allResults.map] with its [try] and [catch];
    [children] is the answer of [notion.blocks.children.list] for the page. *)
Definition extractItem (children : jsstring -> Awaited (list Notion.Block))
    (page : Notion.Page) : Item :=
  match children (Notion.id page) with
  | Resolved blocks =>
    {| item_id := Notion.id page;
       item_title := extractTitle (Notion.properties page);
       item_content := extractContentFromBlocks blocks;
       item_properties := extractProperties (Notion.properties page);
       item_url := Notion.page_url page;
       createdTime := Notion.created_time page;
       lastEditedTime := Notion.last_edited_time page |}
  | Rejected _ =>
    {| item_id := orElse (Some (Notion.id page)) (js "unknown");
       item_title := js "Error loading page";
       item_content := [];
       item_properties := [];
       item_url := Notion.page_url page;
       createdTime := Notion.created_time page;
       lastEditedTime := Notion.last_edited_time page |}
  end.

(** The callback of [extractedData.map] that renders an item as text. *)
Definition formatItem (item : Item) : jsstring :=
  (js "제목: " ++ item_title item ++ nl)
  ++ (if (0 <? length (item_properties item))%nat
      then js "속성:" ++ nl
           ++ concat (map (fun '(key, value) =>
                             js "- " ++ key ++ js ": " ++ value ++ nl)
                          (item_properties item))
      else [])
  ++ (if nonEmpty (item_content item)
      then js "내용:" ++ nl ++ item_content item ++ nl
      else [])
  ++ (js "생성일: " ++ toLocaleString (createdTime item) ++ nl)
  ++ (js "마지막 수정: " ++ toLocaleString (lastEditedTime item) ++ nl)
  ++ (js "생성일(ISO): " ++ createdTime item ++ nl)
  ++ (js "마지막 수정(ISO): " ++ lastEditedTime item ++ nl)
  ++ (js "---" ++ nl).

(** The body of a response. *)
Inductive Response :=
| BadRequest (error : jsstring)
| ServerError (error details : jsstring)
| Ok (count : nat) (data : jsstring).

(** [POST]; [None] when the query loop has not ended after [fuel] calls. *)
Definition POST (fuel : nat) (apiKey databaseId : option jsstring)
    (query : option jsstring -> Awaited Notion.QueryResponse)
    (children : jsstring -> Awaited (list Notion.Block)) : option Response :=
  if negb (truthy apiKey) || negb (truthy databaseId) then
    Some (BadRequest (js "API 키와 데이터베이스 ID가 필요합니다."))
  else
    match Notion.queryAll fuel query None [] with
    | None => None
    | Some (Rejected e) =>
      Some (ServerError (js "Notion 데이터를 가져오는 중 오류가 발생했습니다.") (text e))
    | Some (Resolved allResults) =>
      let extractedData := map (extractItem children) allResults in
      let formattedData := join nl (map formatItem extractedData) in
      Some (Ok (length extractedData) formattedData)
    end.
End Handler.

End UpdateNotionData.

(** The block types that [extractContentFromBlocks] renders. *)
Definition renderedTypes : list jsstring :=
  [js "paragraph"; js "heading_1"; js "heading_2"; js "heading_3";
   js "bulleted_list_item"; js "numbered_list_item"; js "to_do"; js "quote";
   js "code"].

(* ================================================================= *)
(** ** [api/initialize-rag] *)

(** The [properties] of the page objects that the handlers build for
    [processNotionData]: the key [title] alone, holding an object that has
    neither [type] nor [date]. *)
Definition titleOnly : list (jsstring * NotionProperty) :=
  [(js "title", {| type := []; date := None |})].

Module InitializeRag.

Section Handler.
Context `{Host} `{Locale}.

(** The first loop of [extractSimpleText]: the line of the first property of
    type [title] that has a [title] array. *)
Fixpoint titleLine (properties : list (jsstring * Notion.Property)) : jsstring :=
  match properties with
  | [] => []
  | (_, prop) :: rest =>
    match Notion.title prop with
    | Some texts =>
      if bool_decide (Notion.type prop = js "title")
      then js "제목: " ++ Notion.plainText texts ++ nl
      else titleLine rest
    | None => titleLine rest
    end
  end.

(** One turn of the second loop: the line of a [rich_text] property whose
    text is not empty. *)
Definition richTextLine (entry : jsstring * Notion.Property) : jsstring :=
  let '(key, prop) := entry in
  if bool_decide (Notion.type prop = js "rich_text") then
    match Notion.rich_text prop with
    | Some (t :: ts) =>
      let content := Notion.plainText (t :: ts) in
      if nonEmpty content then key ++ js ": " ++ content ++ nl else []
    | _ => []
    end
  else [].

Definition extractSimpleText (page : Notion.Page) : jsstring :=
  titleLine (Notion.properties page)
  ++ concat (map richTextLine (Notion.properties page))
  ++ (js "생성일: " ++ toLocaleString (Notion.created_time page) ++ nl)
  ++ (js "마지막 수정: " ++ toLocaleString (Notion.last_edited_time page) ++ nl)
  ++ (js "---" ++ nl).

(** The array [notionPages]: one page object that carries the whole text. *)
Definition notionPages (notionData nowISO notionDatabaseId : jsstring)
  : list NotionPage :=
  [ {| page_id := Some (js "notion-data");
       page_url := Some (js "https://notion.so/" ++ notionDatabaseId);
       last_edited_time := Some nowISO;
       page_content := Some notionData;
       metadata_properties := None;
       page_properties := Some titleOnly |} ].

(** The body of a response with its status code. *)
Inductive Response :=
| Failure (code : Z) (error : jsstring)
| Success (message : option jsstring) (status : Status).

(** The message of the outer [catch]:
    [error instanceof Error ? error.message : '...']. *)
Definition errorMessage (e : Thrown) : jsstring :=
  if isError e then text e else js "알 수 없는 오류가 발생했습니다.".

(** What the handler gets from outside during one request. *)
Record World := {
  (** the snapshot file when the request arrives *)
  file : File;
  (** the answers of [notion.databases.query], by cursor *)
  query : option jsstring -> Awaited Notion.QueryResponse;
  (** the answers of the embedding service, by batch *)
  embed : nat -> list jsstring -> option (list (list float));
  (** what a failing [generateEmbeddings] throws *)
  embedError : Thrown;
  (** how the write of the snapshot ends *)
  written : WriteResult;
  (** [new Date().toISOString()] when the page object is built and when the
      snapshot is saved *)
  pageTime : jsstring;
  saveTime : jsstring
}.

(** [POST]: the response and the snapshot file after the request; [None]
    when the query loop has not ended after [fuel] calls. *)
Definition POST (fuel : nat) (openaiApiKey notionApiKey notionDatabaseId : option jsstring)
    (w : World) : option (Response * File) :=
  if negb (truthy openaiApiKey) then
    Some (Failure 400 (js "OpenAI API 키가 필요합니다."), file w)
  else if negb (truthy notionApiKey) || negb (truthy notionDatabaseId) then
    Some (Failure 400 (js "Notion API 키와 데이터베이스 ID가 필요합니다."), file w)
  else
    let ragSystem := initializeOpenAI newRAGSystem in
    let '(ragSystem, hasExistingData) :=
      loadFromLocalStorage true (file w) ragSystem in
    if hasExistingData then
      Some (Success (Some (js "기존 RAG 데이터를 로드했습니다.")) (getStatus ragSystem),
            file w)
    else
      match Notion.queryAll fuel (query w) None [] with
      | None => None
      | Some (Rejected e) => Some (Failure 500 (errorMessage e), file w)
      | Some (Resolved allResults) =>
        let notionData := join nl (map extractSimpleText allResults) in
        if negb (nonEmpty (trim notionData)) then
          Some (Failure 500 (errorMessage (newError (js "노션 데이터가 비어있습니다."))),
                file w)
        else
          let ragSystem :=
            processNotionData (pageTime w)
              (notionPages notionData (pageTime w) (orElse notionDatabaseId []))
              ragSystem in
          match generateEmbeddings (embed w) ragSystem with
          | (_, Threw) => Some (Failure 500 (errorMessage (embedError w)), file w)
          | (ragSystem, Returned) =>
            let file' :=
              saveToLocalStorage true (written w) (saveTime w) ragSystem (file w) in
            Some (Success (Some (js "RAG 시스템이 성공적으로 초기화되었습니다."))
                    (getStatus ragSystem),
                  file')
          end
      end.

(** [GET]: the status of a new instance after a load. *)
Definition GET (file : File) : Response :=
  let '(ragSystem, _) := loadFromLocalStorage true file newRAGSystem in
  Success None (getStatus ragSystem).
End Handler.
End InitializeRag.

(* ================================================================= *)
(** ** [api/chat] *)

(** [JSON.stringify] of a string: [QuoteJSONString]. *)
Definition hexDigit (n : Z) : Z := if n <? 10 then 48 + n else 87 + n.

Definition unicodeEscape (c : Z) : jsstring :=
  [92; 117; hexDigit (c / 4096); hexDigit (c / 256 mod 16);
   hexDigit (c / 16 mod 16); hexDigit (c mod 16)].

Definition isLeadSurrogate (c : Z) : bool := (55296 <=? c) && (c <=? 56319).
Definition isTrailSurrogate (c : Z) : bool := (56320 <=? c) && (c <=? 57343).

Fixpoint quoteChars (s : jsstring) : jsstring :=
  match s with
  | [] => []
  | c :: s' =>
    if c =? 8 then [92; 98] ++ quoteChars s'
    else if c =? 9 then [92; 116] ++ quoteChars s'
    else if c =? 10 then [92; 110] ++ quoteChars s'
    else if c =? 12 then [92; 102] ++ quoteChars s'
    else if c =? 13 then [92; 114] ++ quoteChars s'
    else if c =? 34 then [92; 34] ++ quoteChars s'
    else if c =? 92 then [92; 92] ++ quoteChars s'
    else if c <? 32 then unicodeEscape c ++ quoteChars s'
    else if isLeadSurrogate c then
      match s' with
      | d :: s'' =>
        if isTrailSurrogate d then c :: d :: quoteChars s''
        else unicodeEscape c ++ quoteChars s'
      | [] => unicodeEscape c
      end
    else if isTrailSurrogate c then unicodeEscape c ++ quoteChars s'
    else c :: quoteChars s'
  end.

Definition quoteJSONString (s : jsstring) : jsstring :=
  [34] ++ quoteChars s ++ [34].

(** [JSON.stringify] of a plain object whose values are strings. *)
Definition stringifyRecord (obj : PlainObject jsstring) : jsstring :=
  js "{"
  ++ join (js ",")
       (map (fun '(key, value) =>
               quoteJSONString key ++ js ":" ++ quoteJSONString value)
            obj)
  ++ js "}".

Module Chat.

Section Handler.
Context `{Host} `{Locale}.

(** The loop that fills [dateProperties], in [extractSimpleText] and again
    in the callback that builds the page objects. *)
Definition dateProperties (properties : list (jsstring * Notion.Property))
  : PlainObject jsstring :=
  fold_left
    (fun acc '(key, prop) =>
       if bool_decide (Notion.type prop = js "date") then
         match Notion.date prop with
         | Some d =>
           if nonEmpty (Notion.start d) then
             let acc := assign acc key (Notion.start d) in
             match present (Notion.end_ d) with
             | Some e => assign acc (key ++ js "_end") e
             | None => acc
             end
           else acc
         | None => acc
         end
       else acc)
    properties [].

(** The first loop of [extractSimpleText]. *)
Fixpoint titleLine (properties : list (jsstring * Notion.Property)) : jsstring :=
  match properties with
  | [] => []
  | (_, prop) :: rest =>
    match Notion.title prop with
    | Some texts =>
      if bool_decide (Notion.type prop = js "title")
      then js "제목: " ++ Notion.plainText texts ++ nl
      else titleLine rest
    | None => titleLine rest
    end
  end.

(** One turn of the second loop of [extractSimpleText]: what the
    [switch (prop.type)] appends to [text]. *)
Definition propertyLine (entry : jsstring * Notion.Property) : jsstring :=
  let '(key, prop) := entry in
  let t := Notion.type prop in
  if bool_decide (t = js "rich_text") then
    match Notion.rich_text prop with
    | Some (x :: xs) =>
      let content := Notion.plainText (x :: xs) in
      if nonEmpty content then key ++ js ": " ++ content ++ nl else []
    | _ => []
    end
  else if bool_decide (t = js "date") then
    match Notion.date prop with
    | Some d =>
      if nonEmpty (Notion.start d) then
        let startDate := toLocaleDateString (Notion.start d) in
        let endDate :=
          match present (Notion.end_ d) with
          | Some e => js " ~ " ++ toLocaleDateString e
          | None => []
          end in
        key ++ js ": " ++ startDate ++ endDate ++ nl
      else []
    | None => []
    end
  else if bool_decide (t = js "select") then
    match Notion.select prop with
    | Some option =>
      if nonEmpty (Notion.name option)
      then key ++ js ": " ++ Notion.name option ++ nl else []
    | None => []
    end
  else if bool_decide (t = js "multi_select") then
    match Notion.multi_select prop with
    | Some (o :: os) =>
      key ++ js ": " ++ join (js ", ") (map Notion.name (o :: os)) ++ nl
    | _ => []
    end
  else if bool_decide (t = js "number") then
    match Notion.number prop with
    | Some x => key ++ js ": " ++ NumberToString x ++ nl
    | None => []
    end
  else if bool_decide (t = js "checkbox") then
    key ++ js ": "
    ++ (match Notion.checkbox prop with
        | Some true => js "예"
        | _ => js "아니오"
        end) ++ nl
  else if bool_decide (t = js "url") then
    match present (Notion.url prop) with
    | Some u => key ++ js ": " ++ u ++ nl
    | None => []
    end
  else [].

Definition extractSimpleText (page : Notion.Page) : jsstring :=
  let dates := dateProperties (Notion.properties page) in
  titleLine (Notion.properties page)
  ++ concat (map propertyLine (Notion.properties page))
  ++ (js "생성일: " ++ toLocaleString (Notion.created_time page) ++ nl)
  ++ (js "마지막 수정: " ++ toLocaleString (Notion.last_edited_time page) ++ nl)
  ++ (js "---" ++ nl)
  ++ (if (0 <? length dates)%nat
      then js "[날짜 정보: " ++ stringifyRecord dates ++ js "]" ++ nl
      else []).

(** The callback of [allResults.map((page, index) => ...)]: the page object
    handed to [processNotionData].  The title that the callback stores under
    [properties.title] is what the class reads through [titleText]. *)
Definition notionPage (index : nat) (page : Notion.Page) : NotionPage :=
  {| page_id := Some (js "notion-page-" ++ decimal (Z.of_nat index));
     page_url := Some (js "https://notion.so/" ++ Notion.id page);
     last_edited_time := Some (Notion.last_edited_time page);
     page_content := Some (extractSimpleText page);
     metadata_properties :=
       Some (map (fun '(key, value) => (key, VString value))
                 (dateProperties (Notion.properties page)));
     page_properties := Some titleOnly |}.


(** What the handler gets from outside while it builds the context. *)
Record World := {
  (** the answers of [notion.databases.query], by cursor *)
  query : option jsstring -> Awaited Notion.QueryResponse;
  (** the answers of the embedding service to the batches of chunks *)
  embed : nat -> list jsstring -> option (list (list float));
  (** the answers of the embedding service to a query text *)
  embedQuery : jsstring -> option (list (list float));
  (** [new Date().toISOString()] while the chunks are made *)
  pageTime : jsstring;
  (** [new Date()] in [searchSimilarChunks] *)
  searchTime : Date
}.

(** The instance after the indexing steps of the [try] block, when none of
    them throws. *)
Definition indexed (allResults : list Notion.Page) (w : World)
  : option RAGSystem :=
  if (length allResults =? 0)%nat then None
  else
    let ragSystem :=
      processNotionData (pageTime w) (imap notionPage allResults)
        (initializeOpenAI newRAGSystem) in
    match generateEmbeddings (embed w) ragSystem with
    | (ragSystem, Returned) => Some ragSystem
    | (_, Threw) => None
    end.



End Handler.
End Chat.

(* ================================================================= *)
(** ** The value of a binary64 number *)

(** Two to an integer power, as a real number. *)
Definition pow2 (e : Z) : R := powerRZ 2 e.

Definition F2R (m e : Z) : R := (IZR m * pow2 e)%R.

(** The real number a finite binary64 number stands for; [0] for the other
    values, which the statements exclude by [isFinite]. *)
Definition SF2R (x : spec_float) : R :=
  match x with
  | S754_finite s m e => F2R (cond_Zopp s (Zpos m)) e
  | _ => 0%R
  end.

Definition toR (x : float) : R := SF2R (Prim2SF x).

Definition finiteSF (x : spec_float) : bool :=
  match x with
  | S754_zero _ | S754_finite _ _ _ => true
  | _ => false
  end.

(** [Number.isFinite]: neither NaN nor an infinity. *)
Definition isFinite (x : float) : bool := finiteSF (Prim2SF x).

(** Where a real number lies between an integer and its successor, in the
    terms of the rounding specification. *)
Definition inbetween (m : Z) (l : location) (x : R) : Prop :=
  match l with
  | loc_Exact => x = IZR m
  | loc_Inexact Lt => (IZR m < x < IZR m + / 2)%R
  | loc_Inexact Eq => x = (IZR m + / 2)%R
  | loc_Inexact Gt => (IZR m + / 2 < x < IZR m + 1)%R
  end.

(** The unit roundoff of binary64. *)
Definition roundoff : R := pow2 (-53).

(** A shift record together with the real number it locates. *)
Definition located (mrs : shr_record) (x : R) : Prop :=
  (0 <= shr_m mrs)%Z /\ inbetween (shr_m mrs) (loc_of_shr_record mrs) x.

(** The value [binary_round_aux] builds from a mantissa and an exponent. *)
Definition buildSF (s : bool) (m e : Z) : spec_float :=
  match m with
  | Z0 => S754_zero s
  | Zpos p => if (e <=? emax - prec)%Z then S754_finite s p e else S754_infinity s
  | Zneg _ => S754_nan
  end.

(** A vector component in the range where no step of the similarity
    underflows or overflows: a zero, or a number whose magnitude lies
    between [2^-500] and [2^500]. *)
Definition moderate (x : float) : bool :=
  match Prim2SF x with
  | S754_zero _ => true
  | S754_finite _ _ e => (-552 <=? e)%Z && (e <=? 447)%Z
  | _ => false
  end.

(** One of the three sums of the loop of [cosineSimilarity] on its own. *)
Fixpoint dotLoop (a b : list float) (acc : float) : float :=
  match a, b with
  | x :: a', y :: b' => dotLoop a' b' (acc + x * y)%float
  | _, _ => acc
  end.

(** The exact sum of the magnitudes of the products. *)
Fixpoint absDot (a b : list float) : R :=
  match a, b with
  | x :: a', y :: b' => (Rabs (toR x * toR y) + absDot a' b')%R
  | _, _ => 0%R
  end.

(** How far above 1 in magnitude the similarity of two vectors of [n]
    components can be in binary64. *)
Definition tolerance (n : nat) : R := ((INR n + 4) * pow2 (-51))%R.

(* ================================================================= *)
(** ** Sample data

    Concrete hosts, pages and stores on which the statements below are
    evaluated. *)

(** A host in the Korean time zone whose date parser accepts nothing. *)
Definition seoulHost : Host :=
  {| LocalTZA := 9 * 3600000;
     DateParse := fun _ => None;
     NumberToString := fun _ => js "1e+21";
     composeText := fun _ => [];
     titleText := fun _ => None |}.

Definition samplePage (name : option jsstring) : NotionPage :=
  {| page_id := name;
     page_url := None;
     last_edited_time := None;
     page_content := None;
     metadata_properties := None;
     page_properties := None |}.

Definition sampleChunk (name text : jsstring) (e : option (list float))
  : DocumentChunk :=
  {| id := name;
     content := text;
     metadata := {| title := js "T"; pageId := name; lastModified := [];
                    url := None; properties := Some [];
                    chunkIndex := Some 0; totalChunks := Some 1 |};
     embedding := e |}.

(** 2026-11-02T00:00:00Z. *)
Definition sampleNow : Date := 1793577600000.

Definition freshChunk : DocumentChunk :=
  sampleChunk (js "a-0") (js "회의 2025-06-27") (Some [1; 0]%float).

(** A chunk naming one day of 2022 and one of 2025. *)
Definition staleChunk : DocumentChunk :=
  sampleChunk (js "b-0") (js "2022-01-01 2025-01-01") (Some [0.6; 0.8]%float).

Definition bareChunk : DocumentChunk :=
  sampleChunk (js "c-0") (js "메모") None.

Definition farChunk : DocumentChunk :=
  sampleChunk (js "d-0") (js "마감 2031-01-01 예정") (Some [0; 1]%float).

Definition sampleStore : RAGSystem :=
  {| chunks := [freshChunk; staleChunk; bareChunk; farChunk];
     embeddings :=
       <[js "a-0" := [1; 0]%float]>
         (<[js "b-0" := [0.6; 0.8]%float]> (<[js "d-0" := [0; 1]%float]> ∅));
     openai := true |}.

(** An embedding service that answers every query with one fixed vector. *)
Definition sampleQueryApi (query : jsstring) : option (list (list float)) :=
  Some [[0.6; 0.8]%float].

(** A result whose score is not a number. *)
Definition nanResult : SearchResult :=
  {| chunk := bareChunk; score := nan |}.

(** A page that carries its text but no id. *)
Definition notePage (text : jsstring) : NotionPage :=
  {| page_id := None;
     page_url := None;
     last_edited_time := None;
     page_content := Some text;
     metadata_properties := None;
     page_properties := None |}.

(** A service that answers a batch of two texts with two different vectors. *)
Definition twoVectorsApi (i : nat) (texts : list jsstring)
  : option (list (list float)) :=
  Some [[1; 0]%float; [0; 1]%float].

(** A chunk whose vector is all zeros. *)
Definition zeroChunk : DocumentChunk :=
  sampleChunk (js "z-0") (js "빈 문서") (Some [0; 0]%float).

(** A store in which one chunk has an all-zero vector. *)
Definition zeroStore : RAGSystem :=
  {| chunks := [freshChunk; zeroChunk; staleChunk];
     embeddings :=
       <[js "a-0" := [1; 0]%float]>
         (<[js "z-0" := [0; 0]%float]> (<[js "b-0" := [0.6; 0.8]%float]> ∅));
     openai := true |}.

(** A service that answers every text with the same vector. *)
Definition constantApi (i : nat) (texts : list jsstring)
  : option (list (list float)) :=
  Some (map (fun _ => [0.6; 0.8]%float) texts).

(** A service that answers the first batch and fails from the second on. *)
Definition firstBatchOnly (i : nat) (texts : list jsstring)
  : option (list (list float)) :=
  if (i =? 0)%nat then Some (map (fun _ => [0.6; 0.8]%float) texts) else None.

(** An instance with a client and the chunks of one long page, more than one
    batch of them. *)
Definition longStore : RAGSystem :=
  processNotionData (H := seoulHost) (js "2026-11-02T00:00:00.000Z")
    [notePage (repeat 97 (1000 * 100))] (initializeOpenAI newRAGSystem).

(** A chunk naming the day after [sampleNow]. *)
Definition soonChunk : DocumentChunk :=
  sampleChunk (js "e-0") (js "회의 2026-11-03") (Some [1; 0]%float).

(** A locale that prints a time stamp as it is written. *)
Definition plainLocale : Locale :=
  {| toLocaleString := fun s => s; toLocaleDateString := fun s => s |}.

(** A property of a given type that holds nothing. *)
Definition bareProperty (t : jsstring) : Notion.Property :=
  {| Notion.type := t;
     Notion.title := None;
     Notion.rich_text := None;
     Notion.number := None;
     Notion.select := None;
     Notion.multi_select := None;
     Notion.date := None;
     Notion.checkbox := None;
     Notion.url := None;
     Notion.email := None;
     Notion.phone_number := None |}.

Definition titleProperty (s : jsstring) : Notion.Property :=
  {| Notion.type := js "title";
     Notion.title := Some [ {| Notion.plain_text := s |} ];
     Notion.rich_text := None;
     Notion.number := None;
     Notion.select := None;
     Notion.multi_select := None;
     Notion.date := None;
     Notion.checkbox := None;
     Notion.url := None;
     Notion.email := None;
     Notion.phone_number := None |}.

Definition dateProperty (s : jsstring) : Notion.Property :=
  {| Notion.type := js "date";
     Notion.title := None;
     Notion.rich_text := None;
     Notion.number := None;
     Notion.select := None;
     Notion.multi_select := None;
     Notion.date := Some {| Notion.start := s; Notion.end_ := None |};
     Notion.checkbox := None;
     Notion.url := None;
     Notion.email := None;
     Notion.phone_number := None |}.

(** A page with a title, a date and a checkbox. *)
Definition meetingPage : Notion.Page :=
  {| Notion.id := js "p1";
     Notion.properties :=
       [ (js "이름", titleProperty (js "회의"));
         (js "Date", dateProperty (js "2026-11-03"));
         (js "완료", bareProperty (js "checkbox")) ];
     Notion.page_url := js "https://www.notion.so/p1";
     Notion.created_time := js "2026-11-01T00:00:00.000Z";
     Notion.last_edited_time := js "2026-11-01T00:00:00.000Z" |}.

(** A database that answers with one page of results. *)
Definition oneAnswer (pages : list Notion.Page)
    (cursor : option jsstring) : Awaited Notion.QueryResponse :=
  Resolved {| Notion.results := pages;
              Notion.has_more := false;
              Notion.next_cursor := None |}.

(** A paragraph block. *)
Definition bareBlock (t : jsstring) : Notion.Block :=
  {| Notion.block_type := t;
     Notion.paragraph := None;
     Notion.heading_1 := None;
     Notion.heading_2 := None;
     Notion.heading_3 := None;
     Notion.bulleted_list_item := None;
     Notion.numbered_list_item := None;
     Notion.to_do := None;
     Notion.code := None;
     Notion.quote := None |}.

(** A page dated in 2022. *)
Definition oldPage : Notion.Page :=
  {| Notion.id := js "p0";
     Notion.properties :=
       [ (js "이름", titleProperty (js "워크숍"));
         (js "Date", dateProperty (js "2022-03-01")) ];
     Notion.page_url := js "https://www.notion.so/p0";
     Notion.created_time := js "2022-03-01T00:00:00.000Z";
     Notion.last_edited_time := js "2022-03-01T00:00:00.000Z" |}.

(** A database that answers in two calls: the first answer leads on with a
    cursor, the answer to that cursor is the last. *)
Definition firstAnswer : Notion.QueryResponse :=
  {| Notion.results := [meetingPage];
     Notion.has_more := true;
     Notion.next_cursor := Some (js "cursor-1") |}.

Definition lastAnswer : Notion.QueryResponse :=
  {| Notion.results := [oldPage];
     Notion.has_more := false;
     Notion.next_cursor := None |}.

Definition twoAnswers (cursor : option jsstring)
  : Awaited Notion.QueryResponse :=
  match cursor with
  | None => Resolved firstAnswer
  | Some _ => Resolved lastAnswer
  end.

(** A request to [api/initialize-rag] that finds no snapshot, a database of
    one page, an embedding service that answers and a disk that takes the
    snapshot. *)
Definition freshWorld : InitializeRag.World :=
  {| InitializeRag.file := NoFile;
     InitializeRag.query := oneAnswer [meetingPage];
     InitializeRag.embed := constantApi;
     InitializeRag.embedError := newError (js "rejected");
     InitializeRag.written := Written;
     InitializeRag.pageTime := js "2026-11-02T00:00:00.000Z";
     InitializeRag.saveTime := js "2026-11-02T00:00:01.000Z" |}.

(** The same request when a snapshot of [sampleStore] is on the disk. *)
Definition storedWorld : InitializeRag.World :=
  {| InitializeRag.file :=
       Stored (toSnapshot (js "2026-11-01T00:00:00.000Z") sampleStore);
     InitializeRag.query := oneAnswer [meetingPage];
     InitializeRag.embed := constantApi;
     InitializeRag.embedError := newError (js "rejected");
     InitializeRag.written := Written;
     InitializeRag.pageTime := js "2026-11-02T00:00:00.000Z";
     InitializeRag.saveTime := js "2026-11-02T00:00:01.000Z" |}.

(** A chat request over a database whose only page is dated in 2022. *)
Definition chatWorld : Chat.World :=
  {| Chat.query := oneAnswer [oldPage];
     Chat.embed := constantApi;
     Chat.embedQuery := sampleQueryApi;
     Chat.pageTime := js "2026-11-02T00:00:00.000Z";
     Chat.searchTime := sampleNow |}.

(* ================================================================= *)
(** * Properties *)

(* ================================================================= *)
(** ** Chunking *)

Section ChunkingFacts.
Variable text : jsstring.
Variable mk : nat -> jsstring -> DocumentChunk.

Lemma windowCount_step r :
  (0 < r)%nat -> windowCount r = S (windowCount (r - 800)).
Proof.
  intros Hr. unfold windowCount.
  destruct (le_lt_dec 800 r) as [Hge | Hlt].
  - replace (r + 799)%nat with ((r - 800 + 799) + 1 * 800)%nat by lia.
    rewrite Nat.div_add by lia. lia.
  - replace (r - 800)%nat with 0%nat by lia.
    change ((0 + 799) / 800)%nat with 0%nat.
    symmetry. apply (Nat.div_unique (r + 799) 800 1 (r - 1)); lia.
Qed.

Lemma windowCount_le r : (windowCount r <= r)%nat.
Proof.
  unfold windowCount. destruct r as [| r]; [reflexivity |].
  apply Nat.Div0.div_le_upper_bound. lia.
Qed.

(** The loop, once it has fuel for every window, lists the windows. *)
Lemma chunkLoop_windows fuel : forall startIndex index,
  (windowCount (length text - startIndex) <= fuel)%nat ->
  chunkLoop fuel text mk startIndex index =
  map (fun j =>
         mk (index + j)%nat
            (substring text (startIndex + 800 * j)
               (Nat.min (startIndex + 800 * j + 1000) (length text))))
      (seq 0 (windowCount (length text - startIndex))).
Proof.
  induction fuel as [| fuel IH]; intros startIndex index Hfuel.
  - replace (windowCount (length text - startIndex)) with 0%nat by lia.
    reflexivity.
  - cbn [chunkLoop].
    destruct (Nat.ltb_spec startIndex (length text)) as [Hlt | Hge].
    + rewrite windowCount_step in Hfuel |- * by lia.
      cbn [seq map]. f_equal.
      * f_equal; [lia |]. unfold chunkSize. f_equal; lia.
      * unfold chunkSize, overlap.
        replace (1000 - 200)%nat with 800%nat by reflexivity.
        rewrite IH
          by (replace (length text - (startIndex + 800))%nat
                with (length text - startIndex - 800)%nat by lia; lia).
        replace (length text - (startIndex + 800))%nat
          with (length text - startIndex - 800)%nat by lia.
        rewrite <- seq_shift, map_map.
        apply map_ext. intros j. f_equal; [lia |].
        replace (startIndex + 800 * S j)%nat
          with (startIndex + 800 + 800 * j)%nat by lia.
        reflexivity.
    + replace (length text - startIndex)%nat with 0%nat by lia.
      reflexivity.
Qed.
End ChunkingFacts.

(** The chunks of a long text in closed form. *)
Lemma splitIntoChunks_long nowISO text title_ page :
  (chunkSize < length text)%nat ->
  splitIntoChunks nowISO text title_ page =
  map (fun k =>
         mkChunk title_ page nowISO k (ceilDiv (length text) (chunkSize - overlap))
           (substring text (800 * k) (Nat.min (800 * k + 1000) (length text))))
      (seq 0 (windowCount (length text))).
Proof.
  intros Hlong. unfold splitIntoChunks.
  destruct (Nat.leb_spec (length text) chunkSize) as [Hle | _]; [lia |].
  rewrite chunkLoop_windows
    by (rewrite Nat.sub_0_r; apply windowCount_le).
  rewrite Nat.sub_0_r. apply map_ext. intros k. reflexivity.
Qed.

Lemma ceilDiv_windowCount L :
  ceilDiv L (chunkSize - overlap) = Z.of_nat (windowCount L).
Proof.
  unfold ceilDiv, windowCount, chunkSize, overlap.
  rewrite Nat2Z.inj_div, Nat2Z.inj_add. f_equal.
  change (Z.of_nat (1000 - 200)) with 800. change (Z.of_nat 799) with 799. lia.
Qed.

(** [windowCount L] is the ceiling of [L / 800]. *)
Lemma windowCount_ceiling L :
  (0 < L)%nat ->
  (800 * (windowCount L - 1) < L <= 800 * windowCount L)%nat.
Proof.
  intros HL. unfold windowCount.
  pose proof (Nat.div_mod_eq (L + 799) 800) as Hdm.
  pose proof (Nat.mod_upper_bound (L + 799) 800) as Hmod.
  lia.
Qed.

Lemma splitIntoChunks_lookup nowISO text title_ page k c :
  (chunkSize < length text)%nat ->
  splitIntoChunks nowISO text title_ page !! k = Some c ->
  (k < windowCount (length text))%nat
  /\ c = mkChunk title_ page nowISO k (ceilDiv (length text) (chunkSize - overlap))
           (substring text (800 * k) (Nat.min (800 * k + 1000) (length text))).
Proof.
  intros Hlong Hk. rewrite splitIntoChunks_long in Hk by assumption.
  rewrite list_lookup_fmap in Hk.
  destruct (seq 0 (windowCount (length text)) !! k) as [j |] eqn:Hj;
    [| discriminate].
  apply lookup_seq in Hj. destruct Hj as [-> Hlt].
  cbn in Hk. injection Hk as <-. split; [assumption | reflexivity].
Qed.

(** C6: a text of at most [chunkSize] (1000) characters is chunked into
    exactly one chunk, with [chunkIndex = 0], [totalChunks = 1] and the whole
    text as its content. *)
Theorem splitIntoChunks_single nowISO text title_ page :
  (length text <= chunkSize)%nat ->
  exists c,
    splitIntoChunks nowISO text title_ page = [c]
    /\ chunkIndex (metadata c) = Some 0
    /\ totalChunks (metadata c) = Some 1
    /\ content c = text.
Proof.
  intros Hshort. unfold splitIntoChunks.
  destruct (Nat.leb_spec (length text) chunkSize) as [_ | Hgt]; [| lia].
  eexists. split; [reflexivity |]. cbn. auto.
Qed.

Lemma splitIntoChunks_single_witness :
  exists c,
    splitIntoChunks (js "2026-11-02T00:00:00.000Z") (js "회의 2025-06-27")
      (js "T") (samplePage None) = [c]
    /\ chunkIndex (metadata c) = Some 0
    /\ totalChunks (metadata c) = Some 1
    /\ content c = js "회의 2025-06-27".
Proof.
  apply splitIntoChunks_single. apply Nat.leb_le. reflexivity.
Defined.

(** C2: a text of [L > 1000] characters is chunked into [ceil(L / 800)]
    chunks; every chunk carries that number as [totalChunks]; chunk [k] is the
    window [[800k, min(800k + 1000, L))]; what a chunk holds beyond its first
    800 characters is the beginning of the next chunk, 200 characters unless
    the next chunk is the last one and shorter than that; a text of 1500
    characters gives the two windows [[0,1000)] and [[800,1500)]. *)
Theorem splitIntoChunks_windows nowISO text title_ page :
  (chunkSize < length text)%nat ->
  let cs := splitIntoChunks nowISO text title_ page in
  let step := (chunkSize - overlap)%nat in
  Z.of_nat (length cs) = ceilDiv (length text) step
  /\ (step * (length cs - 1) < length text <= step * length cs)%nat
  /\ (forall c, In c cs -> totalChunks (metadata c) = Some (Z.of_nat (length cs)))
  /\ (forall k c, cs !! k = Some c ->
        chunkIndex (metadata c) = Some (Z.of_nat k)
        /\ content c =
           substring text (step * k) (Nat.min (step * k + chunkSize) (length text)))
  /\ (forall k c c', cs !! k = Some c -> cs !! S k = Some c' ->
        skipn step (content c) = firstn overlap (content c')
        /\ (length (firstn overlap (content c')) = overlap
            \/ (S (S k) = length cs /\ (length (content c') < overlap)%nat)))
  /\ (length text = 1500%nat ->
      map content cs = [substring text 0 1000; substring text 800 1500]).
Proof.
  intros Hlong cs step. subst step.
  assert (Hlen : length cs = windowCount (length text)).
  { unfold cs. rewrite splitIntoChunks_long by assumption.
    rewrite length_map, length_seq. reflexivity. }
  change (chunkSize - overlap)%nat with 800%nat.
  pose proof (windowCount_ceiling (length text)) as Hceil.
  split; [| split; [| split; [| split; [| split]]]].
  - rewrite Hlen. symmetry. apply ceilDiv_windowCount.
  - rewrite Hlen. apply Hceil. unfold chunkSize in Hlong. lia.
  - intros c Hin. apply list_elem_of_In, list_elem_of_lookup in Hin.
    destruct Hin as [k Hk].
    apply splitIntoChunks_lookup in Hk; [| assumption].
    destruct Hk as [_ ->]. cbn. rewrite Hlen, ceilDiv_windowCount. reflexivity.
  - intros k c Hk. apply splitIntoChunks_lookup in Hk; [| assumption].
    destruct Hk as [_ ->]. cbn. auto.
  - intros k c c' Hk Hk'.
    apply splitIntoChunks_lookup in Hk; [| assumption].
    apply splitIntoChunks_lookup in Hk'; [| assumption].
    destruct Hk as [_ ->]. destruct Hk' as [Hlt ->]. cbn [content mkChunk].
    rewrite Hlen. unfold substring, overlap.
    assert (Hstart : (800 * S k < length text)%nat).
    { assert (0 < length text)%nat as Hpos by lia. specialize (Hceil Hpos). lia. }
    rewrite skipn_firstn_comm, drop_drop, take_take, length_take, length_take,
      length_drop.
    replace (800 * k + 800)%nat with (800 * S k)%nat by lia.
    split.
    + f_equal. lia.
    + destruct (le_lt_dec (800 * S k + 200) (length text)) as [Hfull | Hpart].
      * left. lia.
      * right. split; [| lia].
        assert (0 < length text)%nat as Hpos by lia. specialize (Hceil Hpos).
        lia.
  - intros H1500. unfold cs. rewrite splitIntoChunks_long by assumption.
    rewrite H1500. reflexivity.
Qed.

Lemma splitIntoChunks_windows_witness :
  let text := repeat 65 1500 in
  let cs := splitIntoChunks (js "2026-11-02T00:00:00.000Z") text (js "T")
              (samplePage None) in
  (chunkSize < length text)%nat
  /\ Z.of_nat (length cs) = 2
  /\ map content cs = [substring text 0 1000; substring text 800 1500].
Proof.
  intros text cs.
  assert (Hlong : (chunkSize < length text)%nat)
    by (apply Nat.ltb_lt; vm_compute; reflexivity).
  pose proof (splitIntoChunks_windows (js "2026-11-02T00:00:00.000Z") text
                (js "T") (samplePage None) Hlong) as (Hcount & _ & _ & _ & _ & Hscen).
  cbv zeta in Hcount, Hscen. fold cs in Hcount, Hscen.
  split; [exact Hlong |]. split.
  - rewrite Hcount. vm_compute. reflexivity.
  - apply Hscen. vm_compute. reflexivity.
Defined.

(* ================================================================= *)
(** ** The scoring loop *)

(** Stepping through [scoreChunk] on its tests. *)
Ltac score_cases :=
  repeat match goal with
         | |- context [if ?b then _ else _] => destruct b eqn:?
         | |- context [match ?o with Some _ => _ | None => _ end] =>
           destruct o eqn:?
         end.

Section SearchFacts.
Context `{Host}.

Lemma scoreChunk_chunk now query q c r :
  scoreChunk now query q c = Some r ->
  chunk r = c /\ exists e, embedding c = Some e.
Proof.
  unfold scoreChunk. destruct (embedding c) as [e |]; [| discriminate].
  intros Hr. split; [| eauto]. revert Hr. score_cases; intros Hr;
    try discriminate; injection Hr as <-; reflexivity.
Qed.

Lemma similarities_In now query q st r :
  In r (similarities now query q st) <->
  exists c, In c (chunks st) /\ scoreChunk now query q c = Some r.
Proof.
  unfold similarities. rewrite <- list_elem_of_In, list_elem_of_omap.
  split; intros (c & Hc & Hr); exists c; split;
    try assumption; apply list_elem_of_In; assumption.
Qed.

Lemma insertSorted_Permutation x l : Permutation (insertSorted x l) (x :: l).
Proof.
  induction l as [| y l IH]; cbn [insertSorted]; [reflexivity |].
  destruct (0 <? compareFn x y)%float; [| reflexivity].
  rewrite IH. apply perm_swap.
Qed.

Lemma sortResults_Permutation l : Permutation (sortResults l) l.
Proof.
  induction l as [| x l IH]; cbn [sortResults foldr]; [reflexivity |].
  rewrite insertSorted_Permutation. constructor. exact IH.
Qed.

Lemma sliceTo_In {A} (l : list A) k x : In x (sliceTo l k) -> In x l.
Proof.
  unfold sliceTo. destruct (k <? 0); intros Hx;
    apply list_elem_of_In in Hx; apply list_elem_of_In;
    eapply subseteq_take; exact Hx.
Qed.

(** Whatever the search returns was pushed by the loop for some chunk. *)
Lemma searchSimilarChunks_In api now query topK st results r :
  searchSimilarChunks api now query topK st = Some results ->
  In r results ->
  exists q c,
    getQueryEmbedding api query st = Some q
    /\ In c (chunks st)
    /\ scoreChunk now query q c = Some r.
Proof.
  unfold searchSimilarChunks.
  destruct (getQueryEmbedding api query st) as [q |]; [| discriminate].
  intros Hres Hr. injection Hres as <-.
  apply sliceTo_In in Hr.
  apply (Permutation_in _ (sortResults_Permutation _)) in Hr.
  apply similarities_In in Hr. destruct Hr as (c & Hc & Hs).
  exists q, c. auto.
Qed.
End SearchFacts.

Section ScoringFacts.
Context `{Host}.

(** C4: when the query matches none of the three keyword families, the loop
    pushes one result per chunk that has an embedding, scored with the raw
    cosine similarity, so nothing is dropped for date reasons and every
    returned score is exactly the cosine similarity of the query vector and
    the chunk's own vector. *)
Theorem searchSimilarChunks_plain api now query topK st results :
  isRecentQuery query = false ->
  isUpcomingQuery query = false ->
  isPastQuery query = false ->
  searchSimilarChunks api now query topK st = Some results ->
  exists q,
    getQueryEmbedding api query st = Some q
    /\ similarities now query q st =
       omap (fun c =>
               match embedding c with
               | Some e => Some {| chunk := c; score := cosineSimilarity q e |}
               | None => None
               end)
            (chunks st)
    /\ results = sliceTo (sortResults (similarities now query q st)) topK
    /\ forall r, In r results ->
         exists e, embedding (chunk r) = Some e
                   /\ score r = cosineSimilarity q e.
Proof.
  intros Hrecent Hupcoming Hpast Hsearch.
  assert (Hplain : forall q c,
             scoreChunk now query q c =
             match embedding c with
             | Some e => Some {| chunk := c; score := cosineSimilarity q e |}
             | None => None
             end).
  { intros q c. unfold scoreChunk.
    rewrite Hrecent, Hupcoming, Hpast. reflexivity. }
  pose proof Hsearch as Hshape. unfold searchSimilarChunks in Hshape.
  destruct (getQueryEmbedding api query st) as [q |] eqn:Hq; [| discriminate].
  injection Hshape as Hshape. exists q.
  split; [reflexivity |]. split; [| split].
  - unfold similarities.
    induction (chunks st) as [| c l IH]; [reflexivity |].
    cbn. rewrite Hplain, IH. reflexivity.
  - symmetry. exact Hshape.
  - intros r Hr.
    destruct (searchSimilarChunks_In _ _ _ _ _ _ _ Hsearch Hr)
      as (q' & c & Hq' & _ & Hscore).
    assert (q' = q) as -> by congruence.
    rewrite Hplain in Hscore.
    destruct (embedding c) as [e |] eqn:He; [| discriminate].
    injection Hscore as <-. exists e. cbn. auto.
Qed.

(** C1, as the code has it: for a query of the recent family and a chunk
    with an embedding whose dates are not empty and all lie outside the
    seven days around [now], the loop pushes nothing for the chunk exactly
    when at least one of its dates has a year before 2024; otherwise it
    pushes the chunk with the cosine similarity times 0.3.  A chunk for
    which nothing was pushed is in no returned list. *)
Theorem scoreChunk_recent_outside now query q c e :
  isRecentQuery query = true ->
  embedding c = Some e ->
  extractDatesFromChunk c <> [] ->
  (forall d, In d (extractDatesFromChunk c) ->
             ~ (now - sevenDays <= d <= now + sevenDays)) ->
  (scoreChunk now query q c = None <->
   exists d, In d (extractDatesFromChunk c) /\ getFullYear d < 2024)
  /\ (scoreChunk now query q c <> None ->
      scoreChunk now query q c =
      Some {| chunk := c; score := (cosineSimilarity q e * 0.3)%float |})
  /\ (forall api topK st results,
        getQueryEmbedding api query st = Some q ->
        searchSimilarChunks api now query topK st = Some results ->
        scoreChunk now query q c = None ->
        forall r, In r results -> chunk r <> c)
  /\ (forall st,
        In c (chunks st) ->
        scoreChunk now query q c <> None ->
        In {| chunk := c; score := (cosineSimilarity q e * 0.3)%float |}
           (similarities now query q st)).
Proof.
  intros Hrecent He Hdates Hout.
  assert (Hno : dateMatches query now (extractDatesFromChunk c) = false).
  { unfold dateMatches. rewrite Hrecent.
    apply not_true_is_false. intros Hex.
    apply existsb_exists in Hex. destruct Hex as (d & Hd & Hin).
    apply (Hout d Hd). lia. }
  assert (Hlen : (0 <? length (extractDatesFromChunk c))%nat = true).
  { destruct (extractDatesFromChunk c); [congruence | reflexivity]. }
  assert (Hshape : scoreChunk now query q c =
            if existsb (fun d => getFullYear d <? 2024) (extractDatesFromChunk c)
            then None
            else Some {| chunk := c;
                         score := (cosineSimilarity q e * 0.3)%float |}).
  { unfold scoreChunk. rewrite He, Hrecent, Hlen, Hno. reflexivity. }
  split; [| split; [| split]].
  - rewrite Hshape.
    destruct (existsb _ (extractDatesFromChunk c)) eqn:Hold.
    + split; [| reflexivity]. intros _.
      apply existsb_exists in Hold. destruct Hold as (d & Hd & Hy).
      exists d. split; [assumption | lia].
    + split; [discriminate |]. intros (d & Hd & Hy).
      assert (existsb (fun d => getFullYear d <? 2024)
                      (extractDatesFromChunk c) = true) as Hcontra.
      { apply existsb_exists. exists d. split; [assumption | lia]. }
      congruence.
  - rewrite Hshape.
    destruct (existsb _ (extractDatesFromChunk c)); congruence.
  - intros api topK st results Hq Hsearch Hdrop r Hr Hchunk.
    destruct (searchSimilarChunks_In _ _ _ _ _ _ _ Hsearch Hr)
      as (q' & c' & Hq' & _ & Hscore).
    assert (q' = q) as -> by congruence.
    apply scoreChunk_chunk in Hscore as Hc'. destruct Hc' as [Hc' _].
    congruence.
  - intros st Hc Hkept. apply similarities_In. exists c. split; [exact Hc |].
    rewrite Hshape in Hkept |- *.
    destruct (existsb _ (extractDatesFromChunk c)); congruence.
Qed.
End ScoringFacts.

Section ScoringSamples.
#[local] Existing Instance seoulHost.

Lemma searchSimilarChunks_plain_witness :
  exists results,
    searchSimilarChunks sampleQueryApi sampleNow (js "회의록 정리") 5 sampleStore
    = Some results
    /\ length results = 3%nat
    /\ forall r, In r results ->
         exists e, embedding (chunk r) = Some e
                   /\ score r = cosineSimilarity [0.6; 0.8]%float e.
Proof.
  eexists. split; [vm_compute; reflexivity |]. split; [reflexivity |].
  intros r Hr.
  destruct (searchSimilarChunks_plain sampleQueryApi sampleNow
              (js "회의록 정리") 5 sampleStore _
              ltac:(vm_compute; reflexivity) ltac:(vm_compute; reflexivity)
              ltac:(vm_compute; reflexivity) ltac:(vm_compute; reflexivity))
    as (q & Hq & _ & _ & Hscores).
  vm_compute in Hq. injection Hq as <-.
  apply Hscores. exact Hr.
Defined.

(** C1 as stated fails: [staleChunk] names a day of 2022 and a day of 2025,
    none of them within seven days of [sampleNow]; for a recent query the
    loop pushes nothing for it although not every date is before 2024. *)
Lemma recent_drop_with_a_2025_date :
  let query := js "최근 일정" in
  let dates := extractDatesFromChunk staleChunk in
  isRecentQuery query = true
  /\ embedding staleChunk = Some [0.6; 0.8]%float
  /\ dates = [newDate 2022 0 1; newDate 2025 0 1]
  /\ (forall d, In d dates ->
                ~ (sampleNow - sevenDays <= d <= sampleNow + sevenDays))
  /\ scoreChunk sampleNow query [0.6; 0.8]%float staleChunk = None
  /\ ~ (forall d, In d dates -> getFullYear d < 2024).
Proof.
  intros query dates.
  assert (Hdates : dates = [newDate 2022 0 1; newDate 2025 0 1])
    by (vm_compute; reflexivity).
  split; [vm_compute; reflexivity |]. split; [reflexivity |].
  split; [exact Hdates |]. split; [| split].
  - rewrite Hdates. intros d [<- | [<- | []]]; vm_compute; intros [H1 H2];
      try (apply H1; reflexivity); try (apply H2; reflexivity).
  - vm_compute. reflexivity.
  - rewrite Hdates. intros Hall.
    specialize (Hall (newDate 2025 0 1) ltac:(right; left; reflexivity)).
    vm_compute in Hall. discriminate.
Qed.

Lemma scoreChunk_recent_outside_witness :
  let query := js "최근 일정" in
  let q := [0.6; 0.8]%float in
  (scoreChunk sampleNow query q staleChunk = None <->
   exists d, In d (extractDatesFromChunk staleChunk) /\ getFullYear d < 2024)
  /\ (scoreChunk sampleNow query q staleChunk <> None ->
      scoreChunk sampleNow query q staleChunk =
      Some {| chunk := staleChunk;
              score := (cosineSimilarity q [0.6; 0.8]%float * 0.3)%float |})
  /\ (forall api topK st results,
        getQueryEmbedding api query st = Some q ->
        searchSimilarChunks api sampleNow query topK st = Some results ->
        scoreChunk sampleNow query q staleChunk = None ->
        forall r, In r results -> chunk r <> staleChunk)
  /\ (forall st,
        In staleChunk (chunks st) ->
        scoreChunk sampleNow query q staleChunk <> None ->
        In {| chunk := staleChunk;
              score := (cosineSimilarity q [0.6; 0.8]%float * 0.3)%float |}
           (similarities sampleNow query q st)).
Proof.
  intros query q.
  apply (scoreChunk_recent_outside sampleNow query q staleChunk [0.6; 0.8]%float).
  - vm_compute. reflexivity.
  - reflexivity.
  - vm_compute. discriminate.
  - intros d Hd. vm_compute in Hd.
    destruct Hd as [<- | [<- | []]]; vm_compute; intros [H1 H2];
      try (apply H1; reflexivity); try (apply H2; reflexivity).
Defined.
End ScoringSamples.

(* ================================================================= *)
(** ** Date extraction *)

(** Every local midnight the text loops can build lies in the year that was
    read from the text. *)
Lemma YearFromDay_MakeDay year month day :
  2020 <= year <= 2030 -> 0 <= month <= 11 -> 1 <= day <= 31 ->
  YearFromDay (MakeDay year month day) = year.
Proof.
  intros Hy Hm Hd.
  assert (Hall :
    forallb (fun y =>
      forallb (fun m =>
        forallb (fun d => YearFromDay (MakeDay y m d) =? y) (seqZ 1 31))
        (seqZ 0 12))
      (seqZ 2020 11) = true) by (vm_compute; reflexivity).
  rewrite forallb_forall in Hall.
  specialize (Hall year). rewrite <- list_elem_of_In, elem_of_seqZ in Hall.
  specialize (Hall ltac:(lia)). rewrite forallb_forall in Hall.
  specialize (Hall month). rewrite <- list_elem_of_In, elem_of_seqZ in Hall.
  specialize (Hall ltac:(lia)). rewrite forallb_forall in Hall.
  specialize (Hall day). rewrite <- list_elem_of_In, elem_of_seqZ in Hall.
  specialize (Hall ltac:(lia)). lia.
Qed.

Lemma iso_2031 : js "2031-01-01" = [50; 48; 51; 49; 45; 48; 49; 45; 48; 49].
Proof. reflexivity. Qed.

Lemma isYearSep_hyphen : isYearSep 45 = false.
Proof. reflexivity. Qed.

Lemma execAll_miss {A} (re : jsstring -> option (A * jsstring)) c s :
  re (c :: s) = None -> execAll re (c :: s) 0 = execAll re s 0.
Proof. intros Hre. cbn [execAll]. rewrite Hre. reflexivity. Qed.

Lemma execAll_hit {A} (re : jsstring -> option (A * jsstring)) c s v rest :
  re (c :: s) = Some (v, rest) ->
  execAll re (c :: s) 0 = v :: execAll re s (length s - length rest).
Proof. intros Hre. cbn [execAll]. rewrite Hre. reflexivity. Qed.

Section ScanFacts.
Context {A : Type}.
Variable re : jsstring -> option (A * jsstring).
Hypothesis re_digit : forall c s, isDigit c = false -> re (c :: s) = None.

Lemma execAll_skip l s : execAll re (l ++ s) (length l) = execAll re s 0.
Proof.
  induction l as [| c l IH]; cbn [app length execAll].
  - destruct s; reflexivity.
  - exact IH.
Qed.

Lemma execAll_no_digit_prefix pre s :
  Forall (fun c => isDigit c = false) pre ->
  execAll re (pre ++ s) 0 = execAll re s 0.
Proof.
  induction 1 as [| c pre Hc _ IH]; [reflexivity |].
  cbn [app execAll]. rewrite re_digit by exact Hc. exact IH.
Qed.

Lemma execAll_no_digit s :
  Forall (fun c => isDigit c = false) s -> execAll re s 0 = [].
Proof.
  intros Hs. rewrite <- (app_nil_r s).
  rewrite execAll_no_digit_prefix by exact Hs. reflexivity.
Qed.
End ScanFacts.

Lemma digitsExact_no_digit n c s :
  isDigit c = false -> digitsExact (S n) (c :: s) = None.
Proof. intros Hc. cbn [digitsExact]. rewrite Hc. reflexivity. Qed.

Lemma matchKoreanDate_no_digit c s :
  isDigit c = false -> matchKoreanDate (c :: s) = None.
Proof.
  intros Hc. unfold matchKoreanDate. rewrite digitsExact_no_digit by exact Hc.
  reflexivity.
Qed.

Lemma matchIsoDate_no_digit c s :
  isDigit c = false -> matchIsoDate (c :: s) = None.
Proof.
  intros Hc. unfold matchIsoDate. rewrite digitsExact_no_digit by exact Hc.
  reflexivity.
Qed.

(** Four digits cannot be read where one of the first four characters is
    missing or is no digit. *)
Lemma digitsExact_4_short s :
  (exists l r, s = l ++ r /\ (length l < 4)%nat
               /\ match r with [] => True | c :: _ => isDigit c = false end) ->
  digitsExact 4 s = None.
Proof.
  intros (l & r & -> & Hlen & Hr).
  destruct l as [| c1 [| c2 [| c3 [| c4 l]]]]; cbn [length] in Hlen; try lia;
    cbn [app digitsExact];
    repeat match goal with
           | |- context [isDigit ?c] => destruct (isDigit c) eqn:?
           end;
    try reflexivity; destruct r as [| c r]; try reflexivity;
    cbn [digitsExact]; rewrite Hr; reflexivity.
Qed.

(** In a text whose only digits are those of [2031-01-01] the localized
    pattern matches nowhere and the ISO pattern matches once. *)
Lemma execAll_korean_2031 pre post :
  Forall (fun c => isDigit c = false) pre ->
  Forall (fun c => isDigit c = false) post ->
  execAll matchKoreanDate (pre ++ js "2031-01-01" ++ post) 0 = [].
Proof.
  intros Hpre Hpost.
  rewrite (execAll_no_digit_prefix _ matchKoreanDate_no_digit) by exact Hpre.
  rewrite iso_2031. cbn [app].
  assert (Hhead : match post with [] => True | c :: _ => isDigit c = false end).
  { destruct Hpost; [exact I | assumption]. }
  assert (Hfail : forall l, (length l < 4)%nat ->
                    matchKoreanDate (l ++ post) = None).
  { intros l Hl. unfold matchKoreanDate.
    rewrite digitsExact_4_short; [reflexivity |]. exists l, post. auto. }
  assert (Hfail' : forall l r, (length l < 4)%nat -> isDigit (hd 0 r) = false ->
                     r <> [] -> matchKoreanDate (l ++ r) = None).
  { intros l r Hl Hr Hne. unfold matchKoreanDate.
    rewrite digitsExact_4_short; [reflexivity |]. exists l, r.
    destruct r; [congruence | auto]. }
  assert (H0 : matchKoreanDate
                 (50 :: 48 :: 51 :: 49 :: 45 :: 48 :: 49 :: 45 :: 48 :: 49 :: post)
               = None).
  { unfold matchKoreanDate. cbn [digitsExact].
    change (isDigit 50) with true. change (isDigit 48) with true.
    change (isDigit 51) with true. change (isDigit 49) with true.
    cbn [dropWhile]. rewrite isYearSep_hyphen.
    cbn [digitsExact]. change (isDigit 45) with false. reflexivity. }
  rewrite execAll_miss by exact H0.
  rewrite execAll_miss
    by (apply (Hfail' [48; 51; 49]); cbn; (lia || reflexivity || discriminate)).
  rewrite execAll_miss
    by (apply (Hfail' [51; 49]); cbn; (lia || reflexivity || discriminate)).
  rewrite execAll_miss
    by (apply (Hfail' [49]); cbn; (lia || reflexivity || discriminate)).
  rewrite execAll_miss
    by (apply (Hfail' []); cbn; (lia || reflexivity || discriminate)).
  rewrite execAll_miss
    by (apply (Hfail' [48; 49]); cbn; (lia || reflexivity || discriminate)).
  rewrite execAll_miss
    by (apply (Hfail' [49]); cbn; (lia || reflexivity || discriminate)).
  rewrite execAll_miss
    by (apply (Hfail' []); cbn; (lia || reflexivity || discriminate)).
  rewrite execAll_miss by (apply (Hfail [48; 49]); cbn; lia).
  rewrite execAll_miss by (apply (Hfail [49]); cbn; lia).
  apply execAll_no_digit; [apply matchKoreanDate_no_digit | exact Hpost].
Qed.

Lemma execAll_iso_2031 pre post :
  Forall (fun c => isDigit c = false) pre ->
  Forall (fun c => isDigit c = false) post ->
  execAll matchIsoDate (pre ++ js "2031-01-01" ++ post) 0 = [(2031, 1, 1)].
Proof.
  intros Hpre Hpost.
  rewrite (execAll_no_digit_prefix _ matchIsoDate_no_digit) by exact Hpre.
  rewrite iso_2031. cbn [app].
  assert (H0 : matchIsoDate
                 (50 :: 48 :: 51 :: 49 :: 45 :: 48 :: 49 :: 45 :: 48 :: 49 :: post)
               = Some (2031, 1, 1, post)) by reflexivity.
  rewrite (execAll_hit _ _ _ _ _ H0). f_equal.
  change (48 :: 51 :: 49 :: 45 :: 48 :: 49 :: 45 :: 48 :: 49 :: post)
    with ([48; 51; 49; 45; 48; 49; 45; 48; 49] ++ post).
  generalize [48; 51; 49; 45; 48; 49; 45; 48; 49]. intros l.
  replace (length (l ++ post) - length post)%nat with (length l)
    by (rewrite length_app; lia).
  rewrite execAll_skip.
  apply execAll_no_digit; [apply matchIsoDate_no_digit | exact Hpost].
Qed.

Section DateFacts.
Context `{Host}.

Lemma getFullYear_newDate year month day :
  2020 <= year <= 2030 -> 0 <= month <= 11 -> 1 <= day <= 31 ->
  getFullYear (newDate year month day) = year.
Proof.
  intros Hy Hm Hd. unfold getFullYear, newDate.
  destruct (Z.leb_spec 0 year); [| lia].
  destruct (Z.leb_spec year 99); [lia |]. cbn [andb].
  replace (MakeDay year month day * msPerDay - LocalTZA + LocalTZA)
    with (MakeDay year month day * msPerDay) by lia.
  rewrite Z.div_mul by (unfold msPerDay; lia).
  apply YearFromDay_MakeDay; assumption.
Qed.

Lemma acceptDate_spec year m day date :
  acceptDate (year, m, day) = Some date <->
  2020 <= year <= 2030 /\ 1 <= m <= 12 /\ 1 <= day <= 31
  /\ date = newDate year (m - 1) day.
Proof.
  unfold acceptDate.
  destruct (Z.leb_spec 2020 year); destruct (Z.leb_spec year 2030);
    destruct (Z.leb_spec 0 (m - 1)); destruct (Z.leb_spec (m - 1) 11);
    destruct (Z.leb_spec 1 day); destruct (Z.leb_spec day 31);
    cbn [andb]; split;
    try discriminate; try (intros (? & ? & ? & ?); lia).
  - intros Hd. injection Hd as <-. repeat split; lia.
  - intros (_ & _ & _ & ->). reflexivity.
Qed.

Lemma textDates_In text d :
  In d (textDates text) -> 2020 <= getFullYear d <= 2030.
Proof.
  unfold textDates. rewrite in_app_iff, <- !list_elem_of_In, !list_elem_of_omap.
  intros [([[year m] day] & _ & Hacc) | ([[year m] day] & _ & Hacc)];
    apply acceptDate_spec in Hacc; destruct Hacc as (Hy & Hm & Hd & ->);
    rewrite getFullYear_newDate; lia.
Qed.

Lemma propertyDates_In props d :
  In d (propertyDates props) -> 2020 <= getFullYear d <= 2030.
Proof.
  destruct props as [entries |]; [| intros []]. cbn [propertyDates].
  rewrite <- list_elem_of_In, list_elem_of_omap.
  intros ([key value] & _ & Hd). unfold propertyDate in Hd.
  destruct (isDateKey key); [| discriminate].
  destruct value as [s | | |]; try discriminate.
  destruct (DateParse s) as [d' |]; [| discriminate].
  destruct (Z.leb_spec 2020 (getFullYear d'));
    destruct (Z.leb_spec (getFullYear d') 2030);
    cbn [andb] in Hd; try discriminate.
  injection Hd as <-. lia.
Qed.

(** C5: the text loops push a date exactly for the matches whose year is in
    [2020, 2030], month in [1, 12] and day in [1, 31], so every extracted
    date lies in a year from 2020 to 2030; hence a chunk in whose text the
    two patterns find nothing but the ISO date [2031-01-01], and whose
    properties give no date, has no extracted date and is scored, for a query
    of the upcoming family, with the cosine similarity times 0.5.  This is the
    case of every text that has no digit outside one occurrence of
    [2031-01-01]. *)
Theorem extractDatesFromChunk_accepts :
  (forall year m day date,
      acceptDate (year, m, day) = Some date <->
      2020 <= year <= 2030 /\ 1 <= m <= 12 /\ 1 <= day <= 31
      /\ date = newDate year (m - 1) day)
  /\ (forall c d, In d (extractDatesFromChunk c) ->
                  2020 <= getFullYear d <= 2030)
  /\ (forall now query q c e,
        isUpcomingQuery query = true ->
        execAll matchKoreanDate (content c) 0 = [] ->
        execAll matchIsoDate (content c) 0 = [(2031, 1, 1)] ->
        propertyDates (properties (metadata c)) = [] ->
        embedding c = Some e ->
        extractDatesFromChunk c = []
        /\ scoreChunk now query q c =
           Some {| chunk := c; score := (cosineSimilarity q e * 0.5)%float |})
  /\ (forall now query q c e pre post,
        isUpcomingQuery query = true ->
        content c = pre ++ js "2031-01-01" ++ post ->
        Forall (fun ch => isDigit ch = false) pre ->
        Forall (fun ch => isDigit ch = false) post ->
        propertyDates (properties (metadata c)) = [] ->
        embedding c = Some e ->
        extractDatesFromChunk c = []
        /\ scoreChunk now query q c =
           Some {| chunk := c; score := (cosineSimilarity q e * 0.5)%float |}).
Proof.
  assert (Hscene : forall now query q c e,
             isUpcomingQuery query = true ->
             execAll matchKoreanDate (content c) 0 = [] ->
             execAll matchIsoDate (content c) 0 = [(2031, 1, 1)] ->
             propertyDates (properties (metadata c)) = [] ->
             embedding c = Some e ->
             extractDatesFromChunk c = []
             /\ scoreChunk now query q c =
                Some {| chunk := c;
                        score := (cosineSimilarity q e * 0.5)%float |}).
  { intros now query q c e Hup Hkorean Hiso Hprops He.
    assert (Hnone : extractDatesFromChunk c = []).
    { unfold extractDatesFromChunk, textDates.
      rewrite Hprops, Hkorean, Hiso. reflexivity. }
    split; [exact Hnone |].
    unfold scoreChunk. rewrite He, Hup, Hnone.
    rewrite orb_true_r. reflexivity. }
  split; [exact acceptDate_spec |]. split; [| split].
  - intros c d. unfold extractDatesFromChunk. rewrite in_app_iff.
    intros [Hd | Hd]; [eapply textDates_In | eapply propertyDates_In]; eassumption.
  - exact Hscene.
  - intros now query q c e pre post Hup Htext Hpre Hpost Hprops He.
    apply Hscene; try assumption; rewrite Htext.
    + apply execAll_korean_2031; assumption.
    + apply execAll_iso_2031; assumption.
Qed.
End DateFacts.

Section DateSamples.
#[local] Existing Instance seoulHost.

Lemma extractDatesFromChunk_accepts_witness :
  isUpcomingQuery (js "다가오는 일정") = true
  /\ extractDatesFromChunk farChunk = []
  /\ scoreChunk sampleNow (js "다가오는 일정") [0.6; 0.8]%float farChunk =
     Some {| chunk := farChunk;
             score := (cosineSimilarity [0.6; 0.8] [0; 1] * 0.5)%float |}.
Proof.
  split; [vm_compute; reflexivity |].
  destruct extractDatesFromChunk_accepts as (_ & _ & _ & Hscene).
  apply (Hscene sampleNow (js "다가오는 일정") [0.6; 0.8]%float farChunk
           [0; 1]%float (js "마감 ") (js " 예정")).
  - vm_compute. reflexivity.
  - vm_compute. reflexivity.
  - vm_compute. repeat constructor.
  - vm_compute. repeat constructor.
  - reflexivity.
  - reflexivity.
Defined.
End DateSamples.

(* ================================================================= *)
(** ** Formatting *)

Lemma decimalAux_acc fuel : forall n acc,
  decimalAux fuel n acc = decimalAux fuel n [] ++ acc.
Proof.
  induction fuel as [| fuel IH]; intros n acc; [reflexivity |].
  cbn [decimalAux]. destruct (n <? 10); [reflexivity |].
  rewrite IH, (IH _ [_]), <- app_assoc. reflexivity.
Qed.

Lemma decimalAux_S fuel n acc :
  decimalAux (S fuel) n acc =
  if n <? 10 then (48 + n mod 10) :: acc
  else decimalAux fuel (n / 10) ((48 + n mod 10) :: acc).
Proof. reflexivity. Qed.

(** More fuel than digits changes nothing. *)
Lemma decimalAux_fuel fuel : forall n extra,
  0 <= n < 10 ^ Z.of_nat (S fuel) ->
  decimalAux (S fuel + extra) n [] = decimalAux (S fuel) n [].
Proof.
  induction fuel as [| fuel IH]; intros n extra Hn.
  - cbn [Nat.add decimalAux]. change (10 ^ Z.of_nat 1) with 10 in Hn.
    destruct (Z.ltb_spec n 10); [reflexivity | lia].
  - change (S (S fuel) + extra)%nat with (S (S fuel + extra)).
    rewrite (decimalAux_S (S fuel + extra)), (decimalAux_S (S fuel)).
    destruct (Z.ltb_spec n 10) as [| Hbig]; [reflexivity |].
    rewrite decimalAux_acc, (decimalAux_acc (S fuel)). f_equal.
    apply (IH (n / 10) extra).
    rewrite Nat2Z.inj_succ, Z.pow_succ_r in Hn by lia.
    split; [apply Z.div_pos; lia |].
    apply Z.div_lt_upper_bound; lia.
Qed.

Lemma decimalAux_enough f1 f2 n :
  0 <= n < 10 ^ Z.of_nat (S f1) -> n < 10 ^ Z.of_nat (S f2) ->
  decimalAux (S f1) n [] = decimalAux (S f2) n [].
Proof.
  intros H1 H2. destruct (le_lt_dec f1 f2) as [Hle | Hlt].
  - replace (S f2) with (S f1 + (f2 - f1))%nat by lia.
    symmetry. apply decimalAux_fuel. exact H1.
  - replace (S f1) with (S f2 + (f1 - f2))%nat by lia.
    apply decimalAux_fuel. lia.
Qed.

Lemma decimal_fuel_enough n :
  0 <= n -> n < 10 ^ Z.of_nat (S (Z.to_nat (Z.log2 n))).
Proof.
  intros Hn. destruct (Z.eq_dec n 0) as [-> | Hpos]; [reflexivity |].
  pose proof (Z.log2_nonneg n) as Hlog.
  rewrite Nat2Z.inj_succ, Z2Nat.id by assumption.
  apply Z.lt_le_trans with (2 ^ Z.succ (Z.log2 n)).
  - apply Z.log2_spec. lia.
  - apply Z.pow_le_mono_l. lia.
Qed.

(** The digits of [n] are those of [n / 10] followed by the last digit. *)
Lemma decimal_step n :
  0 <= n ->
  decimal n = (if n <? 10 then [] else decimal (n / 10)) ++ [48 + n mod 10].
Proof.
  intros Hn. unfold decimal at 1. rewrite decimalAux_S.
  destruct (Z.ltb_spec n 10) as [| Hbig]; [reflexivity |].
  rewrite decimalAux_acc. f_equal. unfold decimal.
  assert (Hlog : 3 <= Z.log2 n) by (apply Z.log2_le_pow2; lia).
  destruct (Z.to_nat (Z.log2 n)) as [| f] eqn:Hf; [lia |].
  assert (0 <= n / 10) by (apply Z.div_pos; lia).
  apply decimalAux_enough.
  - split; [assumption |].
    apply Z.div_lt_upper_bound; [lia |].
    replace (Z.of_nat (S f)) with (Z.log2 n) by lia.
    pose proof (Z.log2_spec n ltac:(lia)) as [_ Hup].
    rewrite Z.pow_succ_r in Hup by lia.
    assert (2 ^ Z.log2 n <= 10 ^ Z.log2 n) by (apply Z.pow_le_mono_l; lia).
    lia.
  - apply decimal_fuel_enough. assumption.
Qed.

Lemma decimal_length n : 0 <= n -> (1 <= length (decimal n))%nat.
Proof.
  intros Hn. rewrite decimal_step by assumption.
  rewrite length_app. cbn. lia.
Qed.

(** With one fraction digit the integer part is [n / 10] and the fraction
    digit is [n mod 10]. *)
Lemma fixedDigits_1 n :
  0 <= n -> fixedDigits n 1 = decimal (n / 10) ++ js "." ++ [48 + n mod 10].
Proof.
  intros Hn. unfold fixedDigits. rewrite (decimal_step n) by assumption.
  destruct (Z.ltb_spec n 10) as [Hsmall | Hbig].
  - rewrite Z.div_small by lia. reflexivity.
  - pose proof (decimal_length (n / 10) ltac:(apply Z.div_pos; lia)) as Hlen.
    set (ds := decimal (n / 10)) in *.
    rewrite !length_app. cbn [length].
    replace (2 - (length ds + 1))%nat with 0%nat by lia.
    cbn [repeat app length].
    replace (0 + (length ds + 1) - 1)%nat with (length ds) by lia.
    rewrite take_app_length, drop_app_length. reflexivity.
Qed.

Section FormatFacts.
Context `{Host}.

Lemma formatSearchResults_fold results : forall index context,
  fold_left
    (fun '(index, context) result =>
       (S index, context ++ formatEntry index result))
    results (index, context)
  = ((index + length results)%nat,
     context ++ concat (imap (fun j => formatEntry (index + j)) results)).
Proof.
  induction results as [| r results IH]; intros index context.
  - cbn. rewrite Nat.add_0_r, app_nil_r. reflexivity.
  - cbn [fold_left]. rewrite IH. cbn [imap concat length].
    rewrite Nat.add_0_r, <- app_assoc. f_equal; [lia |]. do 3 f_equal.
    apply imap_ext. intros j x _. unfold compose.
    replace (index + S j)%nat with (S index + j)%nat by lia. reflexivity.
Qed.

(** Rendering of a finite number below 1e21 in magnitude. *)
Lemma toFixed_1_finite x s m e :
  Prim2SF x = S754_finite s m e ->
  atLeast1e21 m e = false ->
  let n := scaledRound m e 1 in
  0 <= n
  /\ toFixed x 1 =
     (if s then js "-" else []) ++ decimal (n / 10) ++ js "." ++ [48 + n mod 10].
Proof.
  intros Hx Hsmall n.
  assert (Hn : 0 <= n).
  { unfold n, scaledRound. change (10 ^ Z.of_nat 1) with 10.
    destruct (Z.leb_spec 0 e).
    - apply Z.mul_nonneg_nonneg; [lia |]. apply Z.pow_nonneg. lia.
    - apply Z.div_pos.
      + pose proof (Z.pow_nonneg 2 (- e)). lia.
      + apply Z.pow_pos_nonneg; lia. }
  split; [exact Hn |].
  unfold toFixed. rewrite Hx, Hsmall. f_equal.
  apply fixedDigits_1. exact Hn.
Qed.
End FormatFacts.

Section FormatLayout.
Context `{Host}.

(** C9, as the code has it: an empty list gives the fixed sentence; a
    non-empty list gives the heading followed by one entry per result, entry
    [i] (counted from 1) holding the number, the title, the chunk content
    and [(score * 100).toFixed(1)] followed by a percent sign.  That
    rendering is the number rounded to tenths, with exactly one digit after
    the point, whenever [score * 100] is zero or a finite number below 1e21
    in magnitude. *)
Theorem formatSearchResults_layout :
  formatSearchResults [] = js "관련된 정보를 찾을 수 없습니다."
  /\ (forall results,
        results <> [] ->
        formatSearchResults results =
        (js "다음은 관련된 정보들입니다:" ++ nl ++ nl)
        ++ concat (imap formatEntry results))
  /\ (forall index result,
        formatEntry index result =
        (js "[" ++ decimal (Z.of_nat index + 1) ++ js "] "
           ++ title (metadata (chunk result)) ++ nl)
        ++ (content (chunk result) ++ nl)
        ++ (js "(유사도: " ++ toFixed (score result * 100)%float 1
              ++ js "%)" ++ nl ++ nl))
  /\ (forall x s m e,
        Prim2SF x = S754_finite s m e ->
        atLeast1e21 m e = false ->
        0 <= scaledRound m e 1
        /\ toFixed x 1 =
           (if s then js "-" else [])
           ++ decimal (scaledRound m e 1 / 10) ++ js "."
           ++ [48 + scaledRound m e 1 mod 10])
  /\ (forall x s, Prim2SF x = S754_zero s -> toFixed x 1 = js "0.0").
Proof.
  split; [reflexivity |]. split; [| split; [| split]].
  - intros results Hne. unfold formatSearchResults.
    destruct results as [| r results]; [congruence |].
    cbn [length Nat.eqb].
    rewrite formatSearchResults_fold. reflexivity.
  - reflexivity.
  - intros x s m e Hx Hsmall. exact (toFixed_1_finite x s m e Hx Hsmall).
  - intros x s Hx. unfold toFixed. rewrite Hx. reflexivity.
Qed.
End FormatLayout.

Section FormatSamples.
#[local] Existing Instance seoulHost.

Lemma formatSearchResults_layout_witness :
  formatSearchResults [ {| chunk := freshChunk; score := 0.8765 |} ] =
  js "다음은 관련된 정보들입니다:" ++ nl ++ nl
  ++ js "[1] T" ++ nl ++ js "회의 2025-06-27" ++ nl
  ++ js "(유사도: 87.6%)" ++ nl ++ nl.
Proof.
  destruct formatSearchResults_layout as (_ & Hlist & Hentry & Hfixed & _).
  rewrite Hlist by discriminate.
  cbn [imap concat]. rewrite Hentry. cbn [chunk score].
  edestruct (Hfixed (0.8765 * 100)%float) as [_ Hshown];
    [vm_compute; reflexivity | vm_compute; reflexivity |].
  rewrite Hshown. vm_compute. reflexivity.
Defined.

(** C9 as stated fails for a score that is not a number: the entry shows
    [NaN%], with no decimal place. *)
Lemma formatSearchResults_nan :
  isNaN (score nanResult) = true
  /\ toFixed (score nanResult * 100)%float 1 = js "NaN"
  /\ formatSearchResults [nanResult] =
     js "다음은 관련된 정보들입니다:" ++ nl ++ nl
     ++ js "[1] T" ++ nl ++ js "메모" ++ nl ++ js "(유사도: NaN%)" ++ nl ++ nl.
Proof. repeat split; vm_compute; reflexivity. Qed.
End FormatSamples.

(* ================================================================= *)
(** ** The two views of the embeddings *)

Lemma inSync_lookup st :
  inSync st <->
  forall j c e,
    chunks st !! j = Some c -> embedding c = Some e ->
    embeddings st !! id c = Some e.
Proof.
  unfold inSync. split.
  - intros Hsync j c e Hj He. apply Hsync; [| exact He].
    apply list_elem_of_In, list_elem_of_lookup. eauto.
  - intros Hsync c e Hc He.
    apply list_elem_of_In, list_elem_of_lookup in Hc. destruct Hc as [j Hj].
    eapply Hsync; eassumption.
Qed.

Lemma alter_withEmbedding_ids e k (l : list DocumentChunk) :
  map id (alter (withEmbedding e) k l) = map id l.
Proof.
  revert k. induction l as [| c l IH]; intros [| k]; cbn; try reflexivity.
  f_equal. apply IH.
Qed.

Lemma slice_lookup {A} (l : list A) i j k x :
  slice l i j !! k = Some x -> l !! (i + k)%nat = Some x.
Proof.
  unfold slice. intros Hk.
  apply lookup_take_Some in Hk. destruct Hk as [Hk _].
  rewrite lookup_drop in Hk. exact Hk.
Qed.

Section StoreBatch.
Variable batch : list DocumentChunk.
Variable i : nat.

(** One [forEach] keeps the ids and, when they are pairwise distinct, the
    agreement of the two views. *)
Lemma storeBatch_inSync data : forall index st,
  NoDup (map id (chunks st)) ->
  (forall k b, batch !! k = Some b ->
               exists c, chunks st !! (i + k)%nat = Some c /\ id c = id b) ->
  inSync st ->
  inSync (fst (storeBatch batch i index data st))
  /\ map id (chunks (fst (storeBatch batch i index data st)))
     = map id (chunks st)
  /\ openai (fst (storeBatch batch i index data st)) = openai st.
Proof.
  induction data as [| e data IH]; intros index st Hids Hbatch Hsync;
    cbn [storeBatch]; [auto |].
  destruct (batch !! index) as [b |] eqn:Hb; [| auto].
  set (st' := {| chunks := alter (withEmbedding e) (i + index)%nat (chunks st);
                 embeddings := <[id b := e]> (embeddings st);
                 openai := openai st |}).
  assert (Hids' : map id (chunks st') = map id (chunks st))
    by apply alter_withEmbedding_ids.
  destruct (Hbatch index b Hb) as (cb & Hcb & Hidb).
  assert (Hsync' : inSync st').
  { apply (proj2 (inSync_lookup st')). intros j c' e' Hj He'.
    cbn [chunks embeddings st'] in *.
    rewrite list_lookup_alter in Hj.
    destruct (decide ((i + index)%nat = j)) as [<- | Hne].
    - rewrite Hcb in Hj. cbn in Hj. injection Hj as <-.
      cbn in He'. injection He' as <-. cbn [id withEmbedding].
      rewrite Hidb. apply lookup_insert_eq.
    - rewrite lookup_insert_ne.
      + eapply (proj1 (inSync_lookup st) Hsync); eassumption.
      + intros Heq. apply Hne.
        eapply NoDup_lookup; [exact Hids | |].
        * rewrite list_lookup_fmap, Hcb. cbn. rewrite Hidb. reflexivity.
        * rewrite list_lookup_fmap, Hj. cbn. rewrite Heq. reflexivity. }
  destruct (IH (S index) st') as (H1 & H2 & H3).
  - rewrite Hids'. exact Hids.
  - intros k b' Hk. destruct (Hbatch k b' Hk) as (c & Hc & Hidc).
    assert (Hlook : (map id (chunks st')) !! (i + k)%nat = Some (id c)).
    { rewrite Hids', list_lookup_fmap, Hc. reflexivity. }
    rewrite list_lookup_fmap in Hlook.
    destruct (chunks st' !! (i + k)%nat) as [c' |]; [| discriminate].
    cbn in Hlook. injection Hlook as Hlook. exists c'. split; congruence.
  - exact Hsync'.
  - split; [exact H1 |]. split; [| exact H3]. rewrite H2. exact Hids'.
Qed.
End StoreBatch.

Lemma embedLoop_inSync api fuel : forall i st,
  NoDup (map id (chunks st)) ->
  inSync st ->
  inSync (fst (embedLoop fuel api i st)).
Proof.
  induction fuel as [| fuel IH]; intros i st Hids Hsync; cbn [embedLoop];
    [exact Hsync |].
  destruct (i <? length (chunks st))%nat; [| exact Hsync].
  destruct (negb (openai st)); [exact Hsync |].
  destruct (api i (map content (slice (chunks st) i (i + batchSize))))
    as [data |]; [| exact Hsync].
  pose proof (storeBatch_inSync (slice (chunks st) i (i + batchSize)) i data 0 st
                Hids) as Hstep.
  destruct Hstep as (Hsync' & Hids' & _); [| exact Hsync |].
  { intros k b Hk. exists b. split; [| reflexivity].
    eapply slice_lookup. exact Hk. }
  destruct (storeBatch (slice (chunks st) i (i + batchSize)) i 0 data st)
    as [st' [|]]; cbn [fst] in *; [| exact Hsync'].
  apply IH; [rewrite Hids'; exact Hids | exact Hsync'].
Qed.

Lemma storeBatch_length batch i data : forall index st,
  length (chunks (fst (storeBatch batch i index data st))) = length (chunks st).
Proof.
  induction data as [| e data IH]; intros index st; cbn [storeBatch];
    [reflexivity |].
  destruct (batch !! index); [| reflexivity].
  rewrite IH. cbn [chunks]. apply length_alter.
Qed.

(** The batch loop never runs out of fuel: the chunks left to embed bound the
    turns left. *)
Lemma embedLoop_fuel api fuel : forall extra i st,
  (length (chunks st) - i <= fuel)%nat ->
  embedLoop (fuel + extra) api i st = embedLoop fuel api i st.
Proof.
  induction fuel as [| fuel IH]; intros extra i st Hfuel.
  - destruct extra as [| extra]; [reflexivity |]. cbn [Nat.add embedLoop].
    destruct (Nat.ltb_spec i (length (chunks st))); [lia | reflexivity].
  - cbn [Nat.add embedLoop].
    destruct (Nat.ltb_spec i (length (chunks st))); [| reflexivity].
    destruct (negb (openai st)); [reflexivity |].
    destruct (api i (map content (slice (chunks st) i (i + batchSize))))
      as [data |]; [| reflexivity].
    pose proof (storeBatch_length (slice (chunks st) i (i + batchSize)) i data
                  0 st) as Hlen.
    destruct (storeBatch (slice (chunks st) i (i + batchSize)) i 0 data st)
      as [st' [|]]; [| reflexivity].
    cbn [fst] in Hlen. apply IH. unfold batchSize. lia.
Qed.

Lemma generateEmbeddings_fuel api st extra :
  embedLoop (length (chunks st) + extra) api 0 st = generateEmbeddings api st.
Proof. apply embedLoop_fuel. lia. Qed.

Lemma generateEmbeddings_inSync api st :
  distinctIds st -> inSync st -> inSync (fst (generateEmbeddings api st)).
Proof. intros Hids Hsync. apply embedLoop_inSync; assumption. Qed.

Lemma mapOfEntries_list_to_map (pairs : list (jsstring * list float)) :
  NoDup pairs.*1 -> mapOfEntries pairs = list_to_map pairs.
Proof.
  intros Hnodup. unfold mapOfEntries.
  rewrite <- fold_left_rev_right.
  change (list_to_map (rev pairs) =
          (list_to_map pairs : gmap jsstring (list float))).
  apply list_to_map_proper.
  - rewrite <- (Permutation_rev pairs). exact Hnodup.
  - symmetry. apply Permutation_rev.
Qed.

(** What a load reads back from a written snapshot is the map of the saved
    instance, each vector through [jsonNumber]. *)
Lemma mapOfEntries_toSnapshot nowISO st :
  mapOfEntries (snap_embeddings (toSnapshot nowISO st))
  = map jsonNumber <$> embeddings st.
Proof.
  cbn [toSnapshot snap_embeddings].
  change (map (fun kv : jsstring * list float => (fst kv, map jsonNumber (snd kv)))
              (map_to_list (embeddings st)))
    with (prod_map Datatypes.id (map jsonNumber) <$> map_to_list (embeddings st)).
  rewrite mapOfEntries_list_to_map.
  - rewrite list_to_map_fmap, list_to_map_to_list. reflexivity.
  - rewrite <- list_fmap_compose.
    apply (NoDup_fst_map_to_list (embeddings st)).
Qed.

Lemma toSnapshot_inSync nowISO st :
  inSync st -> fileInSync (Stored (toSnapshot nowISO st)).
Proof.
  intros Hsync c' e' Hc' He'. cbn [chunks embeddings] in *.
  rewrite mapOfEntries_toSnapshot.
  cbn [toSnapshot snap_chunks] in Hc'. apply in_map_iff in Hc'.
  destruct Hc' as (c & <- & Hc). cbn [jsonChunk embedding id] in *.
  destruct (embedding c) as [e |] eqn:He; [| discriminate].
  cbn in He'. injection He' as <-.
  rewrite lookup_fmap, (Hsync c e Hc He). reflexivity.
Qed.

(** A chunk leaves the chunker without a vector. *)
Lemma splitIntoChunks_fresh nowISO text title_ page c :
  In c (splitIntoChunks nowISO text title_ page) -> embedding c = None.
Proof.
  destruct (le_lt_dec (length text) chunkSize) as [Hshort | Hlong].
  - unfold splitIntoChunks.
    destruct (Nat.leb_spec (length text) chunkSize); [| lia].
    intros [<- | []]. reflexivity.
  - rewrite splitIntoChunks_long by exact Hlong.
    intros Hc. apply in_map_iff in Hc. destruct Hc as (k & <- & _). reflexivity.
Qed.

Section Invariant.
Context `{Host}.

Lemma processNotionData_inSync nowISO notionData st :
  inSync (processNotionData nowISO notionData st).
Proof.
  intros c e Hc He. exfalso. cbn [processNotionData chunks] in Hc.
  apply in_flat_map in Hc. destruct Hc as (page & _ & Hc).
  rewrite (splitIntoChunks_fresh _ _ _ _ _ Hc) in He. discriminate.
Qed.

(** C8, as the code has it: every operation keeps the two views of the
    embeddings in agreement (a chunk that carries a vector is mapped to that
    vector under its id, in the instance and in what a load of the snapshot
    file would install), provided the chunk ids are pairwise distinct when
    [generateEmbeddings] runs.  In particular [generateEmbeddings] leaves the
    views in agreement, and loading the snapshot written by a save of an
    instance in agreement gives an instance in agreement. *)
Theorem perform_inSync :
  (inSync newRAGSystem /\ fileInSync NoFile)
  /\ (forall op st file,
        inSync st -> fileInSync file ->
        (forall api, op = OpGenerateEmbeddings api -> distinctIds st) ->
        inSync (fst (perform op (st, file)))
        /\ fileInSync (snd (perform op (st, file))))
  /\ (forall ops world,
        inSync (fst world) -> fileInSync (snd world) ->
        distinctIdsAlong ops world ->
        inSync (fst (performAll ops world))
        /\ fileInSync (snd (performAll ops world)))
  /\ (forall api st,
        distinctIds st -> inSync st -> inSync (fst (generateEmbeddings api st)))
  /\ (forall nowISO st st' file,
        inSync st ->
        inSync (fst (loadFromLocalStorage true
                       (saveToLocalStorage true Written nowISO st file) st'))).
Proof.
  assert (Hload : forall serverSide file st,
             inSync st -> fileInSync file ->
             inSync (fst (loadFromLocalStorage serverSide file st))).
  { intros serverSide file st Hsync Hfile. unfold loadFromLocalStorage.
    destruct serverSide; [| exact Hsync].
    destruct file as [| | data]; [exact Hsync | exact Hsync |].
    exact Hfile. }
  assert (Hstep : forall op st file,
             inSync st -> fileInSync file ->
             (forall api, op = OpGenerateEmbeddings api -> distinctIds st) ->
             inSync (fst (perform op (st, file)))
             /\ fileInSync (snd (perform op (st, file)))).
  { intros op st file Hsync Hfile Hids.
    destruct op as [| nowISO notionData | api | api now query topK |
                     | serverSide w nowISO | serverSide];
      cbn [perform fst snd]; (split; [| try exact Hfile]); try exact Hsync.
    - apply processNotionData_inSync.
    - apply generateEmbeddings_inSync; [apply (Hids api); reflexivity | exact Hsync].
    - unfold saveToLocalStorage. destruct serverSide; [| exact Hfile].
      destruct w; [apply toSnapshot_inSync; exact Hsync | exact Hfile | exact I].
    - apply Hload; assumption. }
  split; [| split; [| split; [| split]]].
  - split; [| exact I]. intros c e [].
  - exact Hstep.
  - intros ops. induction ops as [| op ops IH]; intros [st file] Hsync Hfile Hids;
      [split; assumption |].
    cbn [performAll fold_left]. destruct Hids as [Hop Hrest].
    destruct (Hstep op st file Hsync Hfile) as [Hsync' Hfile'].
    { intros api ->. exact Hop. }
    apply IH; assumption.
  - intros api st. apply generateEmbeddings_inSync.
  - intros nowISO st st' file Hsync. cbn [saveToLocalStorage].
    apply (toSnapshot_inSync nowISO st Hsync).
Qed.
End Invariant.

Section InvariantSamples.
#[local] Existing Instance seoulHost.

Lemma perform_inSync_witness :
  let st0 :=
    processNotionData (js "2026-11-02T00:00:00.000Z")
      [samplePage (Some (js "p")); samplePage (Some (js "q"))]
      (initializeOpenAI newRAGSystem) in
  let st1 := fst (perform (OpGenerateEmbeddings twoVectorsApi) (st0, NoFile)) in
  distinctIds st0
  /\ inSync st1
  /\ embeddings st1 !! js "p-0" = Some [1; 0]%float
  /\ embeddings st1 !! js "q-0" = Some [0; 1]%float.
Proof.
  intros st0 st1.
  assert (Hids : distinctIds st0).
  { unfold distinctIds. apply (bool_decide_unpack _). vm_compute. exact I. }
  split; [exact Hids |]. split; [| split; vm_compute; reflexivity].
  destruct perform_inSync as (_ & Hstep & _ & _).
  apply (Hstep (OpGenerateEmbeddings twoVectorsApi) st0 NoFile).
  - intros c e Hc He. vm_compute in Hc.
    destruct Hc as [<- | [<- | []]]; discriminate.
  - exact I.
  - intros api _. exact Hids.
Defined.

(** C8 as stated fails: two pages without an id both give a chunk with the id
    [chunk-0]; after [generateEmbeddings] the first chunk carries the first
    vector while the map holds the second one under that id. *)
Lemma generateEmbeddings_shared_id :
  let st0 :=
    processNotionData (js "2026-11-02T00:00:00.000Z")
      [notePage (js "가"); notePage (js "나")]
      (initializeOpenAI newRAGSystem) in
  let st1 := fst (generateEmbeddings twoVectorsApi st0) in
  inSync st0
  /\ (exists c, In c (chunks st1)
                /\ id c = js "chunk-0"
                /\ embedding c = Some [1; 0]%float
                /\ embeddings st1 !! id c = Some [0; 1]%float)
  /\ ~ inSync st1.
Proof.
  intros st0 st1.
  assert (Hbad : exists c, In c (chunks st1)
                /\ id c = js "chunk-0"
                /\ embedding c = Some [1; 0]%float
                /\ embeddings st1 !! id c = Some [0; 1]%float).
  { eexists. split; [left; reflexivity |].
    split; [vm_compute; reflexivity |].
    split; [vm_compute; reflexivity |]. vm_compute. reflexivity. }
  split; [apply processNotionData_inSync |]. split; [exact Hbad |].
  intros Hsync. destruct Hbad as (c & Hc & _ & He & Hmap).
  rewrite (Hsync c _ Hc He) in Hmap. discriminate.
Qed.
End InvariantSamples.

(* ================================================================= *)
(** ** Binary64 arithmetic *)

(** Facts about the primitive operations are read off their specification
    on [spec_float]. *)


Lemma SFcompare_refl x : x <> S754_nan -> SFcompare x x = Some Eq.
Proof.
  destruct x as [s | s | | s m e]; intros Hx; try congruence;
    destruct s; cbn; try reflexivity;
    rewrite Z.compare_refl, Pos.compare_cont_refl; reflexivity.
Qed.

Lemma isNaN_spec x : isNaN x = true <-> Prim2SF x = S754_nan.
Proof.
  unfold isNaN, is_nan. rewrite FloatAxioms.eqb_spec. unfold SFeqb. split.
  - intros Hx. destruct (Prim2SF x) eqn:Hsf; try reflexivity;
      rewrite SFcompare_refl in Hx by discriminate; discriminate.
  - intros ->. reflexivity.
Qed.

Lemma isNaN_false x : isNaN x = false <-> Prim2SF x <> S754_nan.
Proof.
  pose proof (isNaN_spec x) as [H1 H2].
  destruct (isNaN x); split; intros H3; try congruence.
  - exfalso. apply H3. apply H1. reflexivity.
  - intros H4. specialize (H2 H4). discriminate.
Qed.

Lemma is_zero_spec x :
  is_zero x = true <-> exists s, Prim2SF x = S754_zero s.
Proof.
  unfold is_zero. rewrite FloatAxioms.eqb_spec.
  change (Prim2SF zero) with (S754_zero false).
  unfold SFeqb. destruct (Prim2SF x) as [s | s | | s m e]; cbn; split;
    try discriminate; try (intros [? ?]; discriminate); eauto;
    destruct s; discriminate.
Qed.

Lemma SFmul_comm x y : SF64mul x y = SF64mul y x.
Proof.
  unfold SF64mul, SFmul.
  destruct x as [sx | sx | | sx mx ex], y as [sy | sy | | sy my ey];
    try reflexivity; try (rewrite (xorb_comm sx sy); reflexivity).
  rewrite (xorb_comm sx sy), (Pos.mul_comm mx my), (Z.add_comm ex ey).
  reflexivity.
Qed.

Lemma mul_comm (x y : float) : (x * y = y * x)%float.
Proof. apply Prim2SF_inj. rewrite !mul_spec. apply SFmul_comm. Qed.




Section ZeroVector.


End ZeroVector.

Section Symmetry.

Lemma cosineLoop_swap (a : list float) : forall b dotProduct normA normB,
  cosineLoop b a dotProduct normB normA =
  let '(d, na, nb) := cosineLoop a b dotProduct normA normB in (d, nb, na).
Proof.
  induction a as [| x a IH]; intros [| y b] dotProduct normA normB;
    try reflexivity.
  cbn [cosineLoop]. rewrite IH. cbn [n_mul float_Arith].
  rewrite (mul_comm y x). reflexivity.
Qed.

Lemma cosineSimilarity_comm (a b : list float) :
  cosineSimilarity a b = cosineSimilarity b a.
Proof.
  unfold cosineSimilarity. rewrite (Nat.eqb_sym (length b) (length a)).
  destruct (length a =? length b)%nat; [| reflexivity]. cbn [negb].
  rewrite (cosineLoop_swap a b).
  destruct (cosineLoop a b n_zero n_zero n_zero) as [[d na] nb].
  cbn [n_div n_mul n_sqrt float_Arith].
  rewrite (mul_comm (PrimFloat.sqrt nb) (PrimFloat.sqrt na)). reflexivity.
Qed.

End Symmetry.

(* ================================================================= *)
(** ** Cosine similarity in exact arithmetic *)

Section ExactCosine.
Local Open Scope R_scope.

Lemma cosineLoop_R (a : list R) : forall b dotProduct normA normB,
  length a = length b ->
  cosineLoop a b dotProduct normA normB =
  (dotProduct + dotR a b, normA + sumSquares a, normB + sumSquares b).
Proof.
  induction a as [| x a IH]; intros [| y b] dotProduct normA normB Hlen;
    try discriminate.
  - cbn. rewrite !Rplus_0_r. reflexivity.
  - cbn [cosineLoop dotR sumSquares]. rewrite IH by (cbn in Hlen; congruence).
    cbn [n_add n_mul R_Arith]. f_equal; [f_equal |]; ring.
Qed.

Lemma sumSquares_nonneg v : 0 <= sumSquares v.
Proof. induction v as [| x v IH]; cbn; nra. Qed.

Lemma sumSquares_pos v : nonZero v -> 0 < sumSquares v.
Proof.
  intros (x & Hin & Hx). induction v as [| y v IH]; [destruct Hin |].
  cbn. pose proof (sumSquares_nonneg v). destruct Hin as [-> | Hin].
  - pose proof (Rsqr_pos_lt x Hx) as Hsq. unfold Rsqr in Hsq. lra.
  - specialize (IH Hin). nra.
Qed.

(** The Cauchy-Schwarz inequality for the two sums of the loop. *)
Lemma dotR_sumSquares (a : list R) : forall b,
  length a = length b ->
  dotR a b * dotR a b <= sumSquares a * sumSquares b.
Proof.
  induction a as [| x a IH]; intros [| y b] Hlen; try discriminate.
  - cbn. lra.
  - cbn [dotR sumSquares]. specialize (IH b ltac:(cbn in Hlen; congruence)).
    pose proof (sumSquares_nonneg a) as HA.
    pose proof (sumSquares_nonneg b) as HB.
    set (A := sumSquares a) in *. set (B := sumSquares b) in *.
    set (D := dotR a b) in *. clearbody A B D.
    destruct (Req_dec A 0) as [HA0 | HA0].
    + assert (HD : D = 0) by nra. rewrite HD, HA0. nra.
    + assert (0 < A) by lra.
      assert (0 <= A * ((x * x + A) * (y * y + B) - (x * y + D) * (x * y + D))).
      { replace (A * ((x * x + A) * (y * y + B) - (x * y + D) * (x * y + D)))
          with ((A * y - x * D) * (A * y - x * D)
                + (x * x + A) * (A * B - D * D)) by ring.
        apply Rplus_le_le_0_compat.
        - apply Rle_0_sqr.
        - apply Rmult_le_pos; nra. }
      nra.
Qed.

Lemma cosineSimilarity_R_bounds (a b : list R) :
  length a = length b -> nonZero a -> nonZero b ->
  -1 <= cosineSimilarity a b <= 1.
Proof.
  intros Hlen Ha Hb. unfold cosineSimilarity.
  rewrite Hlen, Nat.eqb_refl. cbn [negb].
  rewrite cosineLoop_R by exact Hlen. cbn [n_zero n_div n_mul n_sqrt R_Arith].
  rewrite !Rplus_0_l.
  pose proof (sumSquares_pos a Ha) as HA.
  pose proof (sumSquares_pos b Hb) as HB.
  pose proof (dotR_sumSquares a b Hlen) as HCS.
  set (A := sumSquares a) in *. set (B := sumSquares b) in *.
  set (D := dotR a b) in *. clearbody A B D.
  rewrite <- sqrt_mult by lra.
  assert (Hpos : 0 < A * B) by nra.
  pose proof (sqrt_lt_R0 (A * B) Hpos) as Hs.
  pose proof (sqrt_sqrt (A * B) ltac:(lra)) as Hss.
  set (s := sqrt (A * B)) in *. clearbody s.
  assert (- s <= D <= s) by nra.
  split.
  - apply Rmult_le_reg_r with s; [exact Hs |].
    unfold Rdiv. rewrite Rmult_assoc, Rinv_l by lra. lra.
  - apply Rmult_le_reg_r with s; [exact Hs |].
    unfold Rdiv. rewrite Rmult_assoc, Rinv_l by lra. lra.
Qed.

Lemma dotR_self v : dotR v v = sumSquares v.
Proof. induction v as [| x v IH]; cbn; [| rewrite IH]; reflexivity. Qed.

Lemma cosineSimilarity_R_self (v : list R) :
  nonZero v -> cosineSimilarity v v = 1.
Proof.
  intros Hv. unfold cosineSimilarity. rewrite Nat.eqb_refl. cbn [negb].
  rewrite cosineLoop_R by reflexivity. cbn [n_zero n_div n_mul n_sqrt R_Arith].
  rewrite !Rplus_0_l, dotR_self.
  pose proof (sumSquares_pos v Hv) as HA.
  rewrite sqrt_sqrt by lra. unfold Rdiv. apply Rinv_r. lra.
Qed.
End ExactCosine.

(* ================================================================= *)
(** ** The unguarded division *)

Section ZeroEmbedding.
Context `{Host}.

End ZeroEmbedding.

Section ZeroEmbeddingSamples.
#[local] Existing Instance seoulHost.

End ZeroEmbeddingSamples.

(* ================================================================= *)
(** ** The order of binary64 numbers and the sign of a difference

    The comparator of the sort is a subtraction.  That its sign agrees with
    the order of the two numbers is derived here from the specification of
    rounding: a difference of two finite numbers is an integer multiple of
    two to the smaller exponent, and rounding such a number keeps its sign. *)

Local Notation "'emin64'" := (SpecFloat.emin prec emax).
Local Notation "'fexp64'" := (SpecFloat.fexp prec emax).
Local Notation "'bounded64'" := (SpecFloat.bounded prec emax).

Lemma digits2_pos_bounds m :
  2 ^ (Zpos (digits2_pos m) - 1) <= Zpos m < 2 ^ Zpos (digits2_pos m).
Proof.
  induction m as [p IH | p IH |]; cbn [digits2_pos];
    rewrite ?Pos2Z.inj_succ.
  - replace (Z.succ (Zpos (digits2_pos p)) - 1)
      with (Z.succ (Zpos (digits2_pos p) - 1)) by lia.
    rewrite !Z.pow_succ_r by lia. lia.
  - replace (Z.succ (Zpos (digits2_pos p)) - 1)
      with (Z.succ (Zpos (digits2_pos p) - 1)) by lia.
    rewrite !Z.pow_succ_r by lia. lia.
  - cbn. lia.
Qed.

Lemma shr_1_half mrs : 0 <= shr_m mrs -> shr_m (shr_1 mrs) = shr_m mrs / 2.
Proof.
  destruct mrs as [m r s]. cbn [shr_m]. intros Hm.
  destruct m as [| [p | p |] | p]; cbn [shr_1 shr_m]; try lia; try reflexivity.
  - rewrite (Pos2Z.inj_xI p). apply (Z.div_unique _ 2 _ 1); lia.
  - rewrite (Pos2Z.inj_xO p). apply (Z.div_unique _ 2 _ 0); lia.
Qed.

Lemma pow2_xO p : 2 ^ Zpos p~0 = 2 ^ Zpos p * 2 ^ Zpos p.
Proof. rewrite <- Z.pow_add_r by lia. f_equal. lia. Qed.

Lemma pow2_xI p : 2 ^ Zpos p~1 = 2 * (2 ^ Zpos p * 2 ^ Zpos p).
Proof.
  rewrite <- Z.pow_add_r, <- Z.pow_succ_r by lia. f_equal. lia.
Qed.

Lemma iter_shr_1 p : forall mrs,
  0 <= shr_m mrs ->
  shr_m (SpecFloat.iter_pos shr_1 p mrs) = shr_m mrs / 2 ^ Zpos p.
Proof.
  induction p as [p IH | p IH |]; intros mrs Hm; cbn [SpecFloat.iter_pos].
  - assert (H1 : 0 <= shr_m (shr_1 mrs))
      by (rewrite shr_1_half by exact Hm; apply Z.div_pos; lia).
    assert (H2 : 0 <= shr_m (SpecFloat.iter_pos shr_1 p (shr_1 mrs)))
      by (rewrite IH by exact H1; apply Z.div_pos; [exact H1 | lia]).
    rewrite IH, IH, shr_1_half by assumption.
    pose proof (Z.pow_pos_nonneg 2 (Zpos p) ltac:(lia) ltac:(lia)) as Hpow.
    rewrite !Z.div_div by lia. rewrite pow2_xI. reflexivity.
  - assert (H2 : 0 <= shr_m (SpecFloat.iter_pos shr_1 p mrs))
      by (rewrite IH by exact Hm; apply Z.div_pos; [exact Hm | lia]).
    rewrite IH, IH by assumption.
    pose proof (Z.pow_pos_nonneg 2 (Zpos p) ltac:(lia) ltac:(lia)) as Hpow.
    rewrite Z.div_div by lia. rewrite pow2_xO. reflexivity.
  - rewrite shr_1_half by exact Hm. reflexivity.
Qed.

Lemma emin_value : emin64 = -1074.
Proof. reflexivity. Qed.

Lemma shr_record_of_loc_m m l : shr_m (shr_record_of_loc m l) = m.
Proof. destruct l as [| []]; reflexivity. Qed.

(** Rounding a positive mantissa whose exponent is not below [emin] leaves a
    positive mantissa. *)
Lemma shr_fexp_pos m e l :
  0 < m -> emin64 <= e ->
  0 < shr_m (fst (shr_fexp prec emax m e l))
  /\ emin64 <= snd (shr_fexp prec emax m e l).
Proof.
  intros Hm He. unfold shr_fexp, shr.
  destruct m as [| p |]; try lia. cbn [Zdigits2].
  pose proof (digits2_pos_bounds p) as [Hlow _].
  set (d := Zpos (digits2_pos p)) in *.
  destruct (fexp64 (d + e) - e) as [| n | n] eqn:Hn; cbn [fst snd];
    rewrite ?shr_record_of_loc_m; try (split; lia).
  rewrite iter_shr_1 by (rewrite shr_record_of_loc_m; lia).
  rewrite shr_record_of_loc_m.
  assert (Hshift : Zpos n = d - prec).
  { unfold SpecFloat.fexp in Hn. rewrite emin_value in *. lia. }
  split; [| lia].
  apply Z.div_str_pos. split; [apply Z.pow_pos_nonneg; lia |].
  apply Z.le_trans with (2 ^ (d - 1)); [| exact Hlow].
  apply Z.pow_le_mono_r; [lia |]. rewrite Hshift. unfold prec. lia.
Qed.

Lemma round_nearest_even_pos m l : 0 < m -> 0 < round_nearest_even m l.
Proof.
  intros Hm. destruct l as [| []]; cbn [round_nearest_even]; try lia.
  destruct (Z.even m); lia.
Qed.

Lemma binary_round_aux_sign s m e l :
  0 < m -> emin64 <= e -> hasSign s (binary_round_aux prec emax s m e l).
Proof.
  intros Hm He. unfold binary_round_aux.
  pose proof (shr_fexp_pos m e l Hm He) as [Hm1 He1].
  destruct (shr_fexp prec emax m e l) as [mrs1 e1]. cbn [fst snd] in *.
  pose proof (shr_fexp_pos _ e1 loc_Exact
                (round_nearest_even_pos _ (loc_of_shr_record mrs1) Hm1) He1)
    as [Hm2 _].
  destruct (shr_fexp prec emax _ e1 loc_Exact) as [mrs2 e2]. cbn [fst] in *.
  destruct (shr_m mrs2) as [| p |]; try lia.
  destruct (e2 <=? emax - prec); reflexivity.
Qed.

Lemma shl_align_exp m e e' :
  snd (shl_align m e e') = Z.min e e'.
Proof.
  unfold shl_align. destruct (e' - e) eqn:Hd; cbn [snd]; lia.
Qed.

Lemma binary_round_sign s m e :
  emin64 <= e -> hasSign s (binary_round prec emax s m e).
Proof.
  intros He. unfold binary_round.
  pose proof (shl_align_exp m e (fexp64 (Zpos (digits2_pos m) + e))) as Hexp.
  destruct (shl_align m e (fexp64 (Zpos (digits2_pos m) + e))) as [mz ez].
  cbn [snd] in Hexp.
  apply binary_round_aux_sign; [lia |].
  unfold SpecFloat.fexp in Hexp. lia.
Qed.

Lemma SFltb_zero_hasSign s x :
  hasSign s x -> SFltb (S754_zero false) x = negb s.
Proof.
  destruct x as [| s' | | s' m e]; cbn; try tauto; intros ->;
    destruct s; reflexivity.
Qed.

Lemma iter_xO m d : Zpos (Pos.iter xO m d) = Zpos m * 2 ^ Zpos d.
Proof.
  induction d as [| d IH] using Pos.peano_ind.
  - cbn. lia.
  - rewrite Pos.iter_succ, Pos2Z.inj_xO, IH, Pos2Z.inj_succ, Z.pow_succ_r by lia.
    lia.
Qed.

Lemma shl_align_value m e e' :
  e' <= e -> Zpos (fst (shl_align m e e')) = Zpos m * 2 ^ (e - e').
Proof.
  intros Hle. unfold shl_align.
  destruct (e' - e) as [| d | d] eqn:Hd; cbn [fst]; try lia.
  - replace (e - e') with 0 by lia. lia.
  - rewrite iter_xO. f_equal. f_equal. lia.
Qed.

(** What validity says about a finite number. *)
Lemma bounded_facts m e :
  bounded64 m e = true ->
  emin64 <= e /\ Zpos m < 2 ^ prec /\ (emin64 < e -> 2 ^ (prec - 1) <= Zpos m).
Proof.
  unfold SpecFloat.bounded, canonical_mantissa, SpecFloat.fexp. intros Hb.
  apply andb_prop in Hb. destruct Hb as [Hcanon _].
  apply Z.eqb_eq in Hcanon.
  pose proof (digits2_pos_bounds m) as [Hlow Hhigh].
  set (d := Zpos (digits2_pos m)) in *.
  split; [lia |]. split.
  - apply Z.lt_le_trans with (2 ^ d); [exact Hhigh |].
    apply Z.pow_le_mono_r; lia.
  - intros He. replace (prec - 1) with (d - 1) by lia. exact Hlow.
Qed.

Lemma aligned_value s m e ez :
  ez <= e -> aligned s m e ez = cond_Zopp s (Zpos m * 2 ^ (e - ez)).
Proof.
  intros Hle. unfold aligned. rewrite shl_align_value by exact Hle. reflexivity.
Qed.

(** Numbers of a smaller exponent have a smaller magnitude. *)
Lemma magnitude_lt mx ex my ey :
  bounded64 mx ex = true -> bounded64 my ey = true ->
  ex < ey ->
  Zpos mx * 2 ^ (ex - Z.min ex ey) < Zpos my * 2 ^ (ey - Z.min ex ey).
Proof.
  intros Hx Hy Hlt.
  apply bounded_facts in Hx. destruct Hx as (Hex & Hmx & _).
  apply bounded_facts in Hy. destruct Hy as (_ & _ & Hmy).
  specialize (Hmy ltac:(lia)).
  replace (Z.min ex ey) with ex by lia.
  replace (ex - ex) with 0 by lia. rewrite Z.mul_1_r.
  assert (Hpow : 2 ^ 1 <= 2 ^ (ey - ex)) by (apply Z.pow_le_mono_r; lia).
  change (2 ^ 1) with 2 in Hpow.
  assert (Hprec : 2 ^ prec = 2 * 2 ^ (prec - 1)) by reflexivity.
  nia.
Qed.

(** Comparison of two valid finite numbers is comparison of their signed
    mantissas at the smaller exponent. *)
Lemma SFcompare_aligned sx mx ex sy my ey :
  bounded64 mx ex = true -> bounded64 my ey = true ->
  SFcompare (S754_finite sx mx ex) (S754_finite sy my ey)
  = Some (aligned sx mx ex (Z.min ex ey) ?= aligned sy my ey (Z.min ex ey)).
Proof.
  intros Hx Hy. rewrite !aligned_value by lia. cbn [SFcompare]. f_equal.
  pose proof (Z.pow_pos_nonneg 2 (ex - Z.min ex ey) ltac:(lia) ltac:(lia)).
  pose proof (Z.pow_pos_nonneg 2 (ey - Z.min ex ey) ltac:(lia) ltac:(lia)).
  assert (Hcases :
    (ex < ey /\ Zpos mx * 2 ^ (ex - Z.min ex ey) < Zpos my * 2 ^ (ey - Z.min ex ey))
    \/ (ey < ex /\ Zpos my * 2 ^ (ey - Z.min ex ey) < Zpos mx * 2 ^ (ex - Z.min ex ey))
    \/ (ex = ey /\ Zpos mx * 2 ^ (ex - Z.min ex ey) = Zpos mx
               /\ Zpos my * 2 ^ (ey - Z.min ex ey) = Zpos my)).
  { destruct (Z.lt_trichotomy ex ey) as [Hlt | [Heq | Hgt]].
    - left. split; [exact Hlt |]. apply magnitude_lt; assumption.
    - right. right. subst ey. rewrite Z.min_id, Z.sub_diag. cbn. lia.
    - right. left. split; [exact Hgt |].
      rewrite (Z.min_comm ex ey). apply magnitude_lt; assumption. }
  symmetry.
  destruct Hcases as [[He Hm] | [[He Hm] | (He & Hm1 & Hm2)]].
  - rewrite (proj2 (Z.compare_lt_iff ex ey) He).
    destruct sx, sy; cbn [cond_Zopp];
      apply Z.compare_lt_iff || apply Z.compare_gt_iff; lia.
  - rewrite (proj2 (Z.compare_gt_iff ex ey) He).
    destruct sx, sy; cbn [cond_Zopp];
      apply Z.compare_lt_iff || apply Z.compare_gt_iff; lia.
  - rewrite Hm1, Hm2. subst ey. rewrite Z.compare_refl.
    destruct sx, sy; reflexivity.
Qed.

(** The sign of a difference of two valid finite numbers. *)
Lemma SFsub_finite_sign sy my ey sx mx ex :
  bounded64 my ey = true -> bounded64 mx ex = true ->
  SFltb (S754_zero false)
        (SF64sub (S754_finite sy my ey) (S754_finite sx mx ex))
  = (0 <? aligned sy my ey (Z.min ey ex) - aligned sx mx ex (Z.min ey ex)).
Proof.
  intros Hy Hx. unfold SF64sub, SFsub. fold (aligned sy my ey (Z.min ey ex)).
  fold (aligned sx mx ex (Z.min ey ex)).
  apply bounded_facts in Hy. destruct Hy as (Hey & _).
  apply bounded_facts in Hx. destruct Hx as (Hex & _).
  unfold binary_normalize.
  destruct (aligned sy my ey (Z.min ey ex) - aligned sx mx ex (Z.min ey ex))
    as [| p | p]; [reflexivity | |].
  - rewrite (SFltb_zero_hasSign false); [reflexivity |].
    apply binary_round_sign. lia.
  - rewrite (SFltb_zero_hasSign true); [reflexivity |].
    apply binary_round_sign. lia.
Qed.

Lemma SFleb_of_compare x y c :
  SFcompare x y = Some c -> c <> Gt -> SFleb x y = true.
Proof. unfold SFleb. intros -> Hc. destruct c; congruence. Qed.

(** A positive difference [y - x] means [x <= y]; a difference that is not
    positive, between numbers, means [y <= x]. *)
Lemma SFsub_order x y :
  valid_binary x = true -> valid_binary y = true ->
  x <> S754_nan -> y <> S754_nan ->
  if SFltb (S754_zero false) (SF64sub y x)
  then SFleb x y = true
  else SFleb y x = true.
Proof.
  intros Hx Hy Hxn Hyn.
  destruct x as [sx | sx | | sx mx ex]; try congruence;
    destruct y as [sy | sy | | sy my ey]; try congruence;
    try (destruct sx, sy; reflexivity);
    try (destruct sx; reflexivity);
    try (destruct sy; reflexivity).
  cbn [valid_binary] in Hx, Hy.
  rewrite SFsub_finite_sign by assumption.
  pose proof (SFcompare_aligned sx mx ex sy my ey Hx Hy) as Hxy.
  pose proof (SFcompare_aligned sy my ey sx mx ex Hy Hx) as Hyx.
  rewrite (Z.min_comm ex ey) in Hxy.
  set (Y := aligned sy my ey (Z.min ey ex)) in *.
  set (X := aligned sx mx ex (Z.min ey ex)) in *.
  destruct (Z.ltb_spec 0 (Y - X)) as [Hpos | Hneg].
  - eapply SFleb_of_compare; [exact Hxy |].
    intros Hgt. apply Z.compare_gt_iff in Hgt. lia.
  - eapply SFleb_of_compare; [exact Hyx |].
    intros Hgt. apply Z.compare_gt_iff in Hgt. lia.
Qed.

Lemma sub_order (x y : float) :
  is_nan x = false -> is_nan y = false ->
  if (0 <? y - x)%float then (x <=? y)%float = true else (y <=? x)%float = true.
Proof.
  intros Hx Hy.
  rewrite FloatAxioms.ltb_spec, !FloatAxioms.leb_spec, sub_spec.
  change (Prim2SF 0%float) with (S754_zero false).
  apply SFsub_order; try apply Prim2SF_valid.
  - intros Hn. unfold is_nan in Hx.
    rewrite FloatAxioms.eqb_spec, Hn in Hx. discriminate.
  - intros Hn. unfold is_nan in Hy.
    rewrite FloatAxioms.eqb_spec, Hn in Hy. discriminate.
Qed.

Lemma bounded_exp m e :
  bounded64 m e = true -> e <= emax - prec.
Proof.
  unfold SpecFloat.bounded. intros Hb. apply andb_prop in Hb.
  destruct Hb as [_ Hle]. apply Z.leb_le in Hle. exact Hle.
Qed.

Lemma ordZ_finite_bounds m e :
  bounded64 m e = true ->
  0 < Zpos m * 2 ^ (e - emin64)
    < 2 ^ (emax - emin64).
Proof.
  intros Hb. pose proof (bounded_exp m e Hb) as Hexp.
  apply bounded_facts in Hb. destruct Hb as (He & Hm & _).
  assert (Hpow : 0 < 2 ^ (e - emin64))
    by (apply Z.pow_pos_nonneg; lia).
  split; [apply Z.mul_pos_pos; lia |].
  apply Z.lt_le_trans with (2 ^ prec * 2 ^ (e - emin64)).
  - apply Z.mul_lt_mono_pos_r; assumption.
  - assert (Hprec : prec = 53) by reflexivity.
    rewrite <- Z.pow_add_r by lia.
    apply Z.pow_le_mono_r; lia.
Qed.

Lemma aligned_ordZ s m e ez :
  emin64 <= ez -> ez <= e ->
  ordZ (S754_finite s m e)
  = aligned s m e ez * 2 ^ (ez - emin64).
Proof.
  intros Hez Hle. rewrite aligned_value by exact Hle. cbn [ordZ].
  replace (e - emin64)
    with ((e - ez) + (ez - emin64)) by lia.
  rewrite Z.pow_add_r by lia. destruct s; cbn [cond_Zopp]; lia.
Qed.

(** On valid numbers the comparison is that of the integers [ordZ]. *)
Lemma SFcompare_ordZ x y :
  valid_binary x = true -> valid_binary y = true ->
  x <> S754_nan -> y <> S754_nan ->
  SFcompare x y = Some (ordZ x ?= ordZ y).
Proof.
  intros Hx Hy Hxn Hyn.
  destruct x as [sx | sx | | sx mx ex]; try congruence;
    destruct y as [sy | sy | | sy my ey]; try congruence;
    cbn [valid_binary] in Hx, Hy;
    try pose proof (ordZ_finite_bounds mx ex Hx) as Hbx;
    try pose proof (ordZ_finite_bounds my ey Hy) as Hby;
    assert (Hinf : 0 < 2 ^ (emax - emin64))
      by (apply Z.pow_pos_nonneg; [lia | rewrite emin_value; unfold emax; lia]).
  all: try (cbn [SFcompare ordZ]; f_equal; symmetry;
            destruct sx; try destruct sy; cbn [cond_Zopp];
            first [ apply Z.compare_eq_iff; lia
                  | apply Z.compare_lt_iff; lia
                  | apply Z.compare_gt_iff; lia ]).
  all: try (cbn [SFcompare ordZ]; f_equal; symmetry;
            destruct sy; cbn [cond_Zopp];
            first [ apply Z.compare_eq_iff; lia
                  | apply Z.compare_lt_iff; lia
                  | apply Z.compare_gt_iff; lia ]).
  rewrite SFcompare_aligned by assumption. f_equal.
  pose proof (bounded_facts mx ex Hx) as (Hex & _).
  pose proof (bounded_facts my ey Hy) as (Hey & _).
  rewrite (aligned_ordZ sx mx ex (Z.min ex ey)) by lia.
  rewrite (aligned_ordZ sy my ey (Z.min ex ey)) by lia.
  apply Zmult_compare_compat_r. apply Z.lt_gt.
  apply Z.pow_pos_nonneg; lia.
Qed.

Lemma leb_ordZ (x y : float) :
  (x <=? y)%float = true <->
  is_nan x = false /\ is_nan y = false
  /\ ordZ (Prim2SF x) <= ordZ (Prim2SF y).
Proof.
  rewrite FloatAxioms.leb_spec. unfold SFleb.
  destruct (is_nan x) eqn:Hx.
  { apply isNaN_spec in Hx. rewrite Hx. cbn.
    split; [discriminate | intros (? & _); discriminate]. }
  destruct (is_nan y) eqn:Hy.
  { apply isNaN_spec in Hy. rewrite Hy.
    destruct (Prim2SF x); cbn; split; try discriminate;
      intros (_ & ? & _); discriminate. }
  rewrite SFcompare_ordZ;
    [| apply Prim2SF_valid | apply Prim2SF_valid
     | apply isNaN_false; exact Hx | apply isNaN_false; exact Hy ].
  generalize (ordZ (Prim2SF x)) (ordZ (Prim2SF y)). intros a b.
  destruct (Z.compare_spec a b) as [Hc | Hc | Hc].
  - split; [intros _ | reflexivity].
    split; [reflexivity | split; [reflexivity | lia]].
  - split; [intros _ | reflexivity].
    split; [reflexivity | split; [reflexivity | lia]].
  - split; [discriminate |]. intros (_ & _ & Hle). lia.
Qed.

Lemma geb_trans x y z : geb x y = true -> geb y z = true -> geb x z = true.
Proof.
  unfold geb. rewrite !leb_ordZ. intros (? & ? & ?) (? & ? & ?).
  repeat split; auto. lia.
Qed.

(* ================================================================= *)
(** ** What a search returns *)

Lemma geb_not_nan x y :
  geb x y = true -> isNaN x = false /\ isNaN y = false.
Proof.
  unfold geb. rewrite FloatAxioms.leb_spec. intros Hle.
  split; apply isNaN_false; intros Hn; rewrite Hn in Hle;
    [destruct (Prim2SF y) as [| [] | |] | ]; discriminate.
Qed.

Section SortFacts.
Context `{Host}.

Lemma insertSorted_head x l :
  match insertSorted x l with
  | [] => False
  | z :: _ => z = x \/ exists l', l = z :: l'
  end.
Proof.
  destruct l as [| y l]; cbn [insertSorted]; [auto |].
  destruct (0 <? compareFn x y)%float; eauto.
Qed.

Lemma scoreGe_trans : Transitive scoreGe.
Proof. intros r1 r2 r3. unfold scoreGe. apply geb_trans. Qed.

Lemma insertSorted_Sorted x l :
  isNaN (score x) = false ->
  Forall (fun r => isNaN (score r) = false) l ->
  Sorted scoreGe l -> Sorted scoreGe (insertSorted x l).
Proof.
  intros Hx Hl Hsorted. induction Hsorted as [| y l Hsorted IH Hhd].
  - repeat constructor.
  - cbn [insertSorted]. inversion Hl as [| ? ? Hy Hl']; subst.
    pose proof (sub_order (score x) (score y) Hx Hy) as Horder.
    unfold compareFn.
    destruct (0 <? score y - score x)%float.
    + constructor; [apply IH; exact Hl' |].
      pose proof (insertSorted_head x l) as Hhead.
      destruct (insertSorted x l) as [| z rest]; [constructor |].
      constructor. destruct Hhead as [-> | [l' ->]].
      * exact Horder.
      * inversion Hhd; subst. assumption.
    + constructor; [constructor; assumption |]. constructor. exact Horder.
Qed.

Lemma sortResults_Sorted l :
  Forall (fun r => isNaN (score r) = false) l -> Sorted scoreGe (sortResults l).
Proof.
  induction 1 as [| x l Hx Hl IH]; cbn [sortResults foldr]; [constructor |].
  apply insertSorted_Sorted; [exact Hx | | exact IH].
  rewrite sortResults_Permutation. exact Hl.
Qed.

Lemma sortResults_descending l :
  Forall (fun r => isNaN (score r) = false) l -> descending (sortResults l).
Proof.
  intros Hl. apply Sorted_StronglySorted; [exact scoreGe_trans |].
  apply sortResults_Sorted. exact Hl.
Qed.

Lemma descending_firstn n : forall l, descending l -> descending (firstn n l).
Proof.
  induction n as [| n IH]; intros l Hl; [constructor |].
  destruct Hl as [| x l Hl Hall]; [constructor |].
  cbn [firstn]. constructor; [apply IH; exact Hl |].
  apply List.Forall_forall. intros y Hy.
  rewrite List.Forall_forall in Hall. apply Hall.
  apply list_elem_of_In. eapply subseteq_take. apply list_elem_of_In. exact Hy.
Qed.

(** In a descending list of two or more results no score is NaN. *)
Lemma descending_no_nan l :
  descending l -> (2 <= length l)%nat ->
  Forall (fun r => isNaN (score r) = false) l.
Proof.
  intros Hl. apply StronglySorted_Sorted in Hl.
  induction Hl as [| x l Hl IH Hhd]; intros Hlen; [constructor |].
  destruct Hhd as [| y l Hxy]; [cbn in Hlen; lia |].
  apply geb_not_nan in Hxy as [Hx Hy].
  constructor; [exact Hx |].
  destruct l as [| z l]; [repeat constructor; exact Hy |].
  apply IH. cbn. lia.
Qed.

(** C3, as the code has it: every returned result belongs to a chunk that
    has an embedding; for a non-negative [topK] at most [topK] results are
    returned; and when none of the scores the loop pushed is NaN the returned
    list is in descending order of score, every result scoring at least as
    much as each later one. *)
Theorem searchSimilarChunks_results api now query topK st results :
  searchSimilarChunks api now query topK st = Some results ->
  (forall r, In r results -> embedding (chunk r) <> None)
  /\ (0 <= topK -> Z.of_nat (length results) <= topK)
  /\ ((forall q c r,
         getQueryEmbedding api query st = Some q ->
         In c (chunks st) ->
         scoreChunk now query q c = Some r ->
         isNaN (score r) = false) ->
      descending results).
Proof.
  intros Hsearch. split; [| split].
  - intros r Hr.
    destruct (searchSimilarChunks_In _ _ _ _ _ _ _ Hsearch Hr)
      as (q & c & _ & _ & Hscore).
    apply scoreChunk_chunk in Hscore. destruct Hscore as [-> [e ->]].
    discriminate.
  - intros Hk. unfold searchSimilarChunks in Hsearch.
    destruct (getQueryEmbedding api query st); [| discriminate].
    injection Hsearch as <-. unfold sliceTo.
    destruct (Z.ltb_spec topK 0); [lia |].
    rewrite length_take. lia.
  - intros Hnum. unfold searchSimilarChunks in Hsearch.
    destruct (getQueryEmbedding api query st) as [q |] eqn:Hq; [| discriminate].
    injection Hsearch as <-.
    assert (Hsorted : descending (sortResults (similarities now query q st))).
    { apply sortResults_descending. apply List.Forall_forall. intros r Hr.
      apply similarities_In in Hr. destruct Hr as (c & Hc & Hscore).
      exact (Hnum q c r eq_refl Hc Hscore). }
    unfold sliceTo. destruct (topK <? 0); apply descending_firstn; exact Hsorted.
Qed.
End SortFacts.

Section SortSamples.
#[local] Existing Instance seoulHost.

Lemma searchSimilarChunks_results_witness :
  exists results,
    searchSimilarChunks sampleQueryApi sampleNow (js "회의록 정리") 2 sampleStore
    = Some results
    /\ (forall r, In r results -> embedding (chunk r) <> None)
    /\ Z.of_nat (length results) <= 2
    /\ descending results.
Proof.
  eexists. split; [vm_compute; reflexivity |].
  edestruct (searchSimilarChunks_results sampleQueryApi sampleNow
               (js "회의록 정리") 2 sampleStore)
    as (Hemb & Hlen & Hsorted); [vm_compute; reflexivity |].
  split; [exact Hemb |]. split; [apply Hlen; lia |].
  apply Hsorted. intros q c r Hq Hc Hr.
  vm_compute in Hq. injection Hq as <-.
  destruct Hc as [<- | [<- | [<- | [<- | []]]]];
    vm_compute in Hr; try discriminate; injection Hr as <-; reflexivity.
Defined.

(** C3 as stated fails twice.  With a chunk whose vector is all zeros the
    returned list holds a NaN score, and no arrangement of it is descending;
    with [topK = -1] two results are returned. *)
Lemma searchSimilarChunks_nan_or_negative :
  (exists results,
      searchSimilarChunks sampleQueryApi sampleNow (js "회의록 정리") 5 zeroStore
      = Some results
      /\ (exists r, In r results /\ isNaN (score r) = true)
      /\ forall l, Permutation l results -> ~ descending l)
  /\ (exists results,
        searchSimilarChunks sampleQueryApi sampleNow (js "회의록 정리") (-1)
          sampleStore = Some results
        /\ length results = 2%nat
        /\ ~ (Z.of_nat (length results) <= -1)).
Proof.
  split.
  - eexists. split; [vm_compute; reflexivity |].
    assert (Hnan : exists r,
               In r [ {| chunk := freshChunk; score := 0.6 |};
                      {| chunk := zeroChunk; score := nan |};
                      {| chunk := staleChunk; score := 1 |} ]
               /\ isNaN (score r) = true).
    { eexists. split; [right; left; reflexivity | reflexivity]. }
    split; [exact Hnan |].
    intros l Hperm Hl. destruct Hnan as (r & Hr & Hscore).
    pose proof (Permutation_length Hperm) as Hlen. cbn in Hlen.
    pose proof (descending_no_nan l Hl ltac:(lia)) as Hall.
    rewrite List.Forall_forall in Hall.
    apply (Permutation_in _ (Permutation_sym Hperm)) in Hr.
    rewrite (Hall r Hr) in Hscore. discriminate.
  - eexists. split; [vm_compute; reflexivity |].
    split; [reflexivity |]. cbn. lia.
Qed.
End SortSamples.

(* ================================================================= *)
(** ** Rounding to binary64, over the reals

    The operations of binary64 are specified by integer shifts that keep a
    round and a sticky bit.  Read over the reals, the shifts keep track of
    where the exact result lies, and the final step picks a nearest
    neighbour. *)

Section Rounding.
Local Open Scope R_scope.

Local Notation "'emin64'" := (SpecFloat.emin prec emax).
Local Notation "'fexp64'" := (SpecFloat.fexp prec emax).

Lemma Rabs_bounds x a : Rabs x <= a -> - a <= x <= a.
Proof. unfold Rabs. destruct (Rcase_abs x); lra. Qed.

Lemma pow2_pos e : 0 < pow2 e.
Proof. apply powerRZ_lt. lra. Qed.

Lemma pow2_add a b : pow2 (a + b) = pow2 a * pow2 b.
Proof. apply powerRZ_add. lra. Qed.

Lemma pow2_0 : pow2 0 = 1.
Proof. reflexivity. Qed.

Lemma pow2_1 : pow2 1 = 2.
Proof. unfold pow2, powerRZ. rewrite Pos2Nat.inj_1. cbn [pow]. lra. Qed.

Lemma pow2_m1 : pow2 (-1) = / 2.
Proof. unfold pow2, powerRZ. rewrite Pos2Nat.inj_1. cbn [pow]. f_equal. lra. Qed.

Lemma pow2_opp e : pow2 (- e) = / pow2 e.
Proof.
  pose proof (pow2_pos e) as Hpos.
  apply Rmult_eq_reg_l with (pow2 e); [| lra].
  rewrite <- pow2_add, Z.add_opp_diag_r, pow2_0. field. lra.
Qed.

Lemma pow2_IZR k : (0 <= k)%Z -> pow2 k = IZR (2 ^ k).
Proof.
  intros Hk. pattern k. apply natlike_ind; [reflexivity | | exact Hk].
  intros x Hx IH. unfold Z.succ. rewrite pow2_add, IH, pow2_1.
  rewrite Z.pow_add_r, mult_IZR by lia. cbn. lra.
Qed.

Lemma pow2_ge_1 k : (0 <= k)%Z -> 1 <= pow2 k.
Proof.
  intros Hk. rewrite pow2_IZR by exact Hk. apply IZR_le.
  pose proof (Z.pow_pos_nonneg 2 k ltac:(lia) Hk). lia.
Qed.

Lemma pow2_le a b : (a <= b)%Z -> pow2 a <= pow2 b.
Proof.
  intros Hab. replace b with (a + (b - a))%Z by lia.
  rewrite pow2_add. pose proof (pow2_pos a).
  pose proof (pow2_ge_1 (b - a) ltac:(lia)). nra.
Qed.

Lemma pow2_lt a b : (a < b)%Z -> pow2 a < pow2 b.
Proof.
  intros Hab. replace b with (a + 1 + (b - a - 1))%Z by lia.
  rewrite !pow2_add, pow2_1. pose proof (pow2_pos a).
  pose proof (pow2_ge_1 (b - a - 1) ltac:(lia)). nra.
Qed.

Lemma pow2_succ e : pow2 (e + 1) = 2 * pow2 e.
Proof. rewrite pow2_add, pow2_1. lra. Qed.

Lemma pow2_pred e : pow2 (e - 1) = / 2 * pow2 e.
Proof.
  replace (e - 1)%Z with (e + -1)%Z by lia. rewrite pow2_add, pow2_m1. lra.
Qed.

(** One shift: the exact value is halved. *)
Lemma shr_1_inbetween mrs x :
  (0 <= shr_m mrs)%Z ->
  inbetween (shr_m mrs) (loc_of_shr_record mrs) x ->
  (0 <= shr_m (shr_1 mrs))%Z
  /\ inbetween (shr_m (shr_1 mrs)) (loc_of_shr_record (shr_1 mrs)) (x / 2).
Proof.
  destruct mrs as [m r s]. cbn [shr_m]. intros Hm Hx.
  destruct m as [| [p | p |] | p]; try lia;
    cbn [shr_1 shr_m]; (split; [lia |]);
    try rewrite (Pos2Z.inj_xI p) in Hx; try rewrite (Pos2Z.inj_xO p) in Hx;
    destruct r, s; cbn [loc_of_shr_record inbetween orb] in *;
    rewrite ?plus_IZR, ?mult_IZR in Hx; lra.
Qed.

Lemma located_eq mrs x y : x = y -> located mrs x -> located mrs y.
Proof. intros ->. tauto. Qed.

Lemma shr_1_located mrs x : located mrs x -> located (shr_1 mrs) (x / 2).
Proof. intros [Hm Hx]. apply shr_1_inbetween; assumption. Qed.

Lemma iter_shr_1_located p : forall mrs x,
  located mrs x ->
  located (SpecFloat.iter_pos shr_1 p mrs) (x * pow2 (- Zpos p)).
Proof.
  induction p as [p IH | p IH |]; intros mrs x Hx; cbn [SpecFloat.iter_pos].
  - eapply located_eq; [| apply IH, IH, shr_1_located, Hx].
    rewrite (Pos2Z.inj_xI p).
    replace (- (2 * Zpos p + 1))%Z with (- Zpos p + - Zpos p + -1)%Z by lia.
    rewrite !pow2_add, pow2_m1. field.
  - eapply located_eq; [| apply IH, IH, Hx].
    rewrite (Pos2Z.inj_xO p).
    replace (- (2 * Zpos p))%Z with (- Zpos p + - Zpos p)%Z by lia.
    rewrite !pow2_add. ring.
  - eapply located_eq; [| apply shr_1_located, Hx].
    change (pow2 (- Z.pos 1)) with (pow2 (Zneg 1)). rewrite pow2_m1. field.
Qed.

Lemma located_of_loc m l x :
  (0 <= m)%Z -> inbetween m l x -> located (shr_record_of_loc m l) x.
Proof.
  intros Hm Hx. split; destruct l as [| []]; cbn; assumption.
Qed.

(** The first rounding step: the mantissa is shifted to the exponent of the
    result and the exact value stays located. *)
Lemma shr_fexp_located m e l x :
  (0 <= m)%Z -> inbetween m l x ->
  (e <= fexp64 (Zdigits2 m + e))%Z ->
  exists mrs,
    shr_fexp prec emax m e l = (mrs, fexp64 (Zdigits2 m + e))
    /\ located mrs (x * pow2 (e - fexp64 (Zdigits2 m + e)))
    /\ shr_m mrs = (m / 2 ^ (fexp64 (Zdigits2 m + e) - e))%Z.
Proof.
  intros Hm Hx He. unfold shr_fexp, shr.
  set (E := fexp64 (Zdigits2 m + e)) in *.
  pose proof (located_of_loc m l x Hm Hx) as Hloc.
  destruct (E - e)%Z as [| n | n] eqn:Hn; try lia.
  - exists (shr_record_of_loc m l). replace E with e by lia.
    split; [reflexivity |]. split.
    + eapply located_eq; [| exact Hloc]. rewrite Z.sub_diag, pow2_0. ring.
    + rewrite shr_record_of_loc_m. cbn. rewrite Z.div_1_r. reflexivity.
  - exists (SpecFloat.iter_pos shr_1 n (shr_record_of_loc m l)).
    split; [f_equal; lia |]. split.
    + eapply located_eq; [| apply iter_shr_1_located, Hloc].
      f_equal. f_equal. lia.
    + rewrite iter_shr_1 by (rewrite shr_record_of_loc_m; exact Hm).
      rewrite shr_record_of_loc_m. reflexivity.
Qed.

Lemma round_nearest_even_R m l x :
  inbetween m l x ->
  Rabs (IZR (round_nearest_even m l) - x) <= / 2
  /\ (m <= round_nearest_even m l <= m + 1)%Z.
Proof.
  intros Hx. destruct l as [| []]; cbn [round_nearest_even inbetween] in *;
    try destruct (Z.even m); rewrite ?plus_IZR; split; try lia;
    apply Rabs_le; lra.
Qed.

Lemma Zdigits2_le m k :
  (0 <= m < 2 ^ k)%Z -> (0 <= k)%Z -> (Zdigits2 m <= k)%Z.
Proof.
  intros [Hm Hlt] Hk. destruct m as [| p |]; cbn [Zdigits2]; try lia.
  pose proof (digits2_pos_bounds p) as [Hlow _].
  assert (Zpos (digits2_pos p) - 1 < k)%Z
    by (apply (Z.pow_lt_mono_r_iff 2); lia).
  lia.
Qed.

(** The second step: a rounded mantissa is in place, or it is [2^prec] and
    one more shift, which loses nothing, puts it in place. *)
Lemma shr_fexp_rounded m2 E :
  (0 <= m2 <= 2 ^ prec)%Z -> (emin64 <= E)%Z ->
  exists mrs e3,
    shr_fexp prec emax m2 E loc_Exact = (mrs, e3)
    /\ F2R (shr_m mrs) e3 = F2R m2 E
    /\ (0 <= shr_m mrs < 2 ^ prec)%Z
    /\ (E <= e3 <= E + 1)%Z
    /\ (m2 = 0%Z <-> shr_m mrs = 0%Z)
    /\ (2 ^ (prec - 1) <= m2 -> 2 ^ (prec - 1) <= shr_m mrs)%Z.
Proof.
  intros [Hm Hle] HE.
  destruct (Z.eq_dec m2 (2 ^ prec)%Z) as [-> | Hne].
  - exists (Build_shr_record (2 ^ (prec - 1))%Z false false), (E + 1)%Z.
    split.
    + unfold shr_fexp. change (Zdigits2 (2 ^ prec)%Z) with (prec + 1)%Z.
      replace (fexp64 (prec + 1 + E) - E)%Z with 1%Z
        by (unfold SpecFloat.fexp; rewrite emin_value in *; lia).
      reflexivity.
    + cbn [shr_m]. split.
      * unfold F2R. rewrite pow2_succ.
        change (2 ^ prec)%Z with (2 * 2 ^ (prec - 1))%Z. rewrite mult_IZR. ring.
      * split; [split; [| reflexivity]; discriminate |].
        split; [lia |]. split; [split; discriminate | lia].
  - exists (shr_record_of_loc m2 loc_Exact), E.
    assert (Hd : (Zdigits2 m2 <= prec)%Z).
    { apply Zdigits2_le; [lia | discriminate]. }
    split.
    + unfold shr_fexp, shr.
      destruct (fexp64 (Zdigits2 m2 + E) - E)%Z eqn:Hn; try reflexivity.
      unfold SpecFloat.fexp in Hn. rewrite emin_value in *. lia.
    + cbn [shr_record_of_loc shr_m]. split; [reflexivity |].
      split; [lia |]. split; [lia |]. split; [tauto | tauto].
Qed.

Lemma Zdigits2_bounds m :
  (0 < m)%Z -> (2 ^ (Zdigits2 m - 1) <= m < 2 ^ Zdigits2 m)%Z.
Proof.
  destruct m as [| p |]; try lia. intros _. apply digits2_pos_bounds.
Qed.

Lemma Zdigits2_nonneg m : (0 <= Zdigits2 m)%Z.
Proof. destruct m; cbn; lia. Qed.

Lemma Zdigits2_gt m k : (2 ^ k <= m)%Z -> (0 <= k)%Z -> (k < Zdigits2 m)%Z.
Proof.
  intros Hle Hk.
  assert (Hpos : (0 < m)%Z)
    by (pose proof (Z.pow_pos_nonneg 2 k ltac:(lia) Hk); lia).
  pose proof (Zdigits2_bounds m Hpos) as [_ Hhigh].
  apply (Z.pow_lt_mono_r_iff 2); [lia | apply Zdigits2_nonneg | lia].
Qed.

(** Rounding, over the reals: when the mantissa has at least as many digits
    as the format keeps, the value built is within half a unit in the last
    place of the exact value. *)
Lemma binary_round_aux_R s m e l X :
  (0 <= m)%Z -> inbetween m l (X * pow2 (- e)) ->
  (e <= fexp64 (Zdigits2 m + e))%Z ->
  exists m3 e3,
    binary_round_aux prec emax s m e l = buildSF s m3 e3
    /\ (0 <= m3 < 2 ^ prec)%Z
    /\ Rabs (F2R m3 e3 - X) <= pow2 (fexp64 (Zdigits2 m + e) - 1)
    /\ (fexp64 (Zdigits2 m + e) <= e3 <= fexp64 (Zdigits2 m + e) + 1)%Z
    /\ (emin64 < fexp64 (Zdigits2 m + e) -> 2 ^ (prec - 1) <= m3)%Z
    /\ (l = loc_Exact -> e = fexp64 (Zdigits2 m + e) -> F2R m3 e3 = X).
Proof.
  intros Hm Hx He.
  destruct (shr_fexp_located m e l _ Hm Hx He) as (mrs1 & H1 & Hloc & Hm1).
  assert (Hexact : l = loc_Exact -> e = fexp64 (Zdigits2 m + e) ->
                   mrs1 = shr_record_of_loc m loc_Exact).
  { intros -> Heq. unfold shr_fexp in H1. rewrite <- Heq, Z.sub_diag in H1.
    cbn [shr] in H1. injection H1 as <-. reflexivity. }
  set (E := fexp64 (Zdigits2 m + e)) in *.
  set (d := Zdigits2 m) in *.
  assert (HE : (emin64 <= E /\ d + e - prec <= E)%Z).
  { unfold E, SpecFloat.fexp. lia. }
  assert (Hpow : (0 < 2 ^ (E - e))%Z) by (apply Z.pow_pos_nonneg; lia).
  assert (Hm1lt : (0 <= shr_m mrs1 < 2 ^ prec)%Z).
  { rewrite Hm1. split; [apply Z.div_pos; lia |].
    apply Z.div_lt_upper_bound; [exact Hpow |].
    rewrite <- Z.pow_add_r by (unfold prec; lia).
    destruct (Z.eq_dec m 0%Z) as [-> | Hne].
    - apply Z.pow_pos_nonneg; unfold prec; lia.
    - pose proof (Zdigits2_bounds m ltac:(lia)) as [_ Hhigh]. fold d in Hhigh.
      apply Z.lt_le_trans with (2 ^ d)%Z; [exact Hhigh |].
      apply Z.pow_le_mono_r; lia. }
  assert (Hm1low : (emin64 < E -> 2 ^ (prec - 1) <= shr_m mrs1)%Z).
  { intros Hnormal.
    assert (HEd : E = (d + e - prec)%Z) by (unfold E, SpecFloat.fexp in *; lia).
    assert (Hpos : (0 < m)%Z).
    { destruct (Z.eq_dec m 0%Z) as [Hz | Hne]; [| lia]. exfalso.
      unfold d in HEd. rewrite Hz in HEd. cbn [Zdigits2] in HEd.
      unfold prec in *. lia. }
    pose proof (Zdigits2_bounds m Hpos) as [Hlow _]. fold d in Hlow.
    rewrite Hm1. apply Z.div_le_lower_bound; [exact Hpow |].
    rewrite <- Z.pow_add_r by (unfold prec in *; lia).
    replace (E - e + (prec - 1))%Z with (d - 1)%Z by lia. exact Hlow. }
  destruct Hloc as [_ Hin].
  destruct (round_nearest_even_R _ _ _ Hin) as [Hround Hm2].
  set (m2 := round_nearest_even (shr_m mrs1) (loc_of_shr_record mrs1)) in *.
  destruct (shr_fexp_rounded m2 E ltac:(lia) ltac:(lia))
    as (mrs3 & e3 & H3 & Hval & Hm3 & He3 & _ & Hlow3).
  exists (shr_m mrs3), e3.
  split; [unfold binary_round_aux; rewrite H1; fold m2; rewrite H3; reflexivity |].
  assert (Hscale : X * pow2 (- e) * pow2 (e - E) * pow2 E = X).
  { rewrite !Rmult_assoc, <- !pow2_add.
    replace (- e + (e - E + E))%Z with 0%Z by lia. rewrite pow2_0. ring. }
  split; [exact Hm3 |]. split; [| split; [exact He3 | split; [lia |]]].
  - rewrite Hval. unfold F2R.
    replace (IZR m2 * pow2 E - X)
      with ((IZR m2 - X * pow2 (- e) * pow2 (e - E)) * pow2 E)
      by (rewrite Rmult_minus_distr_r, Hscale; reflexivity).
    rewrite Rabs_mult, (Rabs_pos_eq (pow2 E)) by (left; apply pow2_pos).
    rewrite pow2_pred. pose proof (pow2_pos E). nra.
  - intros Hl Heq. rewrite Hval. unfold F2R, m2.
    rewrite (Hexact Hl Heq). cbn [shr_record_of_loc shr_m loc_of_shr_record
                                  round_nearest_even].
    rewrite Hl in Hx. cbn [inbetween] in Hx. rewrite <- Hx.
    fold E in Heq. rewrite <- Heq, Rmult_assoc, <- pow2_add.
    replace (- e + e)%Z with 0%Z by lia. rewrite pow2_0. ring.
Qed.

(** The same as a statement about values: barring overflow the result is
    finite, has the sign asked for, and a magnitude within half a unit in
    the last place of the exact one; above the subnormal range that is a
    relative error of at most [roundoff]. *)
Lemma binary_round_aux_value s m e l X :
  (0 <= m)%Z -> inbetween m l (X * pow2 (- e)) ->
  (e <= fexp64 (Zdigits2 m + e))%Z ->
  X <= pow2 (emax - 2) ->
  exists v,
    finiteSF (binary_round_aux prec emax s m e l) = true
    /\ SF2R (binary_round_aux prec emax s m e l) = (if s then - v else v)
    /\ 0 <= v
    /\ Rabs (v - X) <= pow2 (fexp64 (Zdigits2 m + e) - 1)
    /\ ((emin64 <= Zdigits2 m + e - prec)%Z -> Rabs (v - X) <= roundoff * X)
    /\ Rabs (v - X) <= roundoff * X + pow2 (emin64 - 1)
    /\ (l = loc_Exact -> e = fexp64 (Zdigits2 m + e) -> v = X).
Proof.
  intros Hm Hx He Hmax.
  destruct (binary_round_aux_R s m e l X Hm Hx He)
    as (m3 & e3 & Hr & Hm3 & Herr & He3 & Hlow & Hexact).
  set (E := fexp64 (Zdigits2 m + e)) in *.
  assert (HX : IZR m * pow2 e <= X).
  { assert (Hge : IZR m <= X * pow2 (- e))
      by (destruct l as [| []]; cbn [inbetween] in Hx; lra).
    pose proof (pow2_pos e) as Hpos.
    replace X with (X * pow2 (- e) * pow2 e); [nra |].
    rewrite Rmult_assoc, <- pow2_add. replace (- e + e)%Z with 0%Z by lia.
    rewrite pow2_0. ring. }
  assert (Hv : 0 <= F2R m3 e3).
  { unfold F2R. pose proof (pow2_pos e3). pose proof (IZR_le 0 m3 ltac:(lia)).
    nra. }
  assert (Hfit : (0 < m3 -> e3 <= emax - prec)%Z).
  { intros Hpos3.
    destruct (Z_le_gt_dec E emin64) as [Hsub | Hnormal];
      [rewrite emin_value in Hsub; unfold emax, prec; lia |].
    apply Z.gt_lt in Hnormal. specialize (Hlow Hnormal).
    destruct (Z_le_gt_dec e3 (emax - prec)) as [Hok | Hbig]; [exact Hok |].
    exfalso.
    assert (H1 : pow2 (prec - 1 + e3) <= F2R m3 e3).
    { unfold F2R. rewrite pow2_add, (pow2_IZR (prec - 1)) by (unfold prec; lia).
      pose proof (pow2_pos e3). pose proof (IZR_le _ _ Hlow). nra. }
    assert (H2 : pow2 (E - 1) <= pow2 (prec - 1 + e3) * / 4).
    { replace (prec - 1 + e3)%Z with (e3 - 1 + 2 + (prec - 2))%Z by lia.
      rewrite !pow2_add. change (pow2 2) with (2 * (2 * 1)).
      pose proof (pow2_ge_1 (prec - 2) ltac:(unfold prec; lia)).
      pose proof (pow2_le (E - 1) (e3 - 1) ltac:(lia)).
      pose proof (pow2_pos (e3 - 1)). nra. }
    assert (H3 : pow2 (emax - 2) <= pow2 (prec - 1 + e3) * / 4).
    { replace (prec - 1 + e3)%Z with (prec - 1 + e3 - 2 + 2)%Z by lia.
      rewrite pow2_add. change (pow2 2) with (2 * (2 * 1)).
      pose proof (pow2_le (emax - 2) (prec - 1 + e3 - 2) ltac:(lia)). lra. }
    pose proof (pow2_pos (prec - 1 + e3)).
    apply Rabs_bounds in Herr. lra. }
  assert (Hrel : (emin64 <= Zdigits2 m + e - prec)%Z ->
                 Rabs (F2R m3 e3 - X) <= roundoff * X).
  { intros Hnormal.
    eapply Rle_trans; [exact Herr |].
    assert (HEd : E = (Zdigits2 m + e - prec)%Z)
      by (unfold E, SpecFloat.fexp in *; lia).
    assert (Hpos : (0 < m)%Z).
    { destruct (Z.eq_dec m 0%Z) as [Hz | Hne]; [| lia]. exfalso.
      rewrite Hz in HEd. cbn [Zdigits2] in HEd. unfold prec in *. lia. }
    pose proof (Zdigits2_bounds m Hpos) as [Hdig _].
    apply IZR_le in Hdig.
    rewrite <- pow2_IZR in Hdig by (pose proof (Zdigits2_bounds m Hpos);
      destruct m; cbn [Zdigits2] in *; lia).
    unfold roundoff. rewrite HEd.
    replace (Zdigits2 m + e - prec - 1)%Z with (-53 + (Zdigits2 m - 1 + e))%Z
      by (unfold prec; lia).
    rewrite pow2_add, (pow2_add (Zdigits2 m - 1)).
    pose proof (pow2_pos (-53)). pose proof (pow2_pos e).
    apply Rmult_le_compat_l; [lra |].
    apply Rle_trans with (IZR m * pow2 e); [| exact HX].
    apply Rmult_le_compat_r; lra. }
  assert (HX0 : 0 <= X).
  { pose proof (pow2_pos e). pose proof (IZR_le 0 m Hm). nra. }
  exists (F2R m3 e3). rewrite Hr.
  split; [| split; [| split; [exact Hv | split; [exact Herr |
    split; [exact Hrel | split]]]]].
  - unfold buildSF. destruct m3 as [| p |]; try lia; [reflexivity |].
    rewrite (proj2 (Z.leb_le _ _) (Hfit ltac:(lia))). reflexivity.
  - unfold buildSF. destruct m3 as [| p |]; try lia.
    + unfold F2R. cbn [SF2R]. destruct s; lra.
    + rewrite (proj2 (Z.leb_le _ _) (Hfit ltac:(lia))). cbn [SF2R].
      unfold F2R. destruct s; cbn [cond_Zopp]; [| reflexivity].
      rewrite opp_IZR. ring.
  - destruct (Z_le_gt_dec emin64 (Zdigits2 m + e - prec)) as [Hn | Hsub].
    + pose proof (Hrel Hn). pose proof (pow2_pos (emin64 - 1)). lra.
    + assert (HEd : E = emin64) by (unfold E, SpecFloat.fexp in *; lia).
      rewrite HEd in Herr. pose proof (pow2_pos (-53)). unfold roundoff. nra.
  - exact Hexact.
Qed.

Lemma inbetween_scaled m e l X :
  (0 <= m)%Z -> inbetween m l (X * pow2 (- e)) ->
  IZR m * pow2 e <= X < (IZR m + 1) * pow2 e.
Proof.
  intros Hm Hx. pose proof (pow2_pos e) as Hpos.
  assert (HX : X = X * pow2 (- e) * pow2 e).
  { rewrite Rmult_assoc, <- pow2_add. replace (- e + e)%Z with 0%Z by lia.
    rewrite pow2_0. ring. }
  set (t := X * pow2 (- e)) in *. clearbody t. rewrite HX.
  destruct l as [| []]; cbn [inbetween] in Hx; split; nra.
Qed.

(** An exact value in the range of the normal numbers is rounded at full
    precision. *)
Lemma inbetween_normal m e l X :
  (0 <= m)%Z -> inbetween m l (X * pow2 (- e)) ->
  pow2 (emin64 + prec - 1) <= X ->
  (emin64 <= Zdigits2 m + e - prec)%Z.
Proof.
  intros Hm Hx Hnormal.
  destruct (inbetween_scaled m e l X Hm Hx) as [_ Hlt].
  assert (Hdig : IZR m + 1 <= pow2 (Zdigits2 m)).
  { rewrite pow2_IZR by apply Zdigits2_nonneg. rewrite <- plus_IZR.
    apply IZR_le. destruct (Z.eq_dec m 0%Z) as [-> | Hne]; [cbn; lia |].
    pose proof (Zdigits2_bounds m ltac:(lia)). lia. }
  destruct (Z_le_gt_dec emin64 (Zdigits2 m + e - prec)) as [Hok | Hbad];
    [exact Hok | exfalso].
  pose proof (pow2_le (Zdigits2 m + e) (emin64 + prec - 1) ltac:(lia)) as Hle.
  rewrite pow2_add in Hle. pose proof (pow2_pos e). nra.
Qed.

Lemma signed_error (s : bool) X v :
  0 <= X ->
  Rabs ((if s then - v else v) - (if s then - X else X)) = Rabs (v - X)
  /\ Rabs (if s then - X else X) = X.
Proof.
  intros HX. destruct s.
  - replace (- v - - X) with (- (v - X)) by ring.
    rewrite !Rabs_Ropp, (Rabs_pos_eq X) by exact HX. split; reflexivity.
  - rewrite (Rabs_pos_eq X) by exact HX. split; reflexivity.
Qed.
End Rounding.

(* ================================================================= *)
(** ** The four operations of the similarity, over the reals *)

Section Operations.
Local Open Scope R_scope.

Local Notation "'emin64'" := (SpecFloat.emin prec emax).
Local Notation "'fexp64'" := (SpecFloat.fexp prec emax).
Local Notation "'bounded64'" := (SpecFloat.bounded prec emax).

Lemma SF2R_finite s m e :
  SF2R (S754_finite s m e)
  = if s then - (IZR (Zpos m) * pow2 e) else IZR (Zpos m) * pow2 e.
Proof.
  cbn [SF2R]. unfold F2R. destruct s; cbn [cond_Zopp]; [| reflexivity].
  change (- Zpos m)%Z with (Zneg m). rewrite <- (Pos2Z.opp_pos m), opp_IZR. ring.
Qed.

Lemma magnitude_pos m e : 0 < IZR (Zpos m) * pow2 e.
Proof.
  pose proof (pow2_pos e). pose proof (IZR_lt 0 (Zpos m) ltac:(lia)). nra.
Qed.

Lemma valid_finite x s m e :
  Prim2SF x = S754_finite s m e -> bounded64 m e = true.
Proof.
  intros Hx. pose proof (Prim2SF_valid x) as Hv. rewrite Hx in Hv. exact Hv.
Qed.

(** A product of two valid mantissas has enough digits to be rounded. *)
Lemma product_digits mx ex my ey :
  bounded64 mx ex = true -> bounded64 my ey = true ->
  (ex + ey <= fexp64 (Zdigits2 (Zpos (mx * my)) + (ex + ey)))%Z.
Proof.
  intros Hx Hy.
  apply bounded_facts in Hx. destruct Hx as (Hex & _ & Hmx).
  apply bounded_facts in Hy. destruct Hy as (Hey & _ & Hmy).
  rewrite emin_value in *. unfold SpecFloat.fexp. rewrite emin_value.
  assert (Hdig : (2 ^ (prec - 1) <= Zpos mx \/ 2 ^ (prec - 1) <= Zpos my ->
                  prec - 1 < Zdigits2 (Zpos (mx * my)))%Z).
  { intros Hnormal. apply Zdigits2_gt; [| unfold prec; lia].
    rewrite Pos2Z.inj_mul.
    pose proof (Pos2Z.is_pos mx). pose proof (Pos2Z.is_pos my).
    set (a := (2 ^ (prec - 1))%Z) in *. clearbody a. nia. }
  set (d := Zdigits2 (Zpos (mx * my))) in *. unfold prec in *. lia.
Qed.

(** Multiplication: barring overflow the product of two finite numbers is
    finite, and it is the exact product up to a relative error of [roundoff]
    and, below the normal range, an absolute error of half the smallest
    number. *)
Lemma SFmul_R x y :
  valid_binary x = true -> valid_binary y = true ->
  finiteSF x = true -> finiteSF y = true ->
  Rabs (SF2R x * SF2R y) <= pow2 (emax - 2) ->
  finiteSF (SF64mul x y) = true
  /\ Rabs (SF2R (SF64mul x y) - SF2R x * SF2R y)
     <= roundoff * Rabs (SF2R x * SF2R y) + pow2 (emin64 - 1)
  /\ (pow2 (emin64 + prec - 1) <= Rabs (SF2R x * SF2R y) ->
      Rabs (SF2R (SF64mul x y) - SF2R x * SF2R y)
      <= roundoff * Rabs (SF2R x * SF2R y)).
Proof.
  intros Hvx Hvy Hfx Hfy Hmax.
  assert (Hzero : forall z : R, z = 0 ->
            Rabs (0 - z) <= roundoff * Rabs z + pow2 (emin64 - 1)
            /\ (pow2 (emin64 + prec - 1) <= Rabs z ->
                Rabs (0 - z) <= roundoff * Rabs z)).
  { intros z ->. rewrite Rminus_0_r, Rabs_R0.
    pose proof (pow2_pos (emin64 - 1)). split; [lra |]. intros _.
    rewrite Rmult_0_r. lra. }
  destruct x as [sx | sx | | sx mx ex], y as [sy | sy | | sy my ey];
    try discriminate; cbn [SF64mul SFmul];
    try (split; [reflexivity | apply Hzero; cbn [SF2R]; ring]).
  cbn [valid_binary] in Hvx, Hvy.
  set (X := IZR (Zpos (mx * my)) * pow2 (ex + ey)).
  assert (Hprod : SF2R (S754_finite sx mx ex) * SF2R (S754_finite sy my ey)
                  = if xorb sx sy then - X else X).
  { rewrite !SF2R_finite. unfold X. rewrite Pos2Z.inj_mul, mult_IZR, pow2_add.
    destruct sx, sy; cbn [xorb]; ring. }
  assert (HX : 0 <= X) by (left; apply magnitude_pos).
  rewrite Hprod in *.
  destruct (signed_error (xorb sx sy) X X HX) as [_ Habs].
  rewrite Habs in *.
  assert (Hin : inbetween (Zpos (mx * my)) loc_Exact (X * pow2 (- (ex + ey)))).
  { cbn [inbetween]. unfold X. rewrite Rmult_assoc, <- pow2_add.
    replace (ex + ey + - (ex + ey))%Z with 0%Z by lia. rewrite pow2_0. ring. }
  destruct (binary_round_aux_value (xorb sx sy) (Zpos (mx * my)) (ex + ey)
              loc_Exact X ltac:(lia) Hin (product_digits _ _ _ _ Hvx Hvy) Hmax)
    as (v & Hfin & Hval & Hv & _ & Hrel & Habs' & _).
  unfold SF64mul. cbn [SFmul]. rewrite Hval.
  destruct (signed_error (xorb sx sy) X v HX) as [Herr _]. rewrite Herr.
  split; [exact Hfin |]. split; [exact Habs' |].
  intros Hnormal. apply Hrel.
  apply (inbetween_normal _ _ loc_Exact X); [lia | exact Hin | exact Hnormal].
Qed.

Lemma digits_iter_xO m d :
  digits2_pos (Pos.iter xO m d) = (digits2_pos m + d)%positive.
Proof.
  induction d as [| d IH] using Pos.peano_ind.
  - cbn. rewrite Pos.add_1_r. reflexivity.
  - rewrite Pos.iter_succ. cbn [digits2_pos]. rewrite IH, Pos.add_succ_r.
    reflexivity.
Qed.

(** Rounding an integer multiple of a power of two that is not below the
    smallest number: never more than the relative error [roundoff], since
    below the normal numbers such a value is kept as it is. *)
Lemma binary_round_R s p e :
  (emin64 <= e)%Z ->
  IZR (Zpos p) * pow2 e <= pow2 (emax - 2) ->
  exists v,
    finiteSF (binary_round prec emax s p e) = true
    /\ SF2R (binary_round prec emax s p e) = (if s then - v else v)
    /\ 0 <= v
    /\ Rabs (v - IZR (Zpos p) * pow2 e) <= roundoff * (IZR (Zpos p) * pow2 e).
Proof.
  intros He Hmax. unfold binary_round.
  set (X := IZR (Zpos p) * pow2 e) in *.
  set (E0 := fexp64 (Zpos (digits2_pos p) + e)).
  assert (HX : 0 < X) by apply magnitude_pos.
  assert (Hexact : forall v : R, v = X -> Rabs (v - X) <= roundoff * X).
  { intros v ->. rewrite Rminus_diag, Rabs_R0. pose proof (pow2_pos (-53)).
    unfold roundoff. nra. }
  unfold shl_align. destruct (E0 - e)%Z as [| d | d] eqn:Hd.
  - assert (Hin : inbetween (Zpos p) loc_Exact (X * pow2 (- e))).
    { cbn [inbetween]. unfold X. rewrite Rmult_assoc, <- pow2_add.
      replace (e + - e)%Z with 0%Z by lia. rewrite pow2_0. ring. }
    destruct (binary_round_aux_value s (Zpos p) e loc_Exact X ltac:(lia) Hin
                ltac:(cbn [Zdigits2]; fold E0; lia) Hmax)
      as (v & Hfin & Hval & Hv & _ & _ & _ & Hex).
    exists v. split; [exact Hfin |]. split; [exact Hval |].
    split; [exact Hv |]. apply Hexact. apply Hex; [reflexivity |].
    cbn [Zdigits2]. fold E0. lia.
  - assert (Hin : inbetween (Zpos p) loc_Exact (X * pow2 (- e))).
    { cbn [inbetween]. unfold X. rewrite Rmult_assoc, <- pow2_add.
      replace (e + - e)%Z with 0%Z by lia. rewrite pow2_0. ring. }
    destruct (binary_round_aux_value s (Zpos p) e loc_Exact X ltac:(lia) Hin
                ltac:(cbn [Zdigits2]; fold E0; lia) Hmax)
      as (v & Hfin & Hval & Hv & _ & Hrel & _ & _).
    exists v. split; [exact Hfin |]. split; [exact Hval |].
    split; [exact Hv |]. apply Hrel. cbn [Zdigits2].
    unfold E0, SpecFloat.fexp in Hd. lia.
  - set (mz := Pos.iter xO p d).
    assert (Hmz : Zpos mz = (Zpos p * 2 ^ Zpos d)%Z) by apply iter_xO.
    assert (Hdig : (Zdigits2 (Zpos mz) + E0 = Zpos (digits2_pos p) + e)%Z).
    { cbn [Zdigits2]. unfold mz. rewrite digits_iter_xO, Pos2Z.inj_add. lia. }
    assert (Hin : inbetween (Zpos mz) loc_Exact (X * pow2 (- E0))).
    { cbn [inbetween]. unfold X. rewrite Hmz, mult_IZR, <- pow2_IZR by lia.
      rewrite Rmult_assoc, <- pow2_add. do 2 f_equal. lia. }
    destruct (binary_round_aux_value s (Zpos mz) E0 loc_Exact X ltac:(lia) Hin
                ltac:(rewrite Hdig; fold E0; lia) Hmax)
      as (v & Hfin & Hval & Hv & _ & _ & _ & Hex).
    exists v. split; [exact Hfin |]. split; [exact Hval |].
    split; [exact Hv |]. apply Hexact. apply Hex; [reflexivity |].
    rewrite Hdig. reflexivity.
Qed.

Lemma aligned_R s m e ez :
  (ez <= e)%Z ->
  IZR (cond_Zopp s (Zpos (fst (shl_align m e ez)))) * pow2 ez
  = SF2R (S754_finite s m e).
Proof.
  intros Hle. rewrite shl_align_value by exact Hle. rewrite SF2R_finite.
  replace (IZR (cond_Zopp s (Zpos m * 2 ^ (e - ez))))
    with ((if s then -1 else 1) * (IZR (Zpos m) * pow2 (e - ez))).
  - assert (Hp : pow2 e = pow2 (e - ez) * pow2 ez)
      by (rewrite <- pow2_add; f_equal; lia).
    rewrite Hp. destruct s; ring.
  - rewrite pow2_IZR by lia.
    destruct s; cbn [cond_Zopp]; rewrite ?opp_IZR, mult_IZR; ring.
Qed.

(** Addition: barring overflow the sum of two finite numbers is finite and
    is the exact sum up to a relative error of [roundoff]. *)
Lemma SFadd_R x y :
  valid_binary x = true -> valid_binary y = true ->
  finiteSF x = true -> finiteSF y = true ->
  Rabs (SF2R x + SF2R y) <= pow2 (emax - 2) ->
  finiteSF (SF64add x y) = true
  /\ Rabs (SF2R (SF64add x y) - (SF2R x + SF2R y))
     <= roundoff * Rabs (SF2R x + SF2R y).
Proof.
  intros Hvx Hvy Hfx Hfy Hmax.
  assert (Hexact : forall v z : R, v = z -> Rabs (v - z) <= roundoff * Rabs z).
  { intros v z ->. rewrite Rminus_diag, Rabs_R0. pose proof (pow2_pos (-53)).
    pose proof (Rabs_pos z). unfold roundoff. nra. }
  destruct x as [sx | sx | | sx mx ex], y as [sy | sy | | sy my ey];
    try discriminate.
  - split; [destruct sx, sy; reflexivity |]. apply Hexact.
    destruct sx, sy; cbn; ring.
  - split; [reflexivity |]. apply Hexact. cbn [SF64add SFadd SF2R]. ring.
  - split; [reflexivity |]. apply Hexact. cbn [SF64add SFadd SF2R]. ring.
  - cbn [valid_binary] in Hvx, Hvy.
    apply bounded_facts in Hvx. destruct Hvx as (Hex & _ & _).
    apply bounded_facts in Hvy. destruct Hvy as (Hey & _ & _).
    unfold SF64add. cbn [SFadd].
    set (ez := Z.min ex ey).
    rewrite <- (aligned_R sx mx ex ez), <- (aligned_R sy my ey ez) in * by lia.
    rewrite <- Rmult_plus_distr_r, <- plus_IZR in *.
    set (M := (cond_Zopp sx (Zpos (fst (shl_align mx ex ez)))
               + cond_Zopp sy (Zpos (fst (shl_align my ey ez))))%Z) in *.
    clearbody M. destruct M as [| p | p]; cbn [binary_normalize].
    + split; [reflexivity |]. apply Hexact. cbn [SF2R]. ring.
    + rewrite (Rabs_pos_eq (IZR (Zpos p) * pow2 ez)) in *
        by (left; apply magnitude_pos).
      destruct (binary_round_R false p ez ltac:(lia) Hmax)
        as (v & Hfin & Hval & _ & Herr).
      rewrite Hval. split; [exact Hfin | exact Herr].
    + change (Zneg p) with (- Zpos p)%Z in *. rewrite opp_IZR in *.
      rewrite Ropp_mult_distr_l_reverse, Rabs_Ropp in *.
      rewrite (Rabs_pos_eq (IZR (Zpos p) * pow2 ez)) in *
        by (left; apply magnitude_pos).
      destruct (binary_round_R true p ez ltac:(lia) Hmax)
        as (v & Hfin & Hval & _ & Herr).
      rewrite Hval. split; [exact Hfin |].
      replace (- v - - (IZR (Zpos p) * pow2 ez))
        with (- (v - IZR (Zpos p) * pow2 ez)) by ring.
      rewrite Rabs_Ropp. exact Herr.
Qed.
End Operations.

Section SquareRoot.
Local Open Scope R_scope.

Local Notation "'emin64'" := (SpecFloat.emin prec emax).
Local Notation "'fexp64'" := (SpecFloat.fexp prec emax).
Local Notation "'bounded64'" := (SpecFloat.bounded prec emax).

Lemma half_bounds x : (2 * (x / 2) <= x <= 2 * (x / 2) + 1)%Z.
Proof.
  pose proof (Z.div_mod x 2 ltac:(lia)).
  pose proof (Z.mod_pos_bound x 2 ltac:(lia)). lia.
Qed.

Lemma sqrt_pow2_square e : sqrt (pow2 e * pow2 e) = pow2 e.
Proof. apply sqrt_square. left. apply pow2_pos. Qed.

(** Where the square root of [q * q + r] lies, for the remainder [r] of the
    integer square root. *)
Lemma sqrtrem_inbetween q r :
  (0 <= q)%Z -> (0 <= r <= 2 * q)%Z ->
  inbetween q
    (if (r =? 0)%Z then loc_Exact
     else loc_Inexact (if (r <=? q)%Z then Lt else Gt))
    (sqrt (IZR (q * q + r))).
Proof.
  intros Hq Hr.
  assert (HQ : 0 <= IZR q) by (apply IZR_le; exact Hq).
  pose proof (sqrt_pos (IZR (q * q + r))) as HS.
  pose proof (sqrt_sqrt (IZR (q * q + r)) ltac:(apply IZR_le; nia)) as Hsq.
  set (S := sqrt (IZR (q * q + r))) in *. clearbody S.
  rewrite plus_IZR, mult_IZR in Hsq.
  destruct (Z.eqb_spec r 0) as [-> | Hr0].
  - cbn [inbetween]. rewrite Rplus_0_r in Hsq. nra.
  - destruct (Z.leb_spec r q) as [Hle | Hgt]; cbn [inbetween].
    + assert (0 < IZR r <= IZR q)
        by (split; [apply IZR_lt | apply IZR_le]; lia).
      split; apply Rnot_le_lt; intros Hc; nra.
    + assert (IZR q + 1 <= IZR r <= 2 * IZR q).
      { rewrite <- plus_IZR. change 2 with (IZR 2). rewrite <- mult_IZR.
        split; apply IZR_le; lia. }
      split; apply Rnot_le_lt; intros Hc; nra.
Qed.

(** The square root: that of a finite positive number is finite and is the
    exact root up to a relative error of [roundoff]. *)
Lemma SFsqrt_R m e :
  bounded64 m e = true ->
  finiteSF (SF64sqrt (S754_finite false m e)) = true
  /\ Rabs (SF2R (SF64sqrt (S754_finite false m e))
           - sqrt (SF2R (S754_finite false m e)))
     <= roundoff * sqrt (SF2R (S754_finite false m e)).
Proof.
  intros Hb. pose proof Hb as Hb'.
  apply bounded_facts in Hb. destruct Hb as (Hemin & Hm & _).
  apply bounded_exp in Hb'.
  rewrite emin_value in Hemin.
  unfold SF64sqrt. cbn [SFsqrt]. unfold SFsqrt_core_binary.
  rewrite !Z.div2_div.
  pose proof (Zdigits2_bounds (Zpos m) ltac:(lia)) as [Hdlow Hdhigh].
  set (d := Zdigits2 (Zpos m)) in *.
  assert (Hd : (1 <= d <= prec)%Z).
  { split; [unfold d; cbn; lia |].
    assert (d - 1 < prec)%Z
      by (apply (Z.pow_lt_mono_r_iff 2); unfold prec in *; lia).
    lia. }
  set (e' := Z.min (fexp64 ((d + e + 1) / 2)) (e / 2)).
  assert (He' : (emin64 <= e' /\ 2 * e' <= e /\ 2 * e' <= d + e + 1 - 2 * prec)%Z).
  { unfold e', SpecFloat.fexp. rewrite emin_value. unfold prec in *.
    pose proof (half_bounds (d + e + 1)). pose proof (half_bounds e). lia. }
  destruct He' as (He'min & He'e & He'd).
  set (s := (e - 2 * e')%Z).
  assert (Hm' : match s with
                | Zpos _ => Z.shiftl (Zpos m) s
                | Z0 => Zpos m
                | Zneg _ => 0%Z
                end = (Zpos m * 2 ^ s)%Z).
  { assert (Hs : (0 <= s)%Z) by (unfold s; lia).
    destruct s as [| p | p] eqn:Hs'; try lia.
    apply Z.shiftl_mul_pow2. lia. }
  rewrite Hm'. clear Hm'.
  assert (Hs : (0 <= s)%Z) by (unfold s; lia).
  assert (Hpows : (0 < 2 ^ s)%Z) by (apply Z.pow_pos_nonneg; lia).
  pose proof (Z.sqrtrem_spec (Zpos m * 2 ^ s) ltac:(lia)) as Hspec.
  destruct (Z.sqrtrem (Zpos m * 2 ^ s)) as [q r].
  destruct Hspec as [Hqr Hr].
  assert (Hq : (2 ^ (prec - 1) <= q)%Z).
  { destruct (Z_le_gt_dec (2 ^ (prec - 1)) q) as [Hok | Hbad]; [exact Hok |].
    exfalso.
    assert (Hlow : (2 ^ (2 * prec - 2) <= Zpos m * 2 ^ s)%Z).
    { apply Z.le_trans with (2 ^ (d - 1) * 2 ^ s)%Z; [| nia].
      rewrite <- Z.pow_add_r by lia. apply Z.pow_le_mono_r; unfold s; lia. }
    replace (2 * prec - 2)%Z with (prec - 1 + (prec - 1))%Z in Hlow by lia.
    rewrite Z.pow_add_r in Hlow by (unfold prec; lia).
    set (P := (2 ^ (prec - 1))%Z) in *. clearbody P. nia. }
  assert (Hq0 : (0 <= q)%Z)
    by (pose proof (Z.pow_pos_nonneg 2 (prec - 1) ltac:(lia)
          ltac:(unfold prec; lia)); lia).
  pose proof (Zdigits2_gt q (prec - 1) Hq ltac:(unfold prec; lia)) as Hdq.
  set (X := sqrt (SF2R (S754_finite false m e))).
  assert (HX : X = sqrt (IZR (q * q + r)) * pow2 e').
  { unfold X. rewrite SF2R_finite, <- Hqr, mult_IZR, <- (pow2_IZR s) by exact Hs.
    replace (IZR (Zpos m) * pow2 e)
      with (IZR (Zpos m) * pow2 s * (pow2 e' * pow2 e')).
    - rewrite sqrt_mult; [rewrite sqrt_pow2_square; reflexivity | |].
      + pose proof (pow2_pos s). pose proof (IZR_lt 0 (Zpos m) ltac:(lia)). nra.
      + pose proof (pow2_pos e'). nra.
    - rewrite Rmult_assoc, <- !pow2_add. do 2 f_equal. unfold s. lia. }
  assert (Hin : inbetween q
                  (if (r =? 0)%Z then loc_Exact
                   else loc_Inexact (if (r <=? q)%Z then Lt else Gt))
                  (X * pow2 (- e'))).
  { rewrite HX, Rmult_assoc, <- pow2_add.
    replace (e' + - e')%Z with 0%Z by lia. rewrite pow2_0, Rmult_1_r.
    apply sqrtrem_inbetween; assumption. }
  assert (Hmax : X <= pow2 (emax - 2)).
  { apply Rle_trans with (pow2 512); [| apply pow2_le; unfold emax; lia].
    unfold X. rewrite <- (sqrt_pow2_square 512). apply sqrt_le_1_alt.
    rewrite SF2R_finite, <- pow2_add.
    apply Rle_trans with (pow2 prec * pow2 e).
    - apply Rmult_le_compat_r; [left; apply pow2_pos |].
      rewrite pow2_IZR by (unfold prec; lia). apply IZR_le. lia.
    - rewrite <- pow2_add. apply pow2_le. unfold prec, emax in *. lia. }
  destruct (binary_round_aux_value false q e' _ X Hq0 Hin
              ltac:(unfold SpecFloat.fexp; lia) Hmax)
    as (v & Hfin & Hval & _ & _ & Hrel & _ & _).
  rewrite Hval. split; [exact Hfin |]. apply Hrel. lia.
Qed.
End SquareRoot.

Section Division.
Local Open Scope R_scope.

Local Notation "'emin64'" := (SpecFloat.emin prec emax).
Local Notation "'fexp64'" := (SpecFloat.fexp prec emax).
Local Notation "'bounded64'" := (SpecFloat.bounded prec emax).

(** Where a quotient lies, for the remainder [r] of the integer division
    by [d]. *)
Lemma new_location_inbetween q d r :
  (0 < d)%Z -> (0 <= r < d)%Z ->
  inbetween q (new_location d r) (IZR q + IZR r / IZR d).
Proof.
  intros Hd Hr.
  assert (HD : 0 < IZR d) by (apply IZR_lt; exact Hd).
  assert (Ht : IZR r / IZR d * IZR d = IZR r) by (field; lra).
  assert (HR : 0 <= IZR r < IZR d)
    by (split; [apply IZR_le | apply IZR_lt]; lia).
  set (t := IZR r / IZR d) in *. clearbody t.
  assert (Hcmp : forall k : Z, (k < d)%Z -> IZR k < IZR d)
    by (intros k; apply IZR_lt).
  unfold new_location.
  destruct (Z.even d) eqn:Heven;
    [unfold new_location_even | unfold new_location_odd];
    (destruct (Z.eqb_spec r 0) as [Hr0 | Hr0];
     [subst r; assert (t = 0) by nra; subst t; cbn [inbetween]; lra |]);
    assert (0 < IZR r) by (apply IZR_lt; lia).
  - destruct (Z.compare_spec (2 * r) d) as [Heq | Hlt | Hgt];
      cbn [inbetween].
    + apply (f_equal IZR) in Heq. rewrite mult_IZR in Heq. nra.
    + apply IZR_lt in Hlt. rewrite mult_IZR in Hlt. split; nra.
    + apply IZR_lt in Hgt. rewrite mult_IZR in Hgt. split; nra.
  - assert (Hodd : (2 * r <> d)%Z).
    { intros Heq. rewrite <- Heq, Z.even_mul in Heven. discriminate. }
    destruct (Z.compare_spec (2 * r + 1) d) as [Heq | Hlt | Hgt];
      cbn [inbetween].
    + apply (f_equal IZR) in Heq. rewrite plus_IZR, mult_IZR in Heq.
      split; nra.
    + apply IZR_lt in Hlt. rewrite plus_IZR, mult_IZR in Hlt. split; nra.
    + assert (Hgt' : (d < 2 * r)%Z) by lia.
      apply IZR_lt in Hgt'. rewrite mult_IZR in Hgt'. split; nra.
Qed.

(** Division: barring overflow the quotient of two finite numbers other than
    zero is finite, and it is the exact quotient up to a relative error of
    [roundoff] and, below the normal range, an absolute error of half the
    smallest number. *)
Lemma SFdiv_R sx mx ex sy my ey :
  bounded64 mx ex = true -> bounded64 my ey = true ->
  let x := S754_finite sx mx ex in
  let y := S754_finite sy my ey in
  Rabs (SF2R x / SF2R y) <= pow2 (emax - 2) ->
  finiteSF (SF64div x y) = true
  /\ Rabs (SF2R (SF64div x y) - SF2R x / SF2R y)
     <= roundoff * Rabs (SF2R x / SF2R y) + pow2 (emin64 - 1)
  /\ (pow2 (emin64 + prec - 1) <= Rabs (SF2R x / SF2R y) ->
      Rabs (SF2R (SF64div x y) - SF2R x / SF2R y)
      <= roundoff * Rabs (SF2R x / SF2R y)).
Proof.
  intros Hbx Hby x y Hmax. subst x y.
  pose proof (Zdigits2_bounds (Zpos mx) ltac:(lia)) as [Hd1 _].
  pose proof (Zdigits2_bounds (Zpos my) ltac:(lia)) as [_ Hd2].
  unfold SF64div. cbn [SFdiv]. unfold SFdiv_core_binary.
  set (d1 := Zdigits2 (Zpos mx)) in *. set (d2 := Zdigits2 (Zpos my)) in *.
  assert (Hd1pos : (1 <= d1)%Z) by (unfold d1; cbn; lia).
  assert (Hd2pos : (1 <= d2)%Z) by (unfold d2; cbn; lia).
  set (e' := Z.min (fexp64 (d1 + ex - (d2 + ey))) (ex - ey)).
  set (s := (ex - ey - e')%Z).
  assert (Hs : (0 <= s)%Z) by (unfold s, e'; lia).
  assert (Hm' : match s with
                | Zpos _ => Z.shiftl (Zpos mx) s
                | Z0 => Zpos mx
                | Zneg _ => 0%Z
                end = (Zpos mx * 2 ^ s)%Z).
  { destruct s as [| p | p] eqn:Hs'; try lia.
    apply Z.shiftl_mul_pow2. lia. }
  rewrite Hm'. clear Hm'.
  assert (Hpows : (0 < 2 ^ s)%Z) by (apply Z.pow_pos_nonneg; lia).
  pose proof (Z.div_mod (Zpos mx * 2 ^ s) (Zpos my) ltac:(lia)) as Hdm.
  pose proof (Z.mod_pos_bound (Zpos mx * 2 ^ s) (Zpos my) ltac:(lia)) as Hr.
  unfold Z.div, Z.modulo in Hdm, Hr.
  destruct (Z.div_eucl (Zpos mx * 2 ^ s) (Zpos my)) as [q r].
  assert (Hq0 : (0 <= q)%Z) by nia.
  set (X := IZR (Zpos mx * 2 ^ s) / IZR (Zpos my) * pow2 e').
  assert (Hmy : 0 < IZR (Zpos my)) by (apply IZR_lt; lia).
  assert (Hquot : SF2R (S754_finite sx mx ex) / SF2R (S754_finite sy my ey)
                  = if xorb sx sy then - X else X).
  { rewrite !SF2R_finite. unfold X.
    rewrite mult_IZR, <- (pow2_IZR s) by exact Hs.
    assert (Hp : pow2 ex = pow2 s * pow2 e' * pow2 ey).
    { rewrite <- !pow2_add. f_equal. unfold s. lia. }
    rewrite Hp. pose proof (pow2_pos ey).
    destruct sx, sy; cbn [xorb]; field; lra. }
  assert (HX : 0 <= X).
  { unfold X. pose proof (pow2_pos e').
    pose proof (IZR_le 0 (Zpos mx * 2 ^ s) ltac:(lia)).
    apply Rmult_le_pos; [| lra]. apply Rmult_le_pos; [lra |].
    left. apply Rinv_0_lt_compat. exact Hmy. }
  rewrite Hquot in *.
  destruct (signed_error (xorb sx sy) X X HX) as [_ Habs].
  rewrite Habs in *.
  assert (Hin : inbetween q (new_location (Zpos my) r) (X * pow2 (- e'))).
  { unfold X. rewrite Rmult_assoc, <- pow2_add.
    replace (e' + - e')%Z with 0%Z by lia. rewrite pow2_0, Rmult_1_r.
    rewrite Hdm at 1. rewrite plus_IZR, mult_IZR.
    replace ((IZR (Zpos my) * IZR q + IZR r) / IZR (Zpos my))
      with (IZR q + IZR r / IZR (Zpos my)) by (field; lra).
    apply new_location_inbetween; lia. }
  assert (Hdigits : (e' <= fexp64 (Zdigits2 q + e'))%Z).
  { destruct (Z_le_gt_dec e' emin64) as [Hsub | Hnormal];
      [unfold SpecFloat.fexp; lia |].
    assert (Hsd : (prec - d1 + d2 <= s)%Z)
      by (unfold s, e', SpecFloat.fexp in *; lia).
    assert (Hq : (2 ^ (prec - 1) <= q)%Z).
    { assert (Hlow : (2 ^ (prec - 1) * 2 ^ d2 <= Zpos mx * 2 ^ s)%Z).
      { rewrite <- Z.pow_add_r by (unfold prec; lia).
        apply Z.le_trans with (2 ^ (d1 - 1) * 2 ^ s)%Z; [| nia].
        rewrite <- Z.pow_add_r by lia. apply Z.pow_le_mono_r; lia. }
      pose proof (Z.pow_pos_nonneg 2 (prec - 1) ltac:(lia)
                    ltac:(unfold prec; lia)).
      set (P := (2 ^ (prec - 1))%Z) in *. set (D := (2 ^ d2)%Z) in *.
      clearbody P D. nia. }
    pose proof (Zdigits2_gt q (prec - 1) Hq ltac:(unfold prec; lia)).
    unfold SpecFloat.fexp. lia. }
  destruct (binary_round_aux_value (xorb sx sy) q e' _ X Hq0 Hin Hdigits Hmax)
    as (v & Hfin & Hval & _ & _ & Hrel & Habs' & _).
  rewrite Hval.
  destruct (signed_error (xorb sx sy) X v HX) as [Herr _]. rewrite Herr.
  split; [exact Hfin |]. split; [exact Habs' |].
  intros Hnormal. apply Hrel.
  apply (inbetween_normal _ _ _ X Hq0 Hin Hnormal).
Qed.
End Division.

(* ================================================================= *)
(** ** The operations on binary64 numbers *)

Section FloatOperations.
Local Open Scope R_scope.

Lemma isFinite_valid x : valid_binary (Prim2SF x) = true.
Proof. apply Prim2SF_valid. Qed.

Lemma roundoff_value : roundoff = / 9007199254740992.
Proof.
  unfold roundoff. change (pow2 (-53)) with (pow2 (Z.opp 53)). rewrite pow2_opp.
  rewrite pow2_IZR by lia. reflexivity.
Qed.

Lemma mul_R (x y : float) :
  isFinite x = true -> isFinite y = true ->
  Rabs (toR x * toR y) <= pow2 1022 ->
  isFinite (x * y) = true
  /\ Rabs (toR (x * y) - toR x * toR y)
     <= roundoff * Rabs (toR x * toR y) + pow2 (-1075)
  /\ (pow2 (-1022) <= Rabs (toR x * toR y) ->
      Rabs (toR (x * y) - toR x * toR y) <= roundoff * Rabs (toR x * toR y)).
Proof.
  unfold isFinite, toR. rewrite mul_spec. intros Hx Hy Hmax.
  apply (SFmul_R _ _ (Prim2SF_valid x) (Prim2SF_valid y) Hx Hy Hmax).
Qed.

Lemma add_R (x y : float) :
  isFinite x = true -> isFinite y = true ->
  Rabs (toR x + toR y) <= pow2 1022 ->
  isFinite (x + y) = true
  /\ Rabs (toR (x + y) - (toR x + toR y)) <= roundoff * Rabs (toR x + toR y).
Proof.
  unfold isFinite, toR. rewrite add_spec. intros Hx Hy Hmax.
  apply (SFadd_R _ _ (Prim2SF_valid x) (Prim2SF_valid y) Hx Hy Hmax).
Qed.

Lemma sqrt_R (x : float) :
  isFinite x = true -> 0 < toR x ->
  isFinite (PrimFloat.sqrt x) = true
  /\ Rabs (toR (PrimFloat.sqrt x) - sqrt (toR x)) <= roundoff * sqrt (toR x).
Proof.
  unfold isFinite, toR. rewrite sqrt_spec. intros Hx Hpos.
  pose proof (Prim2SF_valid x) as Hv.
  destruct (Prim2SF x) as [s | s | | s m e]; try discriminate;
    [cbn [SF2R] in Hpos; lra |].
  destruct s.
  - exfalso. rewrite SF2R_finite in Hpos. pose proof (magnitude_pos m e). lra.
  - apply SFsqrt_R. exact Hv.
Qed.

Lemma div_R (x y : float) :
  isFinite x = true -> isFinite y = true -> toR y <> 0 ->
  Rabs (toR x / toR y) <= pow2 1022 ->
  isFinite (x / y) = true
  /\ Rabs (toR (x / y) - toR x / toR y)
     <= roundoff * Rabs (toR x / toR y) + pow2 (-1075)
  /\ (pow2 (-1022) <= Rabs (toR x / toR y) ->
      Rabs (toR (x / y) - toR x / toR y) <= roundoff * Rabs (toR x / toR y)).
Proof.
  unfold isFinite, toR. rewrite div_spec. intros Hx Hy Hnz Hmax.
  pose proof (Prim2SF_valid x) as Hvx. pose proof (Prim2SF_valid y) as Hvy.
  destruct (Prim2SF y) as [sy | sy | | sy my ey]; try discriminate;
    [exfalso; apply Hnz; reflexivity |].
  destruct (Prim2SF x) as [sx | sx | | sx mx ex]; try discriminate.
  - cbn [SF64div SFdiv SF2R finiteSF]. unfold Rdiv. rewrite Rmult_0_l.
    rewrite Rminus_diag, Rabs_R0, Rmult_0_r.
    pose proof (pow2_pos (-1075)). split; [reflexivity |]. split; lra.
  - apply (SFdiv_R sx mx ex sy my ey Hvx Hvy Hmax).
Qed.
End FloatOperations.

(* ================================================================= *)
(** ** The sums of the loop in binary64 *)

Section LoopSums.
Local Open Scope R_scope.

Local Notation "'emin64'" := (SpecFloat.emin prec emax).
Local Notation "'bounded64'" := (SpecFloat.bounded prec emax).
Local Abbreviation u := roundoff.

Lemma roundoff_bounds : 0 < u <= / 1000000.
Proof. rewrite roundoff_value. lra. Qed.

Lemma moderate_R x :
  moderate x = true ->
  isFinite x = true
  /\ (toR x = 0 \/ pow2 (-500) <= Rabs (toR x) <= pow2 500).
Proof.
  unfold moderate, isFinite, toR. pose proof (Prim2SF_valid x) as Hv.
  destruct (Prim2SF x) as [s | s | | s m e]; try discriminate; intros He.
  - split; [reflexivity | left; reflexivity].
  - split; [reflexivity | right].
    apply andb_prop in He. destruct He as [Hlow Hhigh].
    apply Z.leb_le in Hlow, Hhigh.
    apply bounded_facts in Hv. destruct Hv as (_ & Hm & Hnormal).
    rewrite emin_value in Hnormal. specialize (Hnormal ltac:(lia)).
    rewrite SF2R_finite.
    assert (Habs : Rabs (if s then - (IZR (Zpos m) * pow2 e)
                         else IZR (Zpos m) * pow2 e) = IZR (Zpos m) * pow2 e).
    { pose proof (magnitude_pos m e). destruct s;
        rewrite ?Rabs_Ropp; apply Rabs_pos_eq; lra. }
    rewrite Habs. pose proof (pow2_pos e) as Hpe.
    apply IZR_le in Hnormal. apply IZR_lt in Hm.
    rewrite <- !pow2_IZR in * by (unfold prec; lia). split.
    + apply Rle_trans with (pow2 (prec - 1) * pow2 e); [| nra].
      rewrite <- pow2_add. apply pow2_le. unfold prec. lia.
    + apply Rle_trans with (pow2 prec * pow2 e); [nra |].
      rewrite <- pow2_add. apply pow2_le. unfold prec. lia.
Qed.

Lemma toR_zero x : isFinite x = true -> toR x = 0 -> is_zero x = true.
Proof.
  unfold isFinite, toR. intros Hfin Hval. apply is_zero_spec.
  destruct (Prim2SF x) as [s | s | | s m e]; try discriminate; eauto.
  rewrite SF2R_finite in Hval. pose proof (magnitude_pos m e).
  destruct s; lra.
Qed.

Lemma mul_zero (x y : float) :
  isFinite x = true -> isFinite y = true ->
  toR x = 0 \/ toR y = 0 ->
  isFinite (x * y) = true /\ toR (x * y) = 0.
Proof.
  intros Hx Hy Hzero.
  assert (Hz : is_zero x = true \/ is_zero y = true).
  { destruct Hzero as [H0 | H0]; [left | right]; apply toR_zero; assumption. }
  unfold isFinite, toR in *. rewrite mul_spec.
  destruct Hz as [Hz | Hz]; apply is_zero_spec in Hz; destruct Hz as [s Hs];
    rewrite Hs in *.
  - destruct (Prim2SF y); try discriminate; split; reflexivity.
  - destruct (Prim2SF x); try discriminate; split; reflexivity.
Qed.

(** A product of two components in range: finite, and the exact product up
    to the relative error [roundoff]. *)
Lemma mul_moderate (x y : float) :
  moderate x = true -> moderate y = true ->
  isFinite (x * y) = true
  /\ Rabs (toR (x * y) - toR x * toR y) <= u * Rabs (toR x * toR y)
  /\ Rabs (toR x * toR y) <= pow2 1000
  /\ (toR x * toR y <> 0 -> pow2 (-1000) <= Rabs (toR x * toR y)).
Proof.
  intros Hx Hy.
  apply moderate_R in Hx, Hy. destruct Hx as [Hfx Hx], Hy as [Hfy Hy].
  assert (H1000 : pow2 1000 = pow2 500 * pow2 500) by (rewrite <- pow2_add; reflexivity).
  assert (Hm1000 : pow2 (-1000) = pow2 (-500) * pow2 (-500))
    by (rewrite <- pow2_add; reflexivity).
  pose proof (pow2_pos 500). pose proof (pow2_pos (-500)).
  destruct Hx as [Hx | Hx]; [| destruct Hy as [Hy | Hy]].
  - destruct (mul_zero x y Hfx Hfy (or_introl Hx)) as [Hfin Hval].
    rewrite Hval, Hx, Rmult_0_l, Rminus_diag, Rabs_R0, Rmult_0_r.
    split; [exact Hfin |]. split; [lra |]. split; [nra | intros Hc; lra].
  - destruct (mul_zero x y Hfx Hfy (or_intror Hy)) as [Hfin Hval].
    rewrite Hval, Hy, Rmult_0_r, Rminus_diag, Rabs_R0, Rmult_0_r.
    split; [exact Hfin |]. split; [lra |]. split; [nra | intros Hc; lra].
  - assert (Hprod : pow2 (-1000) <= Rabs (toR x * toR y) <= pow2 1000).
    { rewrite Rabs_mult, H1000, Hm1000.
      pose proof (Rabs_pos (toR x)). pose proof (Rabs_pos (toR y)).
      split; apply Rmult_le_compat; lra. }
    destruct (mul_R x y Hfx Hfy) as (Hfin & _ & Hrel).
    { apply Rle_trans with (pow2 1000); [tauto | apply pow2_le; lia]. }
    split; [exact Hfin |]. split; [| split; [tauto | intros _; tauto]].
    apply Hrel. apply Rle_trans with (pow2 (-1000)); [apply pow2_le; lia | tauto].
Qed.

Lemma pow_ge_1 x n : 0 <= x -> 1 <= (1 + x) ^ n.
Proof. intros Hx. apply pow_R1_Rle. lra. Qed.

(** Bernoulli, from above: [(1 + x)^n <= 1 + 2 n x] while [n x <= 1/2]. *)
Lemma pow_upper x n :
  0 <= x -> INR n * x <= / 2 -> (1 + x) ^ n <= 1 + 2 * INR n * x.
Proof.
  intros Hx. induction n as [| n IH]; intros Hn.
  - cbn. lra.
  - rewrite S_INR in *. cbn [pow].
    assert (Hn' : INR n * x <= / 2) by nra.
    specialize (IH Hn'). pose proof (pos_INR n). nra.
Qed.

Lemma pow_lower x n : 0 <= x <= 1 -> 1 - INR n * x <= (1 - x) ^ n <= 1.
Proof.
  intros Hx. induction n as [| n IH].
  - cbn. lra.
  - rewrite S_INR. cbn [pow]. pose proof (pos_INR n).
    assert (0 <= (1 - x) ^ n) by (apply pow_le; lra). nra.
Qed.

Lemma INR_bound n k : (Z.of_nat n <= k)%Z -> INR n <= IZR k.
Proof. intros Hn. rewrite INR_IZR_INZ. apply IZR_le. exact Hn. Qed.

(** The factors [(1 + u)^n] and [(1 - u)^n] for the lengths considered. *)
Lemma growth_bounds n :
  (Z.of_nat n <= 2 ^ 21)%Z ->
  1 <= (1 + u) ^ n <= 1 + / 1000000
  /\ 1 - / 1000000 <= (1 - u) ^ n <= 1.
Proof.
  intros Hn. apply INR_bound in Hn.
  change (IZR (2 ^ 21)) with 2097152 in Hn.
  pose proof roundoff_value as Hu. pose proof (pos_INR n).
  assert (Hnu : INR n * u <= / 4000000) by (rewrite Hu; lra).
  assert (0 < u) by (rewrite Hu; lra).
  split; split.
  - apply pow_ge_1. lra.
  - pose proof (pow_upper u n ltac:(lra) ltac:(lra)). lra.
  - pose proof (pow_lower u n ltac:(rewrite Hu; lra)). lra.
  - apply (pow_lower u n). rewrite Hu. lra.
Qed.

(** One turn of a sum, from above. *)
Lemma step_upper S q c acc t p acc' :
  0 <= S -> 1 + u <= c ->
  Rabs acc <= S * c ->
  Rabs t = q -> Rabs (p - t) <= u * q ->
  Rabs (acc' - (acc + p)) <= u * Rabs (acc + p) ->
  Rabs (acc + p) <= S * c + q * (1 + u)
  /\ Rabs acc' <= (S + q) * (c * (1 + u)).
Proof.
  intros HS Hc Hacc Ht Hp Hacc'.
  pose proof roundoff_bounds as Hu.
  assert (Hq : 0 <= q) by (rewrite <- Ht; apply Rabs_pos).
  apply Rabs_bounds in Hacc, Hp.
  assert (Ht' : - q <= t <= q) by (apply Rabs_bounds; lra).
  assert (Hsum : Rabs (acc + p) <= S * c + q * (1 + u))
    by (apply Rabs_le; nra).
  split; [exact Hsum |].
  pose proof (Rabs_pos (acc + p)) as Hpos.
  apply Rabs_bounds in Hacc'.
  set (z := Rabs (acc + p)) in *. clearbody z.
  pose proof (Rabs_bounds (acc + p) (S * c + q * (1 + u))) as Hb.
  assert (Hrange : - (S * c + q * (1 + u)) <= acc + p <= S * c + q * (1 + u)) by nra.
  apply Rabs_le. split; nra.
Qed.

(** One turn of a sum of squares, from below. *)
Lemma step_lower S q c acc p acc' :
  0 <= S -> 0 <= q -> 0 <= c <= 1 - u ->
  S * c <= acc ->
  Rabs (p - q) <= u * q ->
  Rabs (acc' - (acc + p)) <= u * Rabs (acc + p) ->
  (S + q) * (c * (1 - u)) <= acc'.
Proof.
  intros HS Hq Hc Hacc Hp Hacc'.
  pose proof roundoff_bounds as Hu.
  apply Rabs_bounds in Hp.
  assert (H1 : (S + q) * c <= acc + p) by nra.
  assert (Hsum : 0 <= acc + p) by nra.
  rewrite (Rabs_pos_eq _ Hsum) in Hacc'. apply Rabs_bounds in Hacc'.
  pose proof (Rmult_le_compat_r (1 - u) _ _ ltac:(lra) H1). nra.
Qed.
End LoopSums.

Section LoopBounds.
Local Open Scope R_scope.
Local Abbreviation u := roundoff.

Lemma pow2_1022 : pow2 1022 = 4194304 * pow2 1000.
Proof.
  change 1022%Z with (22 + 1000)%Z. rewrite pow2_add, (pow2_IZR 22) by lia.
  reflexivity.
Qed.

(** The sum of products the loop computes, against the exact sum of their
    magnitudes: each turn multiplies the bound by at most [1 + u].  For the
    sum of squares of one vector the same holds from below with [1 - u]. *)
Lemma dotLoop_bounds (a : list float) : forall b acc k S,
  length a = length b ->
  Forall (fun x => moderate x = true) a ->
  Forall (fun x => moderate x = true) b ->
  (Z.of_nat (k + length a) <= 2 ^ 20)%Z ->
  isFinite acc = true ->
  0 <= S <= INR k * pow2 1000 ->
  Rabs (toR acc) <= S * (1 + u) ^ (k + 1) ->
  isFinite (dotLoop a b acc) = true
  /\ Rabs (toR (dotLoop a b acc))
     <= (S + absDot a b) * (1 + u) ^ (k + length a + 1)
  /\ (a = b -> S * (1 - u) ^ (k + 1) <= toR acc ->
      (S + absDot a b) * (1 - u) ^ (k + length a + 1)
      <= toR (dotLoop a b acc)).
Proof.
  induction a as [| x a IH]; intros [| y b] acc k S Hlen Ha Hb Hk Hfin HS Hacc;
    try discriminate.
  - cbn [dotLoop absDot length]. rewrite Nat.add_0_r, Rplus_0_r.
    split; [exact Hfin |]. split; [exact Hacc | intros _ Hlow; exact Hlow].
  - cbn [dotLoop absDot length] in *.
    inversion Ha as [| ? ? Hx Ha']; subst. inversion Hb as [| ? ? Hy Hb']; subst.
    destruct (mul_moderate x y Hx Hy) as (Hfp & Hp & Hq & _).
    set (q := Rabs (toR x * toR y)) in *.
    assert (Hq0 : 0 <= q) by apply Rabs_pos.
    pose proof roundoff_bounds as Hu.
    destruct (growth_bounds (k + 1) ltac:(lia)) as [[Hc1 Hc2] [Hd1 Hd2]].
    destruct (growth_bounds k ltac:(lia)) as [[Hk1 _] [Hk2 Hk3]].
    assert (Hc : 1 + u <= (1 + u) ^ (k + 1)).
    { rewrite Nat.add_1_r. cbn [pow]. nra. }
    assert (HkR : INR k <= 1048576).
    { change 1048576 with (IZR (2 ^ 20)). apply INR_bound. lia. }
    pose proof (pow2_pos 1000) as Hp1000.
    assert (Hsum : Rabs (toR acc + toR (x * y)) <= pow2 1022).
    { rewrite pow2_1022. apply Rabs_bounds in Hacc, Hp.
      assert (- q <= toR x * toR y <= q) by (apply Rabs_bounds; unfold q; lra).
      set (c := (1 + u) ^ (k + 1)) in *. clearbody c.
      assert (S * c <= 2097152 * pow2 1000) by nra.
      apply Rabs_le. split; nra. }
    destruct (add_R acc (x * y) Hfin Hfp Hsum) as [Hfa Ha1].
    destruct (step_upper S q ((1 + u) ^ (k + 1)) (toR acc) (toR x * toR y)
                (toR (x * y)) (toR (acc + x * y)) ltac:(lra) Hc Hacc eq_refl
                Hp Ha1) as [_ Hup].
    assert (HS' : 0 <= S + q <= INR (Datatypes.S k) * pow2 1000)
      by (rewrite S_INR; nra).
    assert (Hexp : forall r : R, r ^ (k + 1) * r = r ^ (Datatypes.S k + 1)).
    { intros r. rewrite (Nat.add_1_r (Datatypes.S k)), (Nat.add_1_r k).
      cbn [pow]. ring. }
    rewrite Hexp in Hup.
    destruct (IH b (acc + x * y)%float (Datatypes.S k) (S + q)
                ltac:(congruence) Ha' Hb' ltac:(lia) Hfa HS' Hup)
      as (Hfin' & Hup' & Hlow').
    replace (k + Datatypes.S (length a) + 1)%nat
      with (Datatypes.S k + length a + 1)%nat by lia.
    rewrite <- Rplus_assoc.
    split; [exact Hfin' |]. split; [exact Hup' |].
    intros Heq Hlow. injection Heq as <- <-.
    apply Hlow'; [reflexivity |].
    rewrite <- Hexp.
    assert (Hsq : toR x * toR x = q).
    { unfold q. symmetry. apply Rabs_pos_eq. nra. }
    rewrite Hsq in *.
    apply (step_lower S q ((1 - u) ^ (k + 1)) (toR acc) (toR (x * x))
             (toR (acc + x * x))); try lra; try assumption.
    split; [lra |]. rewrite Nat.add_1_r. cbn [pow]. nra.
Qed.
End LoopBounds.

Section Quotient.
Local Open Scope R_scope.
Local Abbreviation u := roundoff.

Lemma sqrt_square_le x y : 0 <= x -> x * x <= y -> x <= sqrt y.
Proof.
  intros Hx Hle. rewrite <- (sqrt_square x Hx). apply sqrt_le_1_alt. exact Hle.
Qed.

Lemma sqrt_le_square x y : 0 <= y -> x <= y * y -> sqrt x <= y.
Proof.
  intros Hy Hle. rewrite <- (sqrt_square y Hy). apply sqrt_le_1_alt. exact Hle.
Qed.

Lemma pow2_tiny : pow2 (-1075) <= u * / 1000000.
Proof.
  unfold roundoff. change (-1075)%Z with (-53 + -1022)%Z. rewrite pow2_add.
  pose proof (pow2_pos (-53)).
  assert (pow2 (-1022) <= pow2 (-20)) by (apply pow2_le; lia).
  assert (pow2 (-20) = / 1048576).
  { change (pow2 (-20)) with (pow2 (Z.opp 20)). rewrite pow2_opp, pow2_IZR by lia.
    reflexivity. }
  nra.
Qed.

(** Powers of the two factors of one rounding. *)
Lemma factor_facts :
  (9 / 10 <= (1 - u) * (1 - u) <= 1
   /\ 8 / 10 <= (1 - u) * (1 - u) * (1 - u) <= 1
   /\ 1 - 3 * u <= (1 - u) * (1 - u) * (1 - u))
  /\ (1 <= (1 + u) * (1 + u) <= 11 / 10
      /\ (1 + u) * (1 + u) * (1 + u) <= 12 / 10
      /\ (1 + u) * (1 + u) * (1 + u) <= 1 + 4 * u).
Proof.
  pose proof roundoff_bounds as Hu.
  assert (H2 : 9 / 10 <= (1 - u) * (1 - u) <= 1) by nra.
  assert (H2' : 1 <= (1 + u) * (1 + u) <= 11 / 10) by nra.
  assert (Hsq : 0 <= u * u <= u * / 1000000) by nra.
  split; (split; [assumption |]); split.
  - nra.
  - replace ((1 - u) * (1 - u) * (1 - u))
      with (1 - 3 * u + u * u * (3 - u)) by ring.
    assert (0 <= u * u * (3 - u)) by (apply Rmult_le_pos; lra). lra.
  - nra.
  - replace ((1 + u) * (1 + u) * (1 + u))
      with (1 + 3 * u + u * u * (3 + u)) by ring.
    assert (u * u * (3 + u) <= u * / 1000000 * 4)
      by (apply Rmult_le_compat; lra). lra.
Qed.

(** The last three operations: the two roots, their product and the
    quotient, for sums within the bounds of the loop. *)
Lemma quotient_bound (D A B : float) (Sab Ta Tb cU cL : R) :
  isFinite D = true -> isFinite A = true -> isFinite B = true ->
  0 <= Sab -> Sab * Sab <= Ta * Tb ->
  pow2 (-1000) <= Ta <= pow2 1020 -> pow2 (-1000) <= Tb <= pow2 1020 ->
  1 <= cU <= 1 + / 1000000 -> 1 - / 1000000 <= cL <= 1 ->
  Rabs (toR D) <= Sab * cU ->
  Ta * cL <= toR A <= Ta * cU -> Tb * cL <= toR B <= Tb * cU ->
  let r := (D / (PrimFloat.sqrt A * PrimFloat.sqrt B))%float in
  isFinite r = true
  /\ Rabs (toR r) * (cL * ((1 - u) * (1 - u) * (1 - u)))
     <= cU * (1 + u) + / 1000000 * u.
Proof.
  intros HfD HfA HfB HS HCS [HTa1 HTa2] [HTb1 HTb2] HcU HcL HD HA HB r.
  pose proof roundoff_bounds as Hu.
  pose proof (pow2_pos (-1000)) as Hp1. pose proof (pow2_pos 1020) as Hp2.
  assert (HA0 : 0 < toR A) by nra. assert (HB0 : 0 < toR B) by nra.
  destruct (sqrt_R A HfA HA0) as [HfsA HsA].
  destruct (sqrt_R B HfB HB0) as [HfsB HsB].
  pose proof (sqrt_lt_R0 _ HA0) as HrA. pose proof (sqrt_lt_R0 _ HB0) as HrB.
  apply Rabs_bounds in HsA, HsB.
  set (sA := toR (PrimFloat.sqrt A)) in *. set (sB := toR (PrimFloat.sqrt B)) in *.
  set (rA := sqrt (toR A)) in *. set (rB := sqrt (toR B)) in *.
  assert (Hroots : rA * rB = sqrt (toR A * toR B))
    by (unfold rA, rB; rewrite sqrt_mult by lra; reflexivity).
  (* the product of the exact roots, from below and from above *)
  assert (Hlow : sqrt (Ta * Tb) * cL <= rA * rB).
  { rewrite Hroots. apply sqrt_square_le.
    - apply Rmult_le_pos; [apply sqrt_pos | lra].
    - replace (sqrt (Ta * Tb) * cL * (sqrt (Ta * Tb) * cL))
        with (sqrt (Ta * Tb) * sqrt (Ta * Tb) * (cL * cL)) by ring.
      rewrite sqrt_sqrt by nra.
      replace (Ta * Tb * (cL * cL)) with (Ta * cL * (Tb * cL)) by ring.
      apply Rmult_le_compat; nra. }
  assert (Hhigh : rA * rB <= pow2 1021).
  { rewrite Hroots. apply sqrt_le_square; [left; apply pow2_pos |].
    assert (H1021 : pow2 1021 = 2 * pow2 1020)
      by (change 1021%Z with (1020 + 1)%Z; apply pow2_succ).
    rewrite H1021.
    assert (toR A <= 2 * pow2 1020) by (clear - HA HTa1 HTa2 HcU Hp1 Hp2; nra).
    assert (toR B <= 2 * pow2 1020) by (clear - HB HTb1 HTb2 HcU Hp1 Hp2; nra).
    apply Rmult_le_compat; lra. }
  assert (Hmin : pow2 (-1001) <= sqrt (Ta * Tb) * cL).
  { assert (Hs : pow2 (-1000) <= sqrt (Ta * Tb)).
    { apply sqrt_square_le; [lra |]. apply Rmult_le_compat; lra. }
    assert (H1001 : pow2 (-1000) = 2 * pow2 (-1001))
      by (change (-1000)%Z with (-1001 + 1)%Z; apply pow2_succ).
    pose proof (pow2_pos (-1001)). nra. }
  assert (HSab : Sab <= sqrt (Ta * Tb)) by (apply sqrt_square_le; assumption).
  (* the product of the computed roots *)
  assert (Hprod : rA * rB * ((1 - u) * (1 - u)) <= sA * sB
                  <= rA * rB * ((1 + u) * (1 + u))).
  { assert (0 <= rA * (1 - u) <= sA) by (clear - HsA HrA Hu; nra).
    assert (0 <= rB * (1 - u) <= sB) by (clear - HsB HrB Hu; nra).
    split.
    - replace (rA * rB * ((1 - u) * (1 - u)))
        with (rA * (1 - u) * (rB * (1 - u))) by ring.
      apply Rmult_le_compat; lra.
    - replace (rA * rB * ((1 + u) * (1 + u)))
        with (rA * (1 + u) * (rB * (1 + u))) by ring.
      apply Rmult_le_compat;
        first [lra | clear - HsA HrA Hu; nra | clear - HsB HrB Hu; nra]. }
  assert (H1022 : pow2 1022 = 2 * pow2 1021)
    by (change 1022%Z with (1021 + 1)%Z; apply pow2_succ).
  assert (Hm1022 : pow2 (-1022) <= pow2 (-1001) * / 2).
  { assert (pow2 (-1001) = 2 * pow2 (-1002))
      by (change (-1001)%Z with (-1002 + 1)%Z; apply pow2_succ).
    assert (pow2 (-1022) <= pow2 (-1002)) by (apply pow2_le; lia). lra. }
  pose proof (pow2_pos (-1001)) as Hp3. pose proof (pow2_pos 1021) as Hp4.
  assert (Hrr : 0 < rA * rB) by (clear - HrA HrB; nra).
  destruct factor_facts as [(F2 & F3 & F3') (G2 & G3 & G3')].
  assert (Hrange : pow2 (-1001) <= rA * rB) by lra.
  assert (HsAB : pow2 (-1022) <= sA * sB <= pow2 1022).
  { clear - Hprod Hrange Hhigh Hm1022 H1022 Hp3 Hp4 F2 G2.
    set (q := rA * rB) in *. set (w := (1 - u) * (1 - u)) in *.
    set (w' := (1 + u) * (1 + u)) in *. clearbody q w w'. split; nra. }
  pose proof (pow2_pos (-1022)) as Hp5.
  destruct (mul_R (PrimFloat.sqrt A) (PrimFloat.sqrt B) HfsA HfsB) as (HfP & _ & HP).
  { fold sA sB. rewrite Rabs_pos_eq by lra. lra. }
  fold sA sB in HP. rewrite (Rabs_pos_eq (sA * sB)) in HP by lra.
  specialize (HP ltac:(lra)). apply Rabs_bounds in HP.
  set (P := toR (PrimFloat.sqrt A * PrimFloat.sqrt B)) in *.
  assert (HPlow : sqrt (Ta * Tb) * (cL * ((1 - u) * (1 - u) * (1 - u))) <= P).
  { apply Rle_trans with (rA * rB * ((1 - u) * (1 - u)) * (1 - u));
      [| apply Rle_trans with (sA * sB * (1 - u));
         [apply Rmult_le_compat_r; lra | lra]].
    replace (sqrt (Ta * Tb) * (cL * ((1 - u) * (1 - u) * (1 - u))))
      with (sqrt (Ta * Tb) * cL * ((1 - u) * (1 - u)) * (1 - u)) by ring.
    apply Rmult_le_compat_r; [lra |]. apply Rmult_le_compat_r; [lra | exact Hlow]. }
  set (g := cL * ((1 - u) * (1 - u) * (1 - u))) in *.
  assert (Hg : / 2 <= g <= 1).
  { unfold g. clear - HcL F3. set (w := (1 - u) * (1 - u) * (1 - u)) in *.
    clearbody w. nra. }
  assert (HsT : 0 < sqrt (Ta * Tb)).
  { apply sqrt_lt_R0. clear - HTa1 HTb1 Hp1. nra. }
  assert (HP0 : 0 < P).
  { apply Rlt_le_trans with (sqrt (Ta * Tb) * g); [| exact HPlow].
    clear - HsT Hg. nra. }
  set (d := toR D) in *.
  assert (Hd : Rabs d <= sqrt (Ta * Tb) * cU) by (clear - HD HSab HcU; nra).
  assert (Hquot : Rabs (d / P) * g <= cU).
  { unfold Rdiv. rewrite Rabs_mult, (Rabs_pos_eq (/ P))
      by (left; apply Rinv_0_lt_compat; exact HP0).
    pose proof (Rabs_pos d) as Hd0.
    assert (Hstep : Rabs d * g <= cU * P).
    { apply Rle_trans with (sqrt (Ta * Tb) * cU * g);
        [apply Rmult_le_compat_r; lra |].
      replace (sqrt (Ta * Tb) * cU * g) with (cU * (sqrt (Ta * Tb) * g)) by ring.
      apply Rmult_le_compat_l; lra. }
    replace (Rabs d * / P * g) with (Rabs d * g * / P) by ring.
    apply Rle_trans with (cU * P * / P).
    - apply Rmult_le_compat_r; [left; apply Rinv_0_lt_compat; exact HP0 | exact Hstep].
    - right. field. lra. }
  assert (Hq2 : Rabs (d / P) <= 4).
  { pose proof (Rabs_pos (d / P)). clear - Hquot Hg HcU H. nra. }
  destruct (div_R D (PrimFloat.sqrt A * PrimFloat.sqrt B)%float HfD HfP) as (Hfr & Hr & _).
  { fold P. lra. }
  { fold d P. apply Rle_trans with 4; [exact Hq2 |].
    rewrite H1022.
    assert (2 <= pow2 1021) by (rewrite <- pow2_1; apply pow2_le; lia). lra. }
  fold d P in Hr. split; [exact Hfr |].
  pose proof pow2_tiny as Htiny.
  fold r in Hr. set (v := toR r) in *. set (z := d / P) in *.
  assert (Hv : Rabs v <= Rabs z * (1 + u) + u * / 1000000).
  { pose proof (Rabs_triang (v - z) z) as Htri.
    replace (v - z + z) with v in Htri by ring. lra. }
  apply Rle_trans with ((Rabs z * (1 + u) + u * / 1000000) * g);
    [apply Rmult_le_compat_r; lra |].
  replace ((Rabs z * (1 + u) + u * / 1000000) * g)
    with (Rabs z * g * (1 + u) + u * / 1000000 * g) by ring.
  clear - Hquot Hg Hu. nra.
Qed.
End Quotient.

Section SelfQuotient.
Local Open Scope R_scope.
Local Abbreviation u := roundoff.

Lemma pow2_m50 : pow2 (-50) = 8 * u.
Proof.
  unfold roundoff. change (-50)%Z with (3 + -53)%Z.
  rewrite pow2_add, (pow2_IZR 3) by lia. reflexivity.
Qed.

(** The quotient of a number by itself three times rounded. *)
Lemma self_ratio (a P z v : R) :
  0 < a ->
  a * ((1 - u) * (1 - u) * (1 - u)) <= P <= a * ((1 + u) * (1 + u) * (1 + u)) ->
  z * P = a -> 0 < z ->
  - (u * z) <= v - z <= u * z ->
  - (8 * u) <= v - 1 <= 8 * u.
Proof.
  intros Ha HP Hz Hz0 Hv.
  pose proof roundoff_bounds as Hu.
  destruct factor_facts as [(_ & _ & F3) (_ & _ & G3)].
  set (w := (1 - u) * (1 - u) * (1 - u)) in *.
  set (w' := (1 + u) * (1 + u) * (1 + u)) in *. clearbody w w'.
  assert (Hzu : z * w <= 1).
  { apply Rmult_le_reg_r with a; [lra |].
    pose proof (Rmult_le_compat_l z _ _ ltac:(lra) (proj1 HP)). nra. }
  assert (Hzl : 1 <= z * w').
  { apply Rmult_le_reg_r with a; [lra |].
    pose proof (Rmult_le_compat_l z _ _ ltac:(lra) (proj2 HP)). nra. }
  clear HP Hz Ha.
  assert (Hzup : z <= 1 + 4 * u).
  { apply Rnot_lt_le. intros Hc.
    assert (H1 : z * (1 - 3 * u) <= 1)
      by (apply Rle_trans with (z * w); [apply Rmult_le_compat_l; lra | lra]).
    assert (H2 : 1 <= (1 + 4 * u) * (1 - 3 * u)) by nra.
    assert (H3 : (1 + 4 * u) * (1 - 3 * u) < z * (1 - 3 * u))
      by (apply Rmult_lt_compat_r; lra).
    lra. }
  assert (Hzlow : 1 - 4 * u <= z).
  { apply Rnot_lt_le. intros Hc.
    assert (H1 : 1 <= z * (1 + 4 * u))
      by (apply Rle_trans with (z * w'); [lra | apply Rmult_le_compat_l; lra]).
    assert (H2 : (1 - 4 * u) * (1 + 4 * u) < 1) by nra.
    assert (H3 : z * (1 + 4 * u) < (1 - 4 * u) * (1 + 4 * u))
      by (apply Rmult_lt_compat_r; lra).
    lra. }
  clear Hzu Hzl F3 G3.
  assert (Huz : u * z <= u * (1 + 4 * u)) by (apply Rmult_le_compat_l; lra).
  assert (Huu : 0 <= u * u <= u * / 1000000) by nra.
  split; nra.
Qed.

(** The last three operations when the three sums are one number. *)
Lemma self_quotient (A : float) :
  isFinite A = true ->
  pow2 (-1001) <= toR A <= pow2 1021 ->
  let r := (A / (PrimFloat.sqrt A * PrimFloat.sqrt A))%float in
  isFinite r = true /\ Rabs (toR r - 1) <= pow2 (-50).
Proof.
  intros HfA [Hlow Hhigh] r.
  pose proof roundoff_bounds as Hu.
  pose proof (pow2_pos (-1001)) as Hp1.
  assert (HA0 : 0 < toR A) by lra.
  destruct (sqrt_R A HfA HA0) as [Hfs Hs].
  pose proof (sqrt_lt_R0 _ HA0) as Hr0.
  pose proof (sqrt_sqrt (toR A) ltac:(lra)) as Hsq.
  apply Rabs_bounds in Hs.
  destruct factor_facts as [(F2 & F3 & _) (G2 & G3 & _)].
  set (s := toR (PrimFloat.sqrt A)) in *. set (rA := sqrt (toR A)) in *.
  set (a := toR A) in *.
  assert (Hss : a * ((1 - u) * (1 - u)) <= s * s <= a * ((1 + u) * (1 + u))).
  { assert (0 <= rA * (1 - u) <= s) by (clear - Hs Hr0 Hu; nra).
    assert (s <= rA * (1 + u)) by (clear - Hs; lra).
    rewrite <- Hsq. split.
    - replace (rA * rA * ((1 - u) * (1 - u)))
        with (rA * (1 - u) * (rA * (1 - u))) by ring.
      apply Rmult_le_compat; lra.
    - replace (rA * rA * ((1 + u) * (1 + u)))
        with (rA * (1 + u) * (rA * (1 + u))) by ring.
      apply Rmult_le_compat; lra. }
  assert (H1022 : pow2 1022 = 2 * pow2 1021)
    by (change 1022%Z with (1021 + 1)%Z; apply pow2_succ).
  assert (Hm1022 : pow2 (-1022) <= pow2 (-1001) * / 2).
  { assert (pow2 (-1001) = 2 * pow2 (-1002))
      by (change (-1001)%Z with (-1002 + 1)%Z; apply pow2_succ).
    assert (pow2 (-1022) <= pow2 (-1002)) by (apply pow2_le; lia). lra. }
  pose proof (pow2_pos (-1022)) as Hp2. pose proof (pow2_pos 1021) as Hp3.
  assert (Hrange : pow2 (-1022) <= s * s <= pow2 1022).
  { clear - Hss Hlow Hhigh Hm1022 H1022 Hp1 Hp3 F2 G2 HA0.
    set (w := (1 - u) * (1 - u)) in *. set (w' := (1 + u) * (1 + u)) in *.
    set (q := s * s) in *. clearbody w w' q. split; nra. }
  destruct (mul_R (PrimFloat.sqrt A) (PrimFloat.sqrt A) Hfs Hfs) as (HfP & _ & HP).
  { fold s. rewrite Rabs_pos_eq by lra. lra. }
  fold s in HP. rewrite (Rabs_pos_eq (s * s)) in HP by lra.
  specialize (HP ltac:(lra)). apply Rabs_bounds in HP.
  set (P := toR (PrimFloat.sqrt A * PrimFloat.sqrt A)) in *.
  assert (HPb : a * ((1 - u) * (1 - u) * (1 - u)) <= P
                <= a * ((1 + u) * (1 + u) * (1 + u))).
  { split.
    - apply Rle_trans with (a * ((1 - u) * (1 - u)) * (1 - u)); [lra |].
      apply Rle_trans with (s * s * (1 - u)); [| lra].
      apply Rmult_le_compat_r; lra.
    - apply Rle_trans with (a * ((1 + u) * (1 + u)) * (1 + u)); [| lra].
      apply Rle_trans with (s * s * (1 + u)); [lra |].
      apply Rmult_le_compat_r; lra. }
  assert (HP0 : 0 < P).
  { apply Rlt_le_trans with (a * ((1 - u) * (1 - u) * (1 - u))); [| tauto].
    clear - HA0 F3. nra. }
  assert (Hz : a / P * P = a) by (field; lra).
  set (z := a / P) in *.
  assert (Hz0 : 0 < z) by (unfold z; apply Rdiv_lt_0_compat; lra).
  assert (Hzb : / 2 <= z <= 2).
  { clear - Hz HPb HA0 F3 G3 Hz0 HP0.
    set (w := (1 - u) * (1 - u) * (1 - u)) in *.
    set (w' := (1 + u) * (1 + u) * (1 + u)) in *. clearbody w w'.
    split; apply Rnot_lt_le; intros Hc; nra. }
  destruct (div_R A (PrimFloat.sqrt A * PrimFloat.sqrt A)%float HfA HfP)
    as (Hfr & _ & Hr).
  { fold P. lra. }
  { fold a P z. rewrite Rabs_pos_eq by lra. rewrite H1022.
    assert (2 <= pow2 1021) by (rewrite <- pow2_1; apply pow2_le; lia). lra. }
  fold a P z in Hr. rewrite (Rabs_pos_eq z) in Hr by lra.
  assert (Hm : pow2 (-1022) <= / 2).
  { rewrite <- pow2_m1. apply pow2_le. lia. }
  specialize (Hr ltac:(lra)). apply Rabs_bounds in Hr.
  fold r in Hr. split; [exact Hfr |].
  rewrite pow2_m50. apply Rabs_le.
  apply (self_ratio a P z (toR r) HA0 HPb Hz Hz0 Hr).
Qed.
End SelfQuotient.

(* ================================================================= *)
(** ** The similarity in binary64 *)

Section Binary64Cosine.
Local Open Scope R_scope.
Local Abbreviation u := roundoff.

Lemma cosineLoop_dotLoop (a : list float) : forall b dotProduct normA normB,
  length a = length b ->
  cosineLoop a b dotProduct normA normB
  = (dotLoop a b dotProduct, dotLoop a a normA, dotLoop b b normB).
Proof.
  induction a as [| x a IH]; intros [| y b] dotProduct normA normB Hlen;
    try discriminate; [reflexivity |].
  cbn [cosineLoop dotLoop]. rewrite IH by (cbn in Hlen; congruence).
  reflexivity.
Qed.

Lemma absDot_nonneg a : forall b, 0 <= absDot a b.
Proof.
  induction a as [| x a IH]; intros [| y b]; cbn [absDot]; try lra.
  pose proof (Rabs_pos (toR x * toR y)). specialize (IH b). lra.
Qed.

Lemma absDot_dotR a : forall b,
  absDot a b = dotR (map (fun x => Rabs (toR x)) a)
                    (map (fun x => Rabs (toR x)) b).
Proof.
  induction a as [| x a IH]; intros [| y b]; cbn [absDot dotR map];
    try reflexivity.
  rewrite IH, Rabs_mult. reflexivity.
Qed.

Lemma absDot_sumSquares a :
  absDot a a = sumSquares (map (fun x => Rabs (toR x)) a).
Proof.
  induction a as [| x a IH]; cbn [absDot sumSquares map]; [reflexivity |].
  rewrite IH, Rabs_mult. reflexivity.
Qed.

(** Cauchy-Schwarz for the exact sums of the three accumulations. *)
Lemma absDot_CauchySchwarz a b :
  length a = length b ->
  absDot a b * absDot a b <= absDot a a * absDot b b.
Proof.
  intros Hlen. rewrite (absDot_dotR a b), !absDot_sumSquares.
  apply dotR_sumSquares. rewrite !length_map. exact Hlen.
Qed.

Lemma absDot_upper a : forall b,
  Forall (fun x => moderate x = true) a ->
  Forall (fun x => moderate x = true) b ->
  absDot a b <= INR (length a) * pow2 1000.
Proof.
  pose proof (pow2_pos 1000) as Hp.
  induction a as [| x a IH]; intros b Ha Hb.
  - cbn [absDot length INR]. lra.
  - pose proof (pos_INR (length a)) as Hn.
    cbn [length]. rewrite S_INR. destruct b as [| y b]; cbn [absDot]; [nra |].
    inversion Ha as [| ? ? Hx Ha']; subst. inversion Hb as [| ? ? Hy Hb']; subst.
    destruct (mul_moderate x y Hx Hy) as (_ & _ & Hq & _).
    specialize (IH b Ha' Hb'). nra.
Qed.

Lemma absDot_self_lower a :
  Forall (fun x => moderate x = true) a ->
  Exists (fun x => is_zero x = false) a ->
  pow2 (-1000) <= absDot a a.
Proof.
  intros Ha Hex. induction Hex as [x a Hx | x a Hex IH];
    inversion Ha as [| ? ? Hmx Ha']; subst; cbn [absDot].
  - pose proof (absDot_nonneg a a).
    destruct (mul_moderate x x Hmx Hmx) as (_ & _ & _ & Hlow).
    destruct (moderate_R x Hmx) as [Hfin _].
    assert (Hnz : toR x <> 0).
    { intros Hz. rewrite (toR_zero x Hfin Hz) in Hx. discriminate. }
    specialize (Hlow ltac:(nra)). lra.
  - specialize (IH Ha'). pose proof (Rabs_pos (toR x * toR x)). lra.
Qed.

Lemma zero_facts : isFinite 0%float = true /\ toR 0%float = 0.
Proof. split; reflexivity. Qed.

(** The three sums of the loop for two vectors in range. *)
Lemma dotLoop_sums (a b : list float) :
  length a = length b ->
  (Z.of_nat (length a) <= 2 ^ 20)%Z ->
  Forall (fun x => moderate x = true) a ->
  Forall (fun x => moderate x = true) b ->
  isFinite (dotLoop a b 0) = true
  /\ Rabs (toR (dotLoop a b 0)) <= absDot a b * (1 + u) ^ (length a + 1).
Proof.
  intros Hlen Hn Ha Hb.
  destruct (dotLoop_bounds a b 0%float 0%nat 0 Hlen Ha Hb ltac:(lia) eq_refl)
    as (Hfin & Hup & _).
  - cbn [INR]. lra.
  - change (toR 0%float) with 0. rewrite Rabs_R0. lra.
  - rewrite Rplus_0_l in Hup. split; [exact Hfin | exact Hup].
Qed.

Lemma dotLoop_squares (a : list float) :
  (Z.of_nat (length a) <= 2 ^ 20)%Z ->
  Forall (fun x => moderate x = true) a ->
  isFinite (dotLoop a a 0) = true
  /\ absDot a a * (1 - u) ^ (length a + 1) <= toR (dotLoop a a 0)
     <= absDot a a * (1 + u) ^ (length a + 1).
Proof.
  intros Hn Ha.
  destruct (dotLoop_bounds a a 0%float 0%nat 0 eq_refl Ha Ha ltac:(lia) eq_refl)
    as (Hfin & Hup & Hlow).
  - cbn [INR]. lra.
  - change (toR 0%float) with 0. rewrite Rabs_R0. lra.
  - rewrite Rplus_0_l in Hup, Hlow.
    change (0 + length a + 1)%nat with (length a + 1)%nat in Hup, Hlow.
    split; [exact Hfin |]. split.
    + apply Hlow; [reflexivity |]. change (toR 0%float) with 0. lra.
    + apply Rabs_bounds in Hup. lra.
Qed.

Lemma pow2_1020 : pow2 1020 = 1048576 * pow2 1000.
Proof.
  change 1020%Z with (20 + 1000)%Z. rewrite pow2_add, (pow2_IZR 20) by lia.
  reflexivity.
Qed.

Lemma pow2_m51 : pow2 (-51) = 4 * u.
Proof.
  unfold roundoff. change (-51)%Z with (2 + -53)%Z.
  rewrite pow2_add, (pow2_IZR 2) by lia. reflexivity.
Qed.

(** From the bound in terms of the growth factors to the tolerance. *)
Lemma tolerance_bound (n : nat) (v : R) :
  (Z.of_nat n <= 2 ^ 20)%Z ->
  0 <= v ->
  v * ((1 - u) ^ (n + 1) * ((1 - u) * (1 - u) * (1 - u)))
  <= (1 + u) ^ (n + 1) * (1 + u) + / 1000000 * u ->
  v <= 1 + tolerance n.
Proof.
  intros Hn Hv Hbound. unfold tolerance. rewrite pow2_m51.
  assert (HN : INR n <= 1048576).
  { change 1048576 with (IZR (2 ^ 20)). apply INR_bound. exact Hn. }
  pose proof (pos_INR n) as Hn0.
  pose proof roundoff_value as Hu.
  assert (Hu0 : 0 < u) by (rewrite Hu; lra).
  assert (Hnu : (INR n + 4) * u <= / 1000000) by (rewrite Hu; lra).
  assert (HcU : (1 + u) ^ (n + 1) <= 1 + 2 * (INR n + 1) * u).
  { pose proof (pow_upper u (n + 1) ltac:(lra)) as Hp.
    rewrite plus_INR in Hp. cbn [INR] in Hp. apply Hp. nra. }
  assert (HcL : 1 - (INR n + 1) * u <= (1 - u) ^ (n + 1) <= 1).
  { pose proof (pow_lower u (n + 1) ltac:(rewrite Hu; lra)) as Hp.
    rewrite plus_INR in Hp. cbn [INR] in Hp. exact Hp. }
  set (cU := (1 + u) ^ (n + 1)) in *. set (cL := (1 - u) ^ (n + 1)) in *.
  clearbody cU cL. set (m := INR n) in *. clearbody m.
  assert (Hc3 : 1 - 3 * u <= (1 - u) * (1 - u) * (1 - u) <= 1) by nra.
  set (w := (1 - u) * (1 - u) * (1 - u)) in *. clearbody w.
  assert (Hg : 1 - (m + 4) * u <= cL * w).
  { apply Rle_trans with ((1 - (m + 1) * u) * (1 - 3 * u)); [nra |].
    apply Rmult_le_compat; nra. }
  assert (Hnum : cU * (1 + u) + / 1000000 * u <= 1 + (2 * m + 5) * u).
  { apply Rle_trans with ((1 + 2 * (m + 1) * u) * (1 + u) + / 1000000 * u);
      [nra |]. nra. }
  assert (Hprod : v * (1 - (m + 4) * u) <= 1 + (2 * m + 5) * u).
  { apply Rle_trans with (v * (cL * w)); [| lra].
    apply Rmult_le_compat_l; lra. }
  assert (Hk : 0 <= (m + 4) * u <= / 1000000)
    by (split; [apply Rmult_le_pos; lra | exact Hnu]).
  assert (Hlin : (2 * m + 5) * u <= 2 * ((m + 4) * u)) by (clear - Hu0; nra).
  replace ((m + 4) * (4 * u)) with (4 * ((m + 4) * u)) by ring.
  set (k := (m + 4) * u) in *. clearbody k.
  clear - Hprod Hk Hlin. apply Rnot_lt_le. intros Hc.
  assert (H1 : (1 + 4 * k) * (1 - k) < v * (1 - k))
    by (apply Rmult_lt_compat_r; lra).
  assert (H2 : 0 <= k * k <= k * / 1000000) by nra.
  replace ((1 + 4 * k) * (1 - k)) with (1 + 3 * k - 4 * (k * k)) in H1 by ring.
  lra.
Qed.

(** In binary64, for two vectors of one length up to [2^20] whose components
    are in range and not all zero, the similarity is a finite number of
    magnitude at most one plus the tolerance. *)
Lemma cosineSimilarity_binary64_bound (a b : list float) :
  length a = length b ->
  (Z.of_nat (length a) <= 2 ^ 20)%Z ->
  Forall (fun x => moderate x = true) a ->
  Forall (fun x => moderate x = true) b ->
  Exists (fun x => is_zero x = false) a ->
  Exists (fun x => is_zero x = false) b ->
  isFinite (cosineSimilarity a b) = true
  /\ Rabs (toR (cosineSimilarity a b)) <= 1 + tolerance (length a).
Proof.
  intros Hlen Hn Ha Hb Hnza Hnzb. unfold cosineSimilarity.
  rewrite Hlen, Nat.eqb_refl. cbn [negb].
  cbn [n_zero n_div n_mul n_sqrt float_Arith].
  rewrite <- Hlen. rewrite cosineLoop_dotLoop by exact Hlen.
  destruct (dotLoop_sums a b Hlen Hn Ha Hb) as [HfD HD].
  destruct (dotLoop_squares a Hn Ha) as [HfA HA].
  destruct (dotLoop_squares b ltac:(lia) Hb) as [HfB HB].
  rewrite <- Hlen in HB.
  destruct (growth_bounds (length a + 1) ltac:(lia)) as [HcU HcL].
  pose proof (absDot_upper a a Ha Ha) as HTa.
  pose proof (absDot_upper b b Hb Hb) as HTb. rewrite <- Hlen in HTb.
  assert (HN : INR (length a) <= 1048576).
  { change 1048576 with (IZR (2 ^ 20)). apply INR_bound. exact Hn. }
  pose proof (pow2_pos 1000) as Hp.
  destruct (quotient_bound (dotLoop a b 0) (dotLoop a a 0) (dotLoop b b 0)
              (absDot a b) (absDot a a) (absDot b b)
              ((1 + u) ^ (length a + 1)) ((1 - u) ^ (length a + 1))
              HfD HfA HfB (absDot_nonneg a b) (absDot_CauchySchwarz a b Hlen))
    as [Hfin Hbound]; try assumption.
  - split; [apply absDot_self_lower; assumption |]. rewrite pow2_1020. nra.
  - split; [apply absDot_self_lower; assumption |]. rewrite pow2_1020. nra.
  - split; [exact Hfin |].
    apply tolerance_bound; [exact Hn | apply Rabs_pos | exact Hbound].
Qed.

(** In binary64, the similarity of such a vector with itself is within
    [2^-50] of one, whatever its length up to [2^20]. *)
Lemma cosineSimilarity_binary64_self (v : list float) :
  (Z.of_nat (length v) <= 2 ^ 20)%Z ->
  Forall (fun x => moderate x = true) v ->
  Exists (fun x => is_zero x = false) v ->
  isFinite (cosineSimilarity v v) = true
  /\ Rabs (toR (cosineSimilarity v v) - 1) <= pow2 (-50).
Proof.
  intros Hn Hv Hnz. unfold cosineSimilarity.
  rewrite Nat.eqb_refl. cbn [negb].
  cbn [n_zero n_div n_mul n_sqrt float_Arith].
  rewrite cosineLoop_dotLoop by reflexivity.
  destruct (dotLoop_squares v Hn Hv) as [HfA HA].
  destruct (growth_bounds (length v + 1) ltac:(lia)) as [HcU HcL].
  pose proof (absDot_upper v v Hv Hv) as HT.
  pose proof (absDot_self_lower v Hv Hnz) as HT'.
  assert (HN : INR (length v) <= 1048576).
  { change 1048576 with (IZR (2 ^ 20)). apply INR_bound. exact Hn. }
  pose proof (pow2_pos 1000) as Hp. pose proof (pow2_pos (-1001)) as Hp'.
  assert (H1 : pow2 (-1000) = 2 * pow2 (-1001))
    by (change (-1000)%Z with (-1001 + 1)%Z; apply pow2_succ).
  assert (H2 : pow2 1021 = 2 * pow2 1020)
    by (change 1021%Z with (1020 + 1)%Z; apply pow2_succ).
  apply self_quotient; [exact HfA |].
  rewrite H2, pow2_1020. split; nra.
Qed.
End Binary64Cosine.

(* ================================================================= *)
(** ** The properties of the similarity *)

Lemma isFinite_not_nan x : isFinite x = true -> isNaN x = false.
Proof.
  unfold isFinite. intros Hfin. apply isNaN_false. intros Hnan.
  rewrite Hnan in Hfin. discriminate.
Qed.

(** C7, as the code has it.  On binary64 vectors the function is symmetric
    without any condition and returns exactly 0 for vectors of different
    lengths.  For two vectors of one length [n <= 2^20] whose components are
    zero or of a magnitude from [2^-500] up to [2^500], and not all zero,
    the binary64 result is a finite number, so not NaN, of magnitude at most
    [1 + (n + 4) * 2^-51]; the result for such a vector with itself is
    within [2^-50] of 1.  Read in exact real arithmetic, the value for two
    non-zero vectors of equal length lies in [-1, 1] and the value for a
    non-zero vector with itself is 1. *)
Theorem cosineSimilarity_properties :
  (forall a b : list float, cosineSimilarity a b = cosineSimilarity b a)
  /\ (forall a b : list float,
        length a <> length b -> cosineSimilarity a b = 0%float)
  /\ (forall a b : list float,
        length a = length b ->
        (Z.of_nat (length a) <= 2 ^ 20)%Z ->
        Forall (fun x => moderate x = true) a ->
        Forall (fun x => moderate x = true) b ->
        Exists (fun x => is_zero x = false) a ->
        Exists (fun x => is_zero x = false) b ->
        isFinite (cosineSimilarity a b) = true
        /\ isNaN (cosineSimilarity a b) = false
        /\ (Rabs (toR (cosineSimilarity a b)) <= 1 + tolerance (length a))%R)
  /\ (forall v : list float,
        (Z.of_nat (length v) <= 2 ^ 20)%Z ->
        Forall (fun x => moderate x = true) v ->
        Exists (fun x => is_zero x = false) v ->
        isFinite (cosineSimilarity v v) = true
        /\ isNaN (cosineSimilarity v v) = false
        /\ (Rabs (toR (cosineSimilarity v v) - 1) <= pow2 (-50))%R)
  /\ (forall a b : list R,
        length a = length b -> nonZero a -> nonZero b ->
        (-1 <= cosineSimilarity a b <= 1)%R)
  /\ (forall v : list R, nonZero v -> cosineSimilarity v v = 1%R).
Proof.
  split; [exact cosineSimilarity_comm |]. split; [| split; [| split; [| split]]].
  - intros a b Hlen. unfold cosineSimilarity.
    destruct (Nat.eqb_spec (length a) (length b)); [congruence | reflexivity].
  - intros a b Hlen Hn Ha Hb Hnza Hnzb.
    destruct (cosineSimilarity_binary64_bound a b Hlen Hn Ha Hb Hnza Hnzb)
      as [Hfin Hbound].
    split; [exact Hfin |]. split; [apply isFinite_not_nan; exact Hfin |].
    exact Hbound.
  - intros v Hn Hv Hnz.
    destruct (cosineSimilarity_binary64_self v Hn Hv Hnz) as [Hfin Hbound].
    split; [exact Hfin |]. split; [apply isFinite_not_nan; exact Hfin |].
    exact Hbound.
  - exact cosineSimilarity_R_bounds.
  - exact cosineSimilarity_R_self.
Qed.

Lemma cosineSimilarity_properties_witness :
  cosineSimilarity [1; 2]%float [3]%float = 0%float
  /\ (isFinite (cosineSimilarity [0.6; 0.8]%float [0.8; 0.6]%float) = true
      /\ isNaN (cosineSimilarity [0.6; 0.8]%float [0.8; 0.6]%float) = false
      /\ (Rabs (toR (cosineSimilarity [0.6; 0.8]%float [0.8; 0.6]%float))
          <= 1 + tolerance 2)%R)
  /\ (isFinite (cosineSimilarity [1; 1; 1]%float [1; 1; 1]%float) = true
      /\ isNaN (cosineSimilarity [1; 1; 1]%float [1; 1; 1]%float) = false
      /\ (Rabs (toR (cosineSimilarity [1; 1; 1]%float [1; 1; 1]%float) - 1)
          <= pow2 (-50))%R)
  /\ (-1 <= cosineSimilarity [3; 4]%R [4; 3]%R <= 1)%R
  /\ cosineSimilarity [3; 4]%R [3; 4]%R = 1%R.
Proof.
  destruct cosineSimilarity_properties
    as (_ & Hlen & Hbound64 & Hself64 & Hbound & Hself).
  assert (Hnz : forall y : R, nonZero [3%R; y]).
  { intros y. exists 3%R. split; [left; reflexivity | lra]. }
  assert (Hnz' : nonZero [4%R; 3%R]).
  { exists 3%R. split; [right; left; reflexivity | lra]. }
  split; [apply Hlen; cbn; lia |]. split; [| split; [| split]].
  - apply (Hbound64 [0.6; 0.8]%float [0.8; 0.6]%float).
    + reflexivity.
    + cbn. lia.
    + repeat constructor.
    + repeat constructor.
    + apply Exists_cons_hd. reflexivity.
    + apply Exists_cons_hd. reflexivity.
  - apply (Hself64 [1; 1; 1]%float).
    + cbn. lia.
    + repeat constructor.
    + apply Exists_cons_hd. reflexivity.
  - apply Hbound; [reflexivity | apply Hnz | exact Hnz'].
  - apply Hself. apply Hnz.
Defined.

(** C7 as stated fails in binary64: the similarity of [(1, 1, 1)] with itself
    is the number after 1, outside [-1, 1]; that of the non-zero vector
    [(1e-200)] with itself is NaN, its squared norm being rounded to zero. *)
Lemma cosineSimilarity_binary64_outside :
  Forall (fun x => is_zero x = false) [1; 1; 1]%float
  /\ cosineSimilarity [1; 1; 1]%float [1; 1; 1]%float = 1.0000000000000002%float
  /\ (cosineSimilarity [1; 1; 1] [1; 1; 1] <=? 1)%float = false
  /\ is_zero 1e-200%float = false
  /\ isNaN (cosineSimilarity [1e-200]%float [1e-200]%float) = true.
Proof.
  split; [repeat constructor |].
  split; [vm_compute; reflexivity |].
  split; [vm_compute; reflexivity |].
  split; vm_compute; reflexivity.
Qed.

(* ================================================================= *)
(** ** Chunking: coverage of the text and the ids *)

Lemma take_drop_windows {A} (text : list A) m :
  concat (map (fun k => firstn 800 (skipn (800 * k) text)) (seq 0 m))
  ++ skipn (800 * m) text = text.
Proof.
  induction m as [| m IH]; [reflexivity |].
  rewrite seq_S, map_app, concat_app. cbn [map concat Nat.add].
  rewrite app_nil_r, <- app_assoc.
  replace (800 * S m)%nat with (800 + 800 * m)%nat by lia.
  rewrite <- (skipn_skipn 800 (800 * m)).
  rewrite (firstn_skipn 800 (skipn (800 * m) text)). exact IH.
Qed.

Lemma windowCount_long L : (chunkSize < L)%nat -> (2 <= windowCount L)%nat.
Proof.
  unfold chunkSize, windowCount. intros HL.
  apply (Nat.div_le_lower_bound (L + 799) 800 2); lia.
Qed.

Lemma substring_length (s : jsstring) i j :
  (j <= length s)%nat -> length (substring s i j) = (j - i)%nat.
Proof.
  intros Hj. unfold substring. rewrite length_firstn, length_skipn. lia.
Qed.

(** X1: the chunks of a text cover it without a gap: the first 800 characters
    of every chunk but the last, followed by the last chunk, are the text
    again.  No chunk is longer than 1000 characters, and no chunk of a text
    that is not empty is empty (the empty text gives one empty chunk). *)
Theorem splitIntoChunks_covers nowISO text title_ page :
  let cs := splitIntoChunks nowISO text title_ page in
  (exists front c,
      cs = front ++ [c]
      /\ concat (map (fun c' => firstn (chunkSize - overlap) (content c')) front)
         ++ content c = text)
  /\ Forall (fun c => (length (content c) <= chunkSize)%nat) cs
  /\ (text <> [] -> Forall (fun c => content c <> []) cs)
  /\ (text = [] -> map content cs = [[]]).
Proof.
  intros cs. subst cs.
  destruct (le_lt_dec (length text) chunkSize) as [Hshort | Hlong].
  - unfold splitIntoChunks.
    destruct (Nat.leb_spec (length text) chunkSize); [| lia].
    repeat split.
    + exists [], (mkChunk title_ page nowISO 0 1 text). split; reflexivity.
    + constructor; [exact Hshort | constructor].
    + intros Hne. constructor; [exact Hne | constructor].
    + intros ->. reflexivity.
  - rewrite splitIntoChunks_long by exact Hlong.
    pose proof (windowCount_long _ Hlong) as Hn.
    pose proof (windowCount_ceiling (length text) ltac:(unfold chunkSize in Hlong; lia))
      as [Hlo Hhi].
    set (n := windowCount (length text)) in *.
    set (f := fun k : nat =>
                mkChunk title_ page nowISO k
                  (ceilDiv (length text) (chunkSize - overlap))
                  (substring text (800 * k)
                     (Nat.min (800 * k + 1000) (length text)))).
    repeat split.
    + exists (map f (seq 0 (n - 1))), (f (n - 1)%nat). split.
      * replace n with (S (n - 1)) at 1 by lia.
        rewrite seq_S, map_app. reflexivity.
      * rewrite map_map.
        etransitivity; [| apply (take_drop_windows text (n - 1))].
        f_equal.
        -- f_equal. apply map_ext_in. intros k Hk. apply in_seq in Hk.
           cbn [f mkChunk content]. unfold substring, chunkSize, overlap.
           rewrite firstn_firstn. f_equal. lia.
        -- cbn [f mkChunk content]. unfold substring.
           apply firstn_all2. rewrite length_skipn. lia.
    + apply List.Forall_forall. intros c Hc. apply in_map_iff in Hc.
      destruct Hc as (k & <- & Hk). unfold f. cbn [mkChunk content].
      rewrite substring_length by lia. unfold chunkSize. lia.
    + intros _. apply List.Forall_forall. intros c Hc. apply in_map_iff in Hc.
      destruct Hc as (k & <- & Hk). apply in_seq in Hk.
      unfold f. cbn [mkChunk content]. intros Hnil. apply (f_equal (@length Z)) in Hnil.
      rewrite substring_length in Hnil by lia. cbn in Hnil.
      assert (800 * k <= 800 * (n - 1))%nat by nia. lia.
    + intros ->. cbn in Hlong. unfold chunkSize in Hlong. lia.
Qed.

Lemma splitIntoChunks_covers_witness :
  let cs := splitIntoChunks (js "2026-11-02T00:00:00.000Z") (js "회의 2025-06-27")
              (js "T") (samplePage None) in
  Forall (fun c => content c <> []) cs.
Proof.
  apply (splitIntoChunks_covers (js "2026-11-02T00:00:00.000Z")
           (js "회의 2025-06-27") (js "T") (samplePage None)).
  discriminate.
Defined.

(* ================================================================= *)
(** ** Chunk ids *)

Lemma parseInt_snoc ds c : parseInt (ds ++ [c]) = 10 * parseInt ds + (c - 48).
Proof. unfold parseInt. rewrite fold_left_app. reflexivity. Qed.

Lemma decimal_spec n :
  0 <= n ->
  Forall (fun c => isDigit c = true) (decimal n) /\ parseInt (decimal n) = n.
Proof.
  intros Hn. pattern n. apply Zlt_0_ind; [| exact Hn]. clear n Hn.
  intros n IH Hn. rewrite decimal_step by exact Hn.
  assert (Hlast : isDigit (48 + n mod 10) = true).
  { unfold isDigit. pose proof (Z.mod_pos_bound n 10). lia. }
  destruct (Z.ltb_spec n 10) as [Hsmall | Hbig].
  - cbn [app]. split; [repeat constructor; exact Hlast |].
    cbn. rewrite Z.mod_small by lia. lia.
  - destruct (IH (n / 10)) as [Hdigits Hvalue].
    + split; [apply Z.div_pos; lia | apply Z.div_lt; lia].
    + split.
      * apply Forall_app. split; [exact Hdigits | repeat constructor; exact Hlast].
      * rewrite parseInt_snoc, Hvalue.
        pose proof (Z.div_mod n 10). lia.
Qed.

Lemma decimal_inj n m : 0 <= n -> 0 <= m -> decimal n = decimal m -> n = m.
Proof.
  intros Hn Hm Heq.
  rewrite <- (proj2 (decimal_spec n Hn)), <- (proj2 (decimal_spec m Hm)), Heq.
  reflexivity.
Qed.

(** Two texts that end in a hyphen followed by digits are equal only if the
    parts before the hyphen and the digits are. *)
Lemma hyphen_digits_inj (p1 p2 d1 d2 : jsstring) :
  Forall (fun c => isDigit c = true) d1 ->
  Forall (fun c => isDigit c = true) d2 ->
  p1 ++ js "-" ++ d1 = p2 ++ js "-" ++ d2 -> p1 = p2 /\ d1 = d2.
Proof.
  intros H1 H2 Heq.
  assert (Hrev : rev d1 ++ 45 :: rev p1 = rev d2 ++ 45 :: rev p2).
  { apply (f_equal (@rev Z)) in Heq.
    change (js "-") with [45] in Heq.
    rewrite !rev_app_distr in Heq. cbn [rev app] in Heq.
    rewrite <- !app_assoc in Heq. exact Heq. }
  apply Forall_rev in H1, H2.
  assert (Hboth : rev d1 = rev d2 /\ rev p1 = rev p2).
  { revert H1 H2 Hrev. generalize (rev d1) (rev d2) (rev p1) (rev p2).
    clear. intros l1. induction l1 as [| c l1 IH]; intros [| c' l2] q1 q2 H1 H2 Heq.
    - cbn in Heq. injection Heq as Heq. auto.
    - cbn in Heq. injection Heq as <- _. inversion H2 as [| ? ? Hc _].
      discriminate Hc.
    - cbn in Heq. injection Heq as -> _. inversion H1 as [| ? ? Hc _].
      discriminate Hc.
    - cbn in Heq. injection Heq as <- Heq.
      inversion H1; inversion H2; subst.
      destruct (IH l2 q1 q2) as [-> ->]; auto. }
  destruct Hboth as [Hd Hp].
  split; apply rev_inj; assumption.
Qed.

Lemma mkChunk_id_inj title1 title2 page1 page2 now1 now2 k1 k2 t1 t2 x1 x2 :
  id (mkChunk title1 page1 now1 k1 t1 x1) = id (mkChunk title2 page2 now2 k2 t2 x2) ->
  idPrefix page1 = idPrefix page2 /\ k1 = k2.
Proof.
  cbn [mkChunk id]. intros Heq.
  apply hyphen_digits_inj in Heq.
  - destruct Heq as [Hp Hd]. split; [exact Hp |].
    apply decimal_inj in Hd; lia.
  - apply decimal_spec. lia.
  - apply decimal_spec. lia.
Qed.

(** The ids of the chunks of one page, for both branches of [splitIntoChunks]. *)
Lemma splitIntoChunks_ids nowISO text title_ page :
  map id (splitIntoChunks nowISO text title_ page)
  = map (fun k => idPrefix page ++ js "-" ++ decimal (Z.of_nat k))
        (seq 0 (chunkCount text)).
Proof.
  unfold chunkCount.
  destruct (le_lt_dec (length text) chunkSize) as [Hshort | Hlong].
  - unfold splitIntoChunks.
    destruct (Nat.leb_spec (length text) chunkSize); [| lia]. reflexivity.
  - rewrite splitIntoChunks_long by exact Hlong.
    destruct (Nat.leb_spec (length text) chunkSize); [lia |].
    rewrite map_map. reflexivity.
Qed.

Lemma chunkCount_pos text : (1 <= chunkCount text)%nat.
Proof.
  unfold chunkCount.
  destruct (Nat.leb_spec (length text) chunkSize) as [| Hlong]; [lia |].
  pose proof (windowCount_long _ Hlong). lia.
Qed.

Lemma pageIds_NoDup prefix n :
  NoDup (map (fun k => prefix ++ js "-" ++ decimal (Z.of_nat k)) (seq 0 n)).
Proof.
  apply NoDup_fmap_2_strong; [| apply NoDup_ListNoDup, seq_NoDup].
  intros k1 k2 _ _ Heq. apply hyphen_digits_inj in Heq.
  - destruct Heq as [_ Hd]. apply decimal_inj in Hd; lia.
  - apply decimal_spec. lia.
  - apply decimal_spec. lia.
Qed.

Section Ids.
Context `{Host}.

Lemma processNotionData_ids nowISO notionData st :
  map id (chunks (processNotionData nowISO notionData st))
  = flat_map (fun page =>
                map (fun k => idPrefix page ++ js "-" ++ decimal (Z.of_nat k))
                    (seq 0 (chunkCount (extractTextContent page))))
             notionData.
Proof.
  cbn [processNotionData chunks].
  induction notionData as [| page pages IH]; [reflexivity |].
  cbn [flat_map]. rewrite map_app, IH, splitIntoChunks_ids. reflexivity.
Qed.

Lemma processNotionData_distinct nowISO notionData st :
  distinctIds (processNotionData nowISO notionData st)
  <-> NoDup (map idPrefix notionData).
Proof.
  unfold distinctIds. rewrite processNotionData_ids.
  induction notionData as [| page pages IH]; cbn [flat_map map].
  - split; intros _; constructor.
  - rewrite NoDup_app, NoDup_cons, IH. split.
    + intros (_ & Hdisj & Hrest). split; [| exact Hrest].
      intros Hin. apply list_elem_of_In, in_map_iff in Hin.
      destruct Hin as (page' & Hpre & Hin').
      apply (Hdisj (idPrefix page ++ js "-" ++ decimal 0)).
      * apply list_elem_of_In, in_map_iff. exists 0%nat. split; [reflexivity |].
        apply in_seq. pose proof (chunkCount_pos (extractTextContent page)). lia.
      * apply list_elem_of_In, in_flat_map. exists page'. split; [exact Hin' |].
        apply in_map_iff. exists 0%nat. split; [rewrite Hpre; reflexivity |].
        apply in_seq. pose proof (chunkCount_pos (extractTextContent page')). lia.
    + intros (Hnotin & Hrest). split; [apply pageIds_NoDup |]. split; [| exact Hrest].
      intros x Hx Hx'. apply Hnotin.
      apply list_elem_of_In, in_map_iff in Hx. destruct Hx as (k & <- & _).
      apply list_elem_of_In, in_flat_map in Hx'.
      destruct Hx' as (page' & Hin' & Hx').
      apply in_map_iff in Hx'. destruct Hx' as (k' & Heq & _).
      apply hyphen_digits_inj in Heq; try (apply decimal_spec; lia).
      destruct Heq as [Hpre _].
      apply list_elem_of_In, in_map_iff. exists page'. split; assumption.
Qed.

(** X2: after [processNotionData] the chunk ids are pairwise distinct exactly
    when the pages have pairwise distinct id prefixes [page.id || 'chunk'];
    the chunks of one page always have distinct ids. *)
Theorem processNotionData_distinctIds nowISO notionData st :
  distinctIds (processNotionData nowISO notionData st)
  <-> NoDup (map idPrefix notionData).
Proof. apply processNotionData_distinct. Qed.
End Ids.

(* ================================================================= *)
(** ** Embedding generation: what it keeps and what it writes *)

Lemma extends_refl st : extends st st.
Proof.
  repeat split; auto. intros j c c' Hc Hc'. congruence.
Qed.

Lemma extends_trans st1 st2 st3 :
  extends st1 st2 -> extends st2 st3 -> extends st1 st3.
Proof.
  intros (A1 & A2 & A3 & A4 & A5 & A6 & A7) (B1 & B2 & B3 & B4 & B5 & B6 & B7).
  repeat split; try congruence; auto.
  - intros j c c'' Hc Hc'' He.
    assert (Hmid : exists c', chunks st2 !! j = Some c').
    { apply lookup_lt_is_Some. apply lookup_lt_Some in Hc.
      rewrite <- (length_map id), A1, length_map. exact Hc. }
    destruct Hmid as [c' Hc']. eauto.
  - intros k Hk. destruct (B7 k Hk) as [Hk2 | Hk2]; [auto |].
    right. rewrite <- A1. exact Hk2.
Qed.

Lemma alter_withEmbedding_map {B} (f : DocumentChunk -> B) e k l :
  (forall c, f (withEmbedding e c) = f c) ->
  map f (alter (withEmbedding e) k l) = map f l.
Proof.
  intros Hf. revert k. induction l as [| c l IH]; intros [| k]; cbn;
    try reflexivity; f_equal; auto.
Qed.

Lemma extends_step st e k key :
  In key (map id (chunks st)) ->
  extends st {| chunks := alter (withEmbedding e) k (chunks st);
                embeddings := <[key := e]> (embeddings st);
                openai := openai st |}.
Proof.
  intros Hkey. repeat split; cbn [chunks embeddings openai].
  - apply alter_withEmbedding_map. reflexivity.
  - apply alter_withEmbedding_map. reflexivity.
  - apply alter_withEmbedding_map. reflexivity.
  - intros k' Hk'. destruct (decide (key = k')) as [<- | Hne].
    + rewrite lookup_insert_eq. eauto.
    + rewrite lookup_insert_ne by exact Hne. exact Hk'.
  - intros j c c' Hc Hc' He. rewrite list_lookup_alter in Hc'.
    destruct (decide (k = j)) as [<- | Hne].
    + rewrite Hc in Hc'. cbn in Hc'. injection Hc' as <-. cbn. eauto.
    + congruence.
  - intros k' Hk'. destruct (decide (key = k')) as [<- | Hne]; [auto |].
    rewrite lookup_insert_ne in Hk' by exact Hne. auto.
Qed.

Lemma storeBatch_extends batch i data : forall index st,
  (forall b, In b batch -> In (id b) (map id (chunks st))) ->
  extends st (fst (storeBatch batch i index data st)).
Proof.
  induction data as [| e data IH]; intros index st Hbatch; cbn [storeBatch].
  - apply extends_refl.
  - destruct (batch !! index) as [b |] eqn:Hb; [| apply extends_refl].
    assert (Hin : In (id b) (map id (chunks st))).
    { apply Hbatch. eapply list_elem_of_In, list_elem_of_lookup_2. exact Hb. }
    eapply extends_trans; [apply extends_step; exact Hin | apply IH].
    cbn [chunks]. intros b' Hb'.
    rewrite alter_withEmbedding_map by reflexivity. auto.
Qed.

Lemma slice_In {A} (l : list A) i j x : In x (slice l i j) -> In x l.
Proof.
  unfold slice. intros Hx.
  rewrite <- (firstn_skipn i l). apply in_or_app. right.
  rewrite <- (firstn_skipn (j - i) (skipn i l)). apply in_or_app. left.
  exact Hx.
Qed.

Lemma embedLoop_extends api fuel : forall i st,
  extends st (fst (embedLoop fuel api i st)).
Proof.
  induction fuel as [| fuel IH]; intros i st; cbn [embedLoop];
    [apply extends_refl |].
  destruct (i <? length (chunks st))%nat; [| apply extends_refl].
  destruct (negb (openai st)); [apply extends_refl |].
  destruct (api i (map content (slice (chunks st) i (i + batchSize))))
    as [data |]; [| apply extends_refl].
  assert (Hstep : extends st
            (fst (storeBatch (slice (chunks st) i (i + batchSize)) i 0 data st))).
  { apply storeBatch_extends. intros b Hb. apply in_map, (slice_In _ _ _ _ Hb). }
  destruct (storeBatch (slice (chunks st) i (i + batchSize)) i 0 data st)
    as [st' [|]]; cbn [fst] in *; [| exact Hstep].
  eapply extends_trans; [exact Hstep | apply IH].
Qed.

(** X4: whatever the embedding service answers and however the run ends,
    [generateEmbeddings] keeps the number of chunks, their ids, contents and
    metadata and the client; it removes no entry of the map and no vector of a
    chunk, and every key it adds to the map is the id of a chunk. *)
Theorem generateEmbeddings_frame api st :
  let st' := fst (generateEmbeddings api st) in
  length (chunks st') = length (chunks st)
  /\ map id (chunks st') = map id (chunks st)
  /\ map content (chunks st') = map content (chunks st)
  /\ map metadata (chunks st') = map metadata (chunks st)
  /\ openai st' = openai st
  /\ (forall k, is_Some (embeddings st !! k) -> is_Some (embeddings st' !! k))
  /\ (forall j c c', chunks st !! j = Some c -> chunks st' !! j = Some c' ->
                     is_Some (embedding c) -> is_Some (embedding c'))
  /\ (forall k, is_Some (embeddings st' !! k) ->
                is_Some (embeddings st !! k) \/ In k (map id (chunks st))).
Proof.
  intros st'. subst st'.
  pose proof (embedLoop_extends api (length (chunks st)) 0 st) as Hext.
  change (embedLoop (length (chunks st)) api 0 st)
    with (generateEmbeddings api st) in Hext.
  split; [| exact Hext].
  destruct Hext as (Hids & _).
  rewrite <- (length_map id), Hids, length_map. reflexivity.
Qed.

Lemma generateEmbeddings_frame_witness :
  let st0 :=
    processNotionData (H := seoulHost) (js "2026-11-02T00:00:00.000Z")
      [samplePage (Some (js "p")); samplePage (Some (js "q"))]
      (initializeOpenAI newRAGSystem) in
  map id (chunks (fst (generateEmbeddings twoVectorsApi st0))) = [js "p-0"; js "q-0"].
Proof.
  cbv zeta.
  rewrite (proj1 (proj2 (generateEmbeddings_frame twoVectorsApi _))).
  reflexivity.
Defined.

(* ================================================================= *)
(** ** Embedding generation: a run that is answered *)

Lemma slice_length {A} (l : list A) i : (length (slice l i (i + batchSize)) <= batchSize)%nat.
Proof. unfold slice. rewrite length_firstn. lia. Qed.

Lemma slice_map {A B} (f : A -> B) (l : list A) i j :
  map f (slice l i j) = slice (map f l) i j.
Proof. unfold slice. rewrite skipn_map, firstn_map. reflexivity. Qed.

Lemma slice_lookup_Some {A} (l : list A) i k x :
  (k < batchSize)%nat -> l !! (i + k)%nat = Some x ->
  slice l i (i + batchSize) !! k = Some x.
Proof.
  intros Hk Hx. unfold slice. apply lookup_take_Some. split; [| lia].
  rewrite lookup_drop. exact Hx.
Qed.

(** One [forEach] over an answer that is not longer than the batch: the
    chunks from [i + index] on take the vectors in order. *)
Lemma storeBatch_chunks batch i data : forall index st,
  (index + length data <= length batch)%nat ->
  snd (storeBatch batch i index data st) = Returned
  /\ forall j,
       chunks (fst (storeBatch batch i index data st)) !! j
       = if (i + index <=? j)%nat
         then match data !! (j - (i + index))%nat with
              | Some e => withEmbedding e <$> chunks st !! j
              | None => chunks st !! j
              end
         else chunks st !! j.
Proof.
  induction data as [| e data IH]; intros index st Hlen; cbn [storeBatch].
  - split; [reflexivity |]. intros j. destruct (i + index <=? j)%nat; reflexivity.
  - cbn [length] in Hlen.
    destruct (batch !! index) as [b |] eqn:Hb.
    2:{ pose proof (proj1 (lookup_ge_None batch index) Hb). lia. }
    destruct (IH (S index)
                {| chunks := alter (withEmbedding e) (i + index)%nat (chunks st);
                   embeddings := <[id b := e]> (embeddings st);
                   openai := openai st |}) as [Hret Hchunks]; [lia |].
    split; [exact Hret |]. intros j. rewrite Hchunks. cbn [chunks].
    rewrite list_lookup_alter.
    destruct (Nat.leb_spec (i + S index) j) as [Hge | Hlt].
    + destruct (Nat.leb_spec (i + index) j); [| lia].
      replace (j - (i + index))%nat with (S (j - (i + S index))) by lia.
      cbn [lookup list_lookup].
      destruct (decide ((i + index)%nat = j)); [lia |]. reflexivity.
    + destruct (Nat.leb_spec (i + index) j) as [Hge' | Hlt'].
      * assert (j = (i + index)%nat) as -> by lia.
        rewrite Nat.sub_diag. cbn [lookup list_lookup].
        destruct (decide ((i + index)%nat = (i + index)%nat)); [| congruence].
        reflexivity.
      * destruct (decide ((i + index)%nat = j)); [lia |]. reflexivity.
Qed.

(** An answer longer than the batch makes [batch[index].id] throw. *)
Lemma storeBatch_overflow batch i data : forall index st,
  (index <= length batch)%nat ->
  (length batch < index + length data)%nat ->
  snd (storeBatch batch i index data st) = Threw.
Proof.
  induction data as [| e data IH]; intros index st Hindex Hlen; cbn [storeBatch].
  - cbn in Hlen. lia.
  - destruct (batch !! index) as [b |] eqn:Hb; [| reflexivity].
    pose proof (lookup_lt_Some _ _ _ Hb).
    apply IH; cbn [length] in Hlen; lia.
Qed.

Section Answered.
Variable api : nat -> list jsstring -> option (list (list float)).
Hypothesis Hanswers : answersAll api.

Lemma embedLoop_answered fuel : forall i st,
  openai st = true ->
  (length (chunks st) - i <= fuel)%nat ->
  snd (embedLoop fuel api i st) = Returned
  /\ forall j,
       chunks (fst (embedLoop fuel api i st)) !! j
       = if (i <=? j)%nat
         then vectorFor api (chunks st) (i + (j - i) / batchSize * batchSize) j
              <$> chunks st !! j
         else chunks st !! j.
Proof.
  induction fuel as [| fuel IH]; intros i st Hopen Hfuel; cbn [embedLoop].
  - split; [reflexivity |]. intros j. cbn [fst].
    destruct (Nat.leb_spec i j) as [Hge | Hlt]; [| reflexivity].
    rewrite (proj2 (lookup_ge_None (chunks st) j)) by lia. reflexivity.
  - destruct (Nat.ltb_spec i (length (chunks st))) as [Hin | Hout].
    2:{ split; [reflexivity |]. intros j. cbn [fst].
        destruct (Nat.leb_spec i j) as [Hge | Hlt]; [| reflexivity].
        rewrite (proj2 (lookup_ge_None (chunks st) j)) by lia. reflexivity. }
    rewrite Hopen. cbn [negb].
    set (batch := slice (chunks st) i (i + batchSize)).
    destruct (Hanswers i (map content batch)) as (data & Hdata & Hlen).
    rewrite Hdata. rewrite length_map in Hlen.
    destruct (storeBatch_chunks batch i data 0 st ltac:(lia)) as [Hret Hchunks].
    assert (Hext : extends st (fst (storeBatch batch i 0 data st))).
    { apply storeBatch_extends. intros b Hb.
      apply in_map, (slice_In _ _ _ _ Hb). }
    destruct (storeBatch batch i 0 data st) as [st1 out] eqn:Hstore.
    cbn [fst snd] in *. subst out.
    destruct Hext as (Hids & Hcontents & _ & Hopen1 & _).
    assert (Hlen1 : length (chunks st1) = length (chunks st)).
    { rewrite <- (length_map id), Hids, length_map. reflexivity. }
    destruct (IH (i + batchSize)%nat st1) as [Hret' Hfinal].
    { congruence. }
    { unfold batchSize in *. lia. }
    cbv beta iota. split; [exact Hret' |]. intros j. rewrite Hfinal.
    pose proof (slice_length (chunks st) i) as Hbatch. fold batch in Hbatch.
    assert (Hb : batchSize = 100%nat) by reflexivity.
    destruct (Nat.leb_spec (i + batchSize) j) as [Hfar | Hnear].
    + (* a later batch *)
      destruct (Nat.leb_spec i j); [| lia].
      rewrite Hchunks. rewrite Nat.add_0_r.
      destruct (Nat.leb_spec i j); [| lia].
      rewrite (proj2 (lookup_ge_None data (j - i)%nat)) by lia.
      f_equal. unfold vectorFor, batchTexts.
      rewrite !slice_map, Hcontents.
      replace (i + batchSize + (j - (i + batchSize)) / batchSize * batchSize)%nat
        with (i + (j - i) / batchSize * batchSize)%nat; [reflexivity |].
      replace (j - i)%nat with ((j - (i + batchSize)) + 1 * batchSize)%nat by lia.
      rewrite Nat.div_add by (rewrite Hb; lia). lia.
    + rewrite Hchunks. rewrite Nat.add_0_r.
      destruct (Nat.leb_spec i j) as [Hge | Hlt]; [| reflexivity].
      rewrite Nat.div_small by lia. cbn [Nat.mul]. rewrite Nat.add_0_r.
      unfold vectorFor, batchTexts. fold batch. rewrite Hdata.
      destruct (data !! (j - i)%nat); [reflexivity |].
      destruct (chunks st !! j); reflexivity.
Qed.
End Answered.

Lemma embedded_lookup api cs j :
  embedded api cs !! j = vectorFor api cs (batchStart j) j <$> cs !! j.
Proof.
  exact (list_lookup_imap (fun j c => vectorFor api cs (batchStart j) j c) cs j).
Qed.

Lemma batchStart_bounds j :
  (batchStart j <= j < batchStart j + batchSize)%nat.
Proof.
  unfold batchStart, batchSize.
  pose proof (Nat.div_mod_eq j 100). pose proof (Nat.mod_upper_bound j 100).
  lia.
Qed.

Lemma batchTexts_length cs b :
  length (batchTexts cs b) = Nat.min batchSize (length cs - b).
Proof.
  unfold batchTexts, slice.
  rewrite length_map, length_firstn, length_skipn. lia.
Qed.

Lemma embedded_all api cs :
  answersAll api -> Forall (fun c => is_Some (embedding c)) (embedded api cs).
Proof.
  intros Hanswers. apply Forall_lookup. intros j c' Hj.
  rewrite embedded_lookup in Hj.
  destruct (cs !! j) as [c |] eqn:Hc; [| discriminate].
  cbv [fmap option_fmap option_map] in Hj. injection Hj as <-.
  unfold vectorFor.
  destruct (Hanswers (batchStart j) (batchTexts cs (batchStart j)))
    as (data & -> & Hlen).
  rewrite batchTexts_length in Hlen.
  pose proof (batchStart_bounds j). pose proof (lookup_lt_Some _ _ _ Hc).
  destruct (data !! (j - batchStart j)%nat) as [e |] eqn:He.
  - cbn. eauto.
  - pose proof (proj1 (lookup_ge_None _ _) He). lia.
Qed.

Lemma generateEmbeddings_answered_all api st :
  openai st = true ->
  answersAll api ->
  let st' := fst (generateEmbeddings api st) in
  snd (generateEmbeddings api st) = Returned
  /\ chunks st' = embedded api (chunks st)
  /\ Forall (fun c => is_Some (embedding c)) (chunks st')
  /\ (distinctIds st -> inSync st ->
      (forall c e, In c (chunks st') -> embedding c = Some e ->
                   embeddings st' !! id c = Some e)
      /\ (embeddings st = ∅ ->
          getStatus st' =
          {| chunksCount := length (chunks st);
             embeddingsCount := length (chunks st);
             isReady := (0 <? length (chunks st))%nat |})).
Proof.
  intros Hopen Hanswers st'.
  destruct (embedLoop_answered api Hanswers (length (chunks st)) 0 st Hopen
              ltac:(lia)) as [Hret Hchunks].
  change (embedLoop (length (chunks st)) api 0 st)
    with (generateEmbeddings api st) in Hret, Hchunks.
  fold st' in Hchunks.
  assert (Heq : chunks st' = embedded api (chunks st)).
  { apply list_eq. intros j. rewrite Hchunks, embedded_lookup.
    cbn [Nat.leb Nat.add]. rewrite Nat.sub_0_r. reflexivity. }
  assert (Hall : Forall (fun c => is_Some (embedding c)) (chunks st')).
  { rewrite Heq. apply embedded_all. exact Hanswers. }
  split; [exact Hret |]. split; [exact Heq |]. split; [exact Hall |].
  intros Hids Hsync.
  pose proof (generateEmbeddings_inSync api st Hids Hsync) as Hsync'.
  fold st' in Hsync'.
  split; [exact Hsync' |]. intros Hempty.
  destruct (embedLoop_extends api (length (chunks st)) 0 st)
    as (Hids' & _ & _ & _ & _ & _ & Hkeys).
  change (embedLoop (length (chunks st)) api 0 st)
    with (generateEmbeddings api st) in Hids', Hkeys.
  fold st' in Hids', Hkeys.
  assert (Hlen : length (chunks st') = length (chunks st)).
  { rewrite <- (length_map id), Hids', length_map. reflexivity. }
  assert (Hdom : dom (embeddings st') = list_to_set (map id (chunks st))).
  { apply set_eq. intros k. rewrite elem_of_dom, elem_of_list_to_set. split.
    - intros Hk. destruct (Hkeys k Hk) as [Hold | Hin].
      + rewrite Hempty, lookup_empty in Hold. destruct Hold; discriminate.
      + apply list_elem_of_In. exact Hin.
    - intros Hk. rewrite <- Hids' in Hk.
      apply list_elem_of_In, in_map_iff in Hk. destruct Hk as (c & <- & Hc).
      pose proof (proj1 (List.Forall_forall _ _) Hall c Hc) as [e He].
      rewrite (Hsync' c e Hc He). eauto. }
  unfold getStatus. rewrite Hlen.
  assert (Hsize : size (embeddings st') = length (chunks st)).
  { rewrite <- size_dom, Hdom, size_list_to_set by exact Hids.
    apply length_map. }
  rewrite Hsize. f_equal. apply andb_diag.
Qed.

(** X5: when the client is set and the service answers every batch with one
    vector for each text, [generateEmbeddings] returns normally and leaves
    every chunk with the vector at its place in the answer for its batch of
    100; with pairwise distinct ids the map then holds each chunk's vector under
    its id, and started from an empty map it has exactly one entry for each
    chunk, so that [getStatus] reports as many embeddings as chunks. *)
Theorem generateEmbeddings_answered api st :
  openai st = true ->
  answersAll api ->
  let st' := fst (generateEmbeddings api st) in
  snd (generateEmbeddings api st) = Returned
  /\ chunks st' = embedded api (chunks st)
  /\ Forall (fun c => is_Some (embedding c)) (chunks st')
  /\ (distinctIds st -> inSync st ->
      (forall c e, In c (chunks st') -> embedding c = Some e ->
                   embeddings st' !! id c = Some e)
      /\ (embeddings st = ∅ ->
          getStatus st' =
          {| chunksCount := length (chunks st);
             embeddingsCount := length (chunks st);
             isReady := (0 <? length (chunks st))%nat |})).
Proof. apply generateEmbeddings_answered_all. Qed.

Lemma constantApi_answersAll : answersAll constantApi.
Proof.
  intros i texts. eexists. split; [reflexivity |]. apply length_map.
Qed.

Lemma generateEmbeddings_answered_witness :
  let st0 :=
    processNotionData (H := seoulHost) (js "2026-11-02T00:00:00.000Z")
      [notePage (repeat 65 1500)] (initializeOpenAI newRAGSystem) in
  let st1 := fst (generateEmbeddings constantApi st0) in
  snd (generateEmbeddings constantApi st0) = Returned
  /\ chunks st1 = embedded constantApi (chunks st0)
  /\ Forall (fun c => is_Some (embedding c)) (chunks st1).
Proof.
  cbv zeta.
  destruct (generateEmbeddings_answered constantApi
              (processNotionData (H := seoulHost) (js "2026-11-02T00:00:00.000Z")
                 [notePage (repeat 65 1500)] (initializeOpenAI newRAGSystem))
              eq_refl constantApi_answersAll) as (H1 & H2 & H3 & _).
  exact (conj H1 (conj H2 H3)).
Defined.

(* ================================================================= *)
(** ** Embedding generation: runs that are not answered *)

(** X6: the ways [generateEmbeddings] ends without embedding everything.
    With no chunks it returns at once, whether or not the client is set.  With
    chunks and no client, or when the first call fails, it throws and leaves
    the instance as it was.  When the answer to the first batch is longer than
    the batch it throws.  When the first batch is answered in full and the
    call for a second batch fails, it throws after the first 100 chunks have
    taken their vectors: a failed run is not undone. *)
Theorem generateEmbeddings_failures api st :
  (chunks st = [] -> generateEmbeddings api st = (st, Returned))
  /\ (chunks st <> [] -> openai st = false ->
      generateEmbeddings api st = (st, Threw))
  /\ (chunks st <> [] -> openai st = true ->
      api 0%nat (batchTexts (chunks st) 0) = None ->
      generateEmbeddings api st = (st, Threw))
  /\ (forall data,
        chunks st <> [] -> openai st = true ->
        api 0%nat (batchTexts (chunks st) 0) = Some data ->
        (Nat.min batchSize (length (chunks st)) < length data)%nat ->
        snd (generateEmbeddings api st) = Threw)
  /\ (forall data,
        (batchSize < length (chunks st))%nat -> openai st = true ->
        api 0%nat (batchTexts (chunks st) 0) = Some data ->
        length data = batchSize ->
        api batchSize (batchTexts (chunks st) batchSize) = None ->
        snd (generateEmbeddings api st) = Threw
        /\ forall j c, (j < batchSize)%nat ->
             chunks (fst (generateEmbeddings api st)) !! j = Some c ->
             is_Some (embedding c)).
Proof.
  unfold generateEmbeddings.
  assert (Hstep : forall fuel,
             chunks st <> [] -> openai st = true ->
             embedLoop (S fuel) api 0 st
             = match api 0%nat (batchTexts (chunks st) 0) with
               | None => (st, Threw)
               | Some data =>
                 match storeBatch (slice (chunks st) 0 (0 + batchSize)) 0 0 data st with
                 | (st', Returned) => embedLoop fuel api (0 + batchSize) st'
                 | (st', Threw) => (st', Threw)
                 end
               end).
  { intros fuel Hne Hopen. cbn [embedLoop].
    destruct (Nat.ltb_spec 0 (length (chunks st))) as [_ | Hlen].
    - rewrite Hopen. reflexivity.
    - destruct (chunks st); [congruence | cbn in Hlen; lia]. }
  assert (Hfuel : chunks st <> [] ->
                  exists fuel, length (chunks st) = S fuel).
  { destruct (chunks st) as [| c cs]; [congruence |]. cbn. eauto. }
  split; [| split; [| split; [| split]]].
  - intros ->. reflexivity.
  - intros Hne Hopen. destruct (Hfuel Hne) as [fuel ->]. cbn [embedLoop].
    destruct (Nat.ltb_spec 0 (length (chunks st))) as [_ | Hlen].
    + rewrite Hopen. reflexivity.
    + destruct (chunks st); [congruence | cbn in Hlen; lia].
  - intros Hne Hopen Hapi. destruct (Hfuel Hne) as [fuel ->].
    rewrite Hstep, Hapi by assumption. reflexivity.
  - intros data Hne Hopen Hapi Hlen. destruct (Hfuel Hne) as [fuel ->].
    rewrite Hstep, Hapi by assumption.
    pose proof (storeBatch_overflow (slice (chunks st) 0 (0 + batchSize)) 0 data
                  0 st ltac:(lia)) as Hthrew.
    destruct (storeBatch (slice (chunks st) 0 (0 + batchSize)) 0 0 data st)
      as [st' out]. cbn [snd] in Hthrew.
    rewrite Hthrew; [reflexivity |].
    unfold slice. rewrite length_firstn, length_skipn. lia.
  - intros data Hlong Hopen Hapi Hlen Hapi2.
    assert (Hne : chunks st <> []).
    { intros Hnil. rewrite Hnil in Hlong. cbn in Hlong. lia. }
    destruct (Hfuel Hne) as [fuel Hf]. rewrite Hf, Hstep, Hapi by assumption.
    set (batch := slice (chunks st) 0 (0 + batchSize)).
    assert (Hbatch : length batch = batchSize).
    { unfold batch, slice. rewrite length_firstn, length_skipn. lia. }
    destruct (storeBatch_chunks batch 0 data 0 st ltac:(lia)) as [Hret Hchunks].
    assert (Hext : extends st (fst (storeBatch batch 0 0 data st))).
    { apply storeBatch_extends. intros b Hb.
      apply in_map, (slice_In _ _ _ _ Hb). }
    destruct (storeBatch batch 0 0 data st) as [st1 out].
    cbn [fst snd] in *. subst out.
    destruct Hext as (Hids & Hcontents & _ & Hopen1 & _).
    assert (Hlen1 : length (chunks st1) = length (chunks st)).
    { rewrite <- (length_map id), Hids, length_map. reflexivity. }
    assert (Hfuel' : exists fuel', fuel = S fuel').
    { destruct fuel; [unfold batchSize in Hlong; lia | eauto]. }
    destruct Hfuel' as [fuel' ->]. cbn [embedLoop].
    destruct (Nat.ltb_spec (0 + batchSize) (length (chunks st1))); [| lia].
    rewrite Hopen1, Hopen. cbn [negb].
    change (0 + batchSize)%nat with batchSize.
    rewrite slice_map, Hcontents, <- slice_map.
    change (map content (slice (chunks st) batchSize (batchSize + batchSize)))
      with (batchTexts (chunks st) batchSize).
    rewrite Hapi2. cbn [fst snd]. split; [reflexivity |].
    intros j c Hj Hc. rewrite Hchunks in Hc. cbn [Nat.add Nat.leb] in Hc.
    rewrite Nat.sub_0_r in Hc.
    destruct (data !! j) as [e |] eqn:He.
    + destruct (chunks st !! j); [| discriminate].
      cbn in Hc. injection Hc as <-. cbn. eauto.
    + pose proof (proj1 (lookup_ge_None _ _) He). lia.
Qed.

Lemma generateEmbeddings_failures_witness :
  generateEmbeddings constantApi newRAGSystem = (newRAGSystem, Returned)
  /\ (let st0 := processNotionData (H := seoulHost) (js "2026-11-02T00:00:00.000Z")
                   [notePage (js "메모")] newRAGSystem in
      generateEmbeddings constantApi st0 = (st0, Threw))
  /\ (length (chunks longStore) = 125%nat
      /\ snd (generateEmbeddings firstBatchOnly longStore) = Threw
      /\ forall j c, (j < batchSize)%nat ->
           chunks (fst (generateEmbeddings firstBatchOnly longStore)) !! j = Some c ->
           is_Some (embedding c)).
Proof.
  split; [| split].
  - apply (generateEmbeddings_failures constantApi newRAGSystem). reflexivity.
  - apply (proj1 (proj2 (generateEmbeddings_failures constantApi
             (processNotionData (H := seoulHost) (js "2026-11-02T00:00:00.000Z")
                [notePage (js "메모")] newRAGSystem)))).
    + discriminate.
    + reflexivity.
  - assert (Hlen : length (chunks longStore) = 125%nat) by (vm_compute; reflexivity).
    split; [exact Hlen |].
    apply (proj2 (proj2 (proj2 (proj2
             (generateEmbeddings_failures firstBatchOnly longStore))))
             (map (fun _ => [0.6; 0.8]%float) (batchTexts (chunks longStore) 0))).
    + rewrite Hlen. unfold batchSize. lia.
    + reflexivity.
    + reflexivity.
    + vm_compute. reflexivity.
    + reflexivity.
Defined.

(* ================================================================= *)
(** ** Processing again *)

Section Stale.
Context `{Host}.

(** X3: [processNotionData] replaces the chunks and leaves the map of vectors
    and the client as they were.  The new chunks carry no vector, so until
    [generateEmbeddings] runs again every search that gets its query vector
    returns the empty list, while [getStatus] still reports the instance as
    ready when the old map was not empty and at least one page was given. *)
Theorem processNotionData_stale nowISO notionData st :
  let st' := processNotionData nowISO notionData st in
  embeddings st' = embeddings st
  /\ openai st' = openai st
  /\ Forall (fun c => embedding c = None) (chunks st')
  /\ (forall api now query topK q,
        getQueryEmbedding api query st' = Some q ->
        searchSimilarChunks api now query topK st' = Some [])
  /\ (notionData <> [] -> embeddings st <> ∅ ->
      isReady (getStatus st') = true).
Proof.
  intros st'.
  assert (Hfresh : Forall (fun c => embedding c = None) (chunks st')).
  { apply List.Forall_forall. intros c Hc. cbn [st' processNotionData chunks] in Hc.
    apply in_flat_map in Hc. destruct Hc as (page & _ & Hc).
    exact (splitIntoChunks_fresh _ _ _ _ _ Hc). }
  split; [reflexivity |]. split; [reflexivity |]. split; [exact Hfresh |]. split.
  - intros api now query topK q Hq. unfold searchSimilarChunks. rewrite Hq.
    assert (Hnone : similarities now query q st' = []).
    { unfold similarities. induction Hfresh as [| c cs Hc _ IH]; [reflexivity |].
      cbn [omap list_omap]. unfold scoreChunk at 1. rewrite Hc. exact IH. }
    rewrite Hnone. cbn [sortResults foldr]. unfold sliceTo.
    destruct (topK <? 0); rewrite firstn_nil; reflexivity.
  - intros Hpages Hmap. cbn [getStatus isReady st' processNotionData chunks embeddings].
    apply andb_true_iff. split; apply Nat.ltb_lt.
    + destruct notionData as [| page pages]; [congruence |]. cbn [flat_map].
      rewrite length_app.
      assert (0 < length (splitIntoChunks nowISO (extractTextContent page)
                            (orElse (titleText page) (js "Untitled")) page))%nat.
      { rewrite <- (length_map id), splitIntoChunks_ids, length_map, length_seq.
        apply chunkCount_pos. }
      lia.
    + destruct (decide (size (embeddings st) = 0%nat)) as [Hzero | Hpos]; [| lia].
      apply map_size_empty_inv in Hzero. congruence.
Qed.
End Stale.

Lemma processNotionData_stale_witness :
  let st' := processNotionData (H := seoulHost) (js "2026-11-02T00:00:00.000Z")
               [notePage (js "메모")] sampleStore in
  isReady (getStatus st') = true
  /\ searchSimilarChunks (H := seoulHost) sampleQueryApi sampleNow (js "회의록 정리") 5 st'
     = Some [].
Proof.
  cbv zeta.
  destruct (processNotionData_stale (H := seoulHost) (js "2026-11-02T00:00:00.000Z")
              [notePage (js "메모")] sampleStore) as (_ & _ & _ & Hsearch & Hready).
  split.
  - apply Hready; [discriminate |].
    intros Hempty. apply (f_equal (fun m => m !! js "a-0")) in Hempty.
    cbn [sampleStore embeddings] in Hempty.
    rewrite lookup_insert_eq, lookup_empty in Hempty. discriminate.
  - apply (Hsearch sampleQueryApi sampleNow (js "회의록 정리") 5 [0.6; 0.8]%float).
    reflexivity.
Defined.

(* ================================================================= *)
(** ** The comparator and the order of scores *)

Lemma SFsub_lt x y :
  valid_binary x = true -> valid_binary y = true ->
  x <> S754_nan -> y <> S754_nan ->
  SFltb (S754_zero false) (SF64sub y x) = SFltb x y.
Proof.
  intros Hx Hy Hxn Hyn.
  destruct x as [sx | sx | | sx mx ex]; try congruence;
    destruct y as [sy | sy | | sy my ey]; try congruence;
    try (destruct sx, sy; reflexivity);
    try (destruct sx; reflexivity);
    try (destruct sy; reflexivity).
  cbn [valid_binary] in Hx, Hy.
  rewrite SFsub_finite_sign by assumption.
  pose proof (SFcompare_aligned sx mx ex sy my ey Hx Hy) as Hxy.
  rewrite (Z.min_comm ex ey) in Hxy.
  unfold SFltb. rewrite Hxy.
  set (Y := aligned sy my ey (Z.min ey ex)).
  set (X := aligned sx mx ex (Z.min ey ex)).
  destruct (Z.compare_spec X Y); destruct (Z.ltb_spec 0 (Y - X));
    try reflexivity; lia.
Qed.

(** The comparator [b.score - a.score] is positive exactly when [a.score]
    is below [b.score]. *)
Lemma sub_pos_lt (x y : float) :
  is_nan x = false -> is_nan y = false ->
  (0 <? y - x)%float = (x <? y)%float.
Proof.
  intros Hx Hy.
  rewrite !FloatAxioms.ltb_spec, sub_spec.
  change (Prim2SF 0%float) with (S754_zero false).
  apply SFsub_lt; try apply Prim2SF_valid.
  - apply isNaN_false. exact Hx.
  - apply isNaN_false. exact Hy.
Qed.

Lemma ltb_ordZ (x y : float) :
  is_nan x = false -> is_nan y = false ->
  (x <? y)%float = (ordZ (Prim2SF x) <? ordZ (Prim2SF y)).
Proof.
  intros Hx Hy. rewrite FloatAxioms.ltb_spec. unfold SFltb.
  rewrite SFcompare_ordZ;
    [| apply Prim2SF_valid | apply Prim2SF_valid
     | apply isNaN_false; exact Hx | apply isNaN_false; exact Hy ].
  generalize (ordZ (Prim2SF x)) (ordZ (Prim2SF y)). intros a b.
  destruct (Z.compare_spec a b); destruct (Z.ltb_spec a b); try reflexivity; lia.
Qed.

Lemma eqb_ordZ (x y : float) :
  is_nan x = false -> is_nan y = false ->
  (x =? y)%float = (ordZ (Prim2SF x) =? ordZ (Prim2SF y)).
Proof.
  intros Hx Hy. rewrite FloatAxioms.eqb_spec. unfold SFeqb.
  rewrite SFcompare_ordZ;
    [| apply Prim2SF_valid | apply Prim2SF_valid
     | apply isNaN_false; exact Hx | apply isNaN_false; exact Hy ].
  generalize (ordZ (Prim2SF x)) (ordZ (Prim2SF y)). intros a b.
  destruct (Z.compare_spec a b); destruct (Z.eqb_spec a b); try reflexivity; lia.
Qed.

Lemma eqb_not_nan (x y : float) :
  (x =? y)%float = true -> is_nan x = false /\ is_nan y = false.
Proof.
  rewrite FloatAxioms.eqb_spec. intros Heq.
  split; apply isNaN_false; intros Hn; rewrite Hn in Heq;
    [destruct (Prim2SF y) as [| [] | |] | destruct (Prim2SF x) as [| [] | |]];
    discriminate.
Qed.

(* ================================================================= *)
(** ** The scoring branches *)

Section Scoring.
Context `{Host}.

Lemma dateMatches_recent query now dates :
  isRecentQuery query = true ->
  dateMatches query now dates = true <->
  exists d, In d dates /\ now - sevenDays <= d <= now + sevenDays.
Proof.
  intros Hrecent. unfold dateMatches. rewrite existsb_exists, Hrecent.
  split; intros (d & Hd & Hw); exists d; (split; [exact Hd |]).
  - apply andb_prop in Hw. destruct Hw as [H1 H2].
    apply Z.leb_le in H1, H2. lia.
  - apply andb_true_intro. split; apply Z.leb_le; lia.
Qed.

Lemma dateMatches_upcoming query now dates :
  isRecentQuery query = false -> isUpcomingQuery query = true ->
  dateMatches query now dates = true <-> exists d, In d dates /\ now < d.
Proof.
  intros Hrecent Hupcoming. unfold dateMatches.
  rewrite existsb_exists, Hrecent, Hupcoming.
  split; intros (d & Hd & Hw); exists d; (split; [exact Hd |]);
    apply Z.ltb_lt; exact Hw.
Qed.

Lemma dateMatches_past query now dates :
  isRecentQuery query = false -> isUpcomingQuery query = false ->
  isPastQuery query = true ->
  dateMatches query now dates = true <-> exists d, In d dates /\ d < now.
Proof.
  intros Hrecent Hupcoming Hpast. unfold dateMatches.
  rewrite existsb_exists, Hrecent, Hupcoming, Hpast.
  split; intros (d & Hd & Hw); exists d; (split; [exact Hd |]);
    apply Z.ltb_lt; exact Hw.
Qed.

Lemma length_pos_iff {A} (l : list A) : (0 <? length l)%nat = true <-> l <> [].
Proof.
  destruct l; cbn; split; intros; congruence.
Qed.

Lemma old_date_iff dates :
  existsb (fun d => getFullYear d <? 2024) dates = true <->
  exists d, In d dates /\ getFullYear d < 2024.
Proof.
  rewrite existsb_exists.
  split; intros (d & Hd & Hy); exists d; (split; [exact Hd |]);
    apply Z.ltb_lt; exact Hy.
Qed.

(** X7: when the scoring loop passes over a chunk without a result: the
    chunk has no vector, or the query is of the recent family and the chunk
    has extracted dates, none of them within seven days of now and at least
    one of them in a year before 2024.  In particular a query of the upcoming
    or past family alone never drops a chunk that has a vector. *)
Theorem scoreChunk_dropped now query q c :
  scoreChunk now query q c = None <->
  embedding c = None
  \/ (isRecentQuery query = true
      /\ extractDatesFromChunk c <> []
      /\ (forall d, In d (extractDatesFromChunk c) ->
                    ~ (now - sevenDays <= d <= now + sevenDays))
      /\ exists d, In d (extractDatesFromChunk c) /\ getFullYear d < 2024).
Proof.
  unfold scoreChunk.
  destruct (embedding c) as [e |]; [| split; auto].
  destruct (isRecentQuery query) eqn:Hrecent; cbn [orb andb].
  - pose proof (length_pos_iff (extractDatesFromChunk c)) as Hdates.
    pose proof (dateMatches_recent query now (extractDatesFromChunk c) Hrecent)
      as Hmatch.
    pose proof (old_date_iff (extractDatesFromChunk c)) as Hold.
    destruct (0 <? length (extractDatesFromChunk c))%nat.
    + destruct (dateMatches query now (extractDatesFromChunk c)); cbn [negb].
      * split; [discriminate |]. intros [Hnone | (_ & _ & Hout & _)];
          [discriminate |].
        destruct (proj1 Hmatch eq_refl) as (d & Hd & Hw).
        destruct (Hout d Hd Hw).
      * destruct (existsb (fun d => getFullYear d <? 2024)
                    (extractDatesFromChunk c)).
        -- split; [intros _ | reflexivity]. right.
           split; [reflexivity |]. split; [apply Hdates; reflexivity |].
           split; [| apply Hold; reflexivity].
           intros d Hd Hw.
           assert (false = true) by (apply Hmatch; eauto). discriminate.
        -- split; [discriminate |].
           intros [Hnone | (_ & _ & _ & Hex)]; [discriminate |].
           assert (false = true) by (apply Hold; exact Hex). discriminate.
    + split; [discriminate |].
      intros [Hnone | (_ & Hne & _)]; [discriminate |].
      assert (false = true) by (apply Hdates; exact Hne). discriminate.
  - split.
    + destruct (isUpcomingQuery query || isPastQuery query);
        [| discriminate].
      destruct (0 <? length (extractDatesFromChunk c))%nat; [| discriminate].
      destruct (negb (dateMatches query now (extractDatesFromChunk c)));
        discriminate.
    + intros [Hnone | (Hr & _)]; discriminate.
Qed.

(** X8: for a query of the recent family, a chunk with a vector and at least
    one extracted date within seven days of now, both ends included, is scored
    with the cosine similarity times 1.2, whatever other dates it names and
    whatever other keywords the query holds. *)
Theorem scoreChunk_recent_inside now query q c e d :
  isRecentQuery query = true ->
  embedding c = Some e ->
  In d (extractDatesFromChunk c) ->
  now - sevenDays <= d <= now + sevenDays ->
  scoreChunk now query q c =
  Some {| chunk := c; score := (cosineSimilarity q e * 1.2)%float |}.
Proof.
  intros Hrecent He Hd Hw. unfold scoreChunk. rewrite He, Hrecent. cbn [orb].
  assert (Hne : extractDatesFromChunk c <> []).
  { intros Hnil. rewrite Hnil in Hd. destruct Hd. }
  rewrite (proj2 (length_pos_iff _) Hne).
  rewrite (proj2 (dateMatches_recent query now _ Hrecent)) by eauto.
  reflexivity.
Qed.

(** X9: the upcoming and the past family.  For a query that has no keyword
    of the recent family and one of the upcoming family, a chunk with a vector
    is scored with the similarity times 0.5 when it has no extracted date,
    times 1.2 when some extracted date is after now and times 0.3 when it has
    dates and none is after now; keywords of the past family in the same
    query change nothing.  For a query of the past family alone the same
    holds with the dates before now. *)
Theorem scoreChunk_upcoming_past now query q c e :
  isRecentQuery query = false ->
  embedding c = Some e ->
  let dates := extractDatesFromChunk c in
  let scored := fun m => Some {| chunk := c;
                                 score := (cosineSimilarity q e * m)%float |} in
  (isUpcomingQuery query = true ->
   (dates = [] -> scoreChunk now query q c = scored 0.5%float)
   /\ ((exists d, In d dates /\ now < d) ->
       scoreChunk now query q c = scored 1.2%float)
   /\ (dates <> [] -> (forall d, In d dates -> d <= now) ->
       scoreChunk now query q c = scored 0.3%float))
  /\ (isUpcomingQuery query = false -> isPastQuery query = true ->
      (dates = [] -> scoreChunk now query q c = scored 0.5%float)
      /\ ((exists d, In d dates /\ d < now) ->
          scoreChunk now query q c = scored 1.2%float)
      /\ (dates <> [] -> (forall d, In d dates -> now <= d) ->
          scoreChunk now query q c = scored 0.3%float)).
Proof.
  intros Hrecent He dates scored. subst scored. cbv beta.
  assert (Hnil : dates = [] -> (0 <? length dates)%nat = false).
  { intros ->. reflexivity. }
  split.
  - intros Hupcoming.
    pose proof (dateMatches_upcoming query now dates Hrecent Hupcoming) as Hmatch.
    unfold scoreChunk. rewrite He, Hrecent, Hupcoming. cbn [orb andb].
    fold dates. split; [| split].
    + intros Hd. rewrite (Hnil Hd). reflexivity.
    + intros Hex. assert (Hne : dates <> []).
      { destruct Hex as (d & Hd & _). intros Hd'. rewrite Hd' in Hd. destruct Hd. }
      rewrite (proj2 (length_pos_iff _) Hne), (proj2 Hmatch Hex). reflexivity.
    + intros Hne Hall. rewrite (proj2 (length_pos_iff _) Hne).
      destruct (dateMatches query now dates) eqn:Hm; [| reflexivity].
      destruct (proj1 Hmatch eq_refl) as (d & Hd & Hlt).
      specialize (Hall d Hd). lia.
  - intros Hupcoming Hpast.
    pose proof (dateMatches_past query now dates Hrecent Hupcoming Hpast) as Hmatch.
    unfold scoreChunk. rewrite He, Hrecent, Hupcoming, Hpast. cbn [orb andb].
    fold dates. split; [| split].
    + intros Hd. rewrite (Hnil Hd). reflexivity.
    + intros Hex. assert (Hne : dates <> []).
      { destruct Hex as (d & Hd & _). intros Hd'. rewrite Hd' in Hd. destruct Hd. }
      rewrite (proj2 (length_pos_iff _) Hne), (proj2 Hmatch Hex). reflexivity.
    + intros Hne Hall. rewrite (proj2 (length_pos_iff _) Hne).
      destruct (dateMatches query now dates) eqn:Hm; [| reflexivity].
      destruct (proj1 Hmatch eq_refl) as (d & Hd & Hlt).
      specialize (Hall d Hd). lia.
Qed.
End Scoring.

Lemma scoreChunk_recent_inside_witness :
  scoreChunk (H := seoulHost) sampleNow (js "최근 회의") [0.6; 0.8]%float soonChunk =
  Some {| chunk := soonChunk;
          score := (cosineSimilarity [0.6; 0.8] [1; 0] * 1.2)%float |}.
Proof.
  apply (scoreChunk_recent_inside (H := seoulHost) sampleNow (js "최근 회의")
           [0.6; 0.8]%float soonChunk [1; 0]%float
           (newDate (H := seoulHost) 2026 10 3)).
  - vm_compute. reflexivity.
  - reflexivity.
  - vm_compute. left. reflexivity.
  - vm_compute. split; discriminate.
Defined.

Lemma scoreChunk_upcoming_past_witness :
  scoreChunk (H := seoulHost) sampleNow (js "다가오는 일정") [0.6; 0.8]%float soonChunk =
  Some {| chunk := soonChunk;
          score := (cosineSimilarity [0.6; 0.8] [1; 0] * 1.2)%float |}.
Proof.
  refine (proj1 (proj2 (proj1
            (scoreChunk_upcoming_past (H := seoulHost) sampleNow
               (js "다가오는 일정") [0.6; 0.8]%float soonChunk [1; 0]%float
               _ _) _)) _).
  - vm_compute. reflexivity.
  - reflexivity.
  - vm_compute. reflexivity.
  - exists (newDate (H := seoulHost) 2026 10 3). split.
    + vm_compute. left. reflexivity.
    + vm_compute. reflexivity.
Defined.

(* ================================================================= *)
(** ** The order of the results *)

Section Order.
Context `{Host}.

Lemma insertSorted_filter (p : SearchResult -> bool) x l :
  (forall y, p x = true -> p y = true -> (0 <? compareFn x y)%float = false) ->
  filter p (insertSorted x l) = filter p (x :: l).
Proof.
  intros Hp. induction l as [| y l IH]; [reflexivity |].
  cbn [insertSorted].
  destruct (0 <? compareFn x y)%float eqn:Hcmp; [| reflexivity].
  rewrite filter_cons, IH, !filter_cons.
  destruct (decide (p x)) as [Hx | Hx], (decide (p y)) as [Hy | Hy];
    try reflexivity.
  apply Is_true_eq_true in Hx, Hy.
  rewrite (Hp y Hx Hy) in Hcmp. discriminate.
Qed.

Lemma compareFn_equal x y s :
  (score x =? s)%float = true -> (score y =? s)%float = true ->
  (0 <? compareFn x y)%float = false.
Proof.
  intros Hx Hy. unfold compareFn.
  destruct (eqb_not_nan _ _ Hx) as [Hnx Hns].
  destruct (eqb_not_nan _ _ Hy) as [Hny _].
  rewrite sub_pos_lt, ltb_ordZ by assumption.
  rewrite eqb_ordZ in Hx, Hy by assumption.
  apply Z.eqb_eq in Hx, Hy. apply Z.ltb_ge. lia.
Qed.

Lemma insertSorted_descending x l :
  descending (x :: l) -> insertSorted x l = x :: l.
Proof.
  intros Hd. destruct l as [| y l]; [reflexivity |]. cbn [insertSorted].
  apply StronglySorted_inv in Hd. destruct Hd as [_ Hall].
  apply Forall_inv in Hall. unfold scoreGe, geb in Hall.
  destruct (proj1 (leb_ordZ _ _) Hall) as (Hny & Hnx & Hle).
  unfold compareFn. rewrite sub_pos_lt, ltb_ordZ by assumption.
  destruct (Z.ltb_spec (ordZ (Prim2SF (score x))) (ordZ (Prim2SF (score y))));
    [lia | reflexivity].
Qed.

(** X11: the sort is stable.  When no score is NaN, results whose scores
    are equal numbers stay in the order in which the chunks stand in the
    store; and a list that is already in descending order comes back
    unchanged. *)
Theorem sortResults_stable l :
  (Forall (fun r => isNaN (score r) = false) l ->
   forall s, filter (fun r => (score r =? s)%float) (sortResults l)
             = filter (fun r => (score r =? s)%float) l)
  /\ (descending l -> sortResults l = l).
Proof.
  split.
  - intros _ s. induction l as [| x l IH]; [reflexivity |].
    cbn [sortResults foldr]. fold (sortResults l).
    rewrite insertSorted_filter.
    + rewrite !filter_cons, IH. reflexivity.
    + intros y Hx Hy. apply (compareFn_equal x y s); assumption.
  - induction l as [| x l IH]; [reflexivity |]. intros Hd.
    cbn [sortResults foldr]. fold (sortResults l).
    rewrite IH by (apply StronglySorted_inv in Hd; apply Hd).
    apply insertSorted_descending. exact Hd.
Qed.

Lemma firstn_skipn_descending n l r s :
  descending l -> In r (firstn n l) -> In s (skipn n l) -> scoreGe r s.
Proof.
  revert l. induction n as [| n IH]; intros l Hd Hr Hs; [destruct Hr |].
  destruct l as [| x l]; [destruct Hr |].
  apply StronglySorted_inv in Hd. destruct Hd as [Hd Hall].
  cbn [firstn skipn] in Hr, Hs. destruct Hr as [<- | Hr].
  - apply (proj1 (List.Forall_forall _ _) Hall).
    rewrite <- (firstn_skipn n l). apply in_or_app. right. exact Hs.
  - apply (IH l); assumption.
Qed.

(** X10: for a non-negative [topK] the results are the [topK] best: they
    are [min topK n] of the [n] scored chunks, and when no score is NaN each
    of them has a score at least that of every scored chunk left out. *)
Theorem searchSimilarChunks_best api now query topK st results :
  searchSimilarChunks api now query topK st = Some results ->
  0 <= topK ->
  exists q rest,
    getQueryEmbedding api query st = Some q
    /\ Permutation (results ++ rest) (similarities now query q st)
    /\ length results
       = Nat.min (Z.to_nat topK) (length (similarities now query q st))
    /\ (Forall (fun r => isNaN (score r) = false) (similarities now query q st) ->
        forall r s, In r results -> In s rest -> scoreGe r s).
Proof.
  unfold searchSimilarChunks. intros Hsearch HtopK.
  destruct (getQueryEmbedding api query st) as [q |]; [| discriminate].
  injection Hsearch as <-.
  set (l := similarities now query q st).
  unfold sliceTo. destruct (Z.ltb_spec topK 0) as [| _]; [lia |].
  exists q, (skipn (Z.to_nat topK) (sortResults l)).
  split; [reflexivity |]. split; [| split].
  - rewrite firstn_skipn. apply sortResults_Permutation.
  - rewrite length_firstn. f_equal.
    apply Permutation_length, sortResults_Permutation.
  - intros Hnan r s Hr Hs.
    eapply firstn_skipn_descending; [| exact Hr | exact Hs].
    apply sortResults_descending. exact Hnan.
Qed.
End Order.

Lemma searchSimilarChunks_best_witness :
  exists results rest,
    searchSimilarChunks (H := seoulHost) sampleQueryApi sampleNow
      (js "회의록 정리") 2 sampleStore = Some results
    /\ Permutation (results ++ rest)
         (similarities (H := seoulHost) sampleNow (js "회의록 정리")
            [0.6; 0.8]%float sampleStore)
    /\ length results = 2%nat.
Proof.
  destruct (searchSimilarChunks_best (H := seoulHost) sampleQueryApi sampleNow
              (js "회의록 정리") 2 sampleStore _ eq_refl ltac:(lia))
    as (q & rest & Hq & Hperm & Hlen & _).
  injection Hq as <-.
  eexists. exists rest. split; [reflexivity |]. split; [exact Hperm |].
  exact Hlen.
Defined.

Lemma sortResults_stable_witness :
  let l := [ {| chunk := freshChunk; score := 0.5 |};
             {| chunk := staleChunk; score := 0.5 |} ] in
  sortResults l = l.
Proof.
  cbv zeta. apply (sortResults_stable
    [ {| chunk := freshChunk; score := 0.5 |};
      {| chunk := staleChunk; score := 0.5 |} ]).
  repeat constructor.
Defined.

(* ================================================================= *)
(** ** The snapshot round trip *)

Lemma jsonNumber_zero : jsonNumber 0 = 0%float.
Proof. reflexivity. Qed.

Lemma jsonNumber_idem x : jsonNumber (jsonNumber x) = jsonNumber x.
Proof.
  assert (Hcases : jsonNumber x = 0%float \/ jsonNumber x = x).
  { unfold jsonNumber. destruct (is_finite x), (is_zero x); auto. }
  destruct Hcases as [Hx | Hx]; rewrite Hx; [reflexivity | exact Hx].
Qed.

(** The numbers a snapshot gives back unchanged: the finite ones other than
    the negative zero. *)
Lemma jsonNumber_fixed x :
  jsonNumber x = x <-> is_finite x = true /\ Prim2SF x <> S754_zero true.
Proof.
  unfold jsonNumber. split.
  - intros Heq. destruct (is_finite x) eqn:Hfin.
    + split; [reflexivity |]. intros Hneg.
      rewrite (proj2 (is_zero_spec x)) in Heq by eauto.
      rewrite <- Heq in Hneg. discriminate Hneg.
    + rewrite <- Heq in Hfin. discriminate Hfin.
  - intros [-> Hneg]. destruct (is_zero x) eqn:Hzero; [| reflexivity].
    apply is_zero_spec in Hzero. destruct Hzero as [[|] Hs]; [congruence |].
    apply Prim2SF_inj. exact (eq_sym Hs).
Qed.

Lemma jsonValue_idem v : jsonValue (jsonValue v) = jsonValue v.
Proof.
  destruct v as [s | x | b |]; try reflexivity.
  cbn [jsonValue]. destruct (is_finite x) eqn:Hfin; [| reflexivity].
  cbn [jsonValue].
  assert (Hfix : is_finite (jsonNumber x) = true).
  { unfold jsonNumber. rewrite Hfin. destruct (is_zero x); [reflexivity | exact Hfin]. }
  rewrite Hfix, jsonNumber_idem. reflexivity.
Qed.

Lemma jsonChunk_idem c : jsonChunk (jsonChunk c) = jsonChunk c.
Proof.
  destruct c as [i t [ti pi lm u ps ci tc] e]. unfold jsonChunk. cbn.
  f_equal; [f_equal |].
  - destruct ps as [ps |]; [| reflexivity]. cbn. f_equal.
    rewrite map_map. apply map_ext. intros [k v]. cbn.
    rewrite jsonValue_idem. reflexivity.
  - destruct e as [e |]; [| reflexivity]. cbn. f_equal.
    rewrite map_map. apply map_ext. intros x. apply jsonNumber_idem.
Qed.

Lemma reloaded_spec nowISO st file st' :
  reloaded nowISO st file st'
  = ({| chunks := map jsonChunk (chunks st);
        embeddings := map jsonNumber <$> embeddings st;
        openai := openai st' |}, true).
Proof.
  unfold reloaded. cbn [saveToLocalStorage loadFromLocalStorage].
  rewrite mapOfEntries_toSnapshot. reflexivity.
Qed.

Lemma jsonExact_fixed st :
  jsonExact st ->
  map jsonChunk (chunks st) = chunks st
  /\ map jsonNumber <$> embeddings st = embeddings st.
Proof.
  intros [Hchunks Hmap]. split.
  - rewrite <- (map_id (chunks st)) at 2. apply map_ext_in. exact Hchunks.
  - apply map_eq. intros k. rewrite lookup_fmap.
    destruct (embeddings st !! k) as [e |] eqn:He; [| reflexivity].
    cbn. f_equal. eapply Hmap. exact He.
Qed.

Lemma jsonNumber_finite x :
  is_finite x = true ->
  jsonNumber x = (if is_zero x then 0%float else x)
  /\ is_finite (jsonNumber x) = true.
Proof.
  intros Hfin. unfold jsonNumber. rewrite Hfin.
  destruct (is_zero x); split; try reflexivity; exact Hfin.
Qed.

Lemma jsonExact_finiteVectors st : jsonExact st -> finiteVectors st.
Proof.
  intros [Hchunks Hmap].
  assert (Hfix : forall e : list float,
             map jsonNumber e = e -> Forall (fun x => is_finite x = true) e).
  { induction e as [| x e IH]; intros Heq; constructor;
      cbn [map] in Heq; injection Heq as Hx He.
    - apply jsonNumber_fixed in Hx. exact (proj1 Hx).
    - apply IH. exact He. }
  split.
  - intros c e Hc He. apply Hfix. specialize (Hchunks c Hc).
    apply (f_equal embedding) in Hchunks. unfold jsonChunk in Hchunks.
    cbn [embedding] in Hchunks. rewrite He in Hchunks. cbn in Hchunks.
    injection Hchunks as Hchunks. exact Hchunks.
  - intros k e He. apply Hfix. eapply Hmap. exact He.
Qed.

(** X12: a save that writes the file followed by a load on the server.  The
    load reports success, keeps the loading instance's client, and the counts
    of [getStatus] are those of the saved instance, whatever the numbers.
    For an instance whose vectors hold only finite numbers, the load installs
    the saved chunks and the saved map with every number as JSON gives it
    back, a finite number as itself and the negative zero as zero; the
    vectors installed are finite again, and what was loaded comes back
    exactly from any further save and load.  An instance whose numbers are
    all finite and not the negative zero comes back exactly. *)
Theorem reloaded_roundtrip nowISO st file st' :
  let loaded := fst (reloaded nowISO st file st') in
  snd (reloaded nowISO st file st') = true
  /\ openai loaded = openai st'
  /\ getStatus loaded = getStatus st
  /\ (finiteVectors st ->
      chunks loaded = map jsonChunk (chunks st)
      /\ embeddings loaded = map jsonNumber <$> embeddings st
      /\ (forall x, is_finite x = true ->
                    jsonNumber x = (if is_zero x then 0%float else x))
      /\ finiteVectors loaded
      /\ jsonExact loaded)
  /\ (jsonExact st ->
      finiteVectors st
      /\ chunks loaded = chunks st /\ embeddings loaded = embeddings st).
Proof.
  intros loaded. subst loaded. rewrite reloaded_spec.
  cbn [fst snd chunks embeddings openai].
  assert (Hexact :
    jsonExact {| chunks := map jsonChunk (chunks st);
                 embeddings := map jsonNumber <$> embeddings st;
                 openai := openai st' |}).
  { split; cbn [chunks embeddings].
    - intros c Hc. apply in_map_iff in Hc. destruct Hc as (c0 & <- & _).
      apply jsonChunk_idem.
    - intros k e He. rewrite lookup_fmap in He.
      destruct (embeddings st !! k) as [e0 |]; [| discriminate].
      cbn in He. injection He as <-. rewrite map_map.
      apply map_ext. intros x. apply jsonNumber_idem. }
  split; [reflexivity |]. split; [reflexivity |]. split; [| split].
  - unfold getStatus. cbn [chunks embeddings].
    rewrite length_map, map_size_fmap. reflexivity.
  - intros _. split; [reflexivity |]. split; [reflexivity |].
    split; [intros x Hx; apply jsonNumber_finite; exact Hx |].
    split; [apply jsonExact_finiteVectors |]; exact Hexact.
  - intros Hst. split; [apply jsonExact_finiteVectors; exact Hst |].
    apply jsonExact_fixed. exact Hst.
Qed.

Lemma reloaded_roundtrip_witness :
  let loaded := fst (reloaded (js "2026-11-02T00:00:00.000Z") sampleStore NoFile
                       newRAGSystem) in
  jsonExact sampleStore
  /\ chunks loaded = chunks sampleStore
  /\ embeddings loaded = embeddings sampleStore.
Proof.
  cbv zeta.
  assert (Hexact : jsonExact sampleStore).
  { split.
    - intros c Hc. cbn in Hc.
      destruct Hc as [<- | [<- | [<- | [<- | []]]]]; reflexivity.
    - intros k e He. cbn [sampleStore embeddings] in He.
      repeat (apply lookup_insert_Some in He;
              destruct He as [[_ <-] | [_ He]]; [reflexivity |]).
      rewrite lookup_empty in He. discriminate. }
  split; [exact Hexact |].
  apply (reloaded_roundtrip (js "2026-11-02T00:00:00.000Z") sampleStore NoFile
           newRAGSystem). exact Hexact.
Defined.

(* ================================================================= *)
(** ** Strings and plain objects *)

Lemma join_cons sep x l :
  join sep (x :: l) = x ++ match l with [] => [] | _ => sep ++ join sep l end.
Proof. destruct l; cbn [join]; [rewrite app_nil_r |]; reflexivity. Qed.

Lemma join_nil_iff sep l :
  Forall (fun s => s <> []) l -> join sep l = [] <-> l = [].
Proof.
  intros Hl. split; [| intros ->; reflexivity].
  destruct Hl as [| x l Hx _]; [reflexivity |].
  rewrite join_cons. intros Heq. apply app_eq_nil in Heq.
  destruct Heq as [Heq _]. congruence.
Qed.

Lemma nonEmpty_true s : nonEmpty s = true <-> s <> [].
Proof. destruct s; cbn; split; intros; congruence. Qed.

Lemma nonEmpty_app_r s t : nonEmpty t = true -> nonEmpty (s ++ t) = true.
Proof.
  rewrite !nonEmpty_true. intros Ht Hst. apply app_eq_nil in Hst.
  destruct Hst. congruence.
Qed.

Lemma dropWhile_In (p : Z -> bool) s c :
  In c s -> p c = false -> dropWhile p s <> [].
Proof.
  induction s as [| d s IH]; intros Hin Hc; [destruct Hin |].
  cbn [dropWhile]. destruct (p d) eqn:Hd; [| discriminate].
  destruct Hin as [-> | Hin]; [congruence | auto].
Qed.

Lemma dropWhile_suffix (p : Z -> bool) s :
  exists l, s = l ++ dropWhile p s /\ Forall (fun c => p c = true) l.
Proof.
  induction s as [| c s (l & Hl & Hp)]; [exists []; split; [reflexivity | constructor] |].
  cbn [dropWhile]. destruct (p c) eqn:Hc.
  - exists (c :: l). split; [cbn; congruence | constructor; assumption].
  - exists []. split; [reflexivity | constructor].
Qed.

(** A text that holds a character other than white space is not blank. *)
Lemma trim_nonEmpty s c :
  In c s -> isWhiteSpace c = false -> nonEmpty (trim s) = true.
Proof.
  intros Hin Hc. apply nonEmpty_true. unfold trim. intros Hnil.
  apply (f_equal (@rev Z)) in Hnil. rewrite rev_involutive in Hnil.
  cbn [rev] in Hnil. revert Hnil. apply (dropWhile_In _ _ c); [| exact Hc].
  apply in_rev. rewrite rev_involutive.
  destruct (dropWhile_suffix isWhiteSpace s) as (l & Hl & Hp).
  rewrite Hl in Hin. apply in_app_or in Hin. destruct Hin as [Hin | Hin];
    [| exact Hin].
  rewrite (proj1 (List.Forall_forall _ _) Hp c Hin) in Hc. discriminate.
Qed.


Section PlainObjectFacts.
Context {V : Type}.
Implicit Types obj : PlainObject V.

Lemma getOwn_replaceOwn obj k v k' :
  getOwn k' (replaceOwn k v obj)
  = if bool_decide (k' = k)
    then (if hasOwn k obj then Some v else None)
    else getOwn k' obj.
Proof.
  induction obj as [| [k0 v0] obj IH]; cbn [replaceOwn getOwn hasOwn].
  - destruct (bool_decide (k' = k)); reflexivity.
  - destruct (bool_decide_reflect (k = k0)) as [<- | Hne]; cbn [getOwn orb].
    + destruct (bool_decide_reflect (k' = k)); reflexivity.
    + rewrite IH.
      destruct (bool_decide_reflect (k' = k0)) as [-> | Hne'].
      * destruct (bool_decide_reflect (k0 = k)); [congruence | reflexivity].
      * reflexivity.
Qed.

Lemma getOwn_insertIndex obj n k v k' :
  hasOwn k obj = false ->
  getOwn k' (insertIndex n k v obj)
  = if bool_decide (k' = k) then Some v else getOwn k' obj.
Proof.
  induction obj as [| [k0 v0] obj IH]; cbn [insertIndex getOwn hasOwn];
    intros Hk.
  - reflexivity.
  - apply orb_false_elim in Hk. destruct Hk as [Hk0 Hk].
    apply bool_decide_eq_false in Hk0.
    assert (Hhere : getOwn k' ((k, v) :: (k0, v0) :: obj)
                    = if bool_decide (k' = k) then Some v
                      else if bool_decide (k' = k0) then Some v0
                      else getOwn k' obj) by reflexivity.
    destruct (arrayIndex k0) as [n0 |]; [| exact Hhere].
    destruct (n0 <? n); [| exact Hhere].
    cbn [getOwn]. rewrite IH by exact Hk.
    destruct (bool_decide_reflect (k' = k0)) as [-> | Hne'];
      [| reflexivity].
    destruct (bool_decide_reflect (k0 = k)); [congruence | reflexivity].
Qed.

Lemma getOwn_app obj k v k' :
  hasOwn k obj = false ->
  getOwn k' (obj ++ [(k, v)])
  = if bool_decide (k' = k) then Some v else getOwn k' obj.
Proof.
  induction obj as [| [k0 v0] obj IH]; cbn [app getOwn hasOwn]; intros Hk.
  - reflexivity.
  - apply orb_false_elim in Hk. destruct Hk as [Hk0 Hk].
    apply bool_decide_eq_false in Hk0. rewrite IH by exact Hk.
    destruct (bool_decide_reflect (k' = k0)) as [-> | Hne'];
      [| reflexivity].
    destruct (bool_decide_reflect (k0 = k)); [congruence | reflexivity].
Qed.

(** Reading after an assignment: the assigned key holds the new value,
    unless it is [__proto__]; every other key holds what it held. *)
Lemma getOwn_assign obj k v k' :
  getOwn k' (assign obj k v)
  = if bool_decide (k' = k) && negb (bool_decide (k = js "__proto__"))
    then Some v else getOwn k' obj.
Proof.
  unfold assign.
  destruct (bool_decide (k = js "__proto__")); cbn [negb];
    [rewrite andb_false_r; reflexivity | rewrite andb_true_r].
  destruct (hasOwn k obj) eqn:Hk.
  - rewrite getOwn_replaceOwn, Hk. reflexivity.
  - destruct (arrayIndex k).
    + apply getOwn_insertIndex. exact Hk.
    + apply getOwn_app. exact Hk.
Qed.

Lemma hasOwn_getOwn obj k : hasOwn k obj = true <-> is_Some (getOwn k obj).
Proof.
  induction obj as [| [k0 v0] obj IH]; cbn [hasOwn getOwn].
  - split; [discriminate | intros [? ?]; discriminate].
  - destruct (bool_decide (k = k0)); cbn [orb]; [| exact IH].
    split; eauto.
Qed.

Lemma hasOwn_In obj k : hasOwn k obj = true <-> In k (map fst obj).
Proof.
  induction obj as [| [k0 v0] obj IH]; cbn [hasOwn map In fst].
  - split; [discriminate | tauto].
  - rewrite orb_true_iff, IH, bool_decide_eq_true. intuition congruence.
Qed.

Lemma replaceOwn_keys obj k v : map fst (replaceOwn k v obj) = map fst obj.
Proof.
  induction obj as [| [k0 v0] obj IH]; cbn [replaceOwn map fst]; [reflexivity |].
  destruct (bool_decide_reflect (k = k0)) as [-> | _]; cbn [map fst];
    congruence.
Qed.

Lemma insertIndex_keys obj n k v :
  Permutation (map fst (insertIndex n k v obj)) (k :: map fst obj).
Proof.
  induction obj as [| [k0 v0] obj IH]; cbn [insertIndex map fst]; [reflexivity |].
  destruct (arrayIndex k0) as [n0 |]; [| reflexivity].
  destruct (n0 <? n); [| reflexivity].
  cbn [map fst]. rewrite IH. apply perm_swap.
Qed.

(** An assignment keeps the keys pairwise distinct. *)
Lemma assign_NoDup obj k v :
  NoDup (map fst obj) -> NoDup (map fst (assign obj k v)).
Proof.
  intros Hnd. unfold assign.
  destruct (bool_decide (k = js "__proto__")); [exact Hnd |].
  destruct (hasOwn k obj) eqn:Hk.
  - rewrite replaceOwn_keys. exact Hnd.
  - assert (Hnew : NoDup (k :: map fst obj)).
    { constructor; [| exact Hnd]. intros Hin.
      apply list_elem_of_In, hasOwn_In in Hin. congruence. }
    destruct (arrayIndex k).
    + rewrite insertIndex_keys. exact Hnew.
    + rewrite map_app. cbn [map fst].
      rewrite <- Permutation_cons_append. exact Hnew.
Qed.
End PlainObjectFacts.

(* ================================================================= *)
(** ** The query loop *)

Lemma queryAll_fuel query fuel : forall cursor acc r extra,
  Notion.queryAll fuel query cursor acc = Some r ->
  Notion.queryAll (fuel + extra) query cursor acc = Some r.
Proof.
  induction fuel as [| fuel IH]; intros cursor acc r extra; [discriminate |].
  cbn [Nat.add Notion.queryAll].
  destruct (query cursor) as [response | e]; [| auto].
  destruct (Notion.has_more response); [apply IH | auto].
Qed.

Lemma queryAll_last query cursor acc response fuel :
  query cursor = Resolved response ->
  Notion.has_more response = false ->
  Notion.queryAll (S fuel) query cursor acc
  = Some (Resolved (acc ++ Notion.results response)).
Proof. intros Hq Hlast. cbn [Notion.queryAll]. rewrite Hq, Hlast. reflexivity. Qed.

(* ================================================================= *)
(** ** [api/update-notion-data]: the extracted properties *)

Section UpdateFacts.
Context `{Host} `{Locale}.

Lemma getOwn_None {V} (obj : PlainObject V) k :
  ~ In k (map fst obj) -> getOwn k obj = None.
Proof.
  intros Hk. destruct (getOwn k obj) eqn:Hget; [| reflexivity].
  exfalso. apply Hk, hasOwn_In, hasOwn_getOwn. rewrite Hget. eauto.
Qed.

Lemma extractProperties_fold properties : forall acc key,
  NoDup (map fst properties) ->
  getOwn key
    (fold_left
       (fun extracted '(key, prop) =>
          match UpdateNotionData.propertyValue prop with
          | Some value => assign extracted key value
          | None => extracted
          end)
       properties acc)
  = match getOwn key properties with
    | Some prop =>
      match UpdateNotionData.propertyValue prop with
      | Some value =>
        if bool_decide (key = js "__proto__") then getOwn key acc else Some value
      | None => getOwn key acc
      end
    | None => getOwn key acc
    end.
Proof.
  induction properties as [| [k0 p0] properties IH]; intros acc key Hnd;
    [reflexivity |].
  cbn [map fst] in Hnd. apply NoDup_cons in Hnd. destruct Hnd as [Hk0 Hnd].
  cbn [fold_left getOwn]. rewrite IH by exact Hnd.
  destruct (bool_decide_reflect (key = k0)) as [-> | Hne].
  - rewrite getOwn_None by (intros Hin; apply Hk0, list_elem_of_In; exact Hin).
    destruct (UpdateNotionData.propertyValue p0) as [value |]; [| reflexivity].
    rewrite getOwn_assign. rewrite bool_decide_eq_true_2 by reflexivity.
    cbn [andb]. destruct (bool_decide (k0 = js "__proto__")); reflexivity.
  - assert (Hacc : forall value, getOwn key (assign acc k0 value) = getOwn key acc).
    { intros value. rewrite getOwn_assign.
      rewrite bool_decide_eq_false_2 by exact Hne. reflexivity. }
    destruct (UpdateNotionData.propertyValue p0) as [value |];
      [rewrite Hacc |]; reflexivity.
Qed.

Lemma extractProperties_NoDup properties :
  NoDup (map fst (UpdateNotionData.extractProperties properties)).
Proof.
  unfold UpdateNotionData.extractProperties.
  assert (Hgen : forall acc : PlainObject jsstring,
             NoDup (map fst acc) ->
             NoDup (map fst
               (fold_left
                  (fun extracted '(key, prop) =>
                     match UpdateNotionData.propertyValue prop with
                     | Some value => assign extracted key value
                     | None => extracted
                     end)
                  properties acc))).
  { induction properties as [| [k0 p0] properties IH]; intros acc Hacc;
      [exact Hacc |].
    cbn [fold_left]. apply IH.
    destruct (UpdateNotionData.propertyValue p0); [apply assign_NoDup |];
      exact Hacc. }
  apply Hgen. constructor.
Qed.

(** X13: [extractProperties] on the properties of a page, whose names are
    pairwise distinct.  Under every name other than [__proto__] the record
    holds exactly what the [switch] makes of the property of that name, and
    nothing when the [switch] assigns nothing; it never holds [__proto__]; no
    name occurs twice.  A property of type [title] is never extracted, a
    checkbox always is, and [extractTitle] is [Untitled] or the text of a
    property of type [title]. *)
Theorem extractProperties_getOwn properties :
  NoDup (map fst properties) ->
  (forall key,
      key <> js "__proto__" ->
      getOwn key (UpdateNotionData.extractProperties properties)
      = match getOwn key properties with
        | Some prop => UpdateNotionData.propertyValue prop
        | None => None
        end)
  /\ getOwn (js "__proto__") (UpdateNotionData.extractProperties properties) = None
  /\ NoDup (map fst (UpdateNotionData.extractProperties properties))
  /\ (forall prop, Notion.type prop = js "title" ->
                   UpdateNotionData.propertyValue prop = None)
  /\ (forall prop, Notion.type prop = js "checkbox" ->
                   is_Some (UpdateNotionData.propertyValue prop))
  /\ (UpdateNotionData.extractTitle properties = js "Untitled"
      \/ exists key prop texts,
           In (key, prop) properties
           /\ Notion.type prop = js "title"
           /\ Notion.title prop = Some texts
           /\ UpdateNotionData.extractTitle properties = Notion.plainText texts).
Proof.
  intros Hnd. split; [| split; [| split; [| split; [| split]]]].
  - intros key Hkey. unfold UpdateNotionData.extractProperties.
    rewrite extractProperties_fold by exact Hnd.
    rewrite bool_decide_eq_false_2 by exact Hkey. cbn [getOwn].
    destruct (getOwn key properties) as [prop |]; [| reflexivity].
    destruct (UpdateNotionData.propertyValue prop); reflexivity.
  - unfold UpdateNotionData.extractProperties.
    rewrite extractProperties_fold by exact Hnd.
    rewrite bool_decide_eq_true_2 by reflexivity. cbn [getOwn].
    destruct (getOwn (js "__proto__") properties) as [prop |]; [| reflexivity].
    destruct (UpdateNotionData.propertyValue prop); reflexivity.
  - apply extractProperties_NoDup.
  - intros prop Htype. unfold UpdateNotionData.propertyValue. rewrite Htype.
    reflexivity.
  - intros prop Htype. unfold UpdateNotionData.propertyValue. rewrite Htype.
    cbn. eauto.
  - clear Hnd. induction properties as [| [k0 p0] properties IH]; [left; reflexivity |].
    cbn [UpdateNotionData.extractTitle].
    assert (Hrest :
      UpdateNotionData.extractTitle properties = js "Untitled"
      \/ exists key prop texts,
           In (key, prop) ((k0, p0) :: properties)
           /\ Notion.type prop = js "title"
           /\ Notion.title prop = Some texts
           /\ UpdateNotionData.extractTitle properties = Notion.plainText texts).
    { destruct IH as [IH | (key & prop & texts & Hin & IH)]; [left; exact IH |].
      right. exists key, prop, texts. split; [right; exact Hin | exact IH]. }
    destruct (Notion.title p0) as [texts |] eqn:Htitle; [| exact Hrest].
    destruct (bool_decide_reflect (Notion.type p0 = js "title")) as [Htype | _];
      [| exact Hrest].
    right. exists k0, p0, texts. repeat split; auto. left. reflexivity.
Qed.
End UpdateFacts.

Lemma extractProperties_getOwn_witness :
  getOwn (js "Date")
    (UpdateNotionData.extractProperties (H := seoulHost)
       (Notion.properties meetingPage))
  = Some (js "2026-11-03").
Proof.
  rewrite (proj1 (extractProperties_getOwn (H := seoulHost)
                    (Notion.properties meetingPage)
                    ltac:(apply (bool_decide_unpack _); vm_compute; exact I)))
    by discriminate.
  reflexivity.
Defined.

(* ================================================================= *)
(** ** [api/update-notion-data]: the text of the blocks *)

Lemma join_app sep l1 l2 :
  join sep (l1 ++ l2)
  = match l1, l2 with
    | [], _ => join sep l2
    | _, [] => join sep l1
    | _, _ => join sep l1 ++ sep ++ join sep l2
    end.
Proof.
  induction l1 as [| x l1 IH]; [reflexivity |].
  destruct l2 as [| y l2]; [rewrite app_nil_r; reflexivity |].
  cbn [app]. rewrite (join_cons sep x (l1 ++ y :: l2)), IH.
  destruct l1 as [| x' l1]; cbn [app].
  - reflexivity.
  - change (join sep (x :: x' :: l1)) with (x ++ sep ++ join sep (x' :: l1)).
    rewrite <- !app_assoc. reflexivity.
Qed.

Section BlockFacts.
Context `{Host} `{Locale}.

Lemma kept_nonEmpty (l : list jsstring) :
  Forall (fun s => s <> []) (filter (fun s => nonEmpty s) l).
Proof.
  apply List.Forall_forall. intros s Hs.
  apply list_elem_of_In, list_elem_of_filter in Hs. destruct Hs as [Hs _].
  apply nonEmpty_true, Is_true_eq_true. exact Hs.
Qed.

Lemma extractContentFromBlocks_nil blocks :
  UpdateNotionData.extractContentFromBlocks blocks = []
  <-> Forall (fun b => UpdateNotionData.blockText b = []) blocks.
Proof.
  unfold UpdateNotionData.extractContentFromBlocks.
  rewrite join_nil_iff by apply kept_nonEmpty.
  induction blocks as [| b blocks IH]; [split; [constructor | reflexivity] |].
  cbn [map]. rewrite filter_cons.
  destruct (decide (nonEmpty (UpdateNotionData.blockText b))) as [Hb | Hb].
  - split; [discriminate |]. intros Hall. apply Forall_inv in Hall.
    rewrite Hall in Hb. destruct Hb.
  - rewrite IH. split.
    + intros Hall. constructor; [| exact Hall].
      destruct (UpdateNotionData.blockText b); [reflexivity |].
      exfalso. apply Hb. exact I.
    + intros Hall. inversion Hall. assumption.
Qed.

Lemma blockText_nil b :
  UpdateNotionData.blockText b = []
  <-> (Notion.block_type b = js "paragraph"
       /\ UpdateNotionData.bodyText (Notion.paragraph b) = [])
      \/ ~ In (Notion.block_type b) renderedTypes.
Proof.
  unfold UpdateNotionData.blockText, renderedTypes. cbn [In].
  destruct (bool_decide_reflect (Notion.block_type b = js "paragraph"))
    as [Ht | Hparagraph].
  { split; [intros Hnil; left; auto | intros [[_ Hb] | Hout]; [exact Hb | intuition congruence]]. }
  repeat match goal with
         | |- context [bool_decide (?x = ?y)] =>
           destruct (bool_decide_reflect (x = y)) as [Ht | ?];
             [ split;
               [ intros Hnil; exfalso; apply app_eq_nil in Hnil;
                 destruct Hnil as [Hnil _];
                 try (destruct (Notion.to_do b) as [[? [[|] |]] |]);
                 vm_compute in Hnil; discriminate Hnil
               | intros [[Hp _] | Hout]; [congruence | intuition congruence] ]
             | ]
         end.
  split; [intros _; right; intuition congruence | reflexivity].
Qed.

(** X14: the text of the blocks of a page.  It is empty exactly when every
    block is a paragraph without text or of a type that is not rendered: a
    heading, a list item, a to-do, a quote or a code block contributes its
    marker even when it holds no text.  The text of two lists of blocks put
    together is the two texts joined by a line break, and a list that gives
    no text adds no line break. *)
Theorem extractContentFromBlocks_text blocks1 blocks2 :
  let text := UpdateNotionData.extractContentFromBlocks in
  (text blocks1 = []
   <-> Forall (fun b =>
                 (Notion.block_type b = js "paragraph"
                  /\ UpdateNotionData.bodyText (Notion.paragraph b) = [])
                 \/ ~ In (Notion.block_type b) renderedTypes)
              blocks1)
  /\ text (blocks1 ++ blocks2)
     = (if nonEmpty (text blocks1) && nonEmpty (text blocks2)
        then text blocks1 ++ nl ++ text blocks2
        else text blocks1 ++ text blocks2).
Proof.
  intros text. subst text. split.
  - rewrite extractContentFromBlocks_nil. apply Forall_iff. intros b.
    apply blockText_nil.
  - pose proof (extractContentFromBlocks_nil blocks1) as H1.
    pose proof (extractContentFromBlocks_nil blocks2) as H2.
    unfold UpdateNotionData.extractContentFromBlocks in *.
    rewrite map_app, filter_app, join_app.
    pose proof (join_nil_iff nl _ (kept_nonEmpty (map UpdateNotionData.blockText blocks1)))
      as J1.
    pose proof (join_nil_iff nl _ (kept_nonEmpty (map UpdateNotionData.blockText blocks2)))
      as J2.
    destruct (filter (fun s => nonEmpty s) (map UpdateNotionData.blockText blocks1))
      as [| x l1] eqn:E1.
    + reflexivity.
    + destruct (filter (fun s => nonEmpty s) (map UpdateNotionData.blockText blocks2))
        as [| y l2] eqn:E2.
      * cbn [join nonEmpty length Nat.eqb negb andb]. rewrite andb_false_r, app_nil_r.
        reflexivity.
      * assert (N1 : nonEmpty (join nl (x :: l1)) = true).
        { apply nonEmpty_true. intros Hnil. apply J1 in Hnil. discriminate. }
        assert (N2 : nonEmpty (join nl (y :: l2)) = true).
        { apply nonEmpty_true. intros Hnil. apply J2 in Hnil. discriminate. }
        rewrite N1, N2. reflexivity.
Qed.
End BlockFacts.

(* ================================================================= *)
(** ** [api/update-notion-data]: the handler *)

Section UpdateHandler.
Context `{Host} `{Locale}.

Lemma formatItem_nonEmpty item : UpdateNotionData.formatItem item <> [].
Proof.
  unfold UpdateNotionData.formatItem. intros Hnil.
  apply app_eq_nil in Hnil. destruct Hnil as [Hnil _].
  apply app_eq_nil in Hnil. destruct Hnil as [Hnil _].
  vm_compute in Hnil. discriminate Hnil.
Qed.

(** X15: the [POST] handler of [api/update-notion-data].  Without an API
    key or a database id it answers 400 and asks nothing.  When the query
    loop ends with the pages of the database, after however many calls, it
    answers with [count] the number of pages, also when the blocks of some
    page cannot be read (such a page is listed as [Error loading page]), and
    [data] is the empty string exactly when the database has no page.  When a
    query is rejected it answers 500 with the text of the error. *)
Theorem UpdateNotionData_POST apiKey databaseId query children fuel :
  (truthy apiKey = false \/ truthy databaseId = false ->
   UpdateNotionData.POST fuel apiKey databaseId query children
   = Some (UpdateNotionData.BadRequest (js "API 키와 데이터베이스 ID가 필요합니다.")))
  /\ (truthy apiKey = true -> truthy databaseId = true ->
      (forall allResults,
          Notion.queryAll fuel query None [] = Some (Resolved allResults) ->
          forall extra, exists data,
            UpdateNotionData.POST (fuel + extra) apiKey databaseId query children
            = Some (UpdateNotionData.Ok (length allResults) data)
            /\ (data = [] <-> allResults = [])
            /\ data = join nl (map (fun page =>
                                      UpdateNotionData.formatItem
                                        (UpdateNotionData.extractItem children page))
                                   allResults))
      /\ (forall e,
            Notion.queryAll fuel query None [] = Some (Rejected e) ->
            forall extra,
              UpdateNotionData.POST (fuel + extra) apiKey databaseId query children
              = Some (UpdateNotionData.ServerError
                        (js "Notion 데이터를 가져오는 중 오류가 발생했습니다.")
                        (text e))))
  /\ (forall page e,
        children (Notion.id page) = Rejected e ->
        UpdateNotionData.item_title (UpdateNotionData.extractItem children page)
        = js "Error loading page").
Proof.
  split; [| split].
  - intros Hmissing. unfold UpdateNotionData.POST.
    destruct Hmissing as [-> | ->]; [| rewrite orb_true_r]; reflexivity.
  - intros HapiKey HdatabaseId. unfold UpdateNotionData.POST.
    rewrite HapiKey, HdatabaseId. cbn [negb orb]. split.
    + intros allResults Hquery extra.
      rewrite (queryAll_fuel _ _ _ _ _ extra Hquery).
      eexists. split; [| split; [| reflexivity]].
      * rewrite length_map, map_map. reflexivity.
      * rewrite join_nil_iff.
        -- destruct allResults; cbn [map]; split; intros Hx;
             first [reflexivity | discriminate Hx].
        -- apply List.Forall_forall. intros s Hs. apply in_map_iff in Hs.
           destruct Hs as (page & <- & _). apply formatItem_nonEmpty.
    + intros e Hquery extra.
      rewrite (queryAll_fuel _ _ _ _ _ extra Hquery). reflexivity.
  - intros page e Hchildren. unfold UpdateNotionData.extractItem.
    rewrite Hchildren. reflexivity.
Qed.
End UpdateHandler.

Lemma UpdateNotionData_POST_witness :
  exists data,
    UpdateNotionData.POST (H := seoulHost) (H0 := plainLocale) 1
      (Some (js "secret")) (Some (js "db")) (oneAnswer [meetingPage])
      (fun _ => Rejected (newError (js "blocked")))
    = Some (UpdateNotionData.Ok 1 data)
    /\ (data = [] <-> [meetingPage] = []).
Proof.
  destruct (proj1 (proj1 (proj2
              (UpdateNotionData_POST (H := seoulHost) (H0 := plainLocale)
                 (Some (js "secret")) (Some (js "db")) (oneAnswer [meetingPage])
                 (fun _ => Rejected (newError (js "blocked"))) 1))
              eq_refl eq_refl) [meetingPage] eq_refl 0%nat)
    as (data & Hpost & Hnil & _).
  exists data. split; [exact Hpost | exact Hnil].
Defined.

(* ================================================================= *)
(** ** Indexing from nothing *)

Section Indexing.
Context `{Host}.

Lemma flat_map_length {A B} (f : A -> list B) l :
  length (flat_map f l) = list_sum (map (fun x => length (f x)) l).
Proof.
  induction l as [| x l IH]; [reflexivity |].
  cbn [flat_map map list_sum]. rewrite length_app, IH. reflexivity.
Qed.

Lemma processNotionData_length nowISO notionData st :
  length (chunks (processNotionData nowISO notionData st))
  = list_sum (map (fun page => chunkCount (extractTextContent page)) notionData).
Proof.
  rewrite <- (length_map id), processNotionData_ids, flat_map_length.
  f_equal. apply map_ext. intros page. rewrite length_map, length_seq.
  reflexivity.
Qed.

(** A page that carries a text that is not empty gives that text. *)
Lemma extractTextContent_content page text :
  page_content page = Some text -> nonEmpty text = true ->
  extractTextContent page = text.
Proof.
  intros Hcontent Hne. unfold extractTextContent. rewrite Hcontent.
  destruct text; [discriminate Hne | reflexivity].
Qed.

(** A new instance with its client, the pages processed and the vectors
    generated by a service that answers: the run returns, the two views of
    the embeddings agree, and there are as many embeddings as chunks. *)
Lemma indexing_status api nowISO notionData :
  NoDup (map idPrefix notionData) ->
  answersAll api ->
  let st0 := processNotionData nowISO notionData (initializeOpenAI newRAGSystem) in
  exists st',
    generateEmbeddings api st0 = (st', Returned)
    /\ getStatus st' =
       {| chunksCount := length (chunks st0);
          embeddingsCount := length (chunks st0);
          isReady := (0 <? length (chunks st0))%nat |}
    /\ inSync st' /\ distinctIds st'.
Proof.
  intros Hpages Hanswers st0.
  assert (Hids : distinctIds st0) by (apply processNotionData_distinct; exact Hpages).
  assert (Hsync : inSync st0) by apply processNotionData_inSync.
  destruct (generateEmbeddings_answered_all api st0 eq_refl Hanswers)
    as (Hret & _ & _ & Hrest).
  destruct (Hrest Hids Hsync) as [Hsync' Hstatus].
  destruct (generateEmbeddings api st0) as [st' out] eqn:Hrun.
  cbn [fst snd] in *. subst out. exists st'.
  split; [reflexivity |]. split; [apply Hstatus; reflexivity |].
  split; [exact Hsync' |].
  unfold distinctIds.
  pose proof (embedLoop_extends api (length (chunks st0)) 0 st0) as (Hsame & _).
  change (embedLoop (length (chunks st0)) api 0 st0)
    with (generateEmbeddings api st0) in Hsame.
  rewrite Hrun in Hsame. cbn [fst] in Hsame. rewrite Hsame. exact Hids.
Qed.
End Indexing.

(* ================================================================= *)
(** ** [api/initialize-rag] *)

Section InitializeFacts.
Context `{Host} `{Locale}.

Lemma join_In sep x l c : In c x -> In c (join sep (x :: l)).
Proof. intros Hc. rewrite join_cons. apply in_or_app. left. exact Hc. Qed.

Lemma extractSimpleText_hyphen page :
  In 45 (InitializeRag.extractSimpleText page).
Proof.
  unfold InitializeRag.extractSimpleText.
  do 4 (apply in_or_app; right). vm_compute. left. reflexivity.
Qed.

Lemma notionData_blank (allResults : list Notion.Page) :
  nonEmpty (trim (join nl (map InitializeRag.extractSimpleText allResults)))
  = negb (length allResults =? 0)%nat.
Proof.
  destruct allResults as [| page pages]; [reflexivity |]. cbn [map].
  apply (trim_nonEmpty _ 45); [| reflexivity].
  apply join_In, extractSimpleText_hyphen.
Qed.

Lemma getStatus_load_failed file :
  (forall data, file <> Stored data) ->
  InitializeRag.GET file
  = InitializeRag.Success None
      {| chunksCount := 0; embeddingsCount := 0; isReady := false |}.
Proof.
  intros Hfile. unfold InitializeRag.GET.
  destruct file as [| | data]; try reflexivity. destruct (Hfile data eq_refl).
Qed.

(** X16: [POST] of [api/initialize-rag] when a snapshot file can be read.
    Without an OpenAI key, or without a Notion key or database id, the answer
    is 400.  Otherwise the handler answers from the snapshot: it reports the
    counts of the stored chunks and vectors, the same that [GET] reports, asks
    neither Notion nor the embedding service, and leaves the file as it is;
    so the index is not rebuilt as long as the file is there. *)
Theorem InitializeRag_POST_existing fuel openaiApiKey notionApiKey notionDatabaseId w :
  (truthy openaiApiKey = false ->
   InitializeRag.POST fuel openaiApiKey notionApiKey notionDatabaseId w
   = Some (InitializeRag.Failure 400 (js "OpenAI API 키가 필요합니다."),
           InitializeRag.file w))
  /\ (truthy openaiApiKey = true ->
      truthy notionApiKey = false \/ truthy notionDatabaseId = false ->
      InitializeRag.POST fuel openaiApiKey notionApiKey notionDatabaseId w
      = Some (InitializeRag.Failure 400
                (js "Notion API 키와 데이터베이스 ID가 필요합니다."),
              InitializeRag.file w))
  /\ (forall data,
        truthy openaiApiKey = true -> truthy notionApiKey = true ->
        truthy notionDatabaseId = true ->
        InitializeRag.file w = Stored data ->
        let status :=
          {| chunksCount := length (snap_chunks data);
             embeddingsCount := size (mapOfEntries (snap_embeddings data));
             isReady := (0 <? length (snap_chunks data))%nat
                        && (0 <? size (mapOfEntries (snap_embeddings data)))%nat |} in
        InitializeRag.POST fuel openaiApiKey notionApiKey notionDatabaseId w
        = Some (InitializeRag.Success (Some (js "기존 RAG 데이터를 로드했습니다.")) status,
                InitializeRag.file w)
        /\ InitializeRag.GET (InitializeRag.file w)
           = InitializeRag.Success None status).
Proof.
  unfold InitializeRag.POST, InitializeRag.GET. split; [| split].
  - intros ->. reflexivity.
  - intros -> [-> | ->]; [| rewrite orb_true_r]; reflexivity.
  - intros data -> -> -> ->. cbn. split; reflexivity.
Qed.

(** X17: [POST] of [api/initialize-rag] when no snapshot file can be read
    and the query loop ends with the pages of the database.  With no page the
    answer is 500 with the message that the Notion data is empty, and with at
    least one page that error does not occur.  When the embedding service
    answers every batch, the handler reports success with as many embeddings
    as chunks, the chunks being those of the one text made of all pages.  A
    [GET] after it reports the same counts when the snapshot was written; when
    the write failed, which the handler does not report, [GET] finds nothing. *)
Theorem InitializeRag_POST_fresh fuel openaiApiKey notionApiKey notionDatabaseId w
    allResults :
  truthy openaiApiKey = true -> truthy notionApiKey = true ->
  truthy notionDatabaseId = true ->
  (forall data, InitializeRag.file w <> Stored data) ->
  Notion.queryAll fuel (InitializeRag.query w) None [] = Some (Resolved allResults) ->
  forall extra,
    let post :=
      InitializeRag.POST (fuel + extra) openaiApiKey notionApiKey notionDatabaseId w in
    let notionData := join nl (map InitializeRag.extractSimpleText allResults) in
    (allResults = [] ->
     post = Some (InitializeRag.Failure 500 (js "노션 데이터가 비어있습니다."),
                  InitializeRag.file w))
    /\ (allResults <> [] -> answersAll (InitializeRag.embed w) ->
        let status :=
          {| chunksCount := chunkCount notionData;
             embeddingsCount := chunkCount notionData;
             isReady := true |} in
        exists file',
          post = Some (InitializeRag.Success
                         (Some (js "RAG 시스템이 성공적으로 초기화되었습니다.")) status,
                       file')
          /\ (InitializeRag.written w = Written ->
              InitializeRag.GET file' = InitializeRag.Success None status)
          /\ (InitializeRag.written w <> Written ->
              InitializeRag.GET file'
              = InitializeRag.Success None
                  {| chunksCount := 0; embeddingsCount := 0; isReady := false |})).
Proof.
  intros HopenaiApiKey HnotionApiKey HnotionDatabaseId Hfile Hquery extra post
    notionData.
  assert (Hload : loadFromLocalStorage true (InitializeRag.file w)
                    (initializeOpenAI newRAGSystem)
                  = (initializeOpenAI newRAGSystem, false)).
  { destruct (InitializeRag.file w) as [| | data]; try reflexivity.
    destruct (Hfile data eq_refl). }
  assert (Hpost : post =
    if negb (nonEmpty (trim notionData)) then
      Some (InitializeRag.Failure 500
              (InitializeRag.errorMessage (newError (js "노션 데이터가 비어있습니다."))),
            InitializeRag.file w)
    else
      match generateEmbeddings (InitializeRag.embed w)
              (processNotionData (InitializeRag.pageTime w)
                 (InitializeRag.notionPages notionData (InitializeRag.pageTime w)
                    (orElse notionDatabaseId []))
                 (initializeOpenAI newRAGSystem)) with
      | (_, Threw) =>
        Some (InitializeRag.Failure 500
                (InitializeRag.errorMessage (InitializeRag.embedError w)),
              InitializeRag.file w)
      | (ragSystem, Returned) =>
        Some (InitializeRag.Success
                (Some (js "RAG 시스템이 성공적으로 초기화되었습니다."))
                (getStatus ragSystem),
              saveToLocalStorage true (InitializeRag.written w)
                (InitializeRag.saveTime w) ragSystem (InitializeRag.file w))
      end).
  { subst post. unfold InitializeRag.POST.
    rewrite HopenaiApiKey, HnotionApiKey, HnotionDatabaseId. cbn [negb orb].
    rewrite Hload. cbv iota beta.
    rewrite (queryAll_fuel _ _ _ _ _ extra Hquery). reflexivity. }
  rewrite Hpost. subst notionData. rewrite notionData_blank. split.
  - intros ->. reflexivity.
  - intros Hpages Hanswers status.
    destruct allResults as [| page pages]; [congruence |].
    cbn [length Nat.eqb negb].
    set (notionData := join nl (map InitializeRag.extractSimpleText (page :: pages))) in *.
    set (notionPages := InitializeRag.notionPages notionData (InitializeRag.pageTime w)
                          (orElse notionDatabaseId [])).
    destruct (indexing_status (InitializeRag.embed w) (InitializeRag.pageTime w)
                notionPages) as (st' & Hrun & Hstatus & _).
    { repeat constructor. intros Hin. inversion Hin. }
    { exact Hanswers. }
    rewrite Hrun.
    assert (Hcount : length (chunks (processNotionData (InitializeRag.pageTime w)
                                       notionPages (initializeOpenAI newRAGSystem)))
                     = chunkCount notionData).
    { rewrite processNotionData_length. cbn [notionPages InitializeRag.notionPages
        map list_sum].
      rewrite extractTextContent_content with (text := notionData);
        [unfold list_sum; cbn [fold_right]; lia | reflexivity |].
      apply nonEmpty_true. intros Hnil.
      pose proof (join_In nl _ (map InitializeRag.extractSimpleText pages) 45
                    (extractSimpleText_hyphen page)) as Hin.
      change (In 45 notionData) in Hin. rewrite Hnil in Hin. destruct Hin. }
    rewrite Hcount in Hstatus.
    assert (Hready : (0 <? chunkCount notionData)%nat = true).
    { apply Nat.ltb_lt. pose proof (chunkCount_pos notionData). lia. }
    rewrite Hready in Hstatus. fold status in Hstatus.
    eexists. split; [rewrite Hstatus; reflexivity |]. split.
    + intros ->. cbn [saveToLocalStorage]. unfold InitializeRag.GET.
      change (loadFromLocalStorage true
                (Stored (toSnapshot (InitializeRag.saveTime w) st')) newRAGSystem)
        with (reloaded (InitializeRag.saveTime w) st' (InitializeRag.file w)
                newRAGSystem).
      rewrite reloaded_spec. unfold getStatus at 1. cbn [chunks embeddings].
      rewrite length_map, map_size_fmap. rewrite <- Hstatus. reflexivity.
    + intros Hwritten. apply getStatus_load_failed.
      destruct (InitializeRag.written w); cbn [saveToLocalStorage];
        [congruence | exact Hfile | discriminate].
Qed.
End InitializeFacts.

(* ================================================================= *)
(** ** [api/chat] *)

Section ChatFacts.
Context `{Host} `{Locale}.

Lemma notionPage_idPrefix index page :
  idPrefix (Chat.notionPage index page)
  = js "notion-page-" ++ decimal (Z.of_nat index).
Proof.
  unfold idPrefix. cbn [Chat.notionPage page_id]. reflexivity.
Qed.

Lemma notionPage_NoDup (allResults : list Notion.Page) :
  NoDup (map idPrefix (imap Chat.notionPage allResults)).
Proof.
  apply NoDup_alt. intros i j prefix Hi Hj.
  rewrite list_lookup_fmap, list_lookup_imap in Hi, Hj.
  destruct (allResults !! i) as [pi |]; [| discriminate].
  destruct (allResults !! j) as [pj |]; [| discriminate].
  change (Some (idPrefix (Chat.notionPage i pi)) = Some prefix) in Hi.
  change (Some (idPrefix (Chat.notionPage j pj)) = Some prefix) in Hj.
  rewrite notionPage_idPrefix in Hi, Hj.
  injection Hi as <-. injection Hj as Hj.
  apply decimal_inj in Hj; lia.
Qed.

Lemma notionPage_content index page :
  extractTextContent (Chat.notionPage index page) = Chat.extractSimpleText page.
Proof.
  apply extractTextContent_content; [reflexivity |].
  unfold Chat.extractSimpleText.
  apply nonEmpty_app_r, nonEmpty_app_r, nonEmpty_app_r, nonEmpty_app_r.
  rewrite <- app_assoc. reflexivity.
Qed.

Lemma imap_chunkCounts (g : nat -> Notion.Page -> NotionPage) pages :
  (forall index page, extractTextContent (g index page) = Chat.extractSimpleText page) ->
  map (fun page => chunkCount (extractTextContent page)) (imap g pages)
  = map (fun page => chunkCount (Chat.extractSimpleText page)) pages.
Proof.
  revert g. induction pages as [| page pages IH]; intros g Hg; [reflexivity |].
  cbn [imap map]. rewrite Hg. f_equal. apply IH. intros index page'. apply Hg.
Qed.

(** X18: the indexing steps of the chat handler.  The page objects carry
    the ids [notion-page-0], [notion-page-1], ..., so whenever the steps run to
    their end the chunk ids are pairwise distinct and the map of vectors
    agrees with the chunks; each page gives at least one chunk, whose text is
    cut from the text that [extractSimpleText] made of the page. *)
Theorem Chat_indexed allResults w st :
  Chat.indexed allResults w = Some st ->
  allResults <> []
  /\ distinctIds st /\ inSync st /\ openai st = true
  /\ length (chunks st)
     = list_sum (map (fun page => chunkCount (Chat.extractSimpleText page))
                     allResults)
  /\ (length allResults <= length (chunks st))%nat.
Proof.
  unfold Chat.indexed. intros Hindexed.
  destruct allResults as [| page0 pages0] eqn:Hall; [discriminate |].
  rewrite <- Hall in *. assert (Hne : allResults <> []) by congruence.
  replace (length allResults =? 0)%nat with false in Hindexed
    by (rewrite Hall; reflexivity).
  set (st0 := processNotionData (Chat.pageTime w) (imap Chat.notionPage allResults)
                (initializeOpenAI newRAGSystem)) in *.
  assert (Hids : distinctIds st0)
    by (apply processNotionData_distinct, notionPage_NoDup).
  assert (Hsync : inSync st0) by apply processNotionData_inSync.
  pose proof (generateEmbeddings_inSync (Chat.embed w) st0 Hids Hsync) as Hsync'.
  pose proof (embedLoop_extends (Chat.embed w) (length (chunks st0)) 0 st0)
    as (Hsame & _ & _ & Hopen & _).
  change (embedLoop (length (chunks st0)) (Chat.embed w) 0 st0)
    with (generateEmbeddings (Chat.embed w) st0) in Hsame, Hopen.
  destruct (generateEmbeddings (Chat.embed w) st0) as [st' [|]];
    [| discriminate].
  injection Hindexed as <-. cbn [fst] in *.
  assert (Hlen : length (chunks st')
                 = list_sum (map (fun page => chunkCount (Chat.extractSimpleText page))
                                 allResults)).
  { rewrite <- (length_map id), Hsame, length_map.
    unfold st0. rewrite processNotionData_length. f_equal.
    apply imap_chunkCounts. apply notionPage_content. }
  split; [exact Hne |]. split; [unfold distinctIds; rewrite Hsame; exact Hids |].
  split; [exact Hsync' |]. split; [rewrite Hopen; reflexivity |].
  split; [exact Hlen |]. rewrite Hlen. clear.
  induction allResults as [| page pages IH]; [reflexivity |].
  cbn [length map].
  change (list_sum (?a :: ?l)) with (a + list_sum l)%nat.
  pose proof (chunkCount_pos (Chat.extractSimpleText page)). lia.
Qed.


End ChatFacts.

Lemma InitializeRag_POST_existing_witness :
  exists status,
    InitializeRag.POST (H := seoulHost) (H0 := plainLocale) 0
      (Some (js "sk")) (Some (js "secret")) (Some (js "db")) storedWorld
    = Some (InitializeRag.Success (Some (js "기존 RAG 데이터를 로드했습니다.")) status,
            InitializeRag.file storedWorld)
    /\ chunksCount status = 4%nat.
Proof.
  eexists. split.
  - apply (proj2 (proj2 (InitializeRag_POST_existing (H := seoulHost)
                           (H0 := plainLocale) 0 (Some (js "sk"))
                           (Some (js "secret")) (Some (js "db")) storedWorld))
             _ eq_refl eq_refl eq_refl eq_refl).
  - reflexivity.
Defined.

Lemma InitializeRag_POST_fresh_witness :
  exists file',
    InitializeRag.POST (H := seoulHost) (H0 := plainLocale) 1
      (Some (js "sk")) (Some (js "secret")) (Some (js "db")) freshWorld
    = Some (InitializeRag.Success
              (Some (js "RAG 시스템이 성공적으로 초기화되었습니다."))
              {| chunksCount := 1; embeddingsCount := 1; isReady := true |},
            file')
    /\ InitializeRag.GET file'
       = InitializeRag.Success None
           {| chunksCount := 1; embeddingsCount := 1; isReady := true |}.
Proof.
  destruct (proj2 (InitializeRag_POST_fresh (H := seoulHost) (H0 := plainLocale)
                     1 (Some (js "sk")) (Some (js "secret")) (Some (js "db"))
                     freshWorld [meetingPage] eq_refl eq_refl eq_refl
                     ltac:(discriminate) eq_refl 0%nat)
              ltac:(discriminate) constantApi_answersAll)
    as (file' & Hpost & Hget & _).
  exists file'. split; [exact Hpost | exact (Hget eq_refl)].
Defined.

Lemma Chat_indexed_witness :
  exists st,
    Chat.indexed (H := seoulHost) (H0 := plainLocale) [oldPage; meetingPage] chatWorld
    = Some st
    /\ distinctIds st /\ inSync st.
Proof.
  eexists. split; [vm_compute; reflexivity |].
  refine ((fun P => conj (proj1 (proj2 P)) (proj1 (proj2 (proj2 P))))
            (Chat_indexed (H := seoulHost) (H0 := plainLocale)
               [oldPage; meetingPage] chatWorld _ _)).
  vm_compute. reflexivity.
Defined.


(* ================================================================= *)
(** ** Dates written in a text *)

Lemma digitsExact_app n : forall ds tail,
  digits ds -> length ds = n -> digitsExact n (ds ++ tail) = Some (ds, tail).
Proof.
  induction n as [| n IH]; intros ds tail Hds Hlen.
  - destruct ds; [reflexivity | discriminate].
  - destruct ds as [| c ds]; [discriminate |].
    inversion Hds as [| ? ? Hc Hds']; subst.
    cbn [app digitsExact]. rewrite Hc, IH by (auto; cbn in Hlen; lia).
    reflexivity.
Qed.

Lemma digitsExact_short n : forall l r,
  (length l < n)%nat -> startsOffDigit r -> digitsExact n (l ++ r) = None.
Proof.
  induction n as [| n IH]; intros l r Hlen Hr; [lia |].
  destruct l as [| c l]; cbn [app digitsExact].
  - destruct r as [| c r]; [reflexivity |]. cbn in Hr. rewrite Hr. reflexivity.
  - destruct (isDigit c); [| reflexivity].
    rewrite IH by (auto; cbn in Hlen; lia). reflexivity.
Qed.

Lemma digitsExact_Some n : forall s ds rest,
  digitsExact n s = Some (ds, rest) ->
  s = ds ++ rest /\ length ds = n /\ digits ds.
Proof.
  induction n as [| n IH]; intros s ds rest Hs; cbn [digitsExact] in Hs.
  - injection Hs as <- <-. repeat split. constructor.
  - destruct s as [| c s]; [discriminate |].
    destruct (isDigit c) eqn:Hc; [| discriminate].
    destruct (digitsExact n s) as [[ds' rest'] |] eqn:Hrec; [| discriminate].
    injection Hs as <- <-. destruct (IH _ _ _ Hrec) as (-> & <- & Hds').
    repeat split. constructor; assumption.
Qed.

Lemma dropWhile_app (p : Z -> bool) seps rest :
  Forall (fun c => p c = true) seps ->
  match rest with [] => True | c :: _ => p c = false end ->
  dropWhile p (seps ++ rest) = rest.
Proof.
  intros Hseps Hrest. induction Hseps as [| c seps Hc _ IH]; cbn [app dropWhile].
  - destruct rest as [| c rest]; [reflexivity |]. cbn [dropWhile].
    rewrite Hrest. reflexivity.
  - rewrite Hc. exact IH.
Qed.

Lemma dropWhile_digit (p : Z -> bool) c s :
  p c = false -> dropWhile p (c :: s) = c :: s.
Proof. intros Hc. cbn [dropWhile]. rewrite Hc. reflexivity. Qed.

(** A separator of the localized pattern is no digit and no hyphen. *)
Lemma separator_facts c :
  isYearSep c = true \/ isMonthSep c = true \/ isDaySep c = true ->
  isDigit c = false /\ c <> 45.
Proof.
  unfold isYearSep, isMonthSep, isDaySep, isWhiteSpace, isDigit.
  change (js "년") with [45380]. change (js "월") with [50900].
  change (js "일") with [51068].
  intros Hsep.
  assert (Hcases : c = 45380 \/ c = 50900 \/ c = 51068 \/ c = 46
                   \/ (9 <= c <= 13) \/ c = 32 \/ 160 <= c).
  { destruct Hsep as [Hsep | [Hsep | Hsep]];
      repeat (apply orb_prop in Hsep; destruct Hsep as [Hsep | Hsep]);
      try (apply bool_decide_eq_true in Hsep; injection Hsep as ->; lia);
      try (apply andb_prop in Hsep; destruct Hsep); lia. }
  split; [| lia].
  destruct (Z.leb_spec 48 c), (Z.leb_spec c 57); try reflexivity; lia.
Qed.

Lemma digit_facts c :
  isDigit c = true ->
  isYearSep c = false /\ isMonthSep c = false /\ isDaySep c = false /\ c <> 45.
Proof.
  intros Hc.
  assert (Hnot : forall sep, sep c = true ->
                   (isYearSep c = true \/ isMonthSep c = true \/ isDaySep c = true) ->
                   False).
  { intros sep _ Hsep. apply separator_facts in Hsep. destruct Hsep. congruence. }
  assert (c <> 45).
  { intros ->. discriminate Hc. }
  destruct (isYearSep c) eqn:H1, (isMonthSep c) eqn:H2, (isDaySep c) eqn:H3;
    try (exfalso; apply (Hnot isDigit Hc); auto; fail).
  auto.
Qed.

Lemma startsOffDigit_digitFree s : digitFree s -> startsOffDigit s.
Proof. intros Hs. destruct Hs; [exact I | assumption]. Qed.

Lemma startsOffDigit_app l r :
  digitFree l -> startsOffDigit r -> startsOffDigit (l ++ r).
Proof. intros Hl Hr. destruct Hl; [exact Hr | assumption]. Qed.

(** A digit string of one or two digits at the head of a text, read by
    [\d{1,2}]: two digits are taken when there are two, one when a character
    that is no digit follows the first. *)
Lemma oneOrTwo_digits {A} (k : nat -> option A) ds tail (f : jsstring -> jsstring -> option A) :
  digits ds -> (1 <= length ds <= 2)%nat -> startsOffDigit tail ->
  (forall j, k j = match digitsExact j (ds ++ tail) with
                   | Some (x, rest) => f x rest
                   | None => None
                   end) ->
  f ds tail <> None ->
  orTry (k 2%nat) (k 1%nat) = f ds tail.
Proof.
  intros Hds Hlen Htail Hk Hf. rewrite !Hk.
  destruct (decide (length ds = 2%nat)) as [H2 | H2].
  - rewrite (digitsExact_app 2) by assumption.
    destruct (f ds tail); [reflexivity | congruence].
  - rewrite (digitsExact_short 2) by (auto; lia).
    rewrite (digitsExact_app 1) by (auto; lia).
    reflexivity.
Qed.

(** The localized pattern at the head of a date written with separators. *)
Lemma matchKoreanDate_localized ys s1 ms s2 ds post :
  digits ys -> length ys = 4%nat ->
  digits ms -> (1 <= length ms <= 2)%nat ->
  digits ds -> (1 <= length ds <= 2)%nat ->
  Forall (fun c => isYearSep c = true) s1 ->
  Forall (fun c => isMonthSep c = true) s2 ->
  s2 <> [] \/ length ms = 2%nat ->
  startsOffDigit post ->
  matchKoreanDate (ys ++ s1 ++ ms ++ s2 ++ ds ++ post)
  = Some (parseInt ys, parseInt ms, parseInt ds, dropWhile isDaySep post).
Proof.
  intros Hys Hlys Hms Hlms Hds Hlds Hs1 Hs2 Hsep Hpost.
  unfold matchKoreanDate. rewrite (digitsExact_app 4) by assumption.
  assert (Hm0 : exists m0 ms', ms = m0 :: ms' /\ isDigit m0 = true).
  { destruct Hms as [| m0 ms' Hm0 _]; [cbn in Hlms; lia | eauto]. }
  destruct Hm0 as (m0 & ms' & Hms0 & Hm0).
  assert (Hd0 : exists d0 ds', ds = d0 :: ds' /\ isDigit d0 = true).
  { destruct Hds as [| d0 ds' Hd0 _]; [cbn in Hlds; lia | eauto]. }
  destruct Hd0 as (d0 & ds' & Hds0 & Hd0).
  rewrite (dropWhile_app isYearSep s1)
    by (auto; rewrite Hms0; cbn [app]; apply digit_facts; exact Hm0).
  assert (Hday :
    (let day (j : nat) :=
       match digitsExact j (ds ++ post) with
       | Some (x, s5) =>
         Some (parseInt ys, parseInt ms, parseInt x, dropWhile isDaySep s5)
       | None => None
       end in
     orTry (day 2%nat) (day 1%nat))
    = Some (parseInt ys, parseInt ms, parseInt ds, dropWhile isDaySep post)).
  { cbv zeta.
    apply (oneOrTwo_digits _ ds post
             (fun x s5 => Some (parseInt ys, parseInt ms, parseInt x,
                                dropWhile isDaySep s5)));
      auto; discriminate. }
  assert (Htail : startsOffDigit (s2 ++ ds ++ post) \/ length ms = 2%nat).
  { destruct Hsep as [Hne | H2]; [left | right; exact H2].
    destruct Hs2 as [| c s2' Hc _]; [congruence |]. cbn [app startsOffDigit].
    apply (separator_facts c). auto. }
  assert (Hs4 : dropWhile isMonthSep (s2 ++ ds ++ post) = ds ++ post).
  { apply dropWhile_app; [exact Hs2 |]. rewrite Hds0. cbn [app].
    apply digit_facts. exact Hd0. }
  destruct (decide (length ms = 2%nat)) as [H2 | H2].
  - rewrite (digitsExact_app 2) by assumption. rewrite Hs4.
    cbv zeta in Hday. rewrite Hday. reflexivity.
  - destruct Htail as [Htail | ?]; [| congruence].
    rewrite (digitsExact_short 2) by (auto; lia).
    rewrite (digitsExact_app 1) by (auto; lia). rewrite Hs4.
    cbv zeta in Hday. cbn [orTry]. exact Hday.
Qed.

Lemma execAll_hit_rest {A} (re : jsstring -> option (A * jsstring)) c l v rest :
  re (c :: l ++ rest) = Some (v, rest) ->
  execAll re (c :: l ++ rest) 0 = v :: execAll re rest 0.
Proof.
  intros Hre. rewrite (execAll_hit re c (l ++ rest) v rest Hre).
  rewrite length_app. replace (length l + length rest - length rest)%nat
    with (length l) by lia.
  rewrite execAll_skip. reflexivity.
Qed.

(** Where the ISO pattern matches, the fifth character is a hyphen and the
    sixth a digit. *)
Lemma matchIsoDate_shape s v :
  matchIsoDate s = Some v ->
  exists ys b rest, s = ys ++ 45 :: b :: rest /\ length ys = 4%nat /\ isDigit b = true.
Proof.
  unfold matchIsoDate. intros Hs.
  destruct (digitsExact 4 s) as [[ys [| c s1]] |] eqn:Hys; try discriminate.
  destruct (Z.eqb_spec c 45) as [-> | Hc].
  2:{ destruct c as [| [p | p |] |]; try discriminate;
      repeat (destruct p as [p | p |]; try discriminate); congruence. }
  destruct (digitsExact 2 s1) as [[ms rest1] |] eqn:Hms.
  2:{ discriminate. }
  destruct (digitsExact_Some _ _ _ _ Hys) as (-> & Hlen & _).
  destruct (digitsExact_Some _ _ _ _ Hms) as (-> & Hlen2 & Hdigits).
  destruct Hdigits as [| b ms' Hb _]; [discriminate |].
  exists ys, b, (ms' ++ rest1). repeat split; auto.
Qed.

Lemma no_hyphen_digit core post :
  Forall (fun c => c <> 45) core -> digitFree post ->
  forall ys b rest,
    core ++ post = ys ++ 45 :: b :: rest -> isDigit b = true -> False.
Proof.
  intros Hcore Hpost. induction Hcore as [| x core Hx _ IH]; intros ys b rest Heq Hb.
  - cbn [app] in Heq. subst post.
    apply Forall_app in Hpost. destruct Hpost as [_ Hpost].
    inversion Hpost as [| ? ? _ Hpost']; subst.
    inversion Hpost' as [| ? ? Hb' _]; subst. congruence.
  - destruct ys as [| y ys]; cbn [app] in Heq.
    + injection Heq as Heq _. congruence.
    + injection Heq as _ Heq. eapply IH; eassumption.
Qed.

(** The ISO pattern finds nothing in a text made of characters other than
    the hyphen followed by a text without digits. *)
Lemma execAll_iso_none core post :
  Forall (fun c => c <> 45) core -> digitFree post ->
  execAll matchIsoDate (core ++ post) 0 = [].
Proof.
  intros Hcore Hpost. induction core as [| c core IH].
  - apply (execAll_no_digit _ matchIsoDate_no_digit). exact Hpost.
  - cbn [app]. rewrite execAll_miss.
    + apply IH. inversion Hcore. assumption.
    + destruct (matchIsoDate (c :: core ++ post)) as [v |] eqn:Hmatch;
        [| reflexivity].
      exfalso. apply matchIsoDate_shape in Hmatch.
      destruct Hmatch as (ys & b & rest & Heq & _ & Hb).
      exact (no_hyphen_digit (c :: core) post Hcore Hpost ys b rest Heq Hb).
Qed.

Section DatesInText.
Context `{Host}.

(** X20: a date written in the localized form is found by the first loop
    of [extractDatesFromChunk].  In a text that has, after a part without
    digits, a year of four digits, a month and a day of one or two digits,
    separated by runs of the characters the pattern allows (the year and month
    signs, the full stop, white space), and then no digit at once, the
    localized pattern matches there, reads these three numbers, and the scan
    goes on behind the day and its separators.  When no digit follows at all,
    the ISO pattern finds nothing and the dates of the text are the one date,
    if its numbers pass the range test. *)
Theorem localized_date_found pre ys s1 ms s2 ds post :
  digitFree pre ->
  digits ys -> length ys = 4%nat ->
  digits ms -> (1 <= length ms <= 2)%nat ->
  digits ds -> (1 <= length ds <= 2)%nat ->
  Forall (fun c => isYearSep c = true) s1 ->
  Forall (fun c => isMonthSep c = true) s2 ->
  s2 <> [] \/ length ms = 2%nat ->
  startsOffDigit post ->
  let text := pre ++ ys ++ s1 ++ ms ++ s2 ++ ds ++ post in
  let found := (parseInt ys, parseInt ms, parseInt ds) in
  execAll matchKoreanDate text 0
  = found :: execAll matchKoreanDate (dropWhile isDaySep post) 0
  /\ (digitFree post ->
      execAll matchIsoDate text 0 = []
      /\ textDates text = match acceptDate found with
                          | Some date => [date]
                          | None => []
                          end).
Proof.
  intros Hpre Hys Hlys Hms Hlms Hds Hlds Hs1 Hs2 Hsep Hpost text found.
  assert (Hscan : execAll matchKoreanDate text 0
                  = found :: execAll matchKoreanDate (dropWhile isDaySep post) 0).
  { unfold text.
    rewrite (execAll_no_digit_prefix _ matchKoreanDate_no_digit) by exact Hpre.
    pose proof (matchKoreanDate_localized ys s1 ms s2 ds post Hys Hlys Hms Hlms
                  Hds Hlds Hs1 Hs2 Hsep Hpost) as Hmatch.
    destruct (dropWhile_suffix isDaySep post) as (seps & Hseps & _).
    destruct ys as [| y ys']; [discriminate |].
    set (rest := dropWhile isDaySep post) in *.
    assert (Heq : (y :: ys') ++ s1 ++ ms ++ s2 ++ ds ++ post
                  = y :: (ys' ++ s1 ++ ms ++ s2 ++ ds ++ seps) ++ rest).
    { rewrite Hseps at 1. cbn [app]. rewrite <- !app_assoc. reflexivity. }
    rewrite Heq in *. apply execAll_hit_rest. exact Hmatch. }
  split; [exact Hscan |]. intros Hfree.
  assert (Hiso : execAll matchIsoDate text 0 = []).
  { unfold text.
    rewrite (execAll_no_digit_prefix _ matchIsoDate_no_digit) by exact Hpre.
    rewrite !app_assoc. rewrite <- !app_assoc.
    replace (ys ++ s1 ++ ms ++ s2 ++ ds ++ post)
      with ((ys ++ s1 ++ ms ++ s2 ++ ds) ++ post)
      by (rewrite <- !app_assoc; reflexivity).
    apply execAll_iso_none; [| exact Hfree].
    repeat apply Forall_app_2;
      try (eapply Forall_impl; [eassumption |]; cbv beta; intros c Hc;
           first [ apply digit_facts; exact Hc
                 | apply (separator_facts c); auto ]). }
  split; [exact Hiso |].
  unfold textDates. rewrite Hscan, Hiso, app_nil_r.
  assert (Hrest : execAll matchKoreanDate (dropWhile isDaySep post) 0 = []).
  { apply (execAll_no_digit _ matchKoreanDate_no_digit).
    destruct (dropWhile_suffix isDaySep post) as (seps & Hseps & _).
    unfold digitFree in Hfree. rewrite Hseps in Hfree.
    apply Forall_app in Hfree. apply Hfree. }
  rewrite Hrest. cbn [omap list_omap]. destruct (acceptDate found); reflexivity.
Qed.
End DatesInText.

Section IsoDatesInText.
Context `{Host}.

Lemma matchKoreanDate_short l r :
  (length l < 4)%nat -> startsOffDigit r -> matchKoreanDate (l ++ r) = None.
Proof.
  intros Hl Hr. unfold matchKoreanDate.
  rewrite (digitsExact_short 4) by assumption. reflexivity.
Qed.

Lemma matchKoreanDate_hyphen ys tail :
  digits ys -> length ys = 4%nat -> matchKoreanDate (ys ++ 45 :: tail) = None.
Proof.
  intros Hys Hlen. unfold matchKoreanDate.
  rewrite (digitsExact_app 4) by assumption.
  rewrite dropWhile_digit by reflexivity. reflexivity.
Qed.

(** The localized pattern finds nothing in an ISO date that is followed by
    no digit. *)
Lemma execAll_korean_iso ys ms ds post :
  digits ys -> length ys = 4%nat ->
  length ms = 2%nat -> length ds = 2%nat ->
  startsOffDigit post ->
  execAll matchKoreanDate (ys ++ 45 :: ms ++ 45 :: ds ++ post) 0
  = execAll matchKoreanDate post 0.
Proof.
  intros Hys Hlys Hlms Hlds Hpost.
  destruct ys as [| y1 [| y2 [| y3 [| y4 [| ? ?]]]]]; try discriminate.
  destruct ms as [| m1 [| m2 [| ? ?]]]; try discriminate.
  destruct ds as [| d1 [| d2 [| ? ?]]]; try discriminate.
  cbn [app].
  rewrite execAll_miss
    by (apply (matchKoreanDate_hyphen [y1; y2; y3; y4]); auto).
  rewrite execAll_miss
    by (apply (matchKoreanDate_short [y2; y3; y4]); [cbn; lia | reflexivity]).
  rewrite execAll_miss
    by (apply (matchKoreanDate_short [y3; y4]); [cbn; lia | reflexivity]).
  rewrite execAll_miss
    by (apply (matchKoreanDate_short [y4]); [cbn; lia | reflexivity]).
  rewrite execAll_miss by (apply matchKoreanDate_no_digit; reflexivity).
  rewrite execAll_miss
    by (apply (matchKoreanDate_short [m1; m2]); [cbn; lia | reflexivity]).
  rewrite execAll_miss
    by (apply (matchKoreanDate_short [m2]); [cbn; lia | reflexivity]).
  rewrite execAll_miss by (apply matchKoreanDate_no_digit; reflexivity).
  rewrite execAll_miss
    by (apply (matchKoreanDate_short [d1; d2]); [cbn; lia | exact Hpost]).
  rewrite execAll_miss
    by (apply (matchKoreanDate_short [d2]); [cbn; lia | exact Hpost]).
  reflexivity.
Qed.

Lemma matchIsoDate_iso ys ms ds post :
  digits ys -> length ys = 4%nat ->
  digits ms -> length ms = 2%nat ->
  digits ds -> length ds = 2%nat ->
  matchIsoDate (ys ++ 45 :: ms ++ 45 :: ds ++ post)
  = Some (parseInt ys, parseInt ms, parseInt ds, post).
Proof.
  intros Hys Hlys Hms Hlms Hds Hlds. unfold matchIsoDate.
  rewrite (digitsExact_app 4) by assumption.
  rewrite (digitsExact_app 2) by assumption.
  rewrite (digitsExact_app 2) by assumption. reflexivity.
Qed.

(** X21: a date written in the ISO form is found by the second loop of
    [extractDatesFromChunk], and only by it.  In a text that has, after a part
    without digits, four digits, a hyphen, two digits, a hyphen and two
    digits, the ISO pattern matches there, reads the three numbers and goes on
    behind the last digit; the localized pattern finds nothing in the date
    when no digit follows it.  When no digit follows at all, the dates of the
    text are the one date, if its numbers pass the range test. *)
Theorem iso_date_found pre ys ms ds post :
  digitFree pre ->
  digits ys -> length ys = 4%nat ->
  digits ms -> length ms = 2%nat ->
  digits ds -> length ds = 2%nat ->
  let text := pre ++ ys ++ js "-" ++ ms ++ js "-" ++ ds ++ post in
  let found := (parseInt ys, parseInt ms, parseInt ds) in
  execAll matchIsoDate text 0 = found :: execAll matchIsoDate post 0
  /\ (startsOffDigit post ->
      execAll matchKoreanDate text 0 = execAll matchKoreanDate post 0)
  /\ (digitFree post ->
      textDates text = match acceptDate found with
                       | Some date => [date]
                       | None => []
                       end).
Proof.
  intros Hpre Hys Hlys Hms Hlms Hds Hlds text found.
  change (js "-") with [45] in text. cbn [app] in text.
  assert (Hiso : execAll matchIsoDate text 0 = found :: execAll matchIsoDate post 0).
  { unfold text.
    rewrite (execAll_no_digit_prefix _ matchIsoDate_no_digit) by exact Hpre.
    pose proof (matchIsoDate_iso ys ms ds post Hys Hlys Hms Hlms Hds Hlds) as Hmatch.
    destruct ys as [| y ys']; [discriminate |].
    assert (Heq : (y :: ys') ++ 45 :: ms ++ 45 :: ds ++ post
                  = y :: (ys' ++ 45 :: ms ++ 45 :: ds) ++ post).
    { cbn [app]. rewrite <- !app_assoc. cbn [app].
      rewrite <- !app_assoc. reflexivity. }
    rewrite Heq in *. apply execAll_hit_rest. exact Hmatch. }
  assert (Hkorean : startsOffDigit post ->
                    execAll matchKoreanDate text 0 = execAll matchKoreanDate post 0).
  { intros Hpost. unfold text.
    rewrite (execAll_no_digit_prefix _ matchKoreanDate_no_digit) by exact Hpre.
    apply execAll_korean_iso; assumption. }
  split; [exact Hiso |]. split; [exact Hkorean |]. intros Hfree.
  unfold textDates.
  rewrite Hiso, (Hkorean (startsOffDigit_digitFree _ Hfree)).
  rewrite (execAll_no_digit _ matchKoreanDate_no_digit) by exact Hfree.
  rewrite (execAll_no_digit _ matchIsoDate_no_digit) by exact Hfree.
  cbn [omap list_omap app]. destruct (acceptDate found); reflexivity.
Qed.
End IsoDatesInText.

Ltac by_evaluation :=
  first [ apply (bool_decide_unpack _); vm_compute; exact I
        | vm_compute; lia
        | reflexivity ].

Lemma localized_date_found_witness :
  textDates (H := seoulHost) (js "일정: 2026년 11월 3일 회의")
  = [newDate (H := seoulHost) 2026 10 3].
Proof.
  pose proof (localized_date_found (H := seoulHost)
                (js "일정: ") (js "2026") (js "년 ") (js "11") (js "월 ") (js "3")
                (js "일 회의")
                ltac:(by_evaluation) ltac:(by_evaluation) ltac:(by_evaluation)
                ltac:(by_evaluation) ltac:(by_evaluation) ltac:(by_evaluation)
                ltac:(by_evaluation) ltac:(by_evaluation) ltac:(by_evaluation)
                ltac:(left; discriminate) ltac:(by_evaluation)) as [_ Hrest].
  destruct (Hrest ltac:(by_evaluation)) as [_ Hdates].
  vm_compute in Hdates. vm_compute. exact Hdates.
Defined.

Lemma iso_date_found_witness :
  textDates (H := seoulHost) (js "마감 2026-11-03 회의")
  = [newDate (H := seoulHost) 2026 10 3].
Proof.
  pose proof (iso_date_found (H := seoulHost)
                (js "마감 ") (js "2026") (js "11") (js "03") (js " 회의")
                ltac:(by_evaluation) ltac:(by_evaluation) ltac:(by_evaluation)
                ltac:(by_evaluation) ltac:(by_evaluation) ltac:(by_evaluation)
                ltac:(by_evaluation)) as (_ & _ & Hrest).
  pose proof (Hrest ltac:(by_evaluation)) as Hdates.
  vm_compute in Hdates. vm_compute. exact Hdates.
Defined.

(* ================================================================= *)
(** ** The query loop of the handlers *)

Lemma queryAll_chained query responses : forall cursor acc extra,
  Notion.chained query cursor responses ->
  Notion.queryAll (length responses + extra) query cursor acc
  = Some (Resolved (acc ++ concat (map Notion.results responses))).
Proof.
  induction responses as [| response rest IH]; intros cursor acc extra Hchain;
    [destruct Hchain |].
  destruct Hchain as [Hquery Hrest].
  cbn [length Nat.add Notion.queryAll map concat]. rewrite Hquery.
  destruct rest as [| response' rest'].
  - rewrite Hrest. cbn [map concat]. rewrite app_nil_r. reflexivity.
  - destruct Hrest as [Hmore Hchain]. rewrite Hmore.
    rewrite (IH _ _ _ Hchain). rewrite <- app_assoc. reflexivity.
Qed.

Lemma queryAll_short query responses : forall cursor acc fuel,
  Notion.chained query cursor responses ->
  (fuel < length responses)%nat ->
  Notion.queryAll fuel query cursor acc = None.
Proof.
  induction responses as [| response rest IH]; intros cursor acc fuel Hchain Hfuel;
    [destruct Hchain |].
  destruct fuel as [| fuel]; [reflexivity |].
  destruct Hchain as [Hquery Hrest]. cbn [Notion.queryAll]. rewrite Hquery.
  destruct rest as [| response' rest']; [cbn in Hfuel; lia |].
  destruct Hrest as [Hmore Hchain]. rewrite Hmore.
  apply IH; [exact Hchain | cbn [length] in *; lia].
Qed.

(** X22: the query loop that the three handlers share.  Along a chain of
    answers, each leading to the next by its cursor and the last one saying
    that nothing is left, the loop makes one call for each answer and returns
    the pages of all answers in order.  A rejected call ends the loop with the
    error, whatever was collected before.  When an answer says that more is
    left and leads back to the cursor it was asked with (an answer without
    [next_cursor] to the first call does), the loop never ends. *)
Theorem queryAll_collects query :
  (forall responses,
      Notion.chained query None responses ->
      (forall extra,
          Notion.queryAll (length responses + extra) query None []
          = Some (Resolved (concat (map Notion.results responses))))
      /\ (forall fuel, (fuel < length responses)%nat ->
                       Notion.queryAll fuel query None [] = None))
  /\ (forall cursor e acc fuel,
        query cursor = Rejected e ->
        Notion.queryAll (S fuel) query cursor acc = Some (Rejected e))
  /\ (forall cursor response,
        query cursor = Resolved response ->
        Notion.has_more response = true ->
        present (Notion.next_cursor response) = cursor ->
        forall fuel acc, Notion.queryAll fuel query cursor acc = None).
Proof.
  split; [| split].
  - intros responses Hchain. split.
    + intros extra. apply (queryAll_chained query responses None [] extra Hchain).
    + intros fuel Hfuel. eapply queryAll_short; eassumption.
  - intros cursor e acc fuel Hquery. cbn [Notion.queryAll]. rewrite Hquery.
    reflexivity.
  - intros cursor response Hquery Hmore Hback fuel.
    induction fuel as [| fuel IH]; intros acc; [reflexivity |].
    cbn [Notion.queryAll]. rewrite Hquery, Hmore, Hback. apply IH.
Qed.

Lemma queryAll_collects_witness :
  Notion.queryAll 2 twoAnswers None [] = Some (Resolved [meetingPage; oldPage])
  /\ Notion.queryAll 1 twoAnswers None [] = None
  /\ Notion.queryAll 1 (oneAnswer [meetingPage; oldPage]) None []
     = Some (Resolved [meetingPage; oldPage]).
Proof.
  assert (Htwo : Notion.chained twoAnswers None [firstAnswer; lastAnswer]).
  { split; [reflexivity |]. split; [reflexivity |].
    split; reflexivity. }
  destruct (proj1 (queryAll_collects twoAnswers) [firstAnswer; lastAnswer] Htwo)
    as [Hall Hshort].
  split; [exact (Hall 0%nat) |]. split; [apply Hshort; cbn; lia |].
  apply (proj1 (proj1 (queryAll_collects (oneAnswer [meetingPage; oldPage]))
                  [ {| Notion.results := [meetingPage; oldPage];
                       Notion.has_more := false;
                       Notion.next_cursor := None |} ]
                  (conj eq_refl eq_refl)) 0%nat).
Defined.
